(** * BIP enumerator (ex7, bip.c): a shallow embedding and its properties

    The development follows [bip.c]: the [binary_program] structure, the
    overflow guard [bip_can_overflow], the preprocessor [bip_preprocess], the
    line reader [process_line] / [bip_read], the feasibility test
    [check_feasibility] and the Gray-code enumerator [bip_enumerate].

    Conventions of the embedding.
    - [int] and [long] values are [Z]; [unsigned int] values are [Z] in
      [0, 2^32) with the wrap-around written out by [u32].
    - The fixed-size C arrays ([ar], [ac], [rhs], ...) are total functions
      from indices; a store [a[i] = v] is [upd a i v].
    - The type of the [double] fields is a parameter of [binary_program].
      [BIP] takes the rationals ([Q]): a [double] is the rational it
      denotes, and an operation of the code that rounds is followed by
      [fl], the rounding of a rational to the nearest binary64 number
      (ties to even, subnormal numbers included; the overflow to an
      infinity is left out, the values of the program staying far below
      it).  [Qeq_bool], [Qle_bool] and [Qlt_bool] stand for the C
      comparisons [==], [<=] and [<], which are exact.  NaN and the
      infinities only appear where the code tests for them (the result of
      [strtod]).  The conversion [(int)val] truncates, and gives [INT_MIN]
      outside the range of [int], as the conversion instruction of x86-64
      does (the C standard leaves that case undefined).
    - [check_feasibility], [bip_is_feasible] and [bip_enumerate] are
      written over an [arith]metic, with three instances: [exact] (the
      rationals, without rounding), [rounded] (the rationals with [fl]
      after each sum and difference: the arithmetic of the code) and
      [binary64] (Rocq's primitive IEEE 754 binary64 numbers).
    - Output through [printf] is dropped, except where a property is about
      it: the row named by the overflow diagnostic, the calls of the
      [report_sol] callback, and the line [report_sol] of [ex7.c] prints.

    Part I holds the definitions, Part II the properties C1 to C10 of the
    enumerator, the preprocessor, the overflow guard and the reader,
    Part III the further properties X1 to X29, among them those of the
    consistency check [bip_is_valid], which the functions of [bip.c]
    assert, and of [lfs_split_line]; X30, on the faulty lines of the
    input, stands with the reader in Part II. *)

From Stdlib Require Import String Ascii ZArith List Bool Lia.
From Stdlib Require Import QArith Qabs Qround Qpower Lqa Floats.
From Stdlib Require Import Permutation.
Import ListNotations.
Open Scope Z_scope.

(* ================================================================== *)
(** * Part I: definitions *)
(* ================================================================== *)

(** ** Machine integers and arrays *)

Definition u32 (z : Z) : Z := z mod 2 ^ 32.

Definition upd {A : Type} (a : nat -> A) (i : nat) (v : A) : nat -> A :=
  fun j => if Nat.eqb j i then v else a j.

Definition upd2 {A : Type} (a : nat -> nat -> A) (i j : nat) (v : A)
  : nat -> nat -> A :=
  fun i' j' => if (Nat.eqb i' i && Nat.eqb j' j)%bool then v else a i' j'.

(** [for (k = 0; k < n; k++) body], with the loop body as a state
    transformer. *)
Definition for_n {S : Type} (n : nat) (body : nat -> S -> S) (s : S) : S :=
  fold_left (fun acc k => body k acc) (seq 0 n) s.

Definition Qlt_bool (a b : Q) : bool := negb (Qle_bool b a).

(** ** The data structure *)

Inductive Sense : Type := LE | GE | EQ.

Definition Sense_eqb (a b : Sense) : bool :=
  match a, b with
  | LE, LE | GE, GE | EQ, EQ => true
  | _, _ => false
  end.

Definition BIP_MAX_COLS : Z := 32.
Definition BIP_MAX_ROWS : Z := 128.
Definition DEBRUIJN32 : Z := 0x077CB531.

Inductive LINE_MODE : Type := READ_ERROR | READ_COLS | READ_ROWS | READ_COEF.

Record binary_program {T : Type} : Type := mkBIP {
  rows : Z;
  cols : Z;
  ar : nat -> nat -> T;        (* ar[r][c], row wise *)
  rhs : nat -> T;
  sense : nat -> Sense;
  equs : Z;
  ac : nat -> nat -> T;        (* ac[c][r], column wise *)
  rhs_ord : nat -> T;
  min_coef_val : T;
  max_coef_val : T;
  verb_level : Z;
  read_rows : Z
}.
Arguments binary_program : clear implicits.
Arguments mkBIP {T}.

(** The structure over the rationals. *)
Definition BIP : Type := binary_program Q.

Definition set_rows (b : BIP) (v : Z) : BIP :=
  mkBIP v (cols b) (ar b) (rhs b) (sense b) (equs b) (ac b) (rhs_ord b)
        (min_coef_val b) (max_coef_val b) (verb_level b) (read_rows b).
Definition set_cols (b : BIP) (v : Z) : BIP :=
  mkBIP (rows b) v (ar b) (rhs b) (sense b) (equs b) (ac b) (rhs_ord b)
        (min_coef_val b) (max_coef_val b) (verb_level b) (read_rows b).
Definition set_ar (b : BIP) (v : nat -> nat -> Q) : BIP :=
  mkBIP (rows b) (cols b) v (rhs b) (sense b) (equs b) (ac b) (rhs_ord b)
        (min_coef_val b) (max_coef_val b) (verb_level b) (read_rows b).
Definition set_rhs (b : BIP) (v : nat -> Q) : BIP :=
  mkBIP (rows b) (cols b) (ar b) v (sense b) (equs b) (ac b) (rhs_ord b)
        (min_coef_val b) (max_coef_val b) (verb_level b) (read_rows b).
Definition set_sense (b : BIP) (v : nat -> Sense) : BIP :=
  mkBIP (rows b) (cols b) (ar b) (rhs b) v (equs b) (ac b) (rhs_ord b)
        (min_coef_val b) (max_coef_val b) (verb_level b) (read_rows b).
Definition set_equs (b : BIP) (v : Z) : BIP :=
  mkBIP (rows b) (cols b) (ar b) (rhs b) (sense b) v (ac b) (rhs_ord b)
        (min_coef_val b) (max_coef_val b) (verb_level b) (read_rows b).
Definition set_ac (b : BIP) (v : nat -> nat -> Q) : BIP :=
  mkBIP (rows b) (cols b) (ar b) (rhs b) (sense b) (equs b) v (rhs_ord b)
        (min_coef_val b) (max_coef_val b) (verb_level b) (read_rows b).
Definition set_rhs_ord (b : BIP) (v : nat -> Q) : BIP :=
  mkBIP (rows b) (cols b) (ar b) (rhs b) (sense b) (equs b) (ac b) v
        (min_coef_val b) (max_coef_val b) (verb_level b) (read_rows b).
Definition set_read_rows (b : BIP) (v : Z) : BIP :=
  mkBIP (rows b) (cols b) (ar b) (rhs b) (sense b) (equs b) (ac b) (rhs_ord b)
        (min_coef_val b) (max_coef_val b) (verb_level b) v.

(** ** The arithmetic of the residuals *)

(** What [check_feasibility], [bip_enumerate] and [bip_is_feasible] do with
    [double] values: the constant [0.0], [+], [-], unary [-], [==], [<=],
    [<], [fabs] and the tolerance [1e-6]. *)
Record arith {T : Type} : Type := mkArith {
  a_zero : T;
  a_add : T -> T -> T;
  a_sub : T -> T -> T;
  a_opp : T -> T;
  a_eqb : T -> T -> bool;
  a_leb : T -> T -> bool;
  a_ltb : T -> T -> bool;
  a_abs : T -> T;
  a_tolerance : T
}.
Arguments arith : clear implicits.
Arguments mkArith {T}.

(** Exact arithmetic, without rounding: what the program computes as long
    as every sum and difference is a [double], and the reference the
    rounded runs are compared with. *)
Definition exact : arith Q :=
  mkArith 0%Q Qplus Qminus Qopp Qeq_bool Qle_bool Qlt_bool Qabs
          (1 # 1000000)%Q.

(** IEEE 754 binary64, round to nearest even: the C [double]. *)
Definition binary64 : arith float :=
  mkArith 0%float PrimFloat.add PrimFloat.sub PrimFloat.opp
          PrimFloat.eqb PrimFloat.leb PrimFloat.ltb PrimFloat.abs
          (1 / 1000000)%float.

(** *** The [double] operations on rational numbers

    Every finite [double] is a rational number, and the sum, difference
    or product of two of them is, in the C program, the exact result
    rounded to the nearest [double], ties going to the even mantissa.  [fl] is that
    rounding: 53 bits of precision, least exponent -1074.  A result of
    [2^1024] or more is an infinity in C and a rational number here; the
    reader admits no number beyond [max_coef_val] in magnitude, so the
    sums of the overflow guard stay far below. *)

Definition pow2 (k : Z) : Q := (2 ^ k)%Q.

(** The integral part of the binary logarithm of [q > 0]. *)
Definition Qlog2 (q : Q) : Z :=
  let k := Z.log2 (Qnum q) - Z.log2 (Zpos (Qden q)) in
  if Qle_bool (pow2 k) q then k else k - 1.

(** The nearest integer, the even one of two nearest. *)
Definition round_even (q : Q) : Z :=
  let f := Qfloor q in
  match Qcompare (q - inject_Z f) (1 # 2) with
  | Lt => f
  | Gt => f + 1
  | Eq => if Z.even f then f else f + 1
  end.

(** The exponent of the unit in the last place of the [double]s next to
    [q]. *)
Definition ulp_exponent (q : Q) : Z := Z.max (Qlog2 (Qabs q) - 52) (-1074).

Definition fl (q : Q) : Q :=
  let q := Qred q in
  if Qeq_bool q 0 then 0%Q
  else
    let e := ulp_exponent q in
    Qred (inject_Z (round_even (q / pow2 e)) * pow2 e).

(** The arithmetic of the C program: [+] and [-] round, the other
    operations are exact on [double]s. *)
Definition rounded : arith Q :=
  mkArith 0%Q (fun x y => fl (x + y)) (fun x y => fl (x - y)) Qopp
          Qeq_bool Qle_bool Qlt_bool Qabs (fl (1 # 1000000)).

(** ** [bip_is_feasible] *)

(** The inner loop: [lhs] of row [r] under [x], with the running [bit]. *)
Definition row_lhs {T : Type} (A : arith T) (bip : binary_program T) (x : Z)
           (r : nat) : T :=
  snd (for_n (Z.to_nat (cols bip))
             (fun c st =>
                let '(bit, lhs) := st in
                (u32 (bit + bit),
                 if negb (Z.land x bit =? 0) then a_add A lhs (ar bip r c)
                 else lhs))
             (1, a_zero A)).

(** The condition of the [break]. *)
Definition row_violated {T : Type} (A : arith T) (bip : binary_program T)
           (x : Z) (r : nat) : bool :=
  let lhs := row_lhs A bip x r in
  ((Sense_eqb (sense bip r) EQ
    && a_ltb A (a_tolerance A) (a_abs A (a_sub A lhs (rhs bip r))))
   || (Sense_eqb (sense bip r) LE && a_ltb A (rhs bip r) lhs)
   || (Sense_eqb (sense bip r) GE && a_ltb A lhs (rhs bip r)))%bool.

(** The loop over the rows [rs] still to come; it ends at the first
    violated row, and the result is [r == bip->rows]. *)
Fixpoint feasible_rows {T : Type} (A : arith T) (bip : binary_program T)
         (x : Z) (rs : list nat) : bool :=
  match rs with
  | [] => true
  | r :: rs' =>
      if row_violated A bip x r then false else feasible_rows A bip x rs'
  end.

(** The check of a vector against the rows as they were read, which
    [check_feasibility] asserts for every vector it reports. *)
Definition bip_is_feasible {T : Type} (A : arith T) (bip : binary_program T)
           (x : Z) : bool :=
  feasible_rows A bip x (seq 0 (Z.to_nat (rows bip))).

(** ** [check_feasibility] *)

(** The two scanning loops of [check_feasibility] have the shape
    [for (; (k < bound) && test(r[k]); k++) ;].  [scan_fuel] runs such a loop
    from [k]; its second result lists the indices [k] whose residual was
    read, in order.  The fuel is the loop variant [bound - k], see
    [scan_unfold]. *)
Fixpoint scan_fuel {T : Type} (test : T -> bool) (bound : Z) (r : nat -> T)
         (fuel : nat) (k : Z) (seen : list Z) : Z * list Z :=
  match fuel with
  | O => (k, seen)
  | S fuel' =>
      if k <? bound then
        if test (r (Z.to_nat k))
        then scan_fuel test bound r fuel' (k + 1) (seen ++ [k])
        else (k, seen ++ [k])
      else (k, seen)
  end.

Definition scan {T : Type} (test : T -> bool) (bound : Z) (r : nat -> T)
           (k : Z) (seen : list Z) : Z * list Z :=
  scan_fuel test bound r (Z.to_nat (bound - k)) k seen.

(** Result of one call: the returned [int], the contents of the two objects
    the callee received by pointer ([bip] and [r]) when it returns, the
    residual indices it read, and the arguments of its [report_sol] calls. *)
Record cf_result {T : Type} : Type := mkCF {
  cf_ret : Z;
  cf_bip : binary_program T;
  cf_r : nat -> T;
  cf_examined : list Z;
  cf_reported : list Z
}.
Arguments cf_result : clear implicits.
Arguments mkCF {T}.

Definition check_feasibility {T : Type} (A : arith T) (bip : binary_program T)
           (x : Z) (r : nat -> T) : cf_result T :=
  let '(k1, seen1) := scan (fun v => a_eqb A v (a_zero A)) (equs bip) r 0 [] in
  let '(k2, seen2) :=
    if k1 =? equs bip
    then scan (fun v => a_leb A v (a_zero A)) (rows bip) r k1 seen1
    else (k1, seen1) in
  if k2 <? rows bip
  then mkCF 0 bip r seen2 []
  else mkCF 1 bip r seen2 [x].

(** ** [bip_enumerate] *)

Definition index32 : list Z :=
  [ 0;  1; 28;  2; 29; 14; 24; 3; 30; 22; 20; 15; 25; 17;  4;  8;
   31; 27; 13; 23; 21; 19; 16; 7; 26; 12; 18;  6; 11;  5; 10;  9].

(** [index32[(uint32_t)(updatemask * DEBRUIJN32) >> 27]] *)
Definition debruijn_index (updatemask : Z) : Z :=
  nth (Z.to_nat (Z.shiftr (u32 (updatemask * DEBRUIJN32)) 27)) index32 0.

(** One recorded loop iteration: the mask and the column index it computed. *)
Record flip : Type := mkFlip { f_updatemask : Z; f_colidx : Z }.

(** The local variables of [bip_enumerate], and three observation logs: the
    arguments [(x, r)] of every [check_feasibility] call, the flips of the
    loop iterations, and the arguments of the [report_sol] calls. *)
Record enum_state {T : Type} : Type := mkES {
  e_x : Z;
  e_n : Z;
  e_negn : Z;
  e_r : nat -> T;
  e_sol_count : Z;
  e_visits : list (Z * (nat -> T));
  e_flips : list flip;
  e_reported : list Z
}.
Arguments enum_state : clear implicits.
Arguments mkES {T}.

(** What a call of [bip_enumerate] returns and does: the returned count and
    the observation logs. *)
Record enum_result {T : Type} : Type := mkER {
  sol_count : Z;
  visits : list (Z * (nat -> T));
  flips : list flip;
  reported : list Z
}.
Arguments enum_result : clear implicits.
Arguments mkER {T}.

Section Enumerator.
Context {T : Type} (A : arith T).

(** [sol_count += check_feasibility(bip, x, r, report_sol)] *)
Definition visit (bip : binary_program T) (x n negn : Z) (r : nat -> T)
           (sol_count : Z) (vs : list (Z * (nat -> T))) (fs : list flip)
           (rep : list Z) : enum_state T :=
  let res := check_feasibility A bip x r in
  mkES x n negn (cf_r res) (sol_count + cf_ret res)
       (vs ++ [(x, r)]) fs (rep ++ cf_reported res).

(** The body of [while (negn != 0)]. *)
Definition enum_step (bip : binary_program T) (st : enum_state T)
  : enum_state T :=
  let nrows := Z.to_nat (rows bip) in
  let updatemask := Z.land (e_n st) (e_negn st) in
  let colidx := debruijn_index updatemask in
  let n' := u32 (e_n st + 1) in
  let negn' := u32 (e_negn st - 1) in
  let x' := Z.lxor (e_x st) updatemask in
  let modcol := ac bip (Z.to_nat colidx) in
  let r' :=
    if negb (Z.land x' updatemask =? 0)
    then for_n nrows (fun k r => upd r k (a_add A (r k) (modcol k))) (e_r st)
    else for_n nrows (fun k r => upd r k (a_sub A (r k) (modcol k))) (e_r st) in
  visit bip x' n' negn' r' (e_sol_count st) (e_visits st)
        (e_flips st ++ [mkFlip updatemask colidx]) (e_reported st).

(** [while (negn != 0) body]; the fuel is the loop variant [negn], which
    every iteration decrements (see [enum_loop_unfold]). *)
Fixpoint enum_loop_fuel (bip : binary_program T) (fuel : nat)
         (st : enum_state T) : enum_state T :=
  match fuel with
  | O => st
  | S fuel' =>
      if e_negn st =? 0 then st
      else enum_loop_fuel bip fuel' (enum_step bip st)
  end.

Definition enum_loop (bip : binary_program T) (st : enum_state T)
  : enum_state T :=
  enum_loop_fuel bip (Z.to_nat (e_negn st)) st.

(** [r] is a variable-length array whose [rows] cells are all written
    before the first read; [negn] is assigned after the first
    [check_feasibility] call, so the state of that call carries a
    placeholder for it. *)
Definition bip_enumerate (bip : binary_program T) : enum_result T :=
  if cols bip =? 0 then mkER 0 [] [] []
  else
    let r0 := for_n (Z.to_nat (rows bip))
                    (fun k r => upd r k (a_opp A (rhs_ord bip k)))
                    (fun _ => a_zero A) in
    let st0 := visit bip 0 1 0 r0 0 [] [] [] in
    let negn1 := u32 (Z.shiftl 1 (cols bip - 1)) in
    let negn2 := u32 (negn1 + u32 (negn1 - 1)) in
    let st := enum_loop bip
                (mkES (e_x st0) (e_n st0) negn2 (e_r st0) (e_sol_count st0)
                      (e_visits st0) (e_flips st0) (e_reported st0)) in
    mkER (e_sol_count st) (e_visits st) (e_flips st) (e_reported st).
End Enumerator.

(** ** [bip_preprocess] *)

(** [rhs_ord[row_cnt] = rhs[r]; for (c...) ac[c][row_cnt] = ar[r][c];]
    The source has this block three times; the copy for [GE] rows negates
    both values ([negate = true]). *)
Definition store_row (b : BIP) (r row_cnt : nat) (negate : bool) : BIP :=
  let b1 := set_rhs_ord b (upd (rhs_ord b) row_cnt
                               (if negate then - rhs b r else rhs b r)%Q) in
  for_n (Z.to_nat (cols b1))
        (fun c b' => set_ac b' (upd2 (ac b') c row_cnt
                                     (if negate then - ar b' r c else ar b' r c)%Q))
        b1.

(** First loop: "copy equations to col order".  The state is the structure
    and the local [row_cnt]. *)
Definition copy_equations (st0 : BIP * nat) : BIP * nat :=
  for_n (Z.to_nat (rows (fst st0)))
        (fun r st =>
           let '(b, row_cnt) := st in
           match sense b r with
           | EQ => let b' := store_row b r row_cnt false in
                   (set_equs b' (equs b' + 1), S row_cnt)
           | _ => (b, row_cnt)
           end)
        st0.

(** Second loop: "copy rest", the [switch] over the sense. *)
Definition copy_rest (st0 : BIP * nat) : BIP * nat :=
  for_n (Z.to_nat (rows (fst st0)))
        (fun r st =>
           let '(b, row_cnt) := st in
           match sense b r with
           | LE => (store_row b r row_cnt false, S row_cnt)
           | GE => (store_row b r row_cnt true, S row_cnt)
           | EQ => (b, row_cnt)
           end)
        st0.

(** [fabs(v) - floor(fabs(v))] *)
Definition frac_part (v : Q) : Q := (Qabs v - inject_Z (Qfloor (Qabs v)))%Q.

(** The least [k >= 0] with [1 <= x * 10^k], found by counting up from 0:
    for [0 < x < 1] the ceiling of the exact [-log10(x)] (see
    [least_exponent_spec]). *)
Fixpoint least_exponent_from (fuel : nat) (x : Q) (k : Z) : Z :=
  match fuel with
  | O => k
  | S fuel' =>
      if Qle_bool 1 (x * inject_Z (10 ^ k))
      then k
      else least_exponent_from fuel' x (k + 1)
  end.

Definition least_exponent (x : Q) : Z :=
  least_exponent_from (S (S (Z.to_nat (Z.log2 (Zpos (Qden x)))))) x 0.

(** [a^(2^k)] in fixed point with [log_places] binary places, rounded
    down after each squaring. *)
Definition log_places : Z := 256.

Fixpoint square_down (k : nat) (a : Z) : Z :=
  match k with
  | O => a
  | S k' => square_down k' (Z.shiftr (a * a) log_places)
  end.

(** [q^(2^k)], by squaring [k] times. *)
Fixpoint square_times (k : nat) (q : Q) : Q :=
  match k with
  | O => q
  | S k' => square_times k' (q * q)
  end.

(** [log10] delivers a [double].  For an integer [m >= 1] and
    [10^-(m+1) <= x < 10^-m], the [double] nearest to [-log10(x)] is [m]
    itself when [-log10(x) <= m + h], where [h = 2^(log2 m - 53)] is half
    the distance from [m] to the next [double]: that is, when
    [(x * 10^m)^(2^(53 - log2 m)) >= 1/10].  The power is computed in
    fixed point, from below. *)
Definition log10_rounds_to (x : Q) (m : Z) : bool :=
  let q := (x * inject_Z (10 ^ m))%Q in
  let a := Qfloor (q * pow2 log_places) in
  2 ^ log_places <=? 10 * square_down (Z.to_nat (53 - Z.log2 m)) a.

(** [ceil(-log10(x))] for [0 < x < 1], the only arguments it is called
    with (a fractional part), [log10] being taken to round to the nearest
    [double]: the ceiling [n] of the exact logarithm, or [n - 1] when the
    logarithm is rounded to that integer, as it is for the [double]s just
    below a power of ten ([ceil(-log10(0.000001))] is 6, although the
    [double] [0.000001] is smaller than [10^-6]). *)
Definition ceil_neg_log10 (x : Q) : Z :=
  let n := least_exponent x in
  if ((2 <=? n) && log10_rounds_to x (n - 1))%bool then n - 1 else n.

(** The inner loop "Compute scaling factor to remove fractions" over the
    coefficients [a 0 .. a (n-1)] of one row; [scale] holds an integer. *)
Definition row_scale (a : nat -> Q) (n : nat) : Z :=
  for_n n (fun c scale =>
             let x := frac_part (a c) in
             if Qlt_bool 0 x
             then let x' := ceil_neg_log10 x in
                  if scale <? x' then x' else scale
             else scale)
        0.

(** [pow(10.0, scale)] for a positive integer [scale], taken to be the
    [double] nearest to [10^scale] (the power itself up to [10^22]), and
    the product [v *= scale], which rounds. *)
Definition pow10 (e : Z) : Q := fl (inject_Z (10 ^ e)).

Definition scale_by (factor v : Q) : Q := fl (v * factor).

(** Third loop: scale every row that needs it. *)
Definition scale_rows (bip : BIP) : BIP :=
  for_n (Z.to_nat (rows bip))
        (fun r b =>
           let scale := row_scale (fun c => ac b c r) (Z.to_nat (cols b)) in
           if 0 <? scale then
             let factor := pow10 scale in
             let b1 := for_n (Z.to_nat (cols b))
                             (fun c b' => set_ac b' (upd2 (ac b') c r
                                                          (scale_by factor (ac b' c r))))
                             b in
             set_rhs_ord b1 (upd (rhs_ord b1) r (scale_by factor (rhs_ord b1 r)))
           else b)
        bip.

Definition bip_preprocess (bip : BIP) : BIP :=
  scale_rows (fst (copy_rest (copy_equations (set_equs bip 0, O)))).

(** ** [bip_can_overflow] *)

(** The diagnostics of [bip_can_overflow], with the row they name. *)
Inductive overflow_error : Type :=
| Numerical_overflow (r : nat)
| Numerical_negative_overflow (r : nat).

Definition error_row (e : overflow_error) : nat :=
  match e with
  | Numerical_overflow r => r
  | Numerical_negative_overflow r => r
  end.

(** The inner loop over the columns [cs] still to come, with the running
    sums; an early [return] ends it with the diagnostic.  The two
    differences and the two sums are [double] operations, which round. *)
Fixpoint overflow_cols (bip : BIP) (r : nat) (cs : list nat)
         (row_max row_min : Q) : option overflow_error :=
  match cs with
  | [] => None
  | c :: cs' =>
      let val := ar bip r c in
      if Qlt_bool 0 val then
        if Qle_bool (fl (max_coef_val bip - val)) row_max
        then Some (Numerical_overflow r)
        else overflow_cols bip r cs' (fl (row_max + val)) row_min
      else if Qlt_bool val 0 then
        if Qle_bool row_min (fl (min_coef_val bip - val))
        then Some (Numerical_negative_overflow r)
        else overflow_cols bip r cs' row_max (fl (row_min + val))
      else overflow_cols bip r cs' row_max row_min
  end.

Fixpoint overflow_rows (bip : BIP) (rs : list nat) : option overflow_error :=
  match rs with
  | [] => None
  | r :: rs' =>
      match overflow_cols bip r (seq 0 (Z.to_nat (cols bip))) 0 0 with
      | Some e => Some e
      | None => overflow_rows bip rs'
      end
  end.

(** [None] is the result [false]; [Some e] is [true] after printing [e]. *)
Definition bip_can_overflow (bip : BIP) : option overflow_error :=
  overflow_rows bip (seq 0 (Z.to_nat (rows bip))).

(** ** [lfs_split_line] (splitline.c) *)

(** [isprint] and [isspace] of the C locale. *)
Definition isprint (c : ascii) : bool :=
  let n := nat_of_ascii c in ((32 <=? n)%nat && (n <=? 126)%nat)%bool.

Definition isspace (c : ascii) : bool :=
  let n := nat_of_ascii c in
  ((n =? 32)%nat || ((9 <=? n)%nat && (n <=? 13)%nat))%bool.

Fixpoint char_in (c : ascii) (set : string) : bool :=
  match set with
  | EmptyString => false
  | String d set' => (Ascii.eqb c d || char_in c set')%bool
  end.

(** [s = strpbrk(line, comment); if (s) *s = '\0';] *)
Fixpoint clip_comment (comment line : string) : string :=
  match line with
  | EmptyString => EmptyString
  | String c rest =>
      if char_in c comment then EmptyString
      else String c (clip_comment comment rest)
  end.

(** [if (!isprint( *s)) *s = ' ';] for every character. *)
Fixpoint blank_unprintable (line : string) : string :=
  match line with
  | EmptyString => EmptyString
  | String c rest =>
      String (if isprint c then c else " "%char) (blank_unprintable rest)
  end.

(** The field loop: [cur] is the field being read, empty between fields. *)
Fixpoint split_fields (line : string) (cur : string) : list string :=
  match line with
  | EmptyString =>
      match cur with
      | EmptyString => []
      | _ => [cur]
      end
  | String c rest =>
      if isspace c then
        match cur with
        | EmptyString => split_fields rest EmptyString
        | _ => cur :: split_fields rest EmptyString
        end
      else split_fields rest (cur ++ String c EmptyString)%string
  end.

(** The fields of a line, in order ([lfs_fields_used] is their number and
    [lfs_field] the access by index). *)
Definition lfs_split_line (line comment : string) : list string :=
  split_fields (blank_unprintable (clip_comment comment line)) EmptyString.

Definition lfs_fields_used (lfs : list string) : Z :=
  Z.of_nat (List.length lfs).

Definition lfs_field (lfs : list string) (fno : nat) : string :=
  nth fno lfs EmptyString.

(** ** [process_line] and [bip_read] *)

(** A [double] as [strtod] can return it. *)
Inductive dval : Type :=
| DFinite (q : Q)
| DInf (negative : bool)
| DNaN.

(** One call of [strtod(s, &t)]: the value, whether [*t] is the end of the
    string, and whether the call sets [errno] to [ERANGE]. *)
Record strtod_result : Type := mkSD {
  sd_val : dval;
  sd_at_end : bool;
  sd_erange : bool
}.

Definition ERANGE : Z := 34.

Definition isnan (v : dval) : bool :=
  match v with DNaN => true | _ => false end.

Definition isinf (v : dval) : bool :=
  match v with DInf _ => true | _ => false end.

(** Comparisons of a [double] with a finite bound; false on NaN. *)
Definition dval_lt (v : dval) (bound : Q) : bool :=
  match v with
  | DFinite q => Qlt_bool q bound
  | DInf negative => negative
  | DNaN => false
  end.

Definition dval_gt (v : dval) (bound : Q) : bool :=
  match v with
  | DFinite q => Qlt_bool bound q
  | DInf negative => negb negative
  | DNaN => false
  end.

(** [rint(val) != val]: a finite value differs from its rounding exactly
    when it is not an integer. *)
Definition rint_differs (v : dval) : bool :=
  match v with
  | DFinite q => negb (Qeq_bool (inject_Z (Qfloor q)) q)
  | _ => false
  end.

(** The bounds of the 32-bit [int]. *)
Definition INT_MIN : Z := - 2 ^ 31.
Definition INT_MAX : Z := 2 ^ 31 - 1.

(** A rational with its fraction dropped (rounded toward zero). *)
Definition Qtrunc (q : Q) : Z := Z.quot (Qnum q) (Zpos (Qden q)).

(** [(int)val]: the value with its fraction dropped, when the 32-bit [int]
    holds it.  For every other value the conversion is undefined in C; the
    conversion instruction of x86-64 (cvttsd2si) delivers [INT_MIN] then,
    also for NaN and the infinities, and that is what [int_of] returns. *)
Definition int_of (v : dval) : Z :=
  match v with
  | DFinite q =>
      let z := Qtrunc q in
      if ((INT_MIN <=? z) && (z <=? INT_MAX))%bool then z else INT_MIN
  | _ => INT_MIN
  end.

(** The stored [double]. *)
Definition dval_Q (v : dval) : Q :=
  match v with
  | DFinite q => q
  | _ => 0%Q
  end.

(** The functions that load a structure call the downstream stages; the
    log records which. *)
Inductive downstream_call : Type :=
| Call_bip_can_overflow
| Call_bip_preprocess.

Section Reader.
(** [strtod] of the C library. *)
Variable strtod : string -> strtod_result.

(** The condition that rejects a column or row count. *)
Definition bad_count (errno : Z) (sr : strtod_result) (limit : Z) : bool :=
  ((errno =? ERANGE) || isnan (sd_val sr) || isinf (sd_val sr)
   || rint_differs (sd_val sr) || dval_lt (sd_val sr) 1
   || (limit <? int_of (sd_val sr)) || negb (sd_at_end sr))%bool.

(** The condition that rejects a coefficient or right-hand side. *)
Definition bad_number (bip : BIP) (errno : Z) (sr : strtod_result) : bool :=
  ((errno =? ERANGE) || isnan (sd_val sr) || isinf (sd_val sr)
   || dval_gt (sd_val sr) (max_coef_val bip)
   || dval_lt (sd_val sr) (min_coef_val bip)
   || negb (sd_at_end sr))%bool.

(** The loop over the fields of a coefficient line, for the columns [cs]
    still to come.  [false] is the early [return ..., READ_ERROR]. *)
Fixpoint read_fields (lfs : list string) (cs : list nat) (bip : BIP)
         (errno : Z) : bool * BIP * Z :=
  match cs with
  | [] => (true, bip, errno)
  | col :: cs' =>
      if negb (Z.of_nat col =? cols bip) then
        let sr := strtod (lfs_field lfs col) in
        let errno' := if sd_erange sr then ERANGE else errno in
        if bad_number bip errno' sr then (false, bip, errno')
        else
          let val := dval_Q (sd_val sr) in
          let row := Z.to_nat (read_rows bip) in
          let bip' :=
            if Z.of_nat col <? cols bip
            then set_ar bip (upd2 (ar bip) row col val)
            else set_rhs bip (upd (rhs bip) row val) in
          read_fields lfs cs' bip' errno'
      else
        let s := lfs_field lfs (Z.to_nat (cols bip)) in
        let row := Z.to_nat (read_rows bip) in
        if String.eqb s "<=" then
          read_fields lfs cs' (set_sense bip (upd (sense bip) row LE)) errno
        else if String.eqb s ">=" then
          read_fields lfs cs' (set_sense bip (upd (sense bip) row GE)) errno
        else if (String.eqb s "=" || String.eqb s "==")%bool then
          read_fields lfs cs' (set_sense bip (upd (sense bip) row EQ)) errno
        else (false, bip, errno)
  end.

(** [process_line]: the next mode, with the structure and [errno] as the
    call leaves them; [None] is [abort()].  The diagnostics and the line
    number they print are dropped. *)
Definition process_line (mode : LINE_MODE) (lfs : list string) (bip : BIP)
           (errno : Z) : option (LINE_MODE * BIP * Z) :=
  if 0 <? lfs_fields_used lfs then
    match mode with
    | READ_COLS =>
        if negb (lfs_fields_used lfs =? 1) then Some (READ_ERROR, bip, errno)
        else
          let sr := strtod (lfs_field lfs 0) in
          let errno' := if sd_erange sr then ERANGE else errno in
          if bad_count errno' sr BIP_MAX_COLS
          then Some (READ_ERROR, bip, errno')
          else Some (READ_ROWS, set_cols bip (int_of (sd_val sr)), errno')
    | READ_ROWS =>
        if negb (lfs_fields_used lfs =? 1) then Some (READ_ERROR, bip, errno)
        else
          let sr := strtod (lfs_field lfs 0) in
          let errno' := if sd_erange sr then ERANGE else errno in
          if bad_count errno' sr BIP_MAX_ROWS
          then Some (READ_ERROR, bip, errno')
          else Some (READ_COEF, set_rows bip (int_of (sd_val sr)), errno')
    | READ_COEF =>
        if rows bip <=? read_rows bip then Some (READ_ERROR, bip, errno)
        else if negb (lfs_fields_used lfs =? cols bip + 2)
        then Some (READ_ERROR, bip, errno)
        else
          let '(ok, bip', errno') :=
            read_fields lfs (seq 0 (Z.to_nat (cols bip + 2))) bip errno in
          if ok
          then Some (READ_COEF, set_read_rows bip' (read_rows bip' + 1), errno')
          else Some (READ_ERROR, bip', errno')
    | READ_ERROR => None
    end
  else Some (mode, bip, errno).

(** [while (mode != READ_ERROR && NULL != (s = fgets(...)))]: the file is
    the list of the strings that the successive [fgets] calls deliver. *)
Fixpoint read_loop (lines : list string) (mode : LINE_MODE) (bip : BIP)
         (errno : Z) : option (LINE_MODE * BIP * Z) :=
  match mode, lines with
  | READ_ERROR, _ => Some (mode, bip, errno)
  | _, [] => Some (mode, bip, errno)
  | _, s :: rest =>
      match process_line mode (lfs_split_line s "#") bip errno with
      | Some (mode', bip', errno') => read_loop rest mode' bip' errno'
      | None => None
      end
  end.

(** [bip_read]: the returned [int], the structure as the call leaves it,
    and the downstream stages it invoked; [file] is [None] when [fopen]
    fails.  The outer [None] is [abort()]. *)
Definition bip_read (bip : BIP) (errno : Z) (file : option (list string))
  : option (Z * BIP * list downstream_call) :=
  match file with
  | None => Some (-1, bip, [])
  | Some lines =>
      match read_loop lines READ_COLS bip errno with
      | None => None
      | Some (mode, bip1, _) =>
          match mode with
          | READ_ERROR => Some (-1, bip1, [])
          | _ =>
              if ((cols bip1 =? 0) || (rows bip1 =? 0)
                  || (read_rows bip1 <? rows bip1))%bool
              then Some (-1, bip1, [])
              else
                match bip_can_overflow bip1 with
                | Some _ => Some (-1, bip1, [Call_bip_can_overflow])
                | None =>
                    Some (0, bip_preprocess bip1,
                          [Call_bip_can_overflow; Call_bip_preprocess])
                end
          end
      end
  end.

(** *** Faults of an input line

    What makes a line faulty in mode [mode], for a structure [bip], in the
    words of the format description. *)

Definition sense_token (s : string) : bool :=
  (String.eqb s "<=" || String.eqb s ">=" || String.eqb s "="
   || String.eqb s "==")%bool.

(** A value that is not a finite number in [lo, hi]. *)
Definition outside (v : dval) (lo hi : Q) : Prop :=
  match v with
  | DFinite q => (q < lo)%Q \/ (hi < q)%Q
  | _ => True
  end.



Inductive line_fault (mode : LINE_MODE) (bip : BIP) (lfs : list string)
  : Prop :=
| Wrong_field_count_header :
    (mode = READ_COLS \/ mode = READ_ROWS) ->
    0 < lfs_fields_used lfs -> lfs_fields_used lfs <> 1 ->
    line_fault mode bip lfs
| Wrong_field_count_row :
    mode = READ_COEF ->
    0 < lfs_fields_used lfs -> lfs_fields_used lfs <> cols bip + 2 ->
    line_fault mode bip lfs
| Column_count_out_of_bounds :
    mode = READ_COLS -> 0 < lfs_fields_used lfs ->
    outside (sd_val (strtod (lfs_field lfs 0))) 1 (inject_Z BIP_MAX_COLS) ->
    line_fault mode bip lfs
| Row_count_out_of_bounds :
    mode = READ_ROWS -> 0 < lfs_fields_used lfs ->
    outside (sd_val (strtod (lfs_field lfs 0))) 1 (inject_Z BIP_MAX_ROWS) ->
    line_fault mode bip lfs
| More_rows_than_declared :
    mode = READ_COEF -> 0 < lfs_fields_used lfs ->
    rows bip <= read_rows bip ->
    line_fault mode bip lfs
| Number_out_of_bounds (col : nat) :
    mode = READ_COEF -> 0 < lfs_fields_used lfs ->
    0 <= cols bip ->
    Z.of_nat col < cols bip + 2 -> Z.of_nat col <> cols bip ->
    outside (sd_val (strtod (lfs_field lfs col)))
            (min_coef_val bip) (max_coef_val bip) ->
    line_fault mode bip lfs
| Unrecognized_sense :
    mode = READ_COEF -> 0 < lfs_fields_used lfs ->
    0 <= cols bip ->
    sense_token (lfs_field lfs (Z.to_nat (cols bip))) = false ->
    line_fault mode bip lfs.
End Reader.

(** ** Example models *)

(** A structure as [bip_init] leaves it ([calloc], then the two bounds
    [-10^DBL_DIG] and [10^DBL_DIG] with [DBL_DIG = 15]). *)
Definition bip_init (verb : Z) : BIP :=
  mkBIP 0 0 (fun _ _ => 0%Q) (fun _ => 0%Q) (fun _ => LE) 0
        (fun _ _ => 0%Q) (fun _ => 0%Q)
        (- inject_Z (10 ^ 15))%Q (inject_Z (10 ^ 15)) verb 0.

(** A model as the reader leaves it, from its rows
    [(coefficients, sense, rhs)]. *)
Definition model_of (ncols : Z) (data : list (list Q * Sense * Q)) : BIP :=
  let b := bip_init 1 in
  mkBIP (Z.of_nat (List.length data)) ncols
        (fun r c => nth c (fst (fst (nth r data ([], LE, 0%Q)))) 0%Q)
        (fun r => snd (nth r data ([], LE, 0%Q)))
        (fun r => snd (fst (nth r data ([], LE, 0%Q))))
        (equs b) (ac b) (rhs_ord b) (min_coef_val b) (max_coef_val b)
        (verb_level b) (Z.of_nat (List.length data)).

(** The end-to-end example [1 1 1 <= 2] over three variables. *)
Definition model_three_ones : BIP :=
  model_of 3 [([1; 1; 1], LE, 2)]%Q.

(** One [>=] row followed by one [<=] row. *)
Definition model_ge_le : BIP :=
  model_of 1 [([1], GE, 1); ([2], LE, 3)]%Q.

(** The row [0.25 <= 1]. *)
Definition model_quarter : BIP :=
  model_of 1 [([1 # 4], LE, 1)]%Q.

(** The last row of the input example in the documentation of [ex7.c]:
    [12.5 0.3 22.12 0.0 >= 17.5], with the [double]s nearest to 0.3 and
    22.12. *)
Definition model_doc_row : BIP :=
  model_of 4 [([125 # 10; fl (3 # 10); fl (2212 # 100); 0], GE, 175 # 10)]%Q.

(** A single coefficient equal to [max_coef_val]. *)
Definition model_at_bound : BIP :=
  model_of 1 [([inject_Z (10 ^ 15)], LE, 1)]%Q.

(** The row [0.5 950000000000000 0.5 <= 0.9]: scaled by 10 it has the
    coefficient [9.5e15], above [2^53]. *)
Definition model_absorbing : BIP :=
  model_of 3 [([1 # 2; 950000000000000; 1 # 2], LE, 9 # 10)]%Q.

(** The binary64 number nearest to an integer below [2^63] in magnitude,
    and the binary64 quotient of numerator and denominator. *)
Definition float_of_Z (z : Z) : float :=
  match z with
  | Z0 => 0%float
  | Zpos p => PrimFloat.of_uint63 (Uint63.of_Z (Zpos p))
  | Zneg p => PrimFloat.opp (PrimFloat.of_uint63 (Uint63.of_Z (Zpos p)))
  end.

Definition float_of_Q (q : Q) : float :=
  PrimFloat.div (float_of_Z (Qnum q)) (float_of_Z (Zpos (Qden q))).

(** A structure with every [double] converted to binary64. *)
Definition to_binary64 (b : BIP) : binary_program float :=
  mkBIP (rows b) (cols b)
        (fun r c => float_of_Q (ar b r c)) (fun r => float_of_Q (rhs b r))
        (sense b) (equs b)
        (fun c r => float_of_Q (ac b c r)) (fun r => float_of_Q (rhs_ord b r))
        (float_of_Q (min_coef_val b)) (float_of_Q (max_coef_val b))
        (verb_level b) (read_rows b).

(** The rational value of a finite binary64 number. *)
Definition Q_of_float (f : float) : option Q :=
  match Prim2SF f with
  | S754_zero _ => Some 0%Q
  | S754_finite s m e =>
      Some (Qred ((if s then inject_Z (Zneg m) else inject_Z (Zpos m)) * pow2 e))
  | _ => None
  end.

(** The binary64 number [f] is the rational [q]. *)
Definition same_double (f : float) (q : Q) : bool :=
  match Q_of_float f with
  | Some p => Qeq_bool p q
  | None => false
  end.

(** Rows near the bound [10^15], where the unit in the last place is
    [0.125]: [999999999999999.875 0.07]; [999999999999996.125] followed by
    31 times [0.07]; and [999999999999999.5] followed by 31 times [0.05]
    ([0.07] and [0.05] being the nearest [double]s). *)
Definition model_near_bound : BIP :=
  model_of 2 [([7999999999999999 # 8; fl (7 # 100)], LE, 1)]%Q.

Definition model_sum_rounds_up : BIP :=
  model_of 32 [((7999999999999969 # 8) :: repeat (fl (7 # 100)) 31, LE, 1)]%Q.

Definition model_sum_rounds_down : BIP :=
  model_of 32 [((1999999999999999 # 2) :: repeat (fl (1 # 20)) 31, LE, 1)]%Q.

(** The row [0.000001 <= 1], with the nearest [double]. *)
Definition model_millionth : BIP :=
  model_of 1 [([fl (1 # 1000000)], LE, 1)]%Q.

(** The equation [0.07 0.03 = 0.1] and the row
    [0.03 500000000000000.0625 <= 500000000000000.0625], with the nearest
    [double]s. *)
Definition model_seven_three : BIP :=
  model_of 2 [([fl (7 # 100); fl (3 # 100)], EQ, fl (1 # 10))]%Q.

Definition model_absorbed : BIP :=
  model_of 2 [([fl (3 # 100); 8000000000000001 # 16], LE,
               8000000000000001 # 16)]%Q.

(** A [strtod] for the examples: it converts unsigned decimal integers and
    consumes nothing of any other string. *)
Fixpoint digits_value (s : string) (acc : Z) : option Z :=
  match s with
  | EmptyString => Some acc
  | String c rest =>
      let n := nat_of_ascii c in
      if ((48 <=? n)%nat && (n <=? 57)%nat)%bool
      then digits_value rest (10 * acc + Z.of_nat (n - 48))
      else None
  end.

Definition strtod_digits (s : string) : strtod_result :=
  match digits_value s 0 with
  | Some z => mkSD (DFinite (inject_Z z)) true false
  | None => mkSD (DFinite 0) false false
  end.

(** The input file of the end-to-end example. *)
Definition file_three_ones : list string :=
  ["3 # columns"; "1 # rows"; "1 1 1 <= 2"]%string.

(** ** Notions used to state the enumeration properties *)

(** The binary-reflected Gray code. *)
Definition gray (n : Z) : Z := Z.lxor n (Z.shiftr n 1).

(** Number of trailing zero bits of a positive number. *)
Fixpoint ctz_pos (p : positive) : Z :=
  match p with
  | xO q => Z.succ (ctz_pos q)
  | _ => 0
  end.

Definition ctz (n : Z) : Z :=
  match n with
  | Zpos p => ctz_pos p
  | _ => 0
  end.

(** The lowest set bit of [n], as a mask. *)
Definition lowbit (n : Z) : Z := 2 ^ ctz n.

Definition zrange (lo : Z) (len : nat) : list Z :=
  map (fun k => lo + Z.of_nat k) (seq 0 len).

(** [x] and [y] differ in bit [j] and in no other bit. *)
Definition differ_only_at (x y j : Z) : Prop :=
  forall i, 0 <= i -> (Z.testbit x i <> Z.testbit y i <-> i = j).

(** The sum of [a c] over the columns [c] of [l] whose bit is set in [x]. *)
Definition bit_sum (a : nat -> Q) (x : Z) (l : list nat) : Q :=
  fold_right (fun c acc =>
                if Z.testbit x (Z.of_nat c) then (a c + acc)%Q else acc) 0%Q l.

(** Left-hand side of row [k] recomputed from scratch: the sum of [ac[c][k]]
    over the columns [c] whose bit is set in [x]. *)
Definition lhs_sum (bip : BIP) (x : Z) (k : nat) : Q :=
  bit_sum (fun c => ac bip c k) x (seq 0 (Z.to_nat (cols bip))).

Definition residual (bip : BIP) (x : Z) (k : nat) : Q :=
  (lhs_sum bip x k - rhs_ord bip k)%Q.

(** A visit log is exact when every logged residual vector is the residual
    of the logged assignment, row by row. *)
Definition visits_exact (bip : BIP) (vs : list (Z * (nat -> Q))) : Prop :=
  Forall (fun v => forall k, (k < Z.to_nat (rows bip))%nat ->
                             (snd v k == residual bip (fst v) k)%Q) vs.

(** The loop invariant of [bip_enumerate] after [i] flips, in any
    arithmetic. *)
Definition enum_inv {T : Type} (bip : binary_program T) (i : Z)
           (st : enum_state T) : Prop :=
  0 <= i <= 2 ^ cols bip - 1 /\
  e_n st = u32 (i + 1) /\
  e_negn st = 2 ^ cols bip - 1 - i /\
  e_x st = gray i.

(** In exact arithmetic the residuals of the state are those of its
    assignment. *)
Definition residuals_exact (bip : BIP) (st : enum_state Q) : Prop :=
  forall k, (k < Z.to_nat (rows bip))%nat ->
            (e_r st k == residual bip (e_x st) k)%Q.

(** ** Notions used to state the preprocessing properties *)

(** The rows among the first [n] whose sense passes [keep], in their
    original order. *)
Definition picks (keep : Sense -> bool) (b : BIP) (n : nat) : list nat :=
  filter (fun r => keep (sense b r)) (seq 0 n).

Definition is_EQ (s : Sense) : bool := Sense_eqb s EQ.
Definition is_LE (s : Sense) : bool := Sense_eqb s LE.
Definition is_GE (s : Sense) : bool := Sense_eqb s GE.
Definition is_ineq (s : Sense) : bool := negb (Sense_eqb s EQ).

Definition eq_rows (b : BIP) : list nat := picks is_EQ b (Z.to_nat (rows b)).
Definition le_rows (b : BIP) : list nat := picks is_LE b (Z.to_nat (rows b)).
Definition ge_rows (b : BIP) : list nat := picks is_GE b (Z.to_nat (rows b)).
Definition ineq_rows (b : BIP) : list nat := picks is_ineq b (Z.to_nat (rows b)).

(** The permutation the code applies: equations first, then the
    inequalities, each group in original order. *)
Definition row_order (b : BIP) : list nat := eq_rows b ++ ineq_rows b.

(** A value of row [r] as it is stored: negated when the row is [>=]. *)
Definition orient (b : BIP) (r : nat) (v : Q) : Q :=
  if is_GE (sense b r) then (- v)%Q else v.

(** A stored value after the scaling loop, for the row's exponent [e]. *)
Definition scaled (e : Z) (v : Q) : Q :=
  if 0 <? e then scale_by (pow10 e) v else v.

Definition integral (v : Q) : Prop := exists z : Z, (v == inject_Z z)%Q.

(** Two structures with the same input part ([rows], [cols], [ar], [rhs],
    [sense]). *)
Definition same_input (b b' : BIP) : Prop :=
  rows b' = rows b /\ cols b' = cols b /\ ar b' = ar b /\
  rhs b' = rhs b /\ sense b' = sense b.

(** Both copy loops, described uniformly: rows whose sense passes [keep]
    are stored at [row_cnt]; [bump] says whether [equs] is incremented. *)
Definition sel_body (keep : Sense -> bool) (bump : bool) (r : nat)
           (st : BIP * nat) : BIP * nat :=
  let '(b, row_cnt) := st in
  if keep (sense b r) then
    let b' := store_row b r row_cnt (is_GE (sense b r)) in
    (if bump then set_equs b' (equs b' + 1) else b', S row_cnt)
  else (b, row_cnt).

(** The layout of [ac] and [rhs_ord] in the order "equations, then [<=]
    rows, then [>=] rows", values unchanged resp. negated. *)
Definition le_before_ge_layout (b b' : BIP) : Prop :=
  forall i, (i < Z.to_nat (rows b))%nat ->
    let src := nth i (eq_rows b ++ le_rows b ++ ge_rows b) O in
    (forall c, (c < Z.to_nat (cols b))%nat ->
               (ac b' c i == orient b src (ar b src c))%Q) /\
    (rhs_ord b' i == orient b src (rhs b src))%Q.

(** ** Notions used to state the overflow guard properties *)

(** Sum of the positive coefficients of row [r] in the columns before [c]. *)
Definition pos_sum (b : BIP) (r c : nat) : Q :=
  for_n c (fun c' acc => if Qlt_bool 0 (ar b r c') then (acc + ar b r c')%Q
                         else acc) 0%Q.

(** Sum of the negative coefficients of row [r] in the columns before [c]. *)
Definition neg_sum (b : BIP) (r c : nat) : Q :=
  for_n c (fun c' acc => if Qlt_bool (ar b r c') 0 then (acc + ar b r c')%Q
                         else acc) 0%Q.

(** Coefficient [c] of row [r] pushes a running sum past its bound. *)
Definition pushes_past (b : BIP) (r c : nat) : Prop :=
  (0 < ar b r c /\ max_coef_val b < pos_sum b r c + ar b r c)%Q \/
  (ar b r c < 0 /\ neg_sum b r c + ar b r c < min_coef_val b)%Q.

(** The variables [row_max] and [row_min] of the code when its inner loop
    comes to column [c] of row [r]: the running sums, each addition
    rounded. *)
Definition row_max (b : BIP) (r c : nat) : Q :=
  for_n c (fun c' acc => if Qlt_bool 0 (ar b r c') then fl (acc + ar b r c')
                         else acc) 0%Q.

Definition row_min (b : BIP) (r c : nat) : Q :=
  for_n c (fun c' acc => if Qlt_bool (ar b r c') 0 then fl (acc + ar b r c')
                         else acc) 0%Q.

(** Coefficient [c] of row [r] takes a running sum to its bound or past
    it, as the code tests it and in its arithmetic:
    [row_max >= max_coef_val - val] for a positive [val],
    [row_min <= min_coef_val - val] for a negative one. *)
Definition reaches_bound (b : BIP) (r c : nat) : Prop :=
  (0 < ar b r c /\ fl (max_coef_val b - ar b r c) <= row_max b r c)%Q \/
  (ar b r c < 0 /\ row_min b r c <= fl (min_coef_val b - ar b r c))%Q.

(** The same test on the exact sums and differences. *)
Definition meets_bound (b : BIP) (r c : nat) : Prop :=
  (0 < ar b r c /\ max_coef_val b - ar b r c <= pos_sum b r c)%Q \/
  (ar b r c < 0 /\ neg_sum b r c <= min_coef_val b - ar b r c)%Q.

(** The bounds are integers of at most [2^53] in magnitude, the lower one
    not positive and the upper one not negative, and the coefficients of
    row [r] are integers within them: no operation of the guard on this
    row rounds. *)
Definition integral_bounds (b : BIP) : Prop :=
  exists lo hi : Z,
    (min_coef_val b == inject_Z lo)%Q /\ (max_coef_val b == inject_Z hi)%Q /\
    - 2 ^ 53 <= lo <= 0 /\ 0 <= hi <= 2 ^ 53.

Definition integral_row (b : BIP) (r : nat) : Prop :=
  forall c, (c < Z.to_nat (cols b))%nat ->
    integral (ar b r c) /\ (min_coef_val b <= ar b r c <= max_coef_val b)%Q.

(** When the inner loop comes to column [n] of row [r], the running sums
    of the code are the exact sums, integers within the bounds [lo] and
    [hi]. *)
Definition sums_exact (b : BIP) (r : nat) (lo hi : Z) (n : nat) : Prop :=
  exists p m : Z,
    (row_max b r n == inject_Z p)%Q /\ (pos_sum b r n == inject_Z p)%Q /\
    (row_min b r n == inject_Z m)%Q /\ (neg_sum b r n == inject_Z m)%Q /\
    0 <= p <= hi /\ lo <= m <= 0.

(** [r] is the first row with a coefficient that satisfies [P]. *)
Definition first_row (P : BIP -> nat -> nat -> Prop) (b : BIP) (r : nat)
  : Prop :=
  (r < Z.to_nat (rows b))%nat /\
  (exists c, (c < Z.to_nat (cols b))%nat /\ P b r c) /\
  forall r', (r' < r)%nat ->
             ~ exists c, (c < Z.to_nat (cols b))%nat /\ P b r' c.

(** [bip_can_overflow] reports an overflow, naming row [r]. *)
Definition reports_row (b : BIP) (r : nat) : Prop :=
  exists e, bip_can_overflow b = Some e /\ error_row e = r.

(** ** [bip_is_valid] *)

(** The inner loop over the columns [cs] still to come; [None] is the
    early [return false], and the pair holds the counters [nzo_r] and
    [nzo_c] (at most [rows * cols <= 4096], so they cannot wrap). *)
Fixpoint valid_cols (bip : BIP) (r : nat) (cs : list nat) (nzo : Z * Z)
  : option (Z * Z) :=
  match cs with
  | [] => Some nzo
  | c :: cs' =>
      if (Qlt_bool (ar bip r c) (min_coef_val bip)
          || Qlt_bool (max_coef_val bip) (ar bip r c))%bool then None
      else if (Qlt_bool (rhs bip r) (min_coef_val bip)
               || Qlt_bool (max_coef_val bip) (rhs bip r))%bool then None
      else valid_cols bip r cs'
             (if negb (Qeq_bool (ar bip r c) 0) then fst nzo + 1 else fst nzo,
              if negb (Qeq_bool (ac bip c r) 0) then snd nzo + 1 else snd nzo)
  end.

Fixpoint valid_rows (bip : BIP) (rs : list nat) (nzo : Z * Z)
  : option (Z * Z) :=
  match rs with
  | [] => Some nzo
  | r :: rs' =>
      match valid_cols bip r (seq 0 (Z.to_nat (cols bip))) nzo with
      | None => None
      | Some nzo' => valid_rows bip rs' nzo'
      end
  end.

(** The consistency check that the functions of [bip.c] assert on entry
    (the test [NULL == bip] has no counterpart here). *)
Definition bip_is_valid (bip : BIP) : bool :=
  if Qle_bool (max_coef_val bip) (min_coef_val bip) then false
  else if ((rows bip <? 0) || (BIP_MAX_ROWS <? rows bip))%bool then false
  else if ((cols bip <? 0) || (BIP_MAX_COLS <? cols bip))%bool then false
  else if (((0 <? rows bip) && (cols bip =? 0))
           || ((rows bip =? 0) && (0 <? cols bip)))%bool then false
  else if rows bip <? equs bip then false
  else
    match valid_rows bip (seq 0 (Z.to_nat (rows bip))) (0, 0) with
    | None => false
    | Some (nzo_r, nzo_c) => if negb (nzo_r =? nzo_c) then false else true
    end.

(** ** [report_sol] (ex7.c) *)

Definition VERB_VERBOSE : Z := 2.

(** The two accessors of [bip.c] that [report_sol] uses. *)
Definition bip_cols {T : Type} (bip : binary_program T) : Z := cols bip.

Definition bip_verbosity_level {T : Type} (bip : binary_program T) : Z :=
  verb_level bip.

Section ReportSol.
(** The text [printf] produces for the conversion [%8x]. *)
Variable printf_8x : Z -> string.

(** The text one call of [report_sol] writes to [stdout]. *)
Definition report_sol {T : Type} (bip : binary_program T) (x : Z) : string :=
  if VERB_VERBOSE <=? bip_verbosity_level bip then
    let start := (printf_8x x ++ ": ")%string in
    let '(_, out) :=
      for_n (Z.to_nat (bip_cols bip))
            (fun (col : nat) (st : Z * string) =>
               let '(bit, out) := st in
               (u32 (bit + bit),
                (out ++ String (if negb (Z.eqb (Z.land x bit) 0)
                                then "1"%char else "0"%char) " ")%string))
            (1, start) in
    (out ++ String (ascii_of_nat 10) EmptyString)%string
  else EmptyString.
End ReportSol.

(** ** More example inputs *)

(** An input whose only coefficient equals [max_coef_val], and an input
    that ends after the column count. *)
Definition file_at_bound : list string :=
  ["1"; "1"; "1000000000000000 <= 1"]%string.

Definition file_cols_only : list string := ["3 # columns"]%string.

(** An input whose column count and row count are [2^31]. *)
Definition file_count_beyond_int : list string :=
  ["2147483648"; "2147483648"]%string.

(** ** Notions used to state what the enumerator reports *)

(** Whether the [check_feasibility] call of a logged visit returned 1. *)
Definition accepted {T : Type} (A : arith T) (bip : binary_program T)
           (v : Z * (nat -> T)) : bool :=
  cf_ret (check_feasibility A bip (fst v) (snd v)) =? 1.

(** The books of a state are in order: the reports are the accepted visits,
    and [sol_count] is their number. *)
Definition books_kept {T : Type} (A : arith T) (bip : binary_program T)
           (st : enum_state T) : Prop :=
  e_reported st = map fst (filter (accepted A bip) (e_visits st)) /\
  e_sol_count st = Z.of_nat (List.length (e_reported st)).

(** The state in which [bip_enumerate] enters its [while] loop. *)
Definition enum_start {T : Type} (A : arith T) (bip : binary_program T)
  : enum_state T :=
  let r0 := for_n (Z.to_nat (rows bip))
                  (fun k r => upd r k (a_opp A (rhs_ord bip k)))
                  (fun _ => a_zero A) in
  let st0 := visit A bip 0 1 0 r0 0 [] [] [] in
  let negn1 := u32 (Z.shiftl 1 (cols bip - 1)) in
  mkES (e_x st0) (e_n st0) (u32 (negn1 + u32 (negn1 - 1))) (e_r st0)
       (e_sol_count st0) (e_visits st0) (e_flips st0) (e_reported st0).

(** The assertion at the head of the loop body:
    [((n + negn) & ((1u << (cols - 1)) + ((1u << (cols - 1)) - 1))) == 0]. *)
Definition flip_assertion (ncols n negn : Z) : bool :=
  Z.land (u32 (n + negn))
         (u32 (u32 (Z.shiftl 1 (ncols - 1))
               + u32 (u32 (Z.shiftl 1 (ncols - 1)) - 1))) =? 0.

(** Left-hand side of row [r] of the input under the assignment [x]. *)
Definition row_sum (bip : BIP) (x : Z) (r : nat) : Q :=
  bit_sum (fun c => ar bip r c) x (seq 0 (Z.to_nat (cols bip))).

(** Row [r] of the input holds under [x]. *)
Definition row_holds (bip : BIP) (x : Z) (r : nat) : Prop :=
  match sense bip r with
  | LE => (row_sum bip x r <= rhs bip r)%Q
  | GE => (rhs bip r <= row_sum bip x r)%Q
  | EQ => (row_sum bip x r == rhs bip r)%Q
  end.

(** [x] is a solution of the program as it was read. *)
Definition satisfies (bip : BIP) (x : Z) : Prop :=
  forall r, (r < Z.to_nat (rows bip))%nat -> row_holds bip x r.

(** The digits [report_sol] should print for [x]: variable [c] as ["1 "]
    or ["0 "], the first variable first. *)
Fixpoint bit_text (x : Z) (cs : list nat) : string :=
  match cs with
  | [] => EmptyString
  | c :: cs' =>
      String (if Z.testbit x (Z.of_nat c) then "1"%char else "0"%char)
             (String " "%char (bit_text x cs'))
  end.

(** ** Notions used to state more preprocessing properties *)

(** Two structures with the same bounds, verbosity and reading state. *)
Definition same_frame (b b' : BIP) : Prop :=
  min_coef_val b' = min_coef_val b /\ max_coef_val b' = max_coef_val b /\
  verb_level b' = verb_level b /\ read_rows b' = read_rows b.

(** The coefficients of row [r] are integers: the scaling loop leaves
    the row as it is. *)
Definition integral_coefficients (bip : BIP) (r : nat) : Prop :=
  forall c, (c < Z.to_nat (cols bip))%nat -> integral (ar bip r c).

(** The sum of the magnitudes of the first [n] values of [a], and the
    magnitude of row [r]: the sum of the magnitudes of its right-hand side
    and of its coefficients. *)
Definition abs_sum (a : nat -> Q) (n : nat) : Q :=
  for_n n (fun c acc => (acc + Qabs (a c))%Q) 0%Q.

Definition row_magnitude (bip : BIP) (r : nat) : Q :=
  (Qabs (rhs bip r) + abs_sum (ar bip r) (Z.to_nat (cols bip)))%Q.

(** A program of small integers: every coefficient and right-hand side is
    an integer, and in every row their magnitudes sum to [2^53] at most.
    Every sum and difference that the C program forms from such a row is
    an integer of at most [2^53] in magnitude, hence a [double]: the
    [double] operations do not round. *)
Definition small_integers (bip : BIP) : Prop :=
  forall r, (r < Z.to_nat (rows bip))%nat ->
    integral_coefficients bip r /\ integral (rhs bip r) /\
    (row_magnitude bip r <= inject_Z (2 ^ 53))%Q.

(** Row [i] of [ac] / [rhs_ord] in [b'] is input row [src] of [bip],
    negated when the row is [>=]. *)
Definition stored_as (bip b' : BIP) (i src : nat) : Prop :=
  (forall c, (c < Z.to_nat (cols bip))%nat ->
             ac b' c i = orient bip src (ar bip src c)) /\
  rhs_ord b' i = orient bip src (rhs bip src).

(** The same for [ac] and [rhs_ord]. *)
Definition stored_outside_kept (b0 b : BIP) : Prop :=
  (forall c i, (Z.to_nat BIP_MAX_COLS <= c)%nat \/ (Z.to_nat BIP_MAX_ROWS <= i)%nat ->
               ac b c i = ac b0 c i) /\
  (forall i, (Z.to_nat BIP_MAX_ROWS <= i)%nat -> rhs_ord b i = rhs_ord b0 i).


(** The sum of [f] over a list of rows. *)
Definition sum_over (f : nat -> Z) (l : list nat) : Z :=
  fold_right (fun r acc => f r + acc) 0 l.

(** The number of nonzero coefficients of row [r] of [ar], and of the
    stored row [r] of [ac]. *)
Definition nonzeros_ar (bip : BIP) (r : nat) : Z :=
  sum_over (fun c => if Qeq_bool (ar bip r c) 0 then 0 else 1)
           (seq 0 (Z.to_nat (cols bip))).

Definition nonzeros_ac (bip : BIP) (r : nat) : Z :=
  sum_over (fun c => if Qeq_bool (ac bip c r) 0 then 0 else 1)
           (seq 0 (Z.to_nat (cols bip))).

(** ** Notions used to state the reader's properties *)

(** The first [n] rows hold coefficients and right-hand sides within the
    bounds. *)
Definition rows_in_bounds (bip : BIP) (n : nat) : Prop :=
  forall r, (r < n)%nat ->
    (forall c, (c < Z.to_nat (cols bip))%nat ->
               (min_coef_val bip <= ar bip r c <= max_coef_val bip)%Q) /\
    (min_coef_val bip <= rhs bip r <= max_coef_val bip)%Q.

(** What the reader never writes. *)
Definition reader_frame (b b' : BIP) : Prop :=
  equs b' = equs b /\ ac b' = ac b /\ rhs_ord b' = rhs_ord b /\
  min_coef_val b' = min_coef_val b /\ max_coef_val b' = max_coef_val b /\
  verb_level b' = verb_level b.

(** A count as the reader stores it: between 1 and the limit, or [INT_MIN]
    (the cast of a count of [2^31] or more). *)
Definition stored_count (n limit : Z) : Prop :=
  1 <= n <= limit \/ n = INT_MIN.

(** What holds of the structure between two lines, by the mode; [bip0] is
    the structure [bip_read] was called with. *)
Definition read_inv (bip0 : BIP) (mode : LINE_MODE) (bip : BIP) : Prop :=
  reader_frame bip0 bip /\
  match mode with
  | READ_ERROR => True
  | READ_COLS => bip = bip0
  | READ_ROWS =>
      stored_count (cols bip) BIP_MAX_COLS /\ rows bip = rows bip0 /\
      read_rows bip = read_rows bip0
  | READ_COEF =>
      stored_count (cols bip) BIP_MAX_COLS /\
      stored_count (rows bip) BIP_MAX_ROWS /\
      read_rows bip0 <= read_rows bip /\
      (read_rows bip0 <= rows bip -> read_rows bip <= rows bip) /\
      forall r, (Z.to_nat (read_rows bip0) <= r < Z.to_nat (read_rows bip))%nat ->
        (forall c, (c < Z.to_nat (cols bip))%nat ->
                   (min_coef_val bip <= ar bip r c <= max_coef_val bip)%Q) /\
        (min_coef_val bip <= rhs bip r <= max_coef_val bip)%Q
  end.

(** [b] agrees with [b0] in every cell of [ar], [rhs] and [sense] beyond
    the arrays' dimensions [BIP_MAX_ROWS] and [BIP_MAX_COLS]. *)
Definition input_outside_kept (b0 b : BIP) : Prop :=
  (forall r c, (Z.to_nat BIP_MAX_ROWS <= r)%nat \/ (Z.to_nat BIP_MAX_COLS <= c)%nat ->
               ar b r c = ar b0 r c) /\
  (forall r, (Z.to_nat BIP_MAX_ROWS <= r)%nat ->
             rhs b r = rhs b0 r /\ sense b r = sense b0 r).

(** The sense a token stands for. *)
Definition sense_of_token (s : string) : Sense :=
  if String.eqb s "<=" then LE else if String.eqb s ">=" then GE else EQ.

(** A column or row count as the reader accepts it: converted completely
    and without range error to an integer that lies between 1 and [limit],
    or that the 32-bit [int] does not hold (its cast, [INT_MIN], is below
    every limit). *)
Definition count_ok (errno : Z) (sr : strtod_result) (limit : Z) : Prop :=
  errno <> ERANGE /\ sd_at_end sr = true /\
  exists q, sd_val sr = DFinite q /\ (q == inject_Z (Qfloor q))%Q /\
            (1 <= Qfloor q <= limit \/ INT_MAX < Qfloor q).

(** A number as the reader accepts it for a coefficient or right-hand
    side: converted completely and without range error to a finite value
    within the bounds. *)
Definition number_ok (sr : strtod_result) (lo hi : Q) : Prop :=
  sd_erange sr = false /\ sd_at_end sr = true /\
  exists q, sd_val sr = DFinite q /\ (lo <= q <= hi)%Q.

(** A count line: one field, an integer [n]. *)
Definition count_line (strtod : string -> strtod_result) (s : string) (n : Z)
  : Prop :=
  exists f, lfs_split_line s "#" = [f] /\
            strtod f = mkSD (DFinite (inject_Z n)) true false.

(** A coefficient line for [ncols] columns: [ncols] numbers, a sense, a
    number. *)
Definition row_line (strtod : string -> strtod_result) (ncols : Z) (lo hi : Q)
           (s : string) : Prop :=
  let lfs := lfs_split_line s "#" in
  lfs_fields_used lfs = ncols + 2 /\
  sense_token (lfs_field lfs (Z.to_nat ncols)) = true /\
  forall c, (c < Z.to_nat (ncols + 2))%nat -> c <> Z.to_nat ncols ->
            number_ok (strtod (lfs_field lfs c)) lo hi.

(** Row [r] of the structure holds what the line [s] says for [n]
    columns: the converted numbers and the sense of its token. *)
Definition row_stored (strtod : string -> strtod_result) (b : BIP) (r n : nat)
           (s : string) : Prop :=
  let lfs := lfs_split_line s "#" in
  (forall c, (c < n)%nat ->
             ar b r c = dval_Q (sd_val (strtod (lfs_field lfs c)))) /\
  rhs b r = dval_Q (sd_val (strtod (lfs_field lfs (S n)))) /\
  sense b r = sense_of_token (lfs_field lfs n).

(** ** Notions used to state the properties of [lfs_split_line]

    A line is a C string, so it holds no NUL character. *)

(** A field as [lfs_split_line] delivers it: not empty, and made of
    printable characters that are neither white space nor comment
    characters. *)
Definition clean_field (comment f : string) : Prop :=
  f <> EmptyString /\
  forall c, In c (list_ascii_of_string f) ->
    isspace c = false /\ isprint c = true /\ char_in c comment = false.

(** The fields written on one line, separated by single blanks. *)
Fixpoint join_fields (fs : list string) : string :=
  match fs with
  | [] => EmptyString
  | [f] => f
  | f :: fs' => (f ++ String " "%char (join_fields fs'))%string
  end.

(** A character that [lfs_split_line] treats as a separator: white space,
    or unprintable and therefore replaced by a blank. *)
Definition separator (c : ascii) : bool := (isspace c || negb (isprint c))%bool.

(* ================================================================== *)
(** * Part II: properties *)
(* ================================================================== *)

(** ** Bits of doubled numbers *)

Lemma land_2x (a b : Z) (x y : bool) :
  Z.land (2 * a + Z.b2z x) (2 * b + Z.b2z y) = 2 * Z.land a b + Z.b2z (x && y).
Proof.
  apply Z.bits_inj'; intros i Hi.
  rewrite Z.land_spec.
  destruct (Z.eq_dec i 0) as [->|Hne].
  - now rewrite !Z.testbit_0_r.
  - replace i with (Z.succ (i - 1)) by lia.
    rewrite !Z.testbit_succ_r by lia. now rewrite Z.land_spec.
Qed.

Lemma lxor_2x (a b : Z) (x y : bool) :
  Z.lxor (2 * a + Z.b2z x) (2 * b + Z.b2z y) = 2 * Z.lxor a b + Z.b2z (xorb x y).
Proof.
  apply Z.bits_inj'; intros i Hi.
  rewrite Z.lxor_spec.
  destruct (Z.eq_dec i 0) as [->|Hne].
  - now rewrite !Z.testbit_0_r.
  - replace i with (Z.succ (i - 1)) by lia.
    rewrite !Z.testbit_succ_r by lia. now rewrite Z.lxor_spec.
Qed.

Lemma shiftr1_2x (a : Z) (x : bool) : Z.shiftr (2 * a + Z.b2z x) 1 = a.
Proof.
  rewrite Z.shiftr_div_pow2 by lia. change (2 ^ 1) with 2.
  destruct x; cbn [Z.b2z]; [|rewrite Z.add_0_r];
    symmetry; [apply (Z.div_unique _ 2 a 1)|apply (Z.div_unique _ 2 a 0)]; lia.
Qed.

(** Every integer is [2 * k + b] for a bit [b]. *)
Lemma Z_bit_cases (n : Z) : exists k b, n = 2 * k + Z.b2z b.
Proof. exists (Z.div2 n), (Z.odd n). apply Z.div2_odd. Qed.

Lemma dbl_b2z (a : Z) : 2 * a = 2 * a + Z.b2z false.
Proof. cbn [Z.b2z]. lia. Qed.

Lemma odd_2x (a : Z) (x : bool) : Z.odd (2 * a + Z.b2z x) = x.
Proof.
  rewrite <- Z.bit0_odd. apply Z.testbit_0_r.
Qed.

(** ** Gray code *)

Lemma gray_2x (k : Z) (b : bool) :
  gray (2 * k + Z.b2z b) = 2 * gray k + Z.b2z (xorb b (Z.odd k)).
Proof.
  unfold gray. rewrite shiftr1_2x.
  destruct (Z_bit_cases k) as (h & a & ->).
  rewrite lxor_2x, shiftr1_2x, odd_2x. reflexivity.
Qed.

Lemma gray_0 : gray 0 = 0.
Proof. reflexivity. Qed.

Lemma pow2_S (c : nat) : 2 ^ Z.of_nat (S c) = 2 * 2 ^ Z.of_nat c.
Proof. rewrite Nat2Z.inj_succ, Z.pow_succ_r; lia. Qed.

Lemma gray_range (c : nat) :
  forall n, 0 <= n < 2 ^ Z.of_nat c -> 0 <= gray n < 2 ^ Z.of_nat c.
Proof.
  induction c as [|c IH]; intros n Hn.
  - change (2 ^ Z.of_nat 0) with 1 in *. assert (n = 0) by lia. subst.
    rewrite gray_0. lia.
  - rewrite pow2_S in *.
    destruct (Z_bit_cases n) as (k & b & ->). rewrite gray_2x.
    assert (Hk : 0 <= k < 2 ^ Z.of_nat c) by (destruct b; cbn [Z.b2z] in Hn; lia).
    specialize (IH _ Hk).
    destruct (xorb _ _); cbn [Z.b2z]; lia.
Qed.

Lemma gray_inj (c : nat) :
  forall n m, 0 <= n < 2 ^ Z.of_nat c -> 0 <= m < 2 ^ Z.of_nat c ->
              gray n = gray m -> n = m.
Proof.
  induction c as [|c IH]; intros n m Hn Hm E.
  - change (2 ^ Z.of_nat 0) with 1 in *. lia.
  - rewrite pow2_S in *.
    destruct (Z_bit_cases n) as (kn & bn & ->).
    destruct (Z_bit_cases m) as (km & bm & ->).
    rewrite !gray_2x in E.
    assert (Hkn : 0 <= kn < 2 ^ Z.of_nat c) by (destruct bn; cbn [Z.b2z] in Hn; lia).
    assert (Hkm : 0 <= km < 2 ^ Z.of_nat c) by (destruct bm; cbn [Z.b2z] in Hm; lia).
    assert (Eg : gray kn = gray km /\ xorb bn (Z.odd kn) = xorb bm (Z.odd km)).
    { destruct (xorb bn (Z.odd kn)), (xorb bm (Z.odd km));
        cbn [Z.b2z] in E; split; try reflexivity; lia. }
    destruct Eg as [Eg Eb].
    assert (Ek : kn = km) by (apply IH; assumption).
    subst km. f_equal. f_equal.
    destruct bn, bm, (Z.odd kn); cbn in Eb; congruence.
Qed.

(** ** Trailing zeros and the lowest set bit *)

Lemma ctz_pos_nonneg (p : positive) : 0 <= ctz_pos p.
Proof. induction p; cbn [ctz_pos]; lia. Qed.

Lemma ctz_nonneg (n : Z) : 0 <= ctz n.
Proof. destruct n; cbn [ctz]; try lia. apply ctz_pos_nonneg. Qed.

Lemma ctz_even (k : Z) : 0 < k -> ctz (2 * k) = Z.succ (ctz k).
Proof. destruct k; try lia. reflexivity. Qed.

Lemma ctz_odd (k : Z) : 0 <= k -> ctz (2 * k + 1) = 0.
Proof. destruct k; try lia; reflexivity. Qed.

Lemma lowbit_even (k : Z) : 0 < k -> lowbit (2 * k) = 2 * lowbit k.
Proof.
  intros Hk. unfold lowbit. rewrite ctz_even by assumption.
  apply Z.pow_succ_r, ctz_nonneg.
Qed.

Lemma lowbit_odd (k : Z) : 0 <= k -> lowbit (2 * k + 1) = 1.
Proof. intros Hk. unfold lowbit. now rewrite ctz_odd. Qed.

Lemma ctz_range (c : nat) :
  forall n, 0 < n < 2 ^ Z.of_nat c -> 0 <= ctz n < Z.of_nat c.
Proof.
  induction c as [|c IH]; intros n Hn.
  - change (2 ^ Z.of_nat 0) with 1 in Hn. lia.
  - rewrite pow2_S in Hn.
    destruct (Z_bit_cases n) as (k & b & ->).
    destruct b; cbn [Z.b2z] in *.
    + rewrite ctz_odd by lia. lia.
    + rewrite Z.add_0_r in *. rewrite ctz_even by lia.
      assert (0 <= ctz k < Z.of_nat c) by (apply IH; lia). lia.
Qed.

(** [ctz n] is the position of the lowest set bit of [n]. *)
Lemma ctz_spec (n : Z) :
  0 < n ->
  Z.testbit n (ctz n) = true /\ forall i, 0 <= i < ctz n -> Z.testbit n i = false.
Proof.
  destruct n as [|p|p]; try lia. intros _.
  induction p as [p IH|p IH|].
  - split; [reflexivity|]. cbn [ctz ctz_pos]. intros; lia.
  - destruct IH as [IH1 IH2].
    change (Z.pos p~0) with (2 * Z.pos p).
    rewrite ctz_even by lia. split.
    + rewrite Z.testbit_even_succ by apply ctz_nonneg. exact IH1.
    + intros i Hi.
      destruct (Z.eq_dec i 0) as [->|Hne].
      * apply Z.testbit_even_0.
      * replace i with (Z.succ (i - 1)) by lia.
        rewrite Z.testbit_even_succ by lia. apply IH2. lia.
  - split; [reflexivity|]. cbn [ctz ctz_pos]. intros; lia.
Qed.

Lemma land_compl (c : nat) :
  forall k, 0 <= k < 2 ^ Z.of_nat c -> Z.land k (2 ^ Z.of_nat c - 1 - k) = 0.
Proof.
  induction c as [|c IH]; intros k Hk.
  - change (2 ^ Z.of_nat 0) with 1 in *. assert (k = 0) by lia. now subst.
  - rewrite pow2_S in *.
    destruct (Z_bit_cases k) as (h & b & ->).
    assert (Hh : 0 <= h < 2 ^ Z.of_nat c) by (destruct b; cbn [Z.b2z] in Hk; lia).
    replace (2 * 2 ^ Z.of_nat c - 1 - (2 * h + Z.b2z b))
      with (2 * (2 ^ Z.of_nat c - 1 - h) + Z.b2z (negb b))
      by (destruct b; cbn [Z.b2z negb]; lia).
    rewrite land_2x, IH by assumption. now destruct b.
Qed.

(** With [negn = 2^c - n], the mask [n & negn] is the lowest set bit of [n]. *)
Lemma land_neg (c : nat) :
  forall n, 0 < n < 2 ^ Z.of_nat c -> Z.land n (2 ^ Z.of_nat c - n) = lowbit n.
Proof.
  induction c as [|c IH]; intros n Hn.
  - change (2 ^ Z.of_nat 0) with 1 in Hn. lia.
  - rewrite pow2_S in *.
    destruct (Z_bit_cases n) as (k & b & ->).
    destruct b; cbn [Z.b2z] in *.
    + replace (2 * 2 ^ Z.of_nat c - (2 * k + 1))
        with (2 * (2 ^ Z.of_nat c - 1 - k) + Z.b2z true) by (cbn [Z.b2z]; lia).
      change (2 * k + 1) with (2 * k + Z.b2z true) at 1.
      rewrite land_2x, land_compl by lia.
      rewrite lowbit_odd by lia. reflexivity.
    + rewrite Z.add_0_r in *.
      replace (2 * 2 ^ Z.of_nat c - 2 * k)
        with (2 * (2 ^ Z.of_nat c - k) + Z.b2z false) by (cbn [Z.b2z]; lia).
      rewrite (dbl_b2z k) at 1.
      rewrite land_2x, IH by lia.
      rewrite lowbit_even by lia. cbn [andb Z.b2z]. lia.
Qed.

(** Consecutive Gray code words differ by the lowest set bit of the index. *)
Lemma gray_flip (n : Z) : 0 < n -> Z.lxor (gray (n - 1)) (gray n) = lowbit n.
Proof.
  destruct n as [|p|p]; try lia. intros _.
  induction p as [p IH|p IH|].
  - change (Z.pos p~1) with (2 * Z.pos p + Z.b2z true).
    replace (2 * Z.pos p + Z.b2z true - 1) with (2 * Z.pos p + Z.b2z false)
      by (cbn [Z.b2z]; lia).
    rewrite !gray_2x, lxor_2x, Z.lxor_nilpotent.
    cbn [Z.b2z]. rewrite lowbit_odd by lia.
    now destruct (Z.odd (Z.pos p)).
  - change (Z.pos p~0) with (2 * Z.pos p).
    rewrite lowbit_even by lia. rewrite <- IH.
    replace (2 * Z.pos p - 1) with (2 * (Z.pos p - 1) + Z.b2z true)
      by (cbn [Z.b2z]; lia).
    rewrite (dbl_b2z (Z.pos p)).
    rewrite !gray_2x, lxor_2x.
    replace (Z.pos p - 1) with (Z.pred (Z.pos p)) by lia.
    rewrite Z.odd_pred, <- Z.negb_odd.
    destruct (Z.odd (Z.pos p)); cbn [xorb negb Z.b2z]; lia.
  - reflexivity.
Qed.

Lemma gray_next (n : Z) : 0 < n -> Z.lxor (gray (n - 1)) (lowbit n) = gray n.
Proof.
  intros Hn. rewrite <- (gray_flip n Hn), <- Z.lxor_assoc, Z.lxor_nilpotent.
  apply Z.lxor_0_l.
Qed.

Lemma lxor_pow2_differ (x j : Z) : 0 <= j -> differ_only_at x (Z.lxor x (2 ^ j)) j.
Proof.
  intros Hj i Hi. rewrite Z.lxor_spec, Z.pow2_bits_eqb by assumption.
  destruct (Z.eqb_spec j i) as [->|Hne].
  - split; [reflexivity|]. intros _. destruct (Z.testbit x i); discriminate.
  - rewrite xorb_false_r. split; [congruence|]. intros ->. congruence.
Qed.

(** ** The De Bruijn lookup *)

Lemma debruijn_table :
  forallb (fun i => debruijn_index (2 ^ i) =? i) (zrange 0 32) = true.
Proof. vm_compute. reflexivity. Qed.

Lemma in_zrange (lo : Z) (len : nat) (z : Z) :
  In z (zrange lo len) <-> lo <= z < lo + Z.of_nat len.
Proof.
  unfold zrange. rewrite in_map_iff. split.
  - intros (k & <- & Hk). apply in_seq in Hk. lia.
  - intros Hz. exists (Z.to_nat (z - lo)). split; [lia|].
    apply in_seq. lia.
Qed.

Lemma debruijn_index_pow2 (i : Z) : 0 <= i <= 31 -> debruijn_index (2 ^ i) = i.
Proof.
  intros Hi. pose proof debruijn_table as T.
  rewrite forallb_forall in T.
  apply Z.eqb_eq, T, in_zrange. lia.
Qed.

(** ** Loops over arrays *)

Lemma for_n_S {S : Type} (n : nat) (body : nat -> S -> S) (s : S) :
  for_n (Datatypes.S n) body s = body n (for_n n body s).
Proof.
  unfold for_n. rewrite seq_S, fold_left_app. reflexivity.
Qed.

(** A loop that rewrites cell [k] from its own old value. *)
Lemma for_n_cellwise (g : nat -> Q -> Q) (n : nat) (r : nat -> Q) (j : nat) :
  for_n n (fun k a => upd a k (g k (a k))) r j
  = if (j <? n)%nat then g j (r j) else r j.
Proof.
  induction n as [|n IH].
  - reflexivity.
  - rewrite for_n_S. unfold upd at 1.
    destruct (Nat.eqb_spec j n) as [->|Hne].
    + rewrite IH. rewrite Nat.ltb_irrefl.
      destruct (Nat.ltb_spec n (S n)); [reflexivity|lia].
    + rewrite IH.
      destruct (Nat.ltb_spec j n), (Nat.ltb_spec j (S n)); try reflexivity; lia.
Qed.

Lemma for_n_add (m : nat -> Q) (n : nat) (r : nat -> Q) (j : nat) :
  for_n n (fun k a => upd a k (a k + m k)%Q) r j
  = if (j <? n)%nat then (r j + m j)%Q else r j.
Proof. exact (for_n_cellwise (fun k v => (v + m k)%Q) n r j). Qed.

Lemma for_n_sub (m : nat -> Q) (n : nat) (r : nat -> Q) (j : nat) :
  for_n n (fun k a => upd a k (a k - m k)%Q) r j
  = if (j <? n)%nat then (r j - m j)%Q else r j.
Proof. exact (for_n_cellwise (fun k v => (v - m k)%Q) n r j). Qed.

(** ** [check_feasibility] leaves its arguments alone *)

Lemma check_feasibility_r {T : Type} (A : arith T) (bip : binary_program T)
      (x : Z) (r : nat -> T) :
  cf_r (check_feasibility A bip x r) = r.
Proof.
  unfold check_feasibility.
  destruct (scan _ (equs bip) r 0 []) as [k1 s1].
  destruct (if k1 =? equs bip then _ else _) as [k2 s2].
  now destruct (k2 <? rows bip).
Qed.

Lemma check_feasibility_bip {T : Type} (A : arith T) (bip : binary_program T)
      (x : Z) (r : nat -> T) :
  cf_bip (check_feasibility A bip x r) = bip.
Proof.
  unfold check_feasibility.
  destruct (scan _ (equs bip) r 0 []) as [k1 s1].
  destruct (if k1 =? equs bip then _ else _) as [k2 s2].
  now destruct (k2 <? rows bip).
Qed.

(** ** One bit of the assignment changes *)

Lemma land_pow2_test (x j : Z) :
  0 <= j -> (Z.land x (2 ^ j) =? 0) = negb (Z.testbit x j).
Proof.
  intros Hj. destruct (Z.testbit x j) eqn:E; cbn [negb].
  - apply Z.eqb_neq. intros H0.
    assert (T : Z.testbit (Z.land x (2 ^ j)) j = true)
      by (rewrite Z.land_spec, E, Z.pow2_bits_true; [reflexivity|assumption]).
    rewrite H0, Z.bits_0 in T. discriminate.
  - apply Z.eqb_eq, Z.bits_inj'. intros i Hi.
    rewrite Z.land_spec, Z.bits_0, Z.pow2_bits_eqb by assumption.
    destruct (Z.eqb_spec j i) as [->|]; [now rewrite E|apply andb_false_r].
Qed.

Section BitSum.
Variable a : nat -> Q.

Lemma bit_sum_other (x : Z) (j : nat) (l : list nat) :
  ~ In j l -> bit_sum a (Z.lxor x (2 ^ Z.of_nat j)) l = bit_sum a x l.
Proof.
  induction l as [|c l IH]; intros Hn; [reflexivity|].
  cbn [bit_sum fold_right].
  fold (bit_sum a (Z.lxor x (2 ^ Z.of_nat j)) l). fold (bit_sum a x l).
  rewrite IH by (intros H; apply Hn; now right).
  rewrite Z.lxor_spec, Z.pow2_bits_eqb by lia.
  destruct (Z.eqb_spec (Z.of_nat j) (Z.of_nat c)) as [E|_].
  - exfalso. apply Hn. left. lia.
  - now rewrite xorb_false_r.
Qed.

Lemma bit_sum_flip (x : Z) (j : nat) (l : list nat) :
  NoDup l -> In j l ->
  (bit_sum a (Z.lxor x (2 ^ Z.of_nat j)) l
   == bit_sum a x l + (if Z.testbit x (Z.of_nat j) then - a j else a j))%Q.
Proof.
  induction l as [|c l IH]; intros Hnd Hin; [destruct Hin|].
  inversion Hnd as [|? ? Hc Hl]; subst.
  cbn [bit_sum fold_right].
  fold (bit_sum a (Z.lxor x (2 ^ Z.of_nat j)) l). fold (bit_sum a x l).
  destruct (Nat.eq_dec c j) as [->|Hne].
  - rewrite bit_sum_other by assumption.
    rewrite Z.lxor_spec, Z.pow2_bits_true by lia.
    destruct (Z.testbit x (Z.of_nat j)); cbn [xorb]; ring.
  - destruct Hin as [->|Hin]; [congruence|].
    rewrite Z.lxor_spec, Z.pow2_bits_false by lia.
    rewrite xorb_false_r. specialize (IH Hl Hin).
    destruct (Z.testbit x (Z.of_nat c)); rewrite IH; ring.
Qed.
End BitSum.

Lemma residual_flip (bip : BIP) (x : Z) (j k : nat) :
  (j < Z.to_nat (cols bip))%nat ->
  (residual bip (Z.lxor x (2 ^ Z.of_nat j)) k
   == residual bip x k
      + (if Z.testbit x (Z.of_nat j) then - ac bip j k else ac bip j k))%Q.
Proof.
  intros Hj. unfold residual, lhs_sum.
  rewrite (bit_sum_flip (fun c => ac bip c k) x j)
    by (try apply seq_NoDup; apply in_seq; lia).
  ring.
Qed.

(** ** The loop of [bip_enumerate], in any arithmetic *)

Lemma u32_small (z : Z) : 0 <= z < 2 ^ 32 -> u32 z = z.
Proof. apply Z.mod_small. Qed.

Lemma pow2_cols_le (c : Z) : 1 <= c <= 32 -> 2 <= 2 ^ c <= 2 ^ 32.
Proof.
  intros Hc. split.
  - change 2 with (2 ^ 1) at 1. apply Z.pow_le_mono_r; lia.
  - apply Z.pow_le_mono_r; lia.
Qed.

Lemma zrange_cons (lo : Z) (len : nat) :
  zrange lo (S len) = lo :: zrange (lo + 1) len.
Proof.
  unfold zrange. cbn [seq map]. f_equal; [lia|].
  rewrite <- seq_shift, map_map. apply map_ext. intros k. lia.
Qed.

Lemma zrange_length (lo : Z) (len : nat) : length (zrange lo len) = len.
Proof. unfold zrange. now rewrite length_map, length_seq. Qed.

Lemma zrange_nth (lo : Z) (len k : nat) :
  (k < len)%nat -> nth_error (zrange lo len) k = Some (lo + Z.of_nat k).
Proof.
  intros Hk. unfold zrange.
  rewrite nth_error_map, nth_error_seq.
  destruct (Nat.ltb_spec k len); [reflexivity|lia].
Qed.

Lemma initial_negn (c : Z) :
  1 <= c <= 32 ->
  u32 (u32 (Z.shiftl 1 (c - 1)) + u32 (u32 (Z.shiftl 1 (c - 1)) - 1)) = 2 ^ c - 1.
Proof.
  intros Hc.
  rewrite Z.shiftl_1_l.
  assert (H1 : 1 <= 2 ^ (c - 1) <= 2 ^ 31).
  { split; [|apply Z.pow_le_mono_r; lia].
    change 1 with (2 ^ 0) at 1. apply Z.pow_le_mono_r; lia. }
  assert (H2 : 2 ^ c = 2 * 2 ^ (c - 1)).
  { replace c with (Z.succ (c - 1)) at 1 by lia. apply Z.pow_succ_r. lia. }
  change (2 ^ 31) with 2147483648 in H1.
  rewrite (u32_small (2 ^ (c - 1))) by (change (2 ^ 32) with 4294967296; lia).
  rewrite (u32_small (2 ^ (c - 1) - 1)) by (change (2 ^ 32) with 4294967296; lia).
  rewrite u32_small by (change (2 ^ 32) with 4294967296; lia).
  lia.
Qed.

Section EnumLoop.
Context {T : Type} (A : arith T).
Variable bip : binary_program T.
Hypothesis Hcols : 1 <= cols bip <= 32.

(** One iteration: the next Gray code word, the flip it logs, and the
    column it adds to or subtracts from the residuals. *)
Lemma enum_step_spec (i : Z) (st : enum_state T) :
  enum_inv bip i st -> i < 2 ^ cols bip - 1 ->
  enum_inv bip (i + 1) (enum_step A bip st) /\
  e_visits (enum_step A bip st)
    = e_visits st ++ [(gray (i + 1), e_r (enum_step A bip st))] /\
  e_flips (enum_step A bip st)
    = e_flips st ++ [mkFlip (lowbit (i + 1)) (ctz (i + 1))] /\
  e_negn (enum_step A bip st) = e_negn st - 1 /\
  0 <= ctz (i + 1) < cols bip /\
  gray (i + 1) = Z.lxor (gray i) (2 ^ ctz (i + 1)) /\
  e_r (enum_step A bip st)
    = if Z.testbit (gray (i + 1)) (ctz (i + 1))
      then for_n (Z.to_nat (rows bip))
                 (fun k r => upd r k (a_add A (r k)
                                        (ac bip (Z.to_nat (ctz (i + 1))) k)))
                 (e_r st)
      else for_n (Z.to_nat (rows bip))
                 (fun k r => upd r k (a_sub A (r k)
                                        (ac bip (Z.to_nat (ctz (i + 1))) k)))
                 (e_r st).
Proof.
  intros (Hi & Hn & Hnegn & Hx) Hlt.
  pose proof (pow2_cols_le _ Hcols) as Hpow.
  assert (Hc : cols bip = Z.of_nat (Z.to_nat (cols bip))) by lia.
  assert (Hn' : e_n st = i + 1) by (rewrite Hn; apply u32_small; lia).
  assert (Hum : Z.land (e_n st) (e_negn st) = lowbit (i + 1)).
  { rewrite Hn', Hnegn.
    replace (2 ^ cols bip - 1 - i) with (2 ^ cols bip - (i + 1)) by lia.
    rewrite Hc. apply land_neg. rewrite <- Hc. lia. }
  assert (Hctz : 0 <= ctz (i + 1) < cols bip).
  { pose proof (ctz_range (Z.to_nat (cols bip)) (i + 1)) as R.
    rewrite <- Hc in R. apply R. lia. }
  assert (Hidx : debruijn_index (lowbit (i + 1)) = ctz (i + 1))
    by (apply debruijn_index_pow2; lia).
  assert (Hx' : Z.lxor (e_x st) (lowbit (i + 1)) = gray (i + 1)).
  { rewrite Hx. replace i with (i + 1 - 1) at 1 by lia. apply gray_next. lia. }
  unfold enum_step, visit. cbn [e_visits e_flips e_negn e_r].
  rewrite Hum, Hidx, Hx', check_feasibility_r.
  split; [|split; [reflexivity|split; [reflexivity|split; [|split; [exact Hctz|split]]]]].
  - unfold enum_inv. cbn [e_n e_negn e_x].
    split; [lia|]. split; [rewrite Hn'; f_equal; lia|].
    split; [rewrite Hnegn, u32_small; lia|reflexivity].
  - rewrite Hnegn. rewrite u32_small; lia.
  - rewrite <- Hx', Hx. reflexivity.
  - unfold lowbit. rewrite land_pow2_test, negb_involutive by lia.
    reflexivity.
Qed.

(** The loop runs until [negn] is zero, flipping through the Gray code. *)
Lemma enum_loop_fuel_spec (fuel : nat) :
  forall (i : Z) (st : enum_state T),
    enum_inv bip i st -> fuel = Z.to_nat (2 ^ cols bip - 1 - i) ->
    let st' := enum_loop_fuel A bip fuel st in
    e_negn st' = 0 /\
    map fst (e_visits st')
      = map fst (e_visits st) ++ map gray (zrange (i + 1) fuel) /\
    e_flips st'
      = e_flips st
        ++ map (fun n => mkFlip (lowbit n) (ctz n)) (zrange (i + 1) fuel).
Proof.
  induction fuel as [|fuel IH]; intros i st Hinv Hfuel.
  - cbn [enum_loop_fuel zrange seq map]. rewrite !app_nil_r.
    destruct Hinv as (Hi & _ & Hnegn & _).
    split; [lia|]. split; reflexivity.
  - pose proof Hinv as (Hi & _ & Hnegn & _).
    cbn [enum_loop_fuel].
    destruct (Z.eqb_spec (e_negn st) 0) as [E|_]; [lia|].
    assert (Hlt : i < 2 ^ cols bip - 1) by lia.
    destruct (enum_step_spec i st Hinv Hlt) as (Hinv' & Hv & Hf & _).
    assert (Hfuel' : fuel = Z.to_nat (2 ^ cols bip - 1 - (i + 1))) by lia.
    destruct (IH (i + 1) _ Hinv' Hfuel') as (H0 & Hvs & Hfs).
    rewrite zrange_cons. cbn [map].
    split; [exact H0|]. split.
    + rewrite Hvs, Hv, map_app, <- app_assoc. reflexivity.
    + rewrite Hfs, Hf, <- app_assoc. reflexivity.
Qed.

(** The state in which [bip_enumerate] enters its loop. *)
Lemma enum_initial_inv (r0 : nat -> T) :
  let st0 := visit A bip 0 1 0 r0 0 [] [] [] in
  let negn1 := u32 (Z.shiftl 1 (cols bip - 1)) in
  let negn2 := u32 (negn1 + u32 (negn1 - 1)) in
  let st := mkES (e_x st0) (e_n st0) negn2 (e_r st0) (e_sol_count st0)
                 (e_visits st0) (e_flips st0) (e_reported st0) in
  enum_inv bip 0 st /\ e_negn st = 2 ^ cols bip - 1 /\
  e_visits st = [(0, r0)] /\ e_flips st = [] /\ e_r st = r0.
Proof.
  cbv zeta. pose proof (pow2_cols_le _ Hcols) as Hpow.
  rewrite initial_negn by assumption.
  unfold visit, enum_inv. cbn [e_x e_n e_negn e_r e_visits e_flips app].
  rewrite check_feasibility_r.
  repeat split; try lia; reflexivity.
Qed.

(** The assignments [bip_enumerate] visits and the flips it does. *)
Lemma bip_enumerate_spec :
  map fst (visits (bip_enumerate A bip))
    = map gray (zrange 0 (Z.to_nat (2 ^ cols bip))) /\
  flips (bip_enumerate A bip)
    = map (fun n => mkFlip (lowbit n) (ctz n))
          (zrange 1 (Z.to_nat (2 ^ cols bip - 1))).
Proof.
  pose proof (pow2_cols_le _ Hcols) as Hpow.
  unfold bip_enumerate.
  destruct (Z.eqb_spec (cols bip) 0) as [E|_]; [lia|].
  cbn [visits flips].
  set (r0 := for_n _ _ _).
  destruct (enum_initial_inv r0) as (Hinv & Hnegn & Hv0 & Hf0 & _).
  cbv zeta in Hinv, Hnegn, Hv0, Hf0.
  set (st := mkES _ _ _ _ _ _ _ _) in *.
  unfold enum_loop.
  destruct (enum_loop_fuel_spec (Z.to_nat (e_negn st)) 0 st Hinv)
    as (_ & Hv & Hf).
  { rewrite Hnegn. f_equal. lia. }
  rewrite Hnegn in *. split.
  - rewrite Hv, Hv0. cbn [map app fst].
    replace (Z.to_nat (2 ^ cols bip)) with (S (Z.to_nat (2 ^ cols bip - 1))) by lia.
    rewrite zrange_cons. reflexivity.
  - rewrite Hf, Hf0. reflexivity.
Qed.
End EnumLoop.

(** The [while] loop stops exactly when its guard fails: the fuel handed to
    [enum_loop_fuel] is never what ends it. *)
Lemma enum_loop_unfold {T : Type} (A : arith T) (bip : binary_program T)
      (st : enum_state T) :
  0 <= e_negn st < 2 ^ 32 ->
  enum_loop A bip st
  = if e_negn st =? 0 then st else enum_loop A bip (enum_step A bip st).
Proof.
  intros Hn. unfold enum_loop.
  destruct (Z.eqb_spec (e_negn st) 0) as [E|Hne].
  - rewrite E. reflexivity.
  - replace (Z.to_nat (e_negn st)) with (S (Z.to_nat (e_negn st - 1))) by lia.
    cbn [enum_loop_fuel].
    destruct (Z.eqb_spec (e_negn st) 0); [contradiction|].
    f_equal. unfold enum_step, visit. cbn [e_negn].
    rewrite u32_small by lia. reflexivity.
Qed.

(** ** The residuals in exact arithmetic *)

Lemma bit_sum_zero (a : nat -> Q) (l : list nat) : bit_sum a 0 l = 0%Q.
Proof.
  induction l as [|c l IH]; [reflexivity|].
  cbn [bit_sum fold_right]. fold (bit_sum a 0 l). now rewrite Z.bits_0.
Qed.

Section ExactResiduals.
Variable bip : BIP.
Hypothesis Hcols : 1 <= cols bip <= 32.

Lemma enum_step_exact (i : Z) (st : enum_state Q) :
  enum_inv bip i st -> i < 2 ^ cols bip - 1 ->
  residuals_exact bip st -> residuals_exact bip (enum_step exact bip st).
Proof.
  intros Hinv Hlt Hr.
  destruct (enum_step_spec exact bip Hcols i st Hinv Hlt)
    as ((_ & _ & _ & Hx') & _ & _ & _ & Hctz & Hg & Hr').
  destruct Hinv as (_ & _ & _ & Hx).
  intros k Hk. rewrite Hr', Hx', Hg.
  set (j := ctz (i + 1)) in *.
  rewrite Z.lxor_spec, Z.pow2_bits_true by lia.
  replace (2 ^ j) with (2 ^ Z.of_nat (Z.to_nat j)) by (f_equal; lia).
  rewrite residual_flip by lia.
  rewrite Z2Nat.id by lia.
  pose proof (Hr k Hk) as Hrk. rewrite Hx in Hrk.
  cbn [a_add a_sub exact].
  destruct (Z.testbit (gray i) j); cbn [xorb];
    [rewrite for_n_sub|rewrite for_n_add];
    (destruct (Nat.ltb_spec k (Z.to_nat (rows bip))); [|lia]);
    rewrite Hrk; ring.
Qed.

Lemma enum_loop_fuel_exact (fuel : nat) :
  forall (i : Z) (st : enum_state Q),
    enum_inv bip i st -> fuel = Z.to_nat (2 ^ cols bip - 1 - i) ->
    residuals_exact bip st -> visits_exact bip (e_visits st) ->
    visits_exact bip (e_visits (enum_loop_fuel exact bip fuel st)).
Proof.
  induction fuel as [|fuel IH]; intros i st Hinv Hfuel Hr Hvs; [exact Hvs|].
  pose proof Hinv as (Hi & _ & Hnegn & _).
  cbn [enum_loop_fuel].
  destruct (Z.eqb_spec (e_negn st) 0) as [E|_]; [lia|].
  assert (Hlt : i < 2 ^ cols bip - 1) by lia.
  pose proof (enum_step_exact i st Hinv Hlt Hr) as Hr'.
  destruct (enum_step_spec exact bip Hcols i st Hinv Hlt)
    as (Hinv' & Hv & _).
  apply (IH (i + 1)); [exact Hinv'|lia|exact Hr'|].
  rewrite Hv. apply Forall_app. split; [exact Hvs|].
  constructor; [|constructor]. cbn [fst snd].
  destruct Hinv' as (_ & _ & _ & Hx'). rewrite <- Hx'. exact Hr'.
Qed.

(** In exact arithmetic every visit is logged with the residuals of its
    assignment. *)
Lemma bip_enumerate_exact : visits_exact bip (visits (bip_enumerate exact bip)).
Proof.
  pose proof (pow2_cols_le _ Hcols) as Hpow.
  unfold bip_enumerate.
  destruct (Z.eqb_spec (cols bip) 0) as [E|_]; [lia|].
  cbn [visits].
  set (r0 := for_n _ _ _).
  destruct (enum_initial_inv exact bip Hcols r0) as (Hinv & Hnegn & Hv0 & _ & Hr0).
  cbv zeta in Hinv, Hnegn, Hv0, Hr0.
  set (st := mkES _ _ _ _ _ _ _ _) in *.
  assert (Hres : forall k, (k < Z.to_nat (rows bip))%nat ->
                           (r0 k == residual bip 0 k)%Q).
  { intros k Hk. unfold r0.
    rewrite (for_n_cellwise (fun k _ => a_opp exact (rhs_ord bip k))).
    destruct (Nat.ltb_spec k (Z.to_nat (rows bip))); [|lia].
    unfold residual, lhs_sum. rewrite bit_sum_zero. cbn [a_opp exact]. ring. }
  unfold enum_loop.
  apply (enum_loop_fuel_exact _ 0); [exact Hinv|rewrite Hnegn; f_equal; lia| |].
  - intros k Hk. rewrite Hr0. destruct Hinv as (_ & _ & _ & ->).
    exact (Hres k Hk).
  - rewrite Hv0. constructor; [|constructor]. exact Hres.
Qed.
End ExactResiduals.

(** ** The enumeration order *)

Lemma zrange_NoDup (lo : Z) (len : nat) : NoDup (zrange lo len).
Proof.
  revert lo. induction len as [|len IH]; intros lo.
  - constructor.
  - rewrite zrange_cons. constructor; [|apply IH].
    rewrite in_zrange. lia.
Qed.

Lemma gray_codes_NoDup (c : nat) :
  NoDup (map gray (zrange 0 (Z.to_nat (2 ^ Z.of_nat c)))).
Proof.
  apply NoDup_map_NoDup_ForallPairs; [|apply zrange_NoDup].
  intros n m Hn Hm E. apply in_zrange in Hn, Hm.
  apply (gray_inj c); [lia|lia|exact E].
Qed.

Lemma gray_codes_nth (len i : nat) (x : Z) :
  nth_error (map gray (zrange 0 len)) i = Some x ->
  (i < len)%nat /\ x = gray (Z.of_nat i).
Proof.
  intros H.
  assert (Hi : (i < len)%nat).
  { assert (B : (i < List.length (map gray (zrange 0 len)))%nat)
      by (apply nth_error_Some; congruence).
    now rewrite length_map, zrange_length in B. }
  split; [exact Hi|].
  rewrite nth_error_map, zrange_nth in H by assumption.
  cbn in H. congruence.
Qed.

(** C8.  On a model with [cols = 0], [bip_enumerate] returns the count 0 at
    once: it visits no assignment (no call of [check_feasibility]), does no
    flip and never calls the reporter. *)
Theorem enumerate_no_columns {T : Type} (A : arith T) (bip : binary_program T) :
  cols bip = 0 ->
  bip_enumerate A bip = mkER 0 [] [] [].
Proof.
  intros H. unfold bip_enumerate. now rewrite H.
Qed.

(** C10.  For a model with [1 <= cols <= 32] the visited assignments are the
    binary-reflected Gray code: the first visit is [x = 0], and after the
    [n]-th flip ([1 <= n <= 2^cols - 1]) the assignment is [n XOR (n >> 1)];
    the mask of that flip is [2^j] (and its column index [j]) for the lowest
    set bit [j] of [n]. *)
Theorem enumerate_is_reflected_gray_code {T : Type} (A : arith T)
        (bip : binary_program T) :
  1 <= cols bip <= 32 ->
  nth_error (map fst (visits (bip_enumerate A bip))) 0 = Some 0 /\
  forall n, 1 <= n <= 2 ^ cols bip - 1 ->
    nth_error (map fst (visits (bip_enumerate A bip))) (Z.to_nat n)
      = Some (Z.lxor n (Z.shiftr n 1)) /\
    exists j,
      nth_error (flips (bip_enumerate A bip)) (Z.to_nat (n - 1))
        = Some (mkFlip (2 ^ j) j) /\
      Z.testbit n j = true /\
      forall i, 0 <= i < j -> Z.testbit n i = false.
Proof.
  intros Hc. pose proof (pow2_cols_le _ Hc) as Hpow.
  destruct (bip_enumerate_spec A bip Hc) as (Hv & Hf).
  rewrite Hv, Hf. split.
  - rewrite nth_error_map, zrange_nth by lia. reflexivity.
  - intros n Hn. split.
    + rewrite nth_error_map, zrange_nth by lia.
      cbn [option_map]. rewrite Z2Nat.id by lia. reflexivity.
    + exists (ctz n). destruct (ctz_spec n) as [T1 T2]; [lia|].
      split; [|split; assumption].
      rewrite nth_error_map, zrange_nth by lia.
      cbn [option_map]. replace (1 + Z.of_nat (Z.to_nat (n - 1))) with n by lia.
      reflexivity.
Qed.

(** C1.  For a model with [1 <= cols <= 32], [bip_enumerate] visits
    [2^cols] assignments, all below [2^cols] and without repetition, so every
    assignment exactly once; two consecutive visits differ in exactly one
    bit, which is one of the [cols] variables; and the loop does
    [2^cols - 1] flips after the first visit. *)
Theorem enumerate_visits_each_assignment_once {T : Type} (A : arith T)
        (bip : binary_program T) :
  1 <= cols bip <= 32 ->
  let vs := map fst (visits (bip_enumerate A bip)) in
  Z.of_nat (List.length vs) = 2 ^ cols bip /\
  NoDup vs /\
  (forall a, In a vs -> 0 <= a < 2 ^ cols bip) /\
  (forall a, 0 <= a < 2 ^ cols bip -> count_occ Z.eq_dec vs a = 1%nat) /\
  (forall i x y, nth_error vs i = Some x -> nth_error vs (S i) = Some y ->
                 exists j, 0 <= j < cols bip /\ differ_only_at x y j) /\
  Z.of_nat (List.length (flips (bip_enumerate A bip))) = 2 ^ cols bip - 1.
Proof.
  intros Hc vs. pose proof (pow2_cols_le _ Hc) as Hpow.
  destruct (bip_enumerate_spec A bip Hc) as (Hv & Hf).
  assert (Hcn : cols bip = Z.of_nat (Z.to_nat (cols bip))) by lia.
  assert (Hlen : List.length vs = Z.to_nat (2 ^ cols bip))
    by (unfold vs; now rewrite Hv, length_map, zrange_length).
  assert (Hnd : NoDup vs).
  { unfold vs. rewrite Hv, Hcn. apply gray_codes_NoDup. }
  assert (Hin : forall a, In a vs -> 0 <= a < 2 ^ cols bip).
  { unfold vs. rewrite Hv. intros a Ha.
    apply in_map_iff in Ha. destruct Ha as (n & <- & Hn).
    apply in_zrange in Hn. rewrite Hcn. apply gray_range. rewrite <- Hcn. lia. }
  repeat match goal with |- _ /\ _ => split end.
  - lia.
  - exact Hnd.
  - exact Hin.
  - intros a Ha.
    apply (proj1 (NoDup_count_occ' Z.eq_dec vs) Hnd).
    apply (NoDup_length_incl Hnd (l' := zrange 0 (Z.to_nat (2 ^ cols bip)))).
    + rewrite zrange_length. lia.
    + intros b Hb. apply in_zrange. specialize (Hin b Hb). lia.
    + apply in_zrange. lia.
  - unfold vs. rewrite Hv. intros i x y Hx Hy.
    apply gray_codes_nth in Hx, Hy.
    destruct Hx as [_ ->]. destruct Hy as [Hi ->].
    assert (Hn : 0 < Z.of_nat (S i) < 2 ^ Z.of_nat (Z.to_nat (cols bip)))
      by (rewrite <- Hcn; lia).
    exists (ctz (Z.of_nat (S i))). split.
    + pose proof (ctz_range _ _ Hn) as R. rewrite <- Hcn in R. exact R.
    + rewrite <- (gray_next (Z.of_nat (S i))) by lia.
      replace (Z.of_nat (S i) - 1) with (Z.of_nat i) by lia.
      apply lxor_pow2_differ, ctz_nonneg.
  - rewrite Hf, length_map, zrange_length. lia.
Qed.

(** In exact arithmetic, at every visit of [bip_enumerate] (the first one at
    [x = 0] and the one after each flip) the incrementally maintained
    residual of every row [k] equals the sum of [ac[c][k]] over the bits [c]
    set in [x], minus [rhs_ord[k]]. *)
Lemma incremental_residual_is_exact (bip : BIP) :
  1 <= cols bip <= 32 ->
  forall (x : Z) (r : nat -> Q),
    In (x, r) (visits (bip_enumerate exact bip)) ->
    forall k, (k < Z.to_nat (rows bip))%nat ->
      (r k == bit_sum (fun c => ac bip c k) x (seq 0 (Z.to_nat (cols bip)))
              - rhs_ord bip k)%Q.
Proof.
  intros Hc x r Hin k Hk.
  pose proof (bip_enumerate_exact bip Hc) as Hex.
  unfold visits_exact in Hex. rewrite Forall_forall in Hex.
  exact (Hex (x, r) Hin k Hk).
Qed.

(** C3.  For [0 <= i <= 31] the De Bruijn lookup maps the mask [1u << i]
    to [i]: [index32[((1u << i) * 0x077CB531) >> 27] = i] modulo [2^32]; and
    in every flip of [bip_enumerate] the mask has exactly one bit set, at a
    position below [cols], and [colidx] is that position. *)
Theorem debruijn_lookup_finds_bit_index (i : Z) :
  0 <= i <= 31 ->
  nth (Z.to_nat (Z.shiftr (u32 (u32 (Z.shiftl 1 i) * DEBRUIJN32)) 27)) index32 0
    = i /\
  forall (T : Type) (A : arith T) (bip : binary_program T),
    1 <= cols bip <= 32 ->
    forall f, In f (flips (bip_enumerate A bip)) ->
      exists j, 0 <= j < cols bip /\
                f_updatemask f = 2 ^ j /\ f_colidx f = j /\
                f_colidx f = debruijn_index (f_updatemask f).
Proof.
  intros Hi. split.
  - rewrite Z.shiftl_1_l.
    assert (H : 2 ^ i < 2 ^ 32) by (apply Z.pow_lt_mono_r; lia).
    rewrite (u32_small (2 ^ i)) by lia.
    apply debruijn_index_pow2. lia.
  - intros T A bip Hc f Hf.
    destruct (bip_enumerate_spec A bip Hc) as (_ & Hfl).
    rewrite Hfl in Hf. apply in_map_iff in Hf. destruct Hf as (n & <- & Hn).
    apply in_zrange in Hn. pose proof (pow2_cols_le _ Hc) as Hpow.
    assert (Hcn : cols bip = Z.of_nat (Z.to_nat (cols bip))) by lia.
    assert (Hctz : 0 <= ctz n < cols bip).
    { pose proof (ctz_range (Z.to_nat (cols bip)) n) as R.
      rewrite <- Hcn in R. apply R. lia. }
    exists (ctz n). cbn [f_updatemask f_colidx].
    repeat split; try lia; try reflexivity.
    symmetry. apply debruijn_index_pow2. lia.
Qed.

(** ** [check_feasibility] *)

(** The scanning loop stops exactly when its guard fails. *)
Lemma scan_unfold {T : Type} (test : T -> bool) (bound : Z) (r : nat -> T)
      (k : Z) (seen : list Z) :
  scan test bound r k seen
  = if k <? bound then
      if test (r (Z.to_nat k))
      then scan test bound r (k + 1) (seen ++ [k])
      else (k, seen ++ [k])
    else (k, seen).
Proof.
  unfold scan. destruct (Z.ltb_spec k bound) as [Hlt|Hge].
  - replace (Z.to_nat (bound - k)) with (S (Z.to_nat (bound - (k + 1)))) by lia.
    cbn [scan_fuel]. destruct (Z.ltb_spec k bound); [reflexivity|lia].
  - replace (Z.to_nat (bound - k)) with O by lia. reflexivity.
Qed.

(** What a scan from [k] returns: the first index in [k, bound) that fails
    the test, or [bound]; and it has read exactly the cells up to there. *)
Lemma scan_spec {T : Type} (test : T -> bool) (bound : Z) (r : nat -> T)
      (d : nat) :
  forall (k : Z) (seen : list Z),
    0 <= k -> d = Z.to_nat (bound - k) ->
    exists k',
      k <= k' /\ (k' <= bound \/ k' = k) /\
      (forall i, k <= i < k' -> test (r (Z.to_nat i)) = true) /\
      (k' < bound -> test (r (Z.to_nat k')) = false) /\
      scan test bound r k seen
      = (k', seen ++ zrange k (Z.to_nat (if k' <? bound then k' - k + 1 else k' - k))).
Proof.
  induction d as [|d IH]; intros k seen Hk Hd; rewrite scan_unfold.
  - destruct (Z.ltb_spec k bound) as [Hlt|Hge]; [lia|].
    exists k. destruct (Z.ltb_spec k bound); [lia|].
    rewrite Z.sub_diag. cbn [Z.to_nat zrange seq map].
    rewrite app_nil_r.
    split; [lia|]. split; [lia|]. split; [intros; lia|]. split; [intros; lia|].
    reflexivity.
  - destruct (Z.ltb_spec k bound) as [Hlt|Hge]; [|lia].
    destruct (test (r (Z.to_nat k))) eqn:Ht.
    + destruct (IH (k + 1) (seen ++ [k])) as (k' & H1 & H2 & H3 & H4 & H5); try lia.
      exists k'. split; [lia|]. split; [lia|]. split; [|split; [exact H4|]].
      * intros i Hi. destruct (Z.eq_dec i k) as [->|Hne]; [exact Ht|apply H3; lia].
      * rewrite H5, <- app_assoc. f_equal. f_equal.
        destruct (Z.ltb_spec k' bound).
        -- replace (Z.to_nat (k' - k + 1)) with (S (Z.to_nat (k' - (k + 1) + 1))) by lia.
           rewrite zrange_cons. reflexivity.
        -- replace (Z.to_nat (k' - k)) with (S (Z.to_nat (k' - (k + 1)))) by lia.
           rewrite zrange_cons. reflexivity.
    + exists k. destruct (Z.ltb_spec k bound); [|lia].
      replace (k - k + 1) with 1 by lia.
      split; [lia|]. split; [lia|]. split; [intros; lia|].
      split; [intros _; exact Ht|].
      change (Z.to_nat 1) with 1%nat. rewrite zrange_cons. reflexivity.
Qed.

(** C7.  With [0 <= equs <= rows], [check_feasibility] returns 1 exactly
    when [r[k] == 0.0] for all [k < equs] and [r[k] <= 0.0] for all
    [equs <= k < rows], and 0 otherwise; at the first nonzero equality
    residual [r[j]] it returns 0 having read [r[0..j]] only, so no inequality
    residual; and it leaves the residual array and the model as they were.
    This holds in any arithmetic, [==] and [<=] being its comparisons. *)
Theorem check_feasibility_classifies {T : Type} (A : arith T)
        (bip : binary_program T) (x : Z) (r : nat -> T) :
  0 <= equs bip <= rows bip ->
  let res := check_feasibility A bip x r in
  (cf_ret res = 1 <->
     (forall k, 0 <= k < equs bip ->
                a_eqb A (r (Z.to_nat k)) (a_zero A) = true) /\
     (forall k, equs bip <= k < rows bip ->
                a_leb A (r (Z.to_nat k)) (a_zero A) = true)) /\
  (cf_ret res = 0 \/ cf_ret res = 1) /\
  (forall j, 0 <= j < equs bip ->
     a_eqb A (r (Z.to_nat j)) (a_zero A) = false ->
     (forall i, 0 <= i < j -> a_eqb A (r (Z.to_nat i)) (a_zero A) = true) ->
     cf_ret res = 0 /\
     cf_examined res = zrange 0 (Z.to_nat (j + 1)) /\
     forall k, In k (cf_examined res) -> 0 <= k < equs bip) /\
  cf_r res = r /\ cf_bip res = bip.
Proof.
  intros He res. unfold res, check_feasibility.
  destruct (scan_spec (fun v => a_eqb A v (a_zero A)) (equs bip) r
                      (Z.to_nat (equs bip - 0)) 0 [])
    as (k1 & A1 & A2 & A3 & A4 & A5); [lia|reflexivity|].
  rewrite A5. cbn [app].
  assert (Hk1 : k1 <= equs bip) by lia.
  destruct (Z.eqb_spec k1 (equs bip)) as [E1|N1].
  - (* all equality residuals are zero *)
    destruct (scan_spec (fun v => a_leb A v (a_zero A)) (rows bip) r
                        (Z.to_nat (rows bip - k1)) k1
                        (zrange 0 (Z.to_nat (if k1 <? equs bip
                                             then k1 - 0 + 1 else k1 - 0))))
      as (k2 & B1 & B2 & B3 & B4 & B5); [lia|reflexivity|].
    rewrite B5.
    assert (Hk2 : k2 <= rows bip) by lia.
    destruct (Z.ltb_spec k2 (rows bip)) as [L2|G2];
      cbn [cf_ret cf_r cf_bip cf_examined].
    + split; [|split; [now left|split; [|split; reflexivity]]].
      * split; [discriminate|]. intros [_ Hle].
        specialize (B4 L2). cbv beta in B4.
        rewrite Hle in B4 by lia. discriminate.
      * intros j Hj Hnz _. rewrite A3 in Hnz by lia. discriminate.
    + split; [|split; [now right|split; [|split; reflexivity]]].
      * split; [|reflexivity]. intros _. split.
        -- intros k Hk. apply A3. lia.
        -- intros k Hk. apply (B3 k). lia.
      * intros j Hj Hnz _. rewrite A3 in Hnz by lia. discriminate.
  - (* a nonzero equality residual at [k1] *)
    assert (L1 : k1 < equs bip) by lia.
    specialize (A4 L1). cbv beta in A4.
    destruct (Z.ltb_spec k1 (equs bip)) as [_|]; [|lia].
    destruct (Z.ltb_spec k1 (rows bip)) as [_|]; [|lia].
    cbn [cf_ret cf_r cf_bip cf_examined].
    split; [|split; [now left|split; [|split; reflexivity]]].
    + split; [discriminate|]. intros [Hz _].
      rewrite Hz in A4 by lia. discriminate.
    + intros j Hj Hnz Hbefore.
      assert (j = k1).
      { destruct (Z.lt_trichotomy j k1) as [Hl|[->|Hg]]; [|reflexivity|].
        - rewrite A3 in Hnz by lia. discriminate.
        - rewrite Hbefore in A4 by lia. discriminate. }
      subst j. split; [reflexivity|]. split.
      * f_equal. lia.
      * intros k Hin. apply in_zrange in Hin. lia.
Qed.

(** ** [bip_preprocess]: the copy loops *)

Lemma for_n_ext {S : Type} (n : nat) (f g : nat -> S -> S) (s : S) :
  (forall k a, (k < n)%nat -> f k a = g k a) -> for_n n f s = for_n n g s.
Proof.
  induction n as [|n IH]; intros H; [reflexivity|].
  rewrite !for_n_S, IH by (intros; apply H; lia). apply H. lia.
Qed.

(** A loop over the columns that writes cell [(c, i)] of a matrix from the
    old content of that cell. *)
Lemma for_n_column (g : nat -> Q -> Q) (i m : nat) (a : nat -> nat -> Q)
      (c' i' : nat) :
  for_n m (fun c a' => upd2 a' c i (g c (a' c i))) a c' i'
  = if ((c' <? m)%nat && (i' =? i)%nat)%bool then g c' (a c' i) else a c' i'.
Proof.
  revert c' i'. induction m as [|m IH]; intros c' i'; [reflexivity|].
  rewrite for_n_S. unfold upd2 at 1. rewrite !IH.
  destruct (Nat.eqb_spec c' m) as [Hc|Hc]; destruct (Nat.eqb_spec i' i) as [Hi|Hi];
    cbn [andb]; rewrite ?andb_false_r, ?andb_true_r; try reflexivity.
  - subst. rewrite Nat.ltb_irrefl. cbn [andb].
    destruct (Nat.ltb_spec m (S m)); [reflexivity|lia].
  - destruct (Nat.ltb_spec c' m), (Nat.ltb_spec c' (S m)); try reflexivity; lia.
Qed.

(** The column loop of [store_row] only touches [ac]. *)
Lemma store_row_closed (b : BIP) (r cnt : nat) (neg : bool) :
  store_row b r cnt neg
  = set_ac (set_rhs_ord b (upd (rhs_ord b) cnt
                               (if neg then - rhs b r else rhs b r)%Q))
           (for_n (Z.to_nat (cols b))
                  (fun c a => upd2 a c cnt
                                   (if neg then - ar b r c else ar b r c)%Q)
                  (ac b)).
Proof.
  unfold store_row. cbn [set_rhs_ord cols].
  generalize (Z.to_nat (cols b)) as m.
  induction m as [|m IH].
  - destruct b; reflexivity.
  - rewrite !for_n_S, IH. reflexivity.
Qed.

Lemma store_row_ac (b : BIP) (r cnt : nat) (neg : bool) (c i : nat) :
  ac (store_row b r cnt neg) c i
  = if ((c <? Z.to_nat (cols b))%nat && (i =? cnt)%nat)%bool
    then (if neg then - ar b r c else ar b r c)%Q
    else ac b c i.
Proof.
  rewrite store_row_closed. cbn [set_ac ac].
  apply (for_n_column (fun c _ => (if neg then - ar b r c else ar b r c)%Q)).
Qed.

Lemma store_row_rhs_ord (b : BIP) (r cnt : nat) (neg : bool) (i : nat) :
  rhs_ord (store_row b r cnt neg) i
  = if (i =? cnt)%nat then (if neg then - rhs b r else rhs b r)%Q
    else rhs_ord b i.
Proof. rewrite store_row_closed. reflexivity. Qed.

Lemma picks_S (keep : Sense -> bool) (b : BIP) (n : nat) :
  picks keep b (S n)
  = picks keep b n ++ (if keep (sense b n) then [n] else []).
Proof. unfold picks. rewrite seq_S, filter_app. reflexivity. Qed.

(** The state after the first [n] iterations of a copy loop. *)
Lemma sel_loop_spec (keep : Sense -> bool) (bump : bool) (b0 : BIP)
      (cnt0 n : nat) :
  exists b cnt,
    for_n n (sel_body keep bump) (b0, cnt0) = (b, cnt) /\
    same_input b0 b /\
    cnt = (cnt0 + List.length (picks keep b0 n))%nat /\
    equs b = equs b0
             + (if bump then Z.of_nat (List.length (picks keep b0 n)) else 0) /\
    (forall c i,
        ac b c i
        = if ((cnt0 <=? i)%nat && (i <? cnt)%nat && (c <? Z.to_nat (cols b0))%nat)%bool
          then orient b0 (nth (i - cnt0) (picks keep b0 n) O)
                      (ar b0 (nth (i - cnt0) (picks keep b0 n) O) c)
          else ac b0 c i) /\
    (forall i,
        rhs_ord b i
        = if ((cnt0 <=? i)%nat && (i <? cnt)%nat)%bool
          then orient b0 (nth (i - cnt0) (picks keep b0 n) O)
                      (rhs b0 (nth (i - cnt0) (picks keep b0 n) O))
          else rhs_ord b0 i).
Proof.
  induction n as [|n IH].
  - exists b0, cnt0. cbn [picks seq filter List.length].
    split; [reflexivity|]. split; [repeat split|].
    split; [lia|]. split; [destruct bump; cbn; lia|]. split.
    + intros c i.
      destruct (Nat.leb_spec cnt0 i), (Nat.ltb_spec i cnt0); try reflexivity; lia.
    + intros i.
      destruct (Nat.leb_spec cnt0 i), (Nat.ltb_spec i cnt0); try reflexivity; lia.
  - destruct IH as (b & cnt & Hrun & Hsame & Hcnt & Hequs & Hac & Hrhs).
    rewrite for_n_S, Hrun. unfold sel_body.
    destruct Hsame as (Srows & Scols & Sar & Srhs & Ssense).
    rewrite picks_S, Ssense.
    destruct (keep (sense b0 n)) eqn:K.
    + (* row [n] is stored at [cnt] *)
      set (b' := store_row b n cnt (is_GE (sense b0 n))).
      assert (Hst : same_input b0 b').
      { unfold b'. rewrite store_row_closed. repeat split; assumption. }
      assert (Hlen : List.length (picks keep b0 n ++ [n])
                     = S (List.length (picks keep b0 n)))
        by (rewrite length_app; cbn; lia).
      assert (Hnth : forall i, (cnt0 <= i)%nat ->
                 nth (i - cnt0) (picks keep b0 n ++ [n]) O
                 = if (i <? cnt)%nat then nth (i - cnt0) (picks keep b0 n) O
                   else if (i =? cnt)%nat then n
                        else O).
      { intros i Hi. destruct (Nat.ltb_spec i cnt).
        - apply app_nth1. lia.
        - destruct (Nat.eqb_spec i cnt) as [->|Hne].
          + replace (cnt - cnt0)%nat with (List.length (picks keep b0 n)) by lia.
            apply nth_middle.
          + apply nth_overflow. rewrite Hlen. lia. }
      exists (if bump then set_equs b' (equs b' + 1) else b'), (S cnt).
      split; [reflexivity|].
      split; [destruct bump; [destruct Hst as (?&?&?&?&?); repeat split|]; assumption|].
      split; [rewrite Hlen; lia|].
      split.
      { destruct bump; cbn [set_equs equs]; [|unfold b'; rewrite store_row_closed; exact Hequs].
        unfold b'. rewrite store_row_closed. cbn [set_ac set_rhs_ord equs].
        rewrite Hequs, Hlen. lia. }
      split.
      * intros c i.
        transitivity (ac b' c i); [now destruct bump|].
        unfold b'. rewrite store_row_ac, Hac, Scols, Sar.
        destruct (Nat.leb_spec cnt0 i) as [L|L]; cbn [andb].
        -- rewrite (Hnth i L).
           destruct (Nat.ltb_spec c (Z.to_nat (cols b0))) as [C|C]; cbn [andb];
             rewrite ?andb_false_r; [|reflexivity].
           destruct (Nat.eqb_spec i cnt) as [->|Hne].
           ++ rewrite Nat.ltb_irrefl.
              destruct (Nat.ltb_spec cnt (S cnt)); [|lia].
              unfold orient. reflexivity.
           ++ destruct (Nat.ltb_spec i cnt), (Nat.ltb_spec i (S cnt));
                try reflexivity; lia.
        -- destruct (Nat.eqb_spec i cnt); [lia|].
           rewrite andb_false_r. reflexivity.
      * intros i.
        transitivity (rhs_ord b' i); [now destruct bump|].
        unfold b'. rewrite store_row_rhs_ord, Hrhs, Srhs.
        destruct (Nat.leb_spec cnt0 i) as [L|L]; cbn [andb].
        -- rewrite (Hnth i L).
           destruct (Nat.eqb_spec i cnt) as [->|Hne].
           ++ rewrite Nat.ltb_irrefl.
              destruct (Nat.ltb_spec cnt (S cnt)); [|lia].
              unfold orient. reflexivity.
           ++ destruct (Nat.ltb_spec i cnt), (Nat.ltb_spec i (S cnt));
                try reflexivity; lia.
        -- destruct (Nat.eqb_spec i cnt); [lia|reflexivity].
    + (* row [n] is skipped *)
      rewrite app_nil_r. exists b, cnt.
      split; [reflexivity|]. split; [repeat split; assumption|].
      split; [exact Hcnt|]. split; [exact Hequs|]. split; assumption.
Qed.

Lemma copy_equations_sel (st0 : BIP * nat) :
  copy_equations st0
  = for_n (Z.to_nat (rows (fst st0))) (sel_body is_EQ true) st0.
Proof.
  unfold copy_equations. apply for_n_ext. intros r [b cnt] _.
  unfold sel_body. now destruct (sense b r).
Qed.

Lemma copy_rest_sel (st0 : BIP * nat) :
  copy_rest st0
  = for_n (Z.to_nat (rows (fst st0))) (sel_body is_ineq false) st0.
Proof.
  unfold copy_rest. apply for_n_ext. intros r [b cnt] _.
  unfold sel_body. now destruct (sense b r).
Qed.

(** ** [bip_preprocess]: the scaling loop *)

Lemma row_scale_ext (a a' : nat -> Q) (n : nat) :
  (forall c, (c < n)%nat -> a c = a' c) -> row_scale a n = row_scale a' n.
Proof.
  intros H. unfold row_scale. apply for_n_ext.
  intros c s Hc. now rewrite (H c Hc).
Qed.

Lemma scale_columns_closed (b : BIP) (r : nat) (f : Q) (m : nat) :
  for_n m (fun c b' => set_ac b' (upd2 (ac b') c r (scale_by f (ac b' c r)))) b
  = set_ac b (for_n m (fun c a => upd2 a c r (scale_by f (a c r))) (ac b)).
Proof.
  induction m as [|m IH].
  - destruct b; reflexivity.
  - rewrite !for_n_S, IH. reflexivity.
Qed.

(** The state after the first [n] iterations of the scaling loop. *)
Lemma scale_loop_spec (b : BIP) (n : nat) :
  let body := fun r b =>
    let scale := row_scale (fun c => ac b c r) (Z.to_nat (cols b)) in
    if 0 <? scale then
      let factor := pow10 scale in
      let b1 := for_n (Z.to_nat (cols b))
                      (fun c b' => set_ac b' (upd2 (ac b') c r
                                                   (scale_by factor (ac b' c r)))) b in
      set_rhs_ord b1 (upd (rhs_ord b1) r (scale_by factor (rhs_ord b1 r)))
    else b in
  let b' := for_n n body b in
  same_input b b' /\ equs b' = equs b /\
  (forall c i,
      ac b' c i
      = if ((i <? n)%nat && (c <? Z.to_nat (cols b))%nat)%bool
        then scaled (row_scale (fun c => ac b c i) (Z.to_nat (cols b))) (ac b c i)
        else ac b c i) /\
  (forall i,
      rhs_ord b' i
      = if (i <? n)%nat
        then scaled (row_scale (fun c => ac b c i) (Z.to_nat (cols b))) (rhs_ord b i)
        else rhs_ord b i).
Proof.
  intros body. induction n as [|n IH]; cbv zeta.
  - cbn [for_n seq fold_left]. repeat split; reflexivity.
  - rewrite for_n_S. cbv zeta in IH.
    set (bn := for_n n body b) in *.
    destruct IH as ((Srows & Scols & Sar & Srhs & Ssense) & Hequs & Hac & Hrhs).
    assert (Hrow : row_scale (fun c => ac bn c n) (Z.to_nat (cols b))
                   = row_scale (fun c => ac b c n) (Z.to_nat (cols b))).
    { apply row_scale_ext. intros c Hc. rewrite Hac.
      rewrite Nat.ltb_irrefl. reflexivity. }
    set (e := row_scale (fun c => ac b c n) (Z.to_nat (cols b))) in *.
    assert (Hbody : body n bn
                    = if 0 <? e then
                        set_rhs_ord
                          (set_ac bn (for_n (Z.to_nat (cols b))
                                            (fun c a => upd2 a c n
                                               (scale_by (pow10 e) (a c n)))
                                            (ac bn)))
                          (upd (rhs_ord bn) n (scale_by (pow10 e) (rhs_ord bn n)))
                      else bn).
    { unfold body. rewrite Scols, Hrow.
      destruct (0 <? e); [|reflexivity].
      rewrite scale_columns_closed. reflexivity. }
    rewrite Hbody. clear Hbody.
    destruct (Z.ltb_spec 0 e) as [He|He].
    + cbn [set_ac set_rhs_ord rows cols ar rhs sense equs ac rhs_ord].
      split; [repeat split; assumption|]. split; [exact Hequs|]. split.
      * intros c i.
        rewrite (for_n_column (fun _ v => scale_by (pow10 e) v)).
        rewrite !Hac.
        destruct (Nat.eqb_spec i n) as [->|Hne].
        -- rewrite Nat.ltb_irrefl. cbn [andb].
           destruct (Nat.ltb_spec n (S n)); [|lia]. cbn [andb].
           destruct (Nat.ltb_spec c (Z.to_nat (cols b))); [|reflexivity].
           unfold scaled; fold e; cbn [andb].
           destruct (Z.ltb_spec 0 e); [reflexivity|lia].
        -- rewrite andb_false_r.
           destruct (Nat.ltb_spec i n), (Nat.ltb_spec i (S n)); try reflexivity; lia.
      * intros i. unfold upd. rewrite !Hrhs.
        destruct (Nat.eqb_spec i n) as [->|Hne].
        -- rewrite Nat.ltb_irrefl.
           destruct (Nat.ltb_spec n (S n)); [|lia].
           unfold scaled; fold e; cbn [andb].
           destruct (Z.ltb_spec 0 e); [reflexivity|lia].
        -- destruct (Nat.ltb_spec i n), (Nat.ltb_spec i (S n)); try reflexivity; lia.
    + split; [repeat split; assumption|]. split; [exact Hequs|]. split.
      * intros c i. rewrite Hac.
        destruct (Nat.eqb_spec i n) as [->|Hne].
        -- rewrite Nat.ltb_irrefl. cbn [andb].
           destruct (Nat.ltb_spec n (S n)); [|lia]. cbn [andb].
           destruct (Nat.ltb_spec c (Z.to_nat (cols b))); [|reflexivity].
           unfold scaled; fold e; cbn [andb].
           destruct (Z.ltb_spec 0 e); [lia|reflexivity].
        -- destruct (Nat.ltb_spec i n), (Nat.ltb_spec i (S n)); try reflexivity; lia.
      * intros i. rewrite Hrhs.
        destruct (Nat.eqb_spec i n) as [->|Hne].
        -- rewrite Nat.ltb_irrefl.
           destruct (Nat.ltb_spec n (S n)); [|lia].
           unfold scaled; fold e; cbn [andb].
           destruct (Z.ltb_spec 0 e); [lia|reflexivity].
        -- destruct (Nat.ltb_spec i n), (Nat.ltb_spec i (S n)); try reflexivity; lia.
Qed.

(** A row of integers is not scaled. *)
Lemma frac_part_integral (v : Q) : integral v -> (frac_part v == 0)%Q.
Proof.
  intros [z Hz]. unfold frac_part.
  assert (E : (Qabs v == inject_Z (Z.abs z))%Q) by (rewrite Hz; reflexivity).
  assert (F : Qfloor (Qabs v) = Z.abs z)
    by (rewrite (Qfloor_comp _ _ E); apply Qfloor_Z).
  rewrite F. unfold Qminus. rewrite E. ring.
Qed.

Lemma row_scale_integral (a : nat -> Q) (n : nat) :
  (forall c, (c < n)%nat -> integral (a c)) -> row_scale a n = 0.
Proof.
  induction n as [|n IH]; intros H; [reflexivity|].
  unfold row_scale in *. rewrite for_n_S, IH by (intros; apply H; lia).
  assert (F : (frac_part (a n) == 0)%Q) by (apply frac_part_integral, H; lia).
  unfold Qlt_bool.
  assert (L : Qle_bool (frac_part (a n)) 0 = true)
    by (apply Qle_bool_iff; rewrite F; apply Qle_refl).
  now rewrite L.
Qed.

Lemma integral_opp (v : Q) : integral v -> integral (- v).
Proof.
  intros [z Hz]. exists (- z). rewrite Hz. reflexivity.
Qed.

(** ** [bip_preprocess]: the resulting layout *)

Lemma picks_split_length (b : BIP) (n : nat) :
  (List.length (picks is_EQ b n) + List.length (picks is_ineq b n))%nat = n.
Proof.
  induction n as [|n IH]; [reflexivity|].
  rewrite !picks_S, !length_app. unfold is_ineq, is_EQ in *.
  destruct (Sense_eqb (sense b n) EQ); cbn [negb List.length]; lia.
Qed.

Lemma row_order_length (b : BIP) :
  List.length (row_order b) = Z.to_nat (rows b).
Proof.
  unfold row_order, eq_rows, ineq_rows. rewrite length_app.
  apply picks_split_length.
Qed.

(** The structure after the two copy loops. *)
Lemma copy_loops_spec (bip : BIP) :
  let b2 := fst (copy_rest (copy_equations (set_equs bip 0, O))) in
  same_input bip b2 /\
  equs b2 = Z.of_nat (List.length (eq_rows bip)) /\
  forall i, (i < Z.to_nat (rows bip))%nat ->
    let src := nth i (row_order bip) O in
    (forall c, (c < Z.to_nat (cols bip))%nat ->
               ac b2 c i = orient bip src (ar bip src c)) /\
    rhs_ord b2 i = orient bip src (rhs bip src).
Proof.
  cbv zeta.
  destruct (sel_loop_spec is_EQ true (set_equs bip 0) O (Z.to_nat (rows bip)))
    as (b1 & c1 & R1 & S1 & C1 & E1 & A1 & H1).
  rewrite copy_equations_sel. cbn [fst set_equs rows]. rewrite R1.
  destruct S1 as (Srows1 & Scols1 & Sar1 & Srhs1 & Ssense1).
  cbn [set_equs rows cols ar rhs sense equs ac rhs_ord] in *.
  destruct (sel_loop_spec is_ineq false b1 c1 (Z.to_nat (rows bip)))
    as (b2 & c2 & R2 & S2 & C2 & E2 & A2 & H2).
  rewrite copy_rest_sel. cbn [fst]. rewrite Srows1, R2. cbn [fst].
  destruct S2 as (Srows2 & Scols2 & Sar2 & Srhs2 & Ssense2).
  assert (P1 : picks is_EQ (set_equs bip 0) (Z.to_nat (rows bip)) = eq_rows bip)
    by reflexivity.
  assert (P2 : picks is_ineq b1 (Z.to_nat (rows bip)) = ineq_rows bip)
    by (unfold ineq_rows, picks; now rewrite Ssense1).
  assert (O1 : forall r v, orient (set_equs bip 0) r v = orient bip r v)
    by reflexivity.
  assert (O2 : forall r v, orient b1 r v = orient bip r v)
    by (intros; unfold orient; now rewrite Ssense1).
  rewrite P1 in *. rewrite P2 in *.
  pose proof (picks_split_length bip (Z.to_nat (rows bip))) as Hlen.
  fold (eq_rows bip) in Hlen. fold (ineq_rows bip) in Hlen.
  split; [repeat split; congruence|].
  split; [rewrite E2, E1; lia|].
  intros i Hi. unfold row_order.
  split.
  - intros c Hc. rewrite A2, A1, O2, O1, Scols1, Sar1.
    destruct (Nat.ltb_spec c (Z.to_nat (cols bip))) as [_|]; [|lia].
    rewrite !andb_true_r. cbn [Nat.leb andb]. rewrite Nat.sub_0_r.
    destruct (Nat.leb_spec c1 i) as [L|L]; cbn [andb].
    + destruct (Nat.ltb_spec i c2); [|lia].
      rewrite app_nth2 by lia. rewrite C1. reflexivity.
    + destruct (Nat.ltb_spec i c1); [|lia].
      rewrite app_nth1 by lia. reflexivity.
  - rewrite H2, H1, O2, O1, Srhs1.
    cbn [Nat.leb andb]. rewrite Nat.sub_0_r.
    destruct (Nat.leb_spec c1 i) as [L|L]; cbn [andb].
    + destruct (Nat.ltb_spec i c2); [|lia].
      rewrite app_nth2 by lia. rewrite C1. reflexivity.
    + destruct (Nat.ltb_spec i c1); [|lia].
      rewrite app_nth1 by lia. reflexivity.
Qed.

(** The scaling loop leaves a row of integers as the copy loops stored
    it. *)
Lemma preprocess_integral_row (bip : BIP) (i : nat) :
  (i < Z.to_nat (rows bip))%nat ->
  integral_coefficients bip (nth i (row_order bip) O) ->
  stored_as bip (bip_preprocess bip) i (nth i (row_order bip) O).
Proof.
  intros Hi Hintg. unfold bip_preprocess.
  destruct (copy_loops_spec bip) as (S2 & E2 & L2). cbv zeta in L2.
  set (b2 := fst (copy_rest (copy_equations (set_equs bip 0, O)))) in *.
  pose proof (scale_loop_spec b2 (Z.to_nat (rows b2))) as S3.
  cbv zeta in S3.
  change (for_n (Z.to_nat (rows b2)) _ b2) with (scale_rows b2) in S3.
  destruct S3 as (S3 & E3 & A3 & H3).
  destruct S2 as (Srows2 & Scols2 & Sar2 & Srhs2 & Ssense2).
  destruct (L2 i Hi) as [Lac Lrhs].
  set (src := nth i (row_order bip) O) in *.
  assert (He : row_scale (fun c => ac b2 c i) (Z.to_nat (cols b2)) = 0).
  { rewrite Scols2. apply row_scale_integral. intros c Hc.
    rewrite Lac by exact Hc. unfold orient.
    destruct (is_GE (sense bip src)); [apply integral_opp|]; now apply Hintg. }
  split.
  - intros c Hc. rewrite A3, He, Srows2, Scols2, Lac by assumption.
    destruct (Nat.ltb_spec i (Z.to_nat (rows bip))); [|lia].
    destruct (Nat.ltb_spec c (Z.to_nat (cols bip))); [|lia]. reflexivity.
  - rewrite H3, He, Srows2, Lrhs.
    destruct (Nat.ltb_spec i (Z.to_nat (rows bip))); [|lia]. reflexivity.
Qed.

(** C4, as the code has it.  After [bip_preprocess], [equs] is the number
    of equality rows.  The two copy loops store row [row_order[i]] of the
    input as row [i] of [ac] / [rhs_ord]: the equality rows first, then
    all inequality rows in their original relative order ([<=] and [>=]
    rows interleaved as they came), the values unchanged, but negated for
    a [>=] row.  A row whose coefficients are all integers still holds
    exactly these values when [bip_preprocess] returns. *)
Theorem preprocess_layout (bip : BIP) :
  let b2 := fst (copy_rest (copy_equations (set_equs bip 0, O))) in
  let b' := bip_preprocess bip in
  equs b' = Z.of_nat (List.length (eq_rows bip)) /\
  List.length (row_order bip) = Z.to_nat (rows bip) /\
  forall i, (i < Z.to_nat (rows bip))%nat ->
    let src := nth i (row_order bip) O in
    ((forall c, (c < Z.to_nat (cols bip))%nat ->
                ac b2 c i = orient bip src (ar bip src c)) /\
     rhs_ord b2 i = orient bip src (rhs bip src)) /\
    ((forall c, (c < Z.to_nat (cols bip))%nat -> integral (ar bip src c)) ->
     (forall c, (c < Z.to_nat (cols bip))%nat ->
                ac b' c i = orient bip src (ar bip src c)) /\
     rhs_ord b' i = orient bip src (rhs bip src)).
Proof.
  cbv zeta.
  destruct (copy_loops_spec bip) as (S2 & E2 & L2). cbv zeta in L2.
  split.
  - unfold bip_preprocess.
    set (b2 := fst (copy_rest (copy_equations (set_equs bip 0, O)))) in *.
    pose proof (scale_loop_spec b2 (Z.to_nat (rows b2))) as S3.
    cbv zeta in S3.
    change (for_n (Z.to_nat (rows b2)) _ b2) with (scale_rows b2) in S3.
    destruct S3 as (_ & E3 & _). rewrite E3. exact E2.
  - split; [apply row_order_length|].
    intros i Hi. split; [exact (L2 i Hi)|].
    intros Hintg. exact (preprocess_integral_row bip i Hi Hintg).
Qed.

(** C4, as stated, fails: for the rows [1 >= 1] and [2 <= 3] the layout
    "equations, then [<=] rows, then [>=] rows" would put [2 <= 3] first,
    but the second copy loop keeps the inequalities in their original
    order. *)
Lemma le_rows_not_moved_before_ge_rows :
  ~ (equs (bip_preprocess model_ge_le)
     = Z.of_nat (List.length (eq_rows model_ge_le)) /\
     le_before_ge_layout model_ge_le (bip_preprocess model_ge_le)).
Proof.
  intros [_ H]. destruct (H O) as [_ Hrhs].
  - vm_compute. lia.
  - vm_compute in Hrhs. discriminate Hrhs.
Qed.

Lemma preprocess_layout_witness :
  ac (bip_preprocess model_ge_le) 0 0 = (- 1)%Q /\
  rhs_ord (bip_preprocess model_ge_le) 1 = 3%Q.
Proof.
  destruct (preprocess_layout model_ge_le) as (_ & _ & H).
  assert (Hintg : forall r c, (c < Z.to_nat (cols model_ge_le))%nat ->
                             integral (ar model_ge_le r c)).
  { intros r c Hc. change (c < 1)%nat in Hc.
    destruct c as [|c]; [|lia].
    destruct r as [|[|r]];
      [exists 1|exists 2|exists 0; destruct r]; reflexivity. }
  split.
  - destruct (H O) as (_ & Hi); [vm_compute; lia|].
    destruct (Hi (Hintg _)) as [Hac _].
    rewrite (Hac O) by (vm_compute; lia).
    vm_compute. reflexivity.
  - destruct (H 1%nat) as (_ & Hi); [vm_compute; lia|].
    destruct (Hi (Hintg _)) as [_ Hrhs].
    rewrite Hrhs. vm_compute. reflexivity.
Defined.

(** ** The model of [ceil(-log10(x))] *)

Lemma least_exponent_from_spec (x : Q) (fuel : nat) :
  forall k0,
    Qle_bool 1 (x * inject_Z (10 ^ (k0 + Z.of_nat fuel - 1))) = true ->
    (1 <= fuel)%nat ->
    let k := least_exponent_from fuel x k0 in
    k0 <= k /\
    Qle_bool 1 (x * inject_Z (10 ^ k)) = true /\
    forall j, k0 <= j < k -> Qle_bool 1 (x * inject_Z (10 ^ j)) = false.
Proof.
  induction fuel as [|fuel IH]; intros k0 Hend Hfuel; [lia|].
  cbn [least_exponent_from].
  destruct (Qle_bool 1 (x * inject_Z (10 ^ k0))) eqn:T.
  - split; [lia|]. split; [exact T|]. intros; lia.
  - destruct fuel as [|fuel'].
    + replace (k0 + Z.of_nat 1 - 1) with k0 in Hend by lia. congruence.
    + destruct (IH (k0 + 1)) as (H1 & H2 & H3); [|lia|].
      * replace (k0 + 1 + Z.of_nat (S fuel') - 1)
          with (k0 + Z.of_nat (S (S fuel')) - 1) by lia. exact Hend.
      * split; [lia|]. split; [exact H2|].
        intros j Hj. destruct (Z.eq_dec j k0) as [->|Hne]; [exact T|].
        apply H3. lia.
Qed.

(** For [x > 0], [least_exponent x] is the least [k >= 0] with
    [1 <= x * 10^k], which for [x < 1] is the ceiling of [-log10(x)]. *)
Lemma least_exponent_spec (x : Q) :
  (0 < x)%Q ->
  0 <= least_exponent x /\
  (1 <= x * inject_Z (10 ^ least_exponent x))%Q /\
  forall j, 0 <= j < least_exponent x -> (x * inject_Z (10 ^ j) < 1)%Q.
Proof.
  intros Hx. unfold least_exponent.
  set (L := Z.log2 (Z.pos (Qden x))).
  assert (HL : 0 <= L) by apply Z.log2_nonneg.
  destruct (least_exponent_from_spec x (S (S (Z.to_nat L))) 0) as (H1 & H2 & H3).
  - apply Qle_bool_iff.
    replace (0 + Z.of_nat (S (S (Z.to_nat L))) - 1) with (Z.succ L) by lia.
    destruct x as [p q]. unfold Qlt in Hx. cbn in Hx.
    unfold Qle. cbn [Qnum Qden Qmult inject_Z]. fold L.
    assert (Hq : Z.pos q < 2 ^ Z.succ L) by (apply Z.log2_spec; lia).
    assert (H10 : 2 ^ Z.succ L <= 10 ^ Z.succ L)
      by (apply Z.pow_le_mono_l; lia).
    rewrite Pos.mul_1_r. nia.
  - lia.
  - split; [exact H1|]. split; [apply Qle_bool_iff; exact H2|].
    intros j Hj. apply Qnot_le_lt. intros Hle.
    apply Qle_bool_iff in Hle. rewrite (H3 j Hj) in Hle. discriminate.
Qed.

(** [ceil_neg_log10 x] is the ceiling of the exact logarithm or the
    integer below it, and at least 1 in the second case. *)
Lemma ceil_neg_log10_near (x : Q) :
  ceil_neg_log10 x = least_exponent x \/
  (ceil_neg_log10 x = least_exponent x - 1 /\ 1 <= ceil_neg_log10 x).
Proof.
  unfold ceil_neg_log10. cbv zeta.
  destruct (2 <=? least_exponent x) eqn:E; cbn [andb]; [|left; reflexivity].
  destruct (log10_rounds_to x (least_exponent x - 1)); [|left; reflexivity].
  right. apply Z.leb_le in E. split; [reflexivity|lia].
Qed.

(** ** Scaling does not always reach integers *)

(** C5.  The row [0.25 <= 1] gets the exponent 1: it is multiplied by 10 and
    becomes [2.5 <= 10], which still has the fractional part 0.5; the
    power of ten that makes the coefficient an integer is 100. *)
Theorem scaling_leaves_a_fraction :
  row_scale (fun c => ar model_quarter 0 c) 1 = 1 /\
  (ac (bip_preprocess model_quarter) 0 0 == 5 # 2)%Q /\
  (rhs_ord (bip_preprocess model_quarter) 0 == 10)%Q /\
  ~ integral (ac (bip_preprocess model_quarter) 0 0) /\
  integral (ar model_quarter 0 0 * inject_Z (10 ^ 2)) /\
  (frac_part (ac (bip_preprocess model_quarter) 0 0) == 1 # 2)%Q.
Proof.
  split; [vm_compute; reflexivity|].
  split; [vm_compute; reflexivity|].
  split; [vm_compute; reflexivity|].
  split; [|split].
  - intros [w Hw].
    assert (E : ac (bip_preprocess model_quarter) 0 0 = 5 # 2)
      by (vm_compute; reflexivity).
    rewrite E in Hw. unfold Qeq, inject_Z in Hw. cbn [Qnum Qden] in Hw. lia.
  - exists 25. vm_compute. reflexivity.
  - vm_compute. reflexivity.
Qed.

(** The documented input row [12.5 0.3 22.12 0.0 >= 17.5] becomes
    [-125 -3 -221.2 0 <= -175], the third coefficient being the [double]
    221.20000000000002 (the rounded product of the [double] nearest to
    22.12 and 10). *)
Lemma documented_row_keeps_a_fraction :
  (ac (bip_preprocess model_doc_row) 0 0 == - 125)%Q /\
  (ac (bip_preprocess model_doc_row) 1 0 == - 3)%Q /\
  (ac (bip_preprocess model_doc_row) 2 0
   == - (7782783106049639 # 35184372088832))%Q /\
  (rhs_ord (bip_preprocess model_doc_row) 0 == - 175)%Q /\
  (frac_part (ac (bip_preprocess model_doc_row) 2 0)
   == 7036874417767 # 35184372088832)%Q.
Proof. repeat split; vm_compute; reflexivity. Qed.

(** ** [bip_can_overflow] *)

Lemma Qlt_bool_iff (a b : Q) : Qlt_bool a b = true <-> (a < b)%Q.
Proof.
  unfold Qlt_bool. rewrite negb_true_iff. split.
  - intros H. apply Qnot_le_lt. intros Hle.
    apply Qle_bool_iff in Hle. congruence.
  - intros H. destruct (Qle_bool b a) eqn:E; [|reflexivity].
    apply Qle_bool_iff in E. exfalso. exact (Qlt_not_le _ _ H E).
Qed.

Lemma Qlt_bool_false (a b : Q) : Qlt_bool a b = false <-> ~ (a < b)%Q.
Proof.
  rewrite <- Qlt_bool_iff. destruct (Qlt_bool a b); split; congruence.
Qed.

Lemma Qle_bool_false (a b : Q) : Qle_bool a b = false <-> ~ (a <= b)%Q.
Proof.
  rewrite <- Qle_bool_iff. destruct (Qle_bool a b); split; congruence.
Qed.

(** ** Rounding to the nearest [double] *)

Lemma pow2_pos (k : Z) : (0 < pow2 k)%Q.
Proof. apply Qpower_0_lt. reflexivity. Qed.

Lemma pow2_add (a b : Z) : (pow2 (a + b) == pow2 a * pow2 b)%Q.
Proof. apply Qpower_plus. discriminate. Qed.

Lemma pow2_Z (k : Z) : 0 <= k -> (pow2 k == inject_Z (2 ^ k))%Q.
Proof. intros H. unfold pow2. symmetry. apply (Zpower_Qpower 2 k H). Qed.

Lemma pow2_mono (a b : Z) : a <= b -> (pow2 a <= pow2 b)%Q.
Proof.
  intros H. replace b with (a + (b - a)) by lia.
  rewrite pow2_add, (pow2_Z (b - a)) by lia.
  assert (1 <= 2 ^ (b - a)) by (apply (Z.pow_le_mono_r 2 0); lia).
  assert (H1 : (1 <= inject_Z (2 ^ (b - a)))%Q)
    by (change 1%Q with (inject_Z 1); rewrite <- Zle_Qle; lia).
  pose proof (pow2_pos a). nra.
Qed.

Lemma pow2_lt_inv (a b : Z) : (pow2 a < pow2 b)%Q -> a < b.
Proof.
  intros H. destruct (Z.lt_ge_cases a b) as [|Hge]; [assumption|].
  apply pow2_mono in Hge. lra.
Qed.

Lemma Q_num_den (q : Q) : (q * inject_Z (Zpos (Qden q)) == inject_Z (Qnum q))%Q.
Proof. destruct q as [n d]. unfold Qeq, Qmult, inject_Z. cbn. lia. Qed.

Lemma Qlog2_spec (q : Q) :
  (0 < q)%Q -> (pow2 (Qlog2 q) <= q /\ q < pow2 (Qlog2 q + 1))%Q.
Proof.
  intros Hq.
  assert (Hn : 0 < Qnum q) by (destruct q as [n d]; unfold Qlt in Hq; cbn in *; lia).
  set (a := Z.log2 (Qnum q)). set (b := Z.log2 (Zpos (Qden q))).
  destruct (Z.log2_spec (Qnum q) Hn) as [Ha1 Ha2]. fold a in Ha1, Ha2.
  destruct (Z.log2_spec (Zpos (Qden q)) ltac:(lia)) as [Hb1 Hb2].
  fold b in Hb1, Hb2.
  assert (Ha0 : 0 <= a) by apply Z.log2_nonneg.
  assert (Hb0 : 0 <= b) by apply Z.log2_nonneg.
  pose proof (Q_num_den q) as Hnd.
  assert (Qa1 : (pow2 a <= inject_Z (Qnum q))%Q)
    by (rewrite pow2_Z by lia; rewrite <- Zle_Qle; exact Ha1).
  assert (Qa2 : (inject_Z (Qnum q) < pow2 (a + 1))%Q)
    by (rewrite pow2_Z by lia; rewrite <- Zlt_Qlt; rewrite <- Z.add_1_r in Ha2; exact Ha2).
  assert (Qb1 : (pow2 b <= inject_Z (Zpos (Qden q)))%Q)
    by (rewrite pow2_Z by lia; rewrite <- Zle_Qle; exact Hb1).
  assert (Qb2 : (inject_Z (Zpos (Qden q)) < pow2 (b + 1))%Q)
    by (rewrite pow2_Z by lia; rewrite <- Zlt_Qlt; rewrite <- Z.add_1_r in Hb2; exact Hb2).
  assert (Hlo : (pow2 (a - b - 1) < q)%Q).
  { assert (E : (pow2 (a - b - 1) * pow2 (b + 1) == pow2 a)%Q)
      by (rewrite <- pow2_add; replace (a - b - 1 + (b + 1)) with a by lia; reflexivity).
    pose proof (pow2_pos (a - b - 1)). pose proof (pow2_pos (b + 1)).
    apply Qnot_le_lt. intros Hle.
    assert ((q * inject_Z (Zpos (Qden q)) < pow2 (a - b - 1) * pow2 (b + 1))%Q) by nra.
    lra. }
  assert (Hhi : (q < pow2 (a - b + 1))%Q).
  { assert (E : (pow2 (a - b + 1) * pow2 b == pow2 (a + 1))%Q)
      by (rewrite <- pow2_add; replace (a - b + 1 + b) with (a + 1) by lia; reflexivity).
    pose proof (pow2_pos (a - b + 1)). pose proof (pow2_pos b).
    apply Qnot_le_lt. intros Hle.
    assert ((pow2 (a - b + 1) * pow2 b <= q * inject_Z (Zpos (Qden q)))%Q) by nra.
    lra. }
  unfold Qlog2. fold a. fold b.
  destruct (Qle_bool (pow2 (a - b)) q) eqn:E.
  - apply Qle_bool_iff in E. split; assumption.
  - assert (~ (pow2 (a - b) <= q)%Q)
      by (intros H; apply Qle_bool_iff in H; congruence).
    replace (a - b - 1 + 1) with (a - b) by lia. split; lra.
Qed.

Lemma Qlog2_unique (q : Q) (l : Z) :
  (pow2 l <= q)%Q -> (q < pow2 (l + 1))%Q -> Qlog2 q = l.
Proof.
  intros H1 H2.
  assert (Hq : (0 < q)%Q) by (pose proof (pow2_pos l); lra).
  destruct (Qlog2_spec q Hq) as [S1 S2].
  assert (Qlog2 q < l + 1) by (apply pow2_lt_inv; lra).
  assert (l < Qlog2 q + 1) by (apply pow2_lt_inv; lra).
  lia.
Qed.

Lemma round_even_integer (q : Q) (m : Z) : (q == inject_Z m)%Q -> round_even q = m.
Proof.
  intros H. unfold round_even.
  assert (Hf : Qfloor q = m) by (rewrite H; apply Qfloor_Z).
  rewrite Hf.
  assert (E : (q - inject_Z m ?= 1 # 2)%Q = Lt).
  { apply Qlt_alt. rewrite H. unfold Qminus. rewrite Qplus_opp_r. reflexivity. }
  rewrite E. reflexivity.
Qed.

Lemma fl_comp (p q : Q) : (p == q)%Q -> fl p = fl q.
Proof. intros H. unfold fl. now rewrite (Qred_complete p q H). Qed.

Lemma Qlog2_comp (p q : Q) : (0 < p)%Q -> (p == q)%Q -> Qlog2 p = Qlog2 q.
Proof.
  intros Hp H. destruct (Qlog2_spec p Hp) as [S1 S2].
  symmetry. apply Qlog2_unique; rewrite <- H; assumption.
Qed.

Lemma Qabs_pos_lt (q : Q) : ~ (q == 0)%Q -> (0 < Qabs q)%Q.
Proof.
  intros H. apply Qnot_le_lt. intros Hle.
  apply Qabs_Qle_condition in Hle. apply H. lra.
Qed.

Lemma ulp_exponent_comp (p q : Q) :
  ~ (p == 0)%Q -> (p == q)%Q -> ulp_exponent p = ulp_exponent q.
Proof.
  intros Hp H. unfold ulp_exponent. f_equal. f_equal.
  apply Qlog2_comp; [apply Qabs_pos_lt, Hp|now rewrite H].
Qed.

(** A multiple of the unit in the last place is its own rounding. *)
Lemma fl_representable (q : Q) (m e : Z) :
  (q == inject_Z m * pow2 e)%Q -> ulp_exponent q <= e -> (fl q == q)%Q.
Proof.
  intros Hq He. unfold fl.
  pose proof (Qred_correct q) as Hr.
  destruct (Qeq_bool (Qred q) 0) eqn:Ez.
  - apply Qeq_bool_iff in Ez. rewrite <- Hr. symmetry. exact Ez.
  - assert (Hnz : ~ (Qred q == 0)%Q)
      by (intros H; apply Qeq_bool_iff in H; congruence).
    rewrite (ulp_exponent_comp (Qred q) q Hnz Hr).
    set (E := ulp_exponent q) in *.
    rewrite Qred_correct.
    assert (Hdiv : (Qred q / pow2 E == inject_Z (m * 2 ^ (e - E)))%Q).
    { rewrite Hr, Hq. replace e with (e - E + E) at 1 by lia.
      rewrite pow2_add, (pow2_Z (e - E)) by lia.
      rewrite inject_Z_mult. pose proof (pow2_pos E). field. lra. }
    rewrite (round_even_integer _ _ Hdiv).
    rewrite Hq. replace e with (e - E + E) at 2 by lia.
    rewrite pow2_add, (pow2_Z (e - E)) by lia.
    rewrite inject_Z_mult. ring.
Qed.

Lemma fl_integer (z : Z) : Z.abs z <= 2 ^ 53 -> (fl (inject_Z z) == inject_Z z)%Q.
Proof.
  intros Hz.
  destruct (Z.eq_dec z 0) as [->|Hnz]; [reflexivity|].
  assert (Habs : (Qabs (inject_Z z) == inject_Z (Z.abs z))%Q) by reflexivity.
  assert (Hpos : (0 < Qabs (inject_Z z))%Q).
  { rewrite Habs. change 0%Q with (inject_Z 0). rewrite <- Zlt_Qlt. lia. }
  destruct (Qlog2_spec _ Hpos) as [S1 _].
  set (l := Qlog2 (Qabs (inject_Z z))) in *.
  assert (Hl : l <= 53).
  { destruct (Z.le_gt_cases l 53) as [|Hgt]; [assumption|exfalso].
    assert (H54 : (pow2 54 <= pow2 l)%Q) by (apply pow2_mono; lia).
    rewrite (pow2_Z 54) in H54 by lia. rewrite Habs in S1.
    assert (H : (inject_Z (2 ^ 54) <= inject_Z (Z.abs z))%Q) by lra.
    rewrite <- Zle_Qle in H. lia. }
  destruct (Z.eq_dec l 53) as [E53|N53].
  - assert (Hzz : Z.abs z = 2 ^ 53).
    { rewrite E53, (pow2_Z 53), Habs in S1 by lia.
      rewrite <- Zle_Qle in S1. lia. }
    apply (fl_representable _ (z / 2) 1).
    + rewrite (pow2_Z 1) by lia. rewrite <- inject_Z_mult.
      apply inject_Z_injective.
      assert (z = 2 ^ 53 \/ z = - 2 ^ 53) as [-> | ->] by lia; reflexivity.
    + unfold ulp_exponent. fold l. lia.
  - apply (fl_representable _ z 0).
    + rewrite (pow2_Z 0) by lia. change (inject_Z (2 ^ 0)) with 1%Q. ring.
    + unfold ulp_exponent. fold l. lia.
Qed.

(** A number that is an integer of at most [2^53] in magnitude is a
    [double]. *)
Lemma fl_integral (q : Q) (z : Z) :
  (q == inject_Z z)%Q -> Z.abs z <= 2 ^ 53 -> (fl q == q)%Q.
Proof.
  intros Hq Hz. rewrite (fl_comp q (inject_Z z) Hq), Hq. apply fl_integer, Hz.
Qed.

(** ** The rounded logarithm *)

Lemma square_times_mono (k : nat) (u v : Q) :
  (0 <= u)%Q -> (u <= v)%Q -> (square_times k u <= square_times k v)%Q.
Proof.
  revert u v. induction k as [|k IH]; intros u v H0 H; cbn [square_times].
  - exact H.
  - apply IH; nra.
Qed.

(** The fixed-point power is a lower bound of the power. *)
Lemma square_down_below (k : nat) (a : Z) :
  0 <= a ->
  (inject_Z (square_down k a) * pow2 (- log_places)
   <= square_times k (inject_Z a * pow2 (- log_places)))%Q.
Proof.
  revert a. induction k as [|k IH]; intros a Ha; cbn [square_down square_times].
  - apply Qle_refl.
  - set (b := Z.shiftr (a * a) log_places).
    assert (Hb : 0 <= b /\ b * 2 ^ log_places <= a * a).
    { unfold b. rewrite Z.shiftr_div_pow2 by (vm_compute; congruence).
      assert (Hp : 0 < 2 ^ log_places) by (vm_compute; reflexivity).
      split.
      - apply Z.div_pos; nia.
      - rewrite Z.mul_comm. apply Z.mul_div_le. exact Hp. }
    destruct Hb as [Hb0 Hb].
    eapply Qle_trans; [apply IH; exact Hb0|].
    assert (Hpp : (0 < pow2 (- log_places))%Q) by apply pow2_pos.
    apply square_times_mono.
    + apply Qmult_le_0_compat; [|apply Qlt_le_weak; exact Hpp].
      change 0%Q with (inject_Z 0). rewrite <- Zle_Qle. exact Hb0.
    + assert (E : (pow2 (- log_places) * pow2 log_places == 1)%Q).
      { rewrite <- pow2_add. reflexivity. }
      assert (Hq : (inject_Z b * pow2 log_places <= inject_Z a * inject_Z a)%Q).
      { rewrite (pow2_Z log_places) by (vm_compute; congruence).
        rewrite <- !inject_Z_mult, <- Zle_Qle. exact Hb. }
      set (p := pow2 (- log_places)) in *. set (P := pow2 log_places) in *.
      assert (HP : (0 < P)%Q) by apply pow2_pos.
      setoid_replace (inject_Z b * p)%Q with ((inject_Z b * P) * (p * p))%Q.
      2:{ setoid_replace (inject_Z b * P * (p * p))%Q
            with (inject_Z b * p * (p * P))%Q by ring.
          rewrite E. ring. }
      setoid_replace (inject_Z a * p * (inject_Z a * p))%Q
        with ((inject_Z a * inject_Z a) * (p * p))%Q by ring.
      apply Qmult_le_compat_r; [exact Hq|]. nra.
Qed.

(** When [log10_rounds_to x m] holds, [(x * 10^m)^(2^(53 - log2 m))] is at
    least [1/10]: [-log10(x)] is at most [m + 2^(log2 m - 53)]. *)
Lemma log10_rounds_to_sound (x : Q) (m : Z) :
  (0 <= x)%Q -> 0 <= m -> log10_rounds_to x m = true ->
  (1 # 10 <= square_times (Z.to_nat (53 - Z.log2 m)) (x * inject_Z (10 ^ m)))%Q.
Proof.
  intros Hx Hm H. unfold log10_rounds_to in H. cbv zeta in H.
  apply Z.leb_le in H.
  set (q := (x * inject_Z (10 ^ m))%Q) in *.
  set (k := Z.to_nat (53 - Z.log2 m)) in *.
  assert (Hq : (0 <= q)%Q).
  { unfold q. apply Qmult_le_0_compat; [exact Hx|].
    change 0%Q with (inject_Z 0). rewrite <- Zle_Qle.
    apply Z.pow_nonneg. lia. }
  assert (Hp : (0 < pow2 log_places)%Q) by apply pow2_pos.
  assert (Hpn : (0 < pow2 (- log_places))%Q) by apply pow2_pos.
  assert (E : (pow2 log_places * pow2 (- log_places) == 1)%Q).
  { rewrite <- pow2_add. reflexivity. }
  set (a := Qfloor (q * pow2 log_places)) in *.
  assert (Ha : 0 <= a).
  { unfold a. change 0 with (Qfloor 0). apply Qfloor_resp_le.
    apply Qmult_le_0_compat; [exact Hq|apply Qlt_le_weak; exact Hp]. }
  assert (Haq : (inject_Z a * pow2 (- log_places) <= q)%Q).
  { setoid_replace q with ((q * pow2 log_places) * pow2 (- log_places))%Q.
    - apply Qmult_le_compat_r; [apply Qfloor_le|apply Qlt_le_weak; exact Hpn].
    - rewrite <- Qmult_assoc, E. ring. }
  apply (Qle_trans _ (square_times k (inject_Z a * pow2 (- log_places)))).
  2:{ apply square_times_mono; [|exact Haq].
      apply Qmult_le_0_compat; [|apply Qlt_le_weak; exact Hpn].
      change 0%Q with (inject_Z 0). rewrite <- Zle_Qle. exact Ha. }
  eapply Qle_trans; [|apply square_down_below; exact Ha].
  set (d := square_down k a) in *.
  assert (Hd : (pow2 log_places <= inject_Z 10 * inject_Z d)%Q).
  { rewrite (pow2_Z log_places) by (vm_compute; congruence).
    rewrite <- inject_Z_mult, <- Zle_Qle. exact H. }
  assert (Hd' : (pow2 log_places * pow2 (- log_places)
                 <= inject_Z 10 * inject_Z d * pow2 (- log_places))%Q).
  { apply Qmult_le_compat_r; [exact Hd|apply Qlt_le_weak; exact Hpn]. }
  rewrite E in Hd'. change (inject_Z 10) with (10 # 1)%Q in Hd'.
  set (u := (inject_Z d * pow2 (- log_places))%Q) in *.
  assert (Hu : (1 <= (10 # 1) * u)%Q).
  { unfold u. rewrite Qmult_assoc. exact Hd'. }
  lra.
Qed.

(** The [double] nearest to [0.000001] is smaller than [10^-6]: the
    ceiling of its exact [-log10] is 7, but the logarithm is rounded to
    [-6], and the row [0.000001 <= 1] is scaled by [10^6], to
    [1 <= 1000000]. *)
Example log10_rounds_to_an_integer :
  (fl (1 # 1000000) < 1 # 1000000)%Q /\
  least_exponent (fl (1 # 1000000)) = 7 /\
  ceil_neg_log10 (fl (1 # 1000000)) = 6 /\
  (ac (bip_preprocess model_millionth) 0 0 == 1)%Q /\
  (rhs_ord (bip_preprocess model_millionth) 0 == 1000000)%Q.
Proof. repeat split; vm_compute; reflexivity. Qed.

(** [fl] and the primitive binary64 numbers of Rocq agree: on the
    conversion of decimal fractions, and on sums, differences and products
    of [double]s of the sizes the program meets. *)
Example fl_agrees_with_binary64 :
  forallb (fun q => same_double (float_of_Q q) (fl q))
          [7 # 100; 3 # 100; 1 # 10; 2212 # 100; 1 # 1000000; 1 # 3; 9 # 10]%Q
  = true /\
  forallb (fun p =>
             let x := float_of_Q (fst p) in
             let y := float_of_Q (snd p) in
             let x' := fl (fst p) in
             let y' := fl (snd p) in
             (same_double (x + y) (fl (x' + y'))
              && same_double (x - y) (fl (x' - y'))
              && same_double (x * y) (fl (x' * y')))%bool)
          [(inject_Z (10 ^ 15), 7 # 100); (1999999999999999 # 2, 1 # 20);
           (7999999999999999 # 8, 7 # 100); (inject_Z (2 ^ 53), 1);
           (5, 9500000000000000); (2212 # 100, 10); (7 # 100, 100);
           (1 # 3, 3); (1 # 10, 2 # 10); (8000000000000001 # 16, 3 # 100)]%Q
  = true.
Proof. split; vm_compute; reflexivity. Qed.

(** ** The overflow guard *)

Lemma pos_sum_S (b : BIP) (r c : nat) :
  pos_sum b r (S c)
  = if Qlt_bool 0 (ar b r c) then (pos_sum b r c + ar b r c)%Q
    else pos_sum b r c.
Proof. unfold pos_sum. now rewrite for_n_S. Qed.

Lemma neg_sum_S (b : BIP) (r c : nat) :
  neg_sum b r (S c)
  = if Qlt_bool (ar b r c) 0 then (neg_sum b r c + ar b r c)%Q
    else neg_sum b r c.
Proof. unfold neg_sum. now rewrite for_n_S. Qed.

Lemma row_max_S (b : BIP) (r c : nat) :
  row_max b r (S c)
  = if Qlt_bool 0 (ar b r c) then fl (row_max b r c + ar b r c)
    else row_max b r c.
Proof. unfold row_max. now rewrite for_n_S. Qed.

Lemma row_min_S (b : BIP) (r c : nat) :
  row_min b r (S c)
  = if Qlt_bool (ar b r c) 0 then fl (row_min b r c + ar b r c)
    else row_min b r c.
Proof. unfold row_min. now rewrite for_n_S. Qed.

(** The inner loop from column [c0] on, entered with the running sums of the
    columns before [c0]. *)
Lemma overflow_cols_spec (b : BIP) (r : nat) (len : nat) :
  forall c0,
    match overflow_cols b r (seq c0 len) (row_max b r c0) (row_min b r c0) with
    | None => forall c, (c0 <= c < c0 + len)%nat -> ~ reaches_bound b r c
    | Some e => error_row e = r /\
                exists c, (c0 <= c < c0 + len)%nat /\ reaches_bound b r c
    end.
Proof.
  induction len as [|len IH]; intros c0.
  - cbn [seq overflow_cols]. intros c Hc. lia.
  - cbn [seq overflow_cols].
    specialize (IH (S c0)). rewrite row_max_S, row_min_S in IH.
    destruct (Qlt_bool 0 (ar b r c0)) eqn:Tp.
    + apply Qlt_bool_iff in Tp.
      assert (Tn : Qlt_bool (ar b r c0) 0 = false).
      { apply Qlt_bool_false. lra. }
      rewrite Tn in IH.
      destruct (Qle_bool (fl (max_coef_val b - ar b r c0)) (row_max b r c0)) eqn:Tm.
      * apply Qle_bool_iff in Tm. split; [reflexivity|].
        exists c0. split; [lia|]. left. split; assumption.
      * apply Qle_bool_false in Tm.
        destruct (overflow_cols b r (seq (S c0) len) _ _) as [e|].
        -- destruct IH as (He & c & Hc & Hr). split; [exact He|].
           exists c. split; [lia|exact Hr].
        -- intros c Hc. destruct (Nat.eq_dec c c0) as [->|Hne]; [|apply IH; lia].
           intros [[_ H]|[H _]]; [exact (Tm H)|].
           lra.
    + apply Qlt_bool_false in Tp.
      destruct (Qlt_bool (ar b r c0) 0) eqn:Tn.
      * apply Qlt_bool_iff in Tn.
        destruct (Qle_bool (row_min b r c0) (fl (min_coef_val b - ar b r c0))) eqn:Tm.
        -- apply Qle_bool_iff in Tm. split; [reflexivity|].
           exists c0. split; [lia|]. right. split; assumption.
        -- apply Qle_bool_false in Tm.
           destruct (overflow_cols b r (seq (S c0) len) _ _) as [e|].
           ++ destruct IH as (He & c & Hc & Hr). split; [exact He|].
              exists c. split; [lia|exact Hr].
           ++ intros c Hc. destruct (Nat.eq_dec c c0) as [->|Hne]; [|apply IH; lia].
              intros [[H _]|[_ H]]; [exact (Tp H)|exact (Tm H)].
      * apply Qlt_bool_false in Tn.
        destruct (overflow_cols b r (seq (S c0) len) _ _) as [e|].
        -- destruct IH as (He & c & Hc & Hr). split; [exact He|].
           exists c. split; [lia|exact Hr].
        -- intros c Hc. destruct (Nat.eq_dec c c0) as [->|Hne]; [|apply IH; lia].
           intros [[H _]|[H _]]; [exact (Tp H)|exact (Tn H)].
Qed.

Lemma overflow_rows_spec (b : BIP) (len : nat) :
  forall r0,
    match overflow_rows b (seq r0 len) with
    | None => forall r, (r0 <= r < r0 + len)%nat ->
                ~ exists c, (c < Z.to_nat (cols b))%nat /\ reaches_bound b r c
    | Some e => (r0 <= error_row e < r0 + len)%nat /\
                (exists c, (c < Z.to_nat (cols b))%nat /\
                           reaches_bound b (error_row e) c) /\
                forall r, (r0 <= r < error_row e)%nat ->
                  ~ exists c, (c < Z.to_nat (cols b))%nat /\ reaches_bound b r c
    end.
Proof.
  induction len as [|len IH]; intros r0.
  - cbn [seq overflow_rows]. intros r Hr. lia.
  - cbn [seq overflow_rows].
    pose proof (overflow_cols_spec b r0 (Z.to_nat (cols b)) O) as Hc.
    change (row_max b r0 0) with 0%Q in Hc. change (row_min b r0 0) with 0%Q in Hc.
    destruct (overflow_cols b r0 (seq 0 (Z.to_nat (cols b))) 0 0) as [e|].
    + destruct Hc as (He & c & Hcb & Hr). rewrite He.
      split; [lia|]. split; [exists c; split; [lia|exact Hr]|].
      intros r Hlt. lia.
    + specialize (IH (S r0)).
      destruct (overflow_rows b (seq (S r0) len)) as [e|].
      * destruct IH as (Hb & Hex & Hfirst).
        split; [lia|]. split; [exact Hex|].
        intros r Hr. destruct (Nat.eq_dec r r0) as [->|Hne]; [|apply Hfirst; lia].
        intros (c & Hcb & Hreach). apply (Hc c); [lia|exact Hreach].
      * intros r Hr. destruct (Nat.eq_dec r r0) as [->|Hne]; [|apply IH; lia].
        intros (c & Hcb & Hreach). apply (Hc c); [lia|exact Hreach].
Qed.

(** *** The exact sums *)

Lemma pos_sum_below (b : BIP) (r n : nat) :
  (0 <= max_coef_val b)%Q ->
  (forall c, (c < n)%nat -> ~ meets_bound b r c) ->
  (pos_sum b r n <= max_coef_val b)%Q.
Proof.
  intros Hmax. induction n as [|n IH]; intros H.
  - exact Hmax.
  - rewrite pos_sum_S.
    destruct (Qlt_bool 0 (ar b r n)) eqn:T; [|apply IH; intros; apply H; lia].
    apply Qlt_bool_iff in T.
    apply Qlt_le_weak, Qnot_le_lt. intros Hle.
    apply (H n); [lia|]. left. split; [assumption|lra].
Qed.

Lemma neg_sum_above (b : BIP) (r n : nat) :
  (min_coef_val b <= 0)%Q ->
  (forall c, (c < n)%nat -> ~ meets_bound b r c) ->
  (min_coef_val b <= neg_sum b r n)%Q.
Proof.
  intros Hmin. induction n as [|n IH]; intros H.
  - exact Hmin.
  - rewrite neg_sum_S.
    destruct (Qlt_bool (ar b r n) 0) eqn:T; [|apply IH; intros; apply H; lia].
    apply Qlt_bool_iff in T.
    apply Qlt_le_weak, Qnot_le_lt. intros Hle.
    apply (H n); [lia|]. right. split; [assumption|lra].
Qed.

Lemma pos_sum_step (b : BIP) (r c : nat) :
  (0 < ar b r c)%Q -> (pos_sum b r c + ar b r c <= pos_sum b r (S c))%Q.
Proof.
  intros H. rewrite pos_sum_S. apply Qlt_bool_iff in H. rewrite H. lra.
Qed.

Lemma pos_sum_mono (b : BIP) (r c n : nat) :
  (c <= n)%nat -> (pos_sum b r c <= pos_sum b r n)%Q.
Proof.
  induction 1 as [|n Hle IH]; [lra|].
  rewrite pos_sum_S. destruct (Qlt_bool 0 (ar b r n)) eqn:T; [|exact IH].
  apply Qlt_bool_iff in T. lra.
Qed.

Lemma neg_sum_step (b : BIP) (r c : nat) :
  (ar b r c < 0)%Q -> (neg_sum b r (S c) <= neg_sum b r c + ar b r c)%Q.
Proof.
  intros H. rewrite neg_sum_S. apply Qlt_bool_iff in H. rewrite H. lra.
Qed.

Lemma neg_sum_mono (b : BIP) (r c n : nat) :
  (c <= n)%nat -> (neg_sum b r n <= neg_sum b r c)%Q.
Proof.
  induction 1 as [|n Hle IH]; [lra|].
  rewrite neg_sum_S. destruct (Qlt_bool (ar b r n) 0) eqn:T; [|exact IH].
  apply Qlt_bool_iff in T. lra.
Qed.

(** Sums that stay a unit below the bounds meet no bound. *)
Lemma sums_within_meet_no_bound (b : BIP) (r : nat) :
  (pos_sum b r (Z.to_nat (cols b)) <= max_coef_val b - 1)%Q ->
  (min_coef_val b < neg_sum b r (Z.to_nat (cols b)))%Q ->
  forall c, (c < Z.to_nat (cols b))%nat -> ~ meets_bound b r c.
Proof.
  intros Hp Hn c Hc [[Hv Hm]|[Hv Hm]].
  - pose proof (pos_sum_step b r c Hv) as S1.
    pose proof (pos_sum_mono b r (S c) (Z.to_nat (cols b)) ltac:(lia)) as S2.
    lra.
  - pose proof (neg_sum_step b r c Hv) as S1.
    pose proof (neg_sum_mono b r (S c) (Z.to_nat (cols b)) ltac:(lia)) as S2.
    lra.
Qed.

(** *** Rows of integers: the guard does not round *)

Section IntegralRow.
Variable b : BIP.
Variable r : nat.
Variables lo hi : Z.
Hypothesis Hlo : (min_coef_val b == inject_Z lo)%Q.
Hypothesis Hhi : (max_coef_val b == inject_Z hi)%Q.
Hypothesis Hlo_range : - 2 ^ 53 <= lo <= 0.
Hypothesis Hhi_range : 0 <= hi <= 2 ^ 53.
Hypothesis Hrow : integral_row b r.

Lemma coefficient_integer (c : nat) :
  (c < Z.to_nat (cols b))%nat ->
  exists v : Z, (ar b r c == inject_Z v)%Q /\ lo <= v <= hi.
Proof.
  intros Hc. destruct (Hrow c Hc) as [[v Hv] [H1 H2]].
  exists v. split; [exact Hv|].
  rewrite Hv, Hlo in H1. rewrite Hv, Hhi in H2.
  rewrite <- Zle_Qle in H1, H2. lia.
Qed.

(** With exact sums the test of the code is the exact test. *)
Lemma reaches_iff_meets (c : nat) :
  (c < Z.to_nat (cols b))%nat -> sums_exact b r lo hi c ->
  reaches_bound b r c <-> meets_bound b r c.
Proof.
  intros Hc (p & m & Hp & Hp' & Hm & Hm' & Rp & Rm).
  destruct (coefficient_integer c Hc) as (v & Hv & Rv).
  unfold reaches_bound, meets_bound.
  assert (Ep : (0 < ar b r c)%Q ->
               (fl (max_coef_val b - ar b r c) == max_coef_val b - ar b r c)%Q).
  { intros Hpos. rewrite Hv in Hpos. change 0%Q with (inject_Z 0) in Hpos.
    rewrite <- Zlt_Qlt in Hpos.
    apply (fl_integral _ (hi - v)); [|lia].
    rewrite Hhi, Hv. unfold Zminus. rewrite inject_Z_plus, inject_Z_opp.
    reflexivity. }
  assert (En : (ar b r c < 0)%Q ->
               (fl (min_coef_val b - ar b r c) == min_coef_val b - ar b r c)%Q).
  { intros Hneg. rewrite Hv in Hneg. change 0%Q with (inject_Z 0) in Hneg.
    rewrite <- Zlt_Qlt in Hneg.
    apply (fl_integral _ (lo - v)); [|lia].
    rewrite Hlo, Hv. unfold Zminus. rewrite inject_Z_plus, inject_Z_opp.
    reflexivity. }
  split; (intros [[H1 H2]|[H1 H2]]; [left|right]; split; try exact H1).
  - rewrite (Ep H1), Hp in H2. rewrite Hp'. exact H2.
  - rewrite (En H1), Hm in H2. rewrite Hm'. exact H2.
  - rewrite (Ep H1), Hp. rewrite Hp' in H2. exact H2.
  - rewrite (En H1), Hm. rewrite Hm' in H2. exact H2.
Qed.

Lemma sums_exact_step (c : nat) :
  (c < Z.to_nat (cols b))%nat -> sums_exact b r lo hi c -> ~ meets_bound b r c ->
  sums_exact b r lo hi (S c).
Proof.
  intros Hc (p & m & Hp & Hp' & Hm & Hm' & Rp & Rm) Hno.
  destruct (coefficient_integer c Hc) as (v & Hv & Rv).
  unfold sums_exact. rewrite row_max_S, row_min_S, pos_sum_S, neg_sum_S.
  destruct (Qlt_bool 0 (ar b r c)) eqn:Tp.
  - apply Qlt_bool_iff in Tp.
    assert (Tn : Qlt_bool (ar b r c) 0 = false) by (apply Qlt_bool_false; lra).
    rewrite Tn.
    assert (Hv0 : 0 < v).
    { rewrite Hv in Tp. change 0%Q with (inject_Z 0) in Tp.
      now rewrite <- Zlt_Qlt in Tp. }
    assert (Hsum : p + v < hi).
    { apply Z.lt_nge. intros Hge. apply Hno. left. split; [exact Tp|].
      rewrite Hhi, Hv, Hp'. unfold Qminus. rewrite <- inject_Z_opp, <- inject_Z_plus.
      rewrite <- Zle_Qle. lia. }
    exists (p + v), m.
    assert (E : (row_max b r c + ar b r c == inject_Z (p + v))%Q)
      by (rewrite Hp, Hv, inject_Z_plus; reflexivity).
    split; [rewrite (fl_integral _ (p + v) E) by lia; exact E|].
    split; [rewrite Hp', Hv, inject_Z_plus; reflexivity|].
    split; [exact Hm|]. split; [exact Hm'|]. lia.
  - destruct (Qlt_bool (ar b r c) 0) eqn:Tn.
    + apply Qlt_bool_iff in Tn.
      assert (Hv0 : v < 0).
      { rewrite Hv in Tn. change 0%Q with (inject_Z 0) in Tn.
        now rewrite <- Zlt_Qlt in Tn. }
      assert (Hsum : lo < m + v).
      { apply Z.lt_nge. intros Hge. apply Hno. right. split; [exact Tn|].
        rewrite Hlo, Hv, Hm'. unfold Qminus. rewrite <- inject_Z_opp, <- inject_Z_plus.
        rewrite <- Zle_Qle. lia. }
      exists p, (m + v).
      assert (E : (row_min b r c + ar b r c == inject_Z (m + v))%Q)
        by (rewrite Hm, Hv, inject_Z_plus; reflexivity).
      split; [exact Hp|]. split; [exact Hp'|].
      split; [rewrite (fl_integral _ (m + v) E) by lia; exact E|].
      split; [rewrite Hm', Hv, inject_Z_plus; reflexivity|]. lia.
    + exists p, m. repeat split; assumption || lia.
Qed.

Lemma sums_exact_prefix (n : nat) :
  (n <= Z.to_nat (cols b))%nat ->
  (forall c, (c < n)%nat -> ~ meets_bound b r c) -> sums_exact b r lo hi n.
Proof.
  induction n as [|n IH]; intros Hn Hno.
  - exists 0, 0. repeat split; reflexivity || lia.
  - apply sums_exact_step; [lia| |apply Hno; lia].
    apply IH; [lia|]. intros c Hc. apply Hno. lia.
Qed.

(** On a row of integers the guard's tests are the exact tests. *)
Lemma integral_row_reaches (n : nat) :
  (n <= Z.to_nat (cols b))%nat ->
  (forall c, (c < n)%nat -> ~ reaches_bound b r c) <->
  (forall c, (c < n)%nat -> ~ meets_bound b r c).
Proof.
  intros Hn. split.
  - intros Hno. induction n as [|n IH]; intros c Hc; [lia|].
    assert (Hbelow : forall c', (c' < n)%nat -> ~ meets_bound b r c')
      by (apply IH; [lia|intros c' Hc'; apply Hno; lia]).
    destruct (Nat.eq_dec c n) as [->|Hne]; [|apply Hbelow; lia].
    intros Hm. apply (Hno n); [lia|].
    apply reaches_iff_meets; [lia| |exact Hm].
    apply sums_exact_prefix; [lia|exact Hbelow].
  - intros Hno c Hc Hr. apply (Hno c Hc).
    apply reaches_iff_meets; [lia| |exact Hr].
    apply sums_exact_prefix; [lia|]. intros c' Hc'. apply Hno. lia.
Qed.
End IntegralRow.

(** C6, as the code has it.  [bip_can_overflow] reports the first row in
    which, in the rounding arithmetic of the code, the next coefficient
    takes the running sum of the positive coefficients to [max_coef_val] or
    past it, or the running sum of the negative coefficients to
    [min_coef_val] or past it.  When the bounds and the coefficients of a
    row are integers that the code adds and subtracts without rounding:
    the row is rejected when its positive sum exceeds the bound, and it is
    accepted when its positive sum is at most the bound minus one and its
    negative sum stays above the lower bound. *)
Theorem overflow_guard_reports_first_row_at_bound (b : BIP) :
  (forall r, reports_row b r <-> first_row reaches_bound b r) /\
  (integral_bounds b ->
   forall r, (r < Z.to_nat (rows b))%nat -> integral_row b r ->
     ((max_coef_val b < pos_sum b r (Z.to_nat (cols b)))%Q ->
      exists e, bip_can_overflow b = Some e) /\
     ((pos_sum b r (Z.to_nat (cols b)) <= max_coef_val b - 1)%Q ->
      (min_coef_val b < neg_sum b r (Z.to_nat (cols b)))%Q ->
      overflow_cols b r (seq 0 (Z.to_nat (cols b))) 0 0 = None)).
Proof.
  pose proof (overflow_rows_spec b (Z.to_nat (rows b)) O) as Hspec.
  fold (bip_can_overflow b) in Hspec.
  split.
  - intros r. unfold reports_row, first_row. split.
    + intros (e & He & <-). rewrite He in Hspec.
      destruct Hspec as (Hb & Hex & Hfirst).
      split; [lia|]. split; [exact Hex|]. intros r' Hr'. apply Hfirst. lia.
    + intros (Hr & Hex & Hfirst).
      destruct (bip_can_overflow b) as [e|].
      * exists e. split; [reflexivity|].
        destruct Hspec as (Hb & Hex' & Hfirst').
        destruct (Nat.lt_trichotomy (error_row e) r) as [Hlt|[Heq|Hgt]].
        -- exfalso. exact (Hfirst _ Hlt Hex').
        -- exact Heq.
        -- exfalso. apply (Hfirst' r); [lia|exact Hex].
      * exfalso. apply (Hspec r); [lia|exact Hex].
  - intros (lo & hi & Hlo & Hhi & Rlo & Rhi) r Hr Hrow.
    pose proof (integral_row_reaches b r lo hi Hlo Hhi Rlo Rhi Hrow
                                     (Z.to_nat (cols b)) (Nat.le_refl _)) as Hiff.
    split.
    + intros Hsum.
      destruct (bip_can_overflow b) as [e|]; [now exists e|].
      exfalso.
      assert (Hmax : (0 <= max_coef_val b)%Q).
      { rewrite Hhi. change 0%Q with (inject_Z 0). rewrite <- Zle_Qle. lia. }
      assert (Hle : (pos_sum b r (Z.to_nat (cols b)) <= max_coef_val b)%Q).
      { apply pos_sum_below; [exact Hmax|]. apply Hiff.
        intros c Hc Hreach. apply (Hspec r); [lia|]. exists c. split; assumption. }
      lra.
    + intros Hp Hn.
      pose proof (overflow_cols_spec b r (Z.to_nat (cols b)) O) as Hc.
      change (row_max b r 0) with 0%Q in Hc. change (row_min b r 0) with 0%Q in Hc.
      destruct (overflow_cols b r (seq 0 (Z.to_nat (cols b))) 0 0) as [e|];
        [|reflexivity].
      destruct Hc as (_ & c & Hcb & Hreach).
      exfalso. revert Hreach. apply (proj2 Hiff); [|lia].
      apply sums_within_meet_no_bound; assumption.
Qed.

(** C6, as stated, fails: a single coefficient equal to [max_coef_val] is
    reported although no running sum goes past a bound. *)
Lemma overflow_reported_at_the_bound :
  ~ (forall r, reports_row model_at_bound r
               <-> first_row pushes_past model_at_bound r).
Proof.
  intros H. destruct (proj1 (H O)) as (_ & (c & Hc & Hp) & _).
  - exists (Numerical_overflow 0). split; vm_compute; reflexivity.
  - assert (c = O) by (vm_compute in Hc; lia). subst c.
    destruct Hp as [[_ Hp]|[Hp _]]; vm_compute in Hp; discriminate Hp.
Qed.

Lemma overflow_guard_witness :
  reports_row model_at_bound 0 /\
  overflow_cols model_three_ones 0 (seq 0 3) 0 0 = None.
Proof.
  destruct (overflow_guard_reports_first_row_at_bound model_at_bound)
    as (H1 & _).
  destruct (overflow_guard_reports_first_row_at_bound model_three_ones)
    as (_ & H2).
  split.
  - apply H1. split; [vm_compute; lia|]. split.
    + exists O. split; [vm_compute; lia|]. left. split; vm_compute; congruence.
    + intros r' Hr'. lia.
  - refine (proj2 (H2 _ O _ _) _ _).
    + exists (- 10 ^ 15), (10 ^ 15). repeat split; vm_compute; congruence.
    + vm_compute. reflexivity.
    + intros c Hc. change (c < 3)%nat in Hc.
      split; [exists 1|]; (destruct c as [|[|[|c]]]; [..|lia]);
        vm_compute; (reflexivity || (split; congruence)).
    + vm_compute. congruence.
    + vm_compute. reflexivity.
Defined.

(** Where the guard rounds.  Near the bound [10^15] the differences
    [max_coef_val - val] and the running sums are rounded to multiples of
    [0.125], and the guard no longer answers for the exact sums: the row
    [999999999999999.875 0.07] is reported although the exact test does
    not hold; a row whose sum is at most the bound minus one is rejected;
    and a row whose sum exceeds the bound is accepted. *)
Example overflow_guard_rounds :
  (reports_row model_near_bound 0 /\ ~ meets_bound model_near_bound 0 1) /\
  (bip_can_overflow model_sum_rounds_up = Some (Numerical_overflow 0) /\
   (pos_sum model_sum_rounds_up 0 32 <= max_coef_val model_sum_rounds_up - 1)%Q) /\
  (bip_can_overflow model_sum_rounds_down = None /\
   (max_coef_val model_sum_rounds_down < pos_sum model_sum_rounds_down 0 32)%Q).
Proof.
  split; [split|split; split].
  - exists (Numerical_overflow 0). split; vm_compute; reflexivity.
  - intros [[_ H]|[H _]]; vm_compute in H; congruence.
  - vm_compute. reflexivity.
  - vm_compute. congruence.
  - vm_compute. reflexivity.
  - vm_compute. reflexivity.
Qed.

(** ** [process_line] and [bip_read] *)

Section ReaderFacts.
Variable strtod : string -> strtod_result.

(** Dropping the fraction of a nonnegative number is taking its floor. *)
Lemma Qtrunc_floor (q : Q) : (0 <= q)%Q -> Qtrunc q = Qfloor q.
Proof.
  destruct q as [n d]. unfold Qle, Qtrunc, Qfloor. cbn. intros H.
  apply Z.quot_div_nonneg; lia.
Qed.

Lemma int_of_integer (n : Z) :
  INT_MIN <= n <= INT_MAX -> int_of (DFinite (inject_Z n)) = n.
Proof.
  intros H. unfold int_of, Qtrunc. cbn [inject_Z Qnum Qden].
  rewrite Z.quot_1_r. cbv zeta.
  destruct (Z.leb_spec INT_MIN n); [|lia].
  destruct (Z.leb_spec n INT_MAX); [reflexivity|lia].
Qed.

(** The cast of an integral value of at least 1: the value itself below
    [2^31], and [INT_MIN] from there on. *)
Lemma int_of_count (q : Q) :
  (q == inject_Z (Qfloor q))%Q -> (1 <= q)%Q ->
  int_of (DFinite q) = if Qfloor q <=? INT_MAX then Qfloor q else INT_MIN.
Proof.
  intros Hi H1. unfold int_of. rewrite Qtrunc_floor by lra. cbv zeta.
  assert (1 <= Qfloor q).
  { rewrite Zle_Qle. rewrite <- Hi. exact H1. }
  destruct (Z.leb_spec INT_MIN (Qfloor q)); [|unfold INT_MIN in *; lia].
  reflexivity.
Qed.






Lemma read_loop_error (lines : list string) (bip : BIP) (errno : Z) :
  read_loop strtod lines READ_ERROR bip errno = Some (READ_ERROR, bip, errno).
Proof. destruct lines; reflexivity. Qed.

Lemma read_loop_nil (mode : LINE_MODE) (bip : BIP) (errno : Z) :
  read_loop strtod [] mode bip errno = Some (mode, bip, errno).
Proof. destruct mode; reflexivity. Qed.

Lemma read_loop_cons (s : string) (rest : list string) (mode : LINE_MODE)
      (bip : BIP) (errno : Z) :
  mode <> READ_ERROR ->
  read_loop strtod (s :: rest) mode bip errno
  = match process_line strtod mode (lfs_split_line s "#") bip errno with
    | Some (mode', bip', errno') => read_loop strtod rest mode' bip' errno'
    | None => None
    end.
Proof. destruct mode; [congruence|reflexivity..]. Qed.

(** The loop never reaches the [abort()] of [process_line]. *)
Lemma read_loop_total (lines : list string) :
  forall mode bip errno,
    exists st, read_loop strtod lines mode bip errno = Some st.
Proof.
  induction lines as [|s rest IH]; intros mode bip errno.
  - rewrite read_loop_nil. eauto.
  - destruct (mode) eqn:M.
    + rewrite read_loop_error. eauto.
    + rewrite read_loop_cons by congruence. unfold process_line.
      repeat match goal with
             | |- context [if ?c then _ else _] => destruct c
             | |- context [let '(_, _) := ?p in _] => destruct p as [[? ?] ?]
             end; apply IH.
    + rewrite read_loop_cons by congruence. unfold process_line.
      repeat match goal with
             | |- context [if ?c then _ else _] => destruct c
             | |- context [let '(_, _) := ?p in _] => destruct p as [[? ?] ?]
             end; apply IH.
    + rewrite read_loop_cons by congruence. unfold process_line.
      repeat match goal with
             | |- context [if ?c then _ else _] => destruct c
             | |- context [let '(_, _) := ?p in _] => destruct p as [[? ?] ?]
             end; apply IH.
Qed.

Lemma read_loop_app (pre rest : list string) :
  forall mode bip errno,
    read_loop strtod (pre ++ rest) mode bip errno
    = match read_loop strtod pre mode bip errno with
      | Some (mode', bip', errno') => read_loop strtod rest mode' bip' errno'
      | None => None
      end.
Proof.
  induction pre as [|s pre IH]; intros mode bip errno.
  - rewrite read_loop_nil. reflexivity.
  - cbn [app]. destruct mode eqn:M.
    + rewrite !read_loop_error. cbv iota beta.
      rewrite ?read_loop_error. reflexivity.
    + rewrite !read_loop_cons by congruence.
      destruct (process_line strtod READ_COLS _ bip errno) as [[[m b] e]|];
        [apply IH|reflexivity].
    + rewrite !read_loop_cons by congruence.
      destruct (process_line strtod READ_ROWS _ bip errno) as [[[m b] e]|];
        [apply IH|reflexivity].
    + rewrite !read_loop_cons by congruence.
      destruct (process_line strtod READ_COEF _ bip errno) as [[[m b] e]|];
        [apply IH|reflexivity].
Qed.

End ReaderFacts.

(** ** The theorems at concrete inputs *)

Example split_line_example :
  lfs_split_line " 12.5  0.3 <= 17.5 # note" "#"
  = ["12.5"; "0.3"; "<="; "17.5"]%string.
Proof. reflexivity. Qed.

(** Reading [file_three_ones] and enumerating: 7 of the 8 assignments are
    feasible, all but [111]. *)
Example end_to_end_three_ones :
  match bip_read strtod_digits (bip_init 1) 0 (Some file_three_ones) with
  | Some (ret, b, calls) =>
      ret = 0 /\ calls = [Call_bip_can_overflow; Call_bip_preprocess] /\
      sol_count (bip_enumerate exact b) = 7 /\
      reported (bip_enumerate exact b) = [0; 1; 3; 2; 6; 5; 4] /\
      reported (bip_enumerate binary64 (to_binary64 b)) = [0; 1; 3; 2; 6; 5; 4]
  | None => False
  end.
Proof. vm_compute. repeat split. Qed.

(** The constraint [1 1 = 1] over two variables: exactly [01] and [10]. *)
Example end_to_end_one_of_two :
  reported (bip_enumerate exact
              (bip_preprocess (model_of 2 [([1; 1], EQ, 1)]%Q)))
  = [1; 2].
Proof. vm_compute. reflexivity. Qed.

(** C9.  A count of [2^31] is outside 1..32 and 1..128, so the lines of
    [file_count_beyond_int] are faulty.  The test
    [(int)val > BIP_MAX_COLS] of [process_line] compares the cast, which
    is [INT_MIN], and lets the line pass; the same happens to the row
    count.  At the end of the file [read_rows < rows] is false, so
    [bip_read] calls [bip_can_overflow] and [bip_preprocess] and returns 0,
    leaving [cols = rows = INT_MIN] and [read_rows = 0]: a structure that
    does not pass [bip_is_valid]. *)
Theorem count_beyond_int_passes_the_reader :
  line_fault strtod_digits READ_COLS (bip_init 1)
             (lfs_split_line "2147483648" "#") /\
  process_line strtod_digits READ_COLS (lfs_split_line "2147483648" "#")
               (bip_init 1) 0
  = Some (READ_ROWS, set_cols (bip_init 1) INT_MIN, 0) /\
  match bip_read strtod_digits (bip_init 1) 0 (Some file_count_beyond_int) with
  | Some (ret, b, calls) =>
      ret = 0 /\ calls = [Call_bip_can_overflow; Call_bip_preprocess] /\
      cols b = INT_MIN /\ rows b = INT_MIN /\ read_rows b = 0 /\
      bip_is_valid b = false
  | None => False
  end.
Proof.
  split; [|split].
  - apply Column_count_out_of_bounds.
    + reflexivity.
    + vm_compute. reflexivity.
    + right. vm_compute. reflexivity.
  - vm_compute. reflexivity.
  - vm_compute. repeat split.
Qed.

(** C2.  In binary64 the incrementally maintained residual leaves the value
    recomputed from scratch.  For the row [0.5 950000000000000 0.5 <= 0.9],
    which [bip_preprocess] stores as [5 9.5e15 5 <= 9], the seventh visit is
    [x = 101] with the residual [0.0], while the sum of the columns 0 and 2
    minus [rhs_ord] is [1.0] (also when it is computed in binary64); so the
    infeasible assignment [101] is reported, against the assertion
    [bip_is_feasible(bip, x)] of [check_feasibility].  In exact arithmetic
    the same run reports [000], [001] and [100] only. *)
Theorem binary64_residual_drifts :
  let b := bip_preprocess model_absorbing in
  let visit6 := nth 6 (visits (bip_enumerate binary64 (to_binary64 b)))
                    (0, fun _ => 0%float) in
  fst visit6 = 5 /\
  PrimFloat.eqb (snd visit6 0%nat) 0%float = true /\
  PrimFloat.eqb
    (PrimFloat.sub
       (PrimFloat.add (PrimFloat.add 0%float (ac (to_binary64 b) 0 0))
                      (ac (to_binary64 b) 2 0))
       (rhs_ord (to_binary64 b) 0))
    1%float = true /\
  (residual b 5 0 == 1)%Q /\
  cf_ret (check_feasibility binary64 (to_binary64 b) 5 (snd visit6)) = 1 /\
  bip_is_feasible binary64 (to_binary64 b) 5 = false /\
  reported (bip_enumerate binary64 (to_binary64 b)) = [0; 1; 5; 4] /\
  reported (bip_enumerate exact b) = [0; 1; 4].
Proof. vm_compute. repeat split. Qed.

(** In exact arithmetic every vector reported for that row passes
    [bip_is_feasible]; in binary64 one does not. *)
Example reported_vectors_of_absorbing_row :
  let b := bip_preprocess model_absorbing in
  forallb (bip_is_feasible exact b) (reported (bip_enumerate exact b)) = true /\
  forallb (bip_is_feasible binary64 (to_binary64 b))
          (reported (bip_enumerate binary64 (to_binary64 b))) = false.
Proof. vm_compute. split; reflexivity. Qed.

(** The stored row: what [bip_preprocess] computes is what the binary64
    operations give ([0.5 * 10], [950000000000000 * 10] and [0.9 * 10]
    round to [5], [9.5e15] and [9]). *)
Example absorbing_row_in_binary64 :
  let b := to_binary64 (bip_preprocess model_absorbing) in
  PrimFloat.eqb (ac b 0 0) (0.5 * 10)%float = true /\
  PrimFloat.eqb (ac b 1 0) (950000000000000 * 10)%float = true /\
  PrimFloat.eqb (rhs_ord b 0) (9 / 10 * 10)%float = true /\
  bip_can_overflow model_absorbing = None.
Proof. vm_compute. repeat split. Qed.

(** On that row the arithmetic [rounded] reproduces the binary64 run:
    the same visits, the same reports, and the same verdict of
    [bip_is_feasible] on [101]. *)
Example rounded_run_is_the_binary64_run :
  let b := bip_preprocess model_absorbing in
  map fst (visits (bip_enumerate rounded b))
  = map fst (visits (bip_enumerate binary64 (to_binary64 b))) /\
  reported (bip_enumerate rounded b)
  = reported (bip_enumerate binary64 (to_binary64 b)) /\
  bip_is_feasible rounded b 5 = bip_is_feasible binary64 (to_binary64 b) 5.
Proof. vm_compute. repeat split. Qed.

(** With fractions the scaling rounds.  The [double]s nearest to 0.07 and
    0.03 add up to the one nearest to 0.1, so [11] solves
    [0.07 0.03 = 0.1], and [bip_is_feasible] accepts it; but the row is
    stored as [7.000000000000001 3 = 10], and the enumeration reports
    nothing. *)
Example scaling_rounds_a_solution_away :
  satisfies model_seven_three 3 /\
  bip_is_feasible rounded model_seven_three 3 = true /\
  (ac (bip_preprocess model_seven_three) 0 0
   == 7881299347898369 # 1125899906842624)%Q /\
  (ac (bip_preprocess model_seven_three) 1 0 == 3)%Q /\
  (rhs_ord (bip_preprocess model_seven_three) 0 == 10)%Q /\
  reported (bip_enumerate rounded (bip_preprocess model_seven_three)) = [].
Proof.
  split.
  - intros r Hr. change (r < 1)%nat in Hr. destruct r as [|r]; [|lia].
    vm_compute. reflexivity.
  - repeat split; vm_compute; reflexivity.
Qed.

(** A sum that rounds reports a vector that is no solution: in the row
    [0.03 500000000000000.0625 <= 500000000000000.0625] the first
    coefficient is lost when it is added to the second, so [11] is
    reported, and [bip_is_feasible], which adds in the same way, accepts
    it. *)
Example absorbed_coefficient_is_reported :
  bip_can_overflow model_absorbed = None /\
  ~ satisfies model_absorbed 3 /\
  In 3 (reported (bip_enumerate rounded (bip_preprocess model_absorbed))) /\
  bip_is_feasible rounded model_absorbed 3 = true.
Proof.
  split; [vm_compute; reflexivity|]. split.
  - intros H. specialize (H O ltac:(vm_compute; lia)).
    vm_compute in H. congruence.
  - split; vm_compute; auto.
Qed.

Lemma enumerate_visits_each_assignment_once_witness :
  Z.of_nat (List.length
              (map fst (visits (bip_enumerate exact model_three_ones)))) = 8.
Proof.
  destruct (enumerate_visits_each_assignment_once exact model_three_ones)
    as (H & _).
  - vm_compute. split; congruence.
  - exact H.
Defined.

Lemma debruijn_lookup_finds_bit_index_witness :
  nth (Z.to_nat (Z.shiftr (u32 (u32 (Z.shiftl 1 5) * DEBRUIJN32)) 27)) index32 0
  = 5.
Proof.
  apply (debruijn_lookup_finds_bit_index 5). lia.
Defined.

Lemma check_feasibility_classifies_witness :
  cf_ret (check_feasibility binary64
            (to_binary64 (bip_preprocess model_three_ones)) 0
            (fun _ => (- 2)%float)) = 0
  \/ cf_ret (check_feasibility binary64
               (to_binary64 (bip_preprocess model_three_ones)) 0
               (fun _ => (- 2)%float)) = 1.
Proof.
  destruct (check_feasibility_classifies
              binary64 (to_binary64 (bip_preprocess model_three_ones)) 0
              (fun _ => (- 2)%float)) as (_ & H & _).
  - vm_compute. split; congruence.
  - exact H.
Defined.

Lemma enumerate_no_columns_witness :
  bip_enumerate exact (bip_init 1) = mkER 0 [] [] [].
Proof.
  apply enumerate_no_columns. reflexivity.
Defined.

Lemma enumerate_is_reflected_gray_code_witness :
  nth_error (map fst (visits (bip_enumerate binary64
                                (to_binary64 model_three_ones))))
            (Z.to_nat 5)
  = Some (Z.lxor 5 (Z.shiftr 5 1)).
Proof.
  destruct (enumerate_is_reflected_gray_code
              binary64 (to_binary64 model_three_ones)) as (_ & H).
  - vm_compute. split; congruence.
  - destruct (H 5) as (Hn & _).
    + vm_compute. split; congruence.
    + exact Hn.
Defined.


(* ================================================================== *)
(** * Part III: further properties of the code *)
(* ================================================================== *)

(** ** What [bip_enumerate] counts and reports *)

(** A call of [check_feasibility] returns 1 and reports [x], or returns 0
    and reports nothing. *)
Lemma check_feasibility_reports {T : Type} (A : arith T)
      (bip : binary_program T) (x : Z) (r : nat -> T) :
  (cf_ret (check_feasibility A bip x r) = 1 /\
   cf_reported (check_feasibility A bip x r) = [x]) \/
  (cf_ret (check_feasibility A bip x r) = 0 /\
   cf_reported (check_feasibility A bip x r) = []).
Proof.
  unfold check_feasibility.
  destruct (scan _ (equs bip) r 0 []) as [k1 s1].
  destruct (if k1 =? equs bip then _ else _) as [k2 s2].
  destruct (k2 <? rows bip); [right|left]; split; reflexivity.
Qed.

Section Reports.
Context {T : Type} (A : arith T).
Variable bip : binary_program T.

Lemma visit_reports (v : Z * (nat -> T)) :
  cf_reported (check_feasibility A bip (fst v) (snd v))
  = (if accepted A bip v then [fst v] else []) /\
  cf_ret (check_feasibility A bip (fst v) (snd v))
  = (if accepted A bip v then 1 else 0).
Proof.
  unfold accepted.
  destruct (check_feasibility_reports A bip (fst v) (snd v)) as [[-> ->]|[-> ->]];
    split; reflexivity.
Qed.

Lemma visit_books (x n negn : Z) (r : nat -> T) (count : Z)
      (vs : list (Z * (nat -> T))) (fs : list flip) (rep : list Z) :
  rep = map fst (filter (accepted A bip) vs) ->
  count = Z.of_nat (List.length rep) ->
  books_kept A bip (visit A bip x n negn r count vs fs rep).
Proof.
  intros Hrep Hcount. unfold books_kept, visit.
  cbn [e_reported e_sol_count e_visits].
  destruct (visit_reports (x, r)) as [Hr Hc]. cbn [fst snd] in Hr, Hc.
  rewrite Hr, Hc, filter_app, map_app, <- Hrep. cbn [filter].
  destruct (accepted A bip (x, r)); cbn [map fst]; split; try reflexivity;
    rewrite length_app; cbn [List.length]; lia.
Qed.

Lemma enum_step_books (st : enum_state T) :
  books_kept A bip st -> books_kept A bip (enum_step A bip st).
Proof.
  intros [Hrep Hcount]. unfold enum_step.
  apply visit_books; assumption.
Qed.

Lemma enum_loop_fuel_books (fuel : nat) :
  forall st, books_kept A bip st ->
             books_kept A bip (enum_loop_fuel A bip fuel st).
Proof.
  induction fuel as [|fuel IH]; intros st Hst; [exact Hst|].
  cbn [enum_loop_fuel]. destruct (e_negn st =? 0); [exact Hst|].
  apply IH, enum_step_books, Hst.
Qed.

Lemma enum_start_books : books_kept A bip (enum_start A bip).
Proof.
  unfold enum_start. cbv zeta.
  set (st0 := visit A bip 0 1 0 _ 0 [] [] []).
  assert (H0 : books_kept A bip st0) by (apply visit_books; reflexivity).
  exact H0.
Qed.

Lemma bip_enumerate_start :
  cols bip <> 0 ->
  bip_enumerate A bip
  = let st := enum_loop A bip (enum_start A bip) in
    mkER (e_sol_count st) (e_visits st) (e_flips st) (e_reported st).
Proof.
  intros Hc. unfold bip_enumerate.
  destruct (Z.eqb_spec (cols bip) 0); [contradiction|reflexivity].
Qed.

Lemma bip_enumerate_books :
  reported (bip_enumerate A bip)
  = map fst (filter (accepted A bip) (visits (bip_enumerate A bip))) /\
  sol_count (bip_enumerate A bip)
  = Z.of_nat (List.length (reported (bip_enumerate A bip))).
Proof.
  destruct (Z.eq_dec (cols bip) 0) as [E|N].
  - unfold bip_enumerate. rewrite E. split; reflexivity.
  - rewrite bip_enumerate_start by exact N. cbv zeta.
    cbn [reported visits sol_count].
    apply (enum_loop_fuel_books _ _ enum_start_books).
Qed.
End Reports.

(** The reports are a sublist of the visited assignments. *)
Lemma map_filter_NoDup {X Y : Type} (f : X -> Y) (p : X -> bool) (l : list X) :
  NoDup (map f l) -> NoDup (map f (filter p l)).
Proof.
  induction l as [|a l IH]; intros Hnd; [constructor|].
  cbn [map] in Hnd. inversion Hnd as [|? ? Hnotin Hnd']; subst.
  cbn [filter]. destruct (p a); [|now apply IH].
  cbn [map]. constructor; [|now apply IH].
  intros Hin. apply Hnotin. apply in_map_iff in Hin.
  destruct Hin as (y & Hy & Hin). apply filter_In in Hin.
  apply in_map_iff. exists y. tauto.
Qed.

(** X1.  [bip_enumerate] returns the number of its [report_sol] calls, and
    the reported vectors are the visited ones whose [check_feasibility]
    call returned 1, in visiting order.  This holds in any arithmetic. *)
Theorem enumerate_counts_its_reports {T : Type} (A : arith T)
        (bip : binary_program T) :
  sol_count (bip_enumerate A bip)
    = Z.of_nat (List.length (reported (bip_enumerate A bip))) /\
  reported (bip_enumerate A bip)
    = map fst (filter (fun v => cf_ret (check_feasibility A bip (fst v) (snd v))
                                =? 1)
                      (visits (bip_enumerate A bip))).
Proof.
  destruct (bip_enumerate_books A bip) as [Hrep Hcount].
  split; [exact Hcount|exact Hrep].
Qed.

(** X2.  With 1 to 32 columns no vector is reported twice, every reported
    vector is an assignment of the columns, and the returned count is at
    most [2^cols]; in any arithmetic. *)
Theorem enumerate_reports_no_vector_twice {T : Type} (A : arith T)
        (bip : binary_program T) :
  1 <= cols bip <= 32 ->
  NoDup (reported (bip_enumerate A bip)) /\
  (forall x, In x (reported (bip_enumerate A bip)) -> 0 <= x < 2 ^ cols bip) /\
  0 <= sol_count (bip_enumerate A bip) <= 2 ^ cols bip.
Proof.
  intros Hcols.
  destruct (bip_enumerate_books A bip) as [Hrep Hcount].
  destruct (bip_enumerate_spec A bip Hcols) as [Hvis _].
  pose proof (gray_codes_NoDup (Z.to_nat (cols bip))) as Hnd.
  rewrite Z2Nat.id in Hnd by lia. rewrite <- Hvis in Hnd.
  assert (Hin : forall x, In x (reported (bip_enumerate A bip)) ->
                          0 <= x < 2 ^ cols bip).
  { intros x Hx. rewrite Hrep in Hx. apply in_map_iff in Hx.
    destruct Hx as (v & <- & Hv). apply filter_In in Hv. destruct Hv as [Hv _].
    assert (Hg : In (fst v) (map fst (visits (bip_enumerate A bip))))
      by (apply in_map; exact Hv).
    rewrite Hvis in Hg. apply in_map_iff in Hg. destruct Hg as (n & <- & Hn).
    apply in_zrange in Hn.
    pose proof (gray_range (Z.to_nat (cols bip)) n) as Hr.
    rewrite Z2Nat.id in Hr by lia. apply Hr.
    pose proof (pow2_cols_le _ Hcols). lia. }
  split; [|split; [exact Hin|]].
  - rewrite Hrep. apply map_filter_NoDup. exact Hnd.
  - rewrite Hcount. split; [lia|].
    rewrite Hrep, length_map.
    pose proof (filter_length_le (accepted A bip) (visits (bip_enumerate A bip))) as Hle.
    assert (Hlen : List.length (visits (bip_enumerate A bip))
                   = Z.to_nat (2 ^ cols bip)).
    { rewrite <- (length_map fst), Hvis, length_map. apply zrange_length. }
    pose proof (pow2_cols_le _ Hcols). lia.
Qed.

Lemma enumerate_reports_no_vector_twice_witness :
  NoDup (reported (bip_enumerate exact (bip_preprocess model_three_ones))) /\
  (forall x, In x (reported (bip_enumerate exact (bip_preprocess model_three_ones)))
             -> 0 <= x < 2 ^ cols (bip_preprocess model_three_ones)) /\
  0 <= sol_count (bip_enumerate exact (bip_preprocess model_three_ones))
    <= 2 ^ cols (bip_preprocess model_three_ones).
Proof.
  apply (enumerate_reports_no_vector_twice exact (bip_preprocess model_three_ones)).
  vm_compute. split; discriminate.
Defined.

(** ** The residuals [check_feasibility] reads *)

Lemma zrange_app (lo : Z) (a b : nat) :
  zrange lo a ++ zrange (lo + Z.of_nat a) b = zrange lo (a + b).
Proof.
  revert lo. induction a as [|a IH]; intros lo.
  - cbn [Nat.add]. replace (lo + Z.of_nat 0) with lo by lia. reflexivity.
  - cbn [Nat.add]. rewrite !zrange_cons. cbn [app]. f_equal.
    rewrite <- IH. do 2 f_equal. lia.
Qed.

(** A call reads a prefix of the residuals and stops at the first one that
    fails its test. *)
Lemma check_feasibility_scan {T : Type} (A : arith T)
      (bip : binary_program T) (x : Z) (r : nat -> T) :
  0 <= equs bip <= rows bip ->
  let res := check_feasibility A bip x r in
  let test := fun k => if k <? equs bip
                       then a_eqb A (r (Z.to_nat k)) (a_zero A)
                       else a_leb A (r (Z.to_nat k)) (a_zero A) in
  exists m,
    0 <= m <= rows bip /\
    cf_examined res = zrange 0 (Z.to_nat m) /\
    (forall k, 0 <= k < m - 1 -> test k = true) /\
    (cf_ret res = 1 -> m = rows bip /\ forall k, 0 <= k < m -> test k = true) /\
    (cf_ret res = 0 -> 1 <= m /\ test (m - 1) = false).
Proof.
  intros He res test. unfold res, check_feasibility.
  destruct (scan_spec (fun v => a_eqb A v (a_zero A)) (equs bip) r
                      (Z.to_nat (equs bip - 0)) 0 [])
    as (k1 & A1 & A2 & A3 & A4 & A5); [lia|reflexivity|].
  rewrite A5. cbn [app].
  assert (Hk1 : k1 <= equs bip) by lia.
  assert (T1 : forall k, 0 <= k < k1 -> test k = true).
  { intros k Hk. unfold test. destruct (Z.ltb_spec k (equs bip)); [|lia].
    apply A3. lia. }
  destruct (Z.eqb_spec k1 (equs bip)) as [E1|N1].
  - destruct (scan_spec (fun v => a_leb A v (a_zero A)) (rows bip) r
                        (Z.to_nat (rows bip - k1)) k1
                        (zrange 0 (Z.to_nat (if k1 <? equs bip
                                             then k1 - 0 + 1 else k1 - 0))))
      as (k2 & B1 & B2 & B3 & B4 & B5); [lia|reflexivity|].
    rewrite B5.
    assert (Hk2 : k2 <= rows bip) by lia.
    assert (T2 : forall k, 0 <= k < k2 -> test k = true).
    { intros k Hk. destruct (Z.lt_ge_cases k k1); [apply T1; lia|].
      unfold test. destruct (Z.ltb_spec k (equs bip)); [lia|].
      apply (B3 k). lia. }
    assert (Hcat : forall n : Z, k1 <= n ->
              zrange 0 (Z.to_nat (if k1 <? equs bip then k1 - 0 + 1 else k1 - 0))
              ++ zrange k1 (Z.to_nat (n - k1)) = zrange 0 (Z.to_nat n)).
    { intros n Hn. destruct (Z.ltb_spec k1 (equs bip)); [lia|].
      replace (Z.to_nat n) with (Z.to_nat (k1 - 0) + Z.to_nat (n - k1))%nat by lia.
      rewrite <- zrange_app. do 2 f_equal. lia. }
    destruct (Z.ltb_spec k2 (rows bip)) as [L2|G2];
      cbn [cf_ret cf_examined].
    + exists (k2 + 1). split; [lia|]. split; [|split; [|split]].
      * replace (k2 - k1 + 1) with (k2 + 1 - k1) by lia. apply Hcat. lia.
      * intros k Hk. apply T2. lia.
      * discriminate.
      * intros _. split; [lia|]. replace (k2 + 1 - 1) with k2 by lia.
        unfold test. destruct (Z.ltb_spec k2 (equs bip)); [lia|].
        apply B4. exact L2.
    + exists k2. split; [lia|]. split; [|split; [|split]].
      * apply Hcat. lia.
      * intros k Hk. apply T2. lia.
      * intros _. split; [lia|]. exact T2.
      * discriminate.
  - assert (L1 : k1 < equs bip) by lia.
    specialize (A4 L1). cbv beta in A4.
    destruct (Z.ltb_spec k1 (equs bip)) as [_|]; [|lia].
    destruct (Z.ltb_spec k1 (rows bip)) as [_|]; [|lia].
    cbn [cf_ret cf_examined].
    exists (k1 + 1). split; [lia|]. split; [|split; [|split]].
    + f_equal. lia.
    + intros k Hk. apply T1. lia.
    + discriminate.
    + intros _. split; [lia|]. replace (k1 + 1 - 1) with k1 by lia.
      unfold test. destruct (Z.ltb_spec k1 (equs bip)); [|lia]. exact A4.
Qed.

(** X3.  With [0 <= equs <= rows], a call of [check_feasibility] reads the
    residuals [r[0], ..., r[m-1]] in this order, each once, for some
    [m <= rows], so it never reads outside the array.  When it returns 1
    it has read all [rows] of them and none failed its test ([== 0.0]
    below [equs], [<= 0.0] from [equs] on); when it returns 0 the last
    residual it read is the first one that fails. *)
Theorem check_feasibility_reads_a_prefix {T : Type} (A : arith T)
        (bip : binary_program T) (x : Z) (r : nat -> T) :
  0 <= equs bip <= rows bip ->
  let res := check_feasibility A bip x r in
  let test := fun k => if k <? equs bip
                       then a_eqb A (r (Z.to_nat k)) (a_zero A)
                       else a_leb A (r (Z.to_nat k)) (a_zero A) in
  NoDup (cf_examined res) /\
  (forall k, In k (cf_examined res) -> 0 <= k < rows bip) /\
  exists m,
    cf_examined res = zrange 0 (Z.to_nat m) /\
    (forall k, 0 <= k < m - 1 -> test k = true) /\
    (cf_ret res = 1 -> m = rows bip /\ forall k, 0 <= k < m -> test k = true) /\
    (cf_ret res = 0 -> 1 <= m <= rows bip /\ test (m - 1) = false).
Proof.
  intros He res test.
  destruct (check_feasibility_scan A bip x r He)
    as (m & Hm & Hex & Hbefore & H1 & H0).
  fold res in Hex, H1, H0. fold test in Hbefore, H1, H0.
  split; [rewrite Hex; apply zrange_NoDup|].
  split; [intros k Hk; rewrite Hex in Hk; apply in_zrange in Hk; lia|].
  exists m. split; [exact Hex|]. split; [exact Hbefore|]. split.
  - exact H1.
  - intros E. destruct (H0 E) as [Hm1 Hfail]. split; [lia|exact Hfail].
Qed.

Lemma check_feasibility_reads_a_prefix_witness :
  NoDup (cf_examined (check_feasibility exact (bip_preprocess model_three_ones) 0
                                        (fun _ => (-2)%Q))).
Proof.
  refine (proj1 (check_feasibility_reads_a_prefix
                   exact (bip_preprocess model_three_ones) 0
                   (fun _ => (-2)%Q) _)).
  vm_compute. split; discriminate.
Defined.

(** ** The iterations of the [while] loop *)

Section Iterations.
Context {T : Type} (A : arith T).
Variable bip : binary_program T.
Hypothesis Hcols : 1 <= cols bip <= 32.

Lemma enum_start_inv : enum_inv bip 0 (enum_start A bip).
Proof.
  exact (proj1 (enum_initial_inv A bip Hcols
                  (for_n (Z.to_nat (rows bip))
                         (fun k r => upd r k (a_opp A (rhs_ord bip k)))
                         (fun _ => a_zero A)))).
Qed.

Lemma enum_iter_inv (k : nat) :
  Z.of_nat k <= 2 ^ cols bip - 1 ->
  enum_inv bip (Z.of_nat k) (Nat.iter k (enum_step A bip) (enum_start A bip)).
Proof.
  induction k as [|k IH]; intros Hk.
  - exact enum_start_inv.
  - cbn [Nat.iter]. rewrite Nat2Z.inj_succ. unfold Z.succ.
    apply (enum_step_spec A bip Hcols); [apply IH; lia|lia].
Qed.

Lemma enum_loop_fuel_iter (fuel : nat) :
  forall (i : Z) (st : enum_state T),
    enum_inv bip i st -> fuel = Z.to_nat (2 ^ cols bip - 1 - i) ->
    enum_loop_fuel A bip fuel st = Nat.iter fuel (enum_step A bip) st.
Proof.
  induction fuel as [|fuel IH]; intros i st Hinv Hfuel; [reflexivity|].
  pose proof Hinv as (Hi & _ & Hnegn & _).
  cbn [enum_loop_fuel].
  destruct (Z.eqb_spec (e_negn st) 0) as [E|_]; [lia|].
  rewrite Nat.iter_succ_r.
  apply (IH (i + 1)); [|lia].
  apply (enum_step_spec A bip Hcols); [exact Hinv|lia].
Qed.

Lemma flip_assertion_inv (i : Z) (st : enum_state T) :
  enum_inv bip i st -> i < 2 ^ cols bip - 1 ->
  flip_assertion (cols bip) (e_n st) (e_negn st) = true /\
  Z.land (e_n st) (e_negn st) = Z.land (e_n st) (u32 (- e_n st)).
Proof.
  intros (Hi & Hn & Hnegn & _) Hlt.
  pose proof (pow2_cols_le _ Hcols) as Hpow.
  rewrite Hn, Hnegn. rewrite (u32_small (i + 1)) by lia.
  split.
  - unfold flip_assertion. rewrite initial_negn by exact Hcols.
    replace (i + 1 + (2 ^ cols bip - 1 - i)) with (2 ^ cols bip) by lia.
    apply Z.eqb_eq.
    destruct (Z.eq_dec (cols bip) 32) as [E|N].
    + rewrite E. reflexivity.
    + rewrite u32_small.
      2:{ split; [lia|]. apply Z.pow_lt_mono_r; lia. }
      pose proof (land_compl (S (Z.to_nat (cols bip))) (2 ^ cols bip)) as H.
      rewrite pow2_S, Z2Nat.id in H by lia.
      replace (2 * 2 ^ cols bip - 1 - 2 ^ cols bip) with (2 ^ cols bip - 1) in H
        by lia.
      apply H. lia.
  - pose proof (land_neg (Z.to_nat (cols bip)) (i + 1)) as H1.
    rewrite Z2Nat.id in H1 by lia.
    replace (2 ^ cols bip - 1 - i) with (2 ^ cols bip - (i + 1)) by lia.
    rewrite H1 by lia.
    pose proof (land_neg 32 (i + 1)) as H2.
    change (Z.of_nat 32) with 32 in H2.
    unfold u32. 
    replace ((- (i + 1)) mod 2 ^ 32) with (2 ^ 32 - (i + 1)).
    + rewrite H2 by lia. reflexivity.
    + apply Z.mod_unique with (q := -1); lia.
Qed.
End Iterations.

(** X4.  With 1 to 32 columns the [while] loop of [bip_enumerate] runs
    exactly [2^cols - 1] times: [negn] is nonzero before each of these
    iterations and zero after the last.  In every iteration the asserted
    condition [((n + negn) & mask) == 0] holds, and [n & negn] is
    [n & -n], the lowest set bit of [n]. *)
Theorem enumerate_loop_iterations {T : Type} (A : arith T)
        (bip : binary_program T) :
  1 <= cols bip <= 32 ->
  let state := fun k => Nat.iter k (enum_step A bip) (enum_start A bip) in
  let last := Z.to_nat (2 ^ cols bip - 1) in
  (forall k, (k < last)%nat ->
     e_negn (state k) <> 0 /\
     flip_assertion (cols bip) (e_n (state k)) (e_negn (state k)) = true /\
     Z.land (e_n (state k)) (e_negn (state k))
       = Z.land (e_n (state k)) (u32 (- e_n (state k)))) /\
  e_negn (state last) = 0 /\
  enum_loop A bip (enum_start A bip) = state last.
Proof.
  intros Hcols state last.
  pose proof (pow2_cols_le _ Hcols) as Hpow.
  split; [|split].
  - intros k Hk.
    assert (Hinv : enum_inv bip (Z.of_nat k) (state k))
      by (apply enum_iter_inv; [exact Hcols|unfold last in Hk; lia]).
    split.
    + destruct Hinv as (_ & _ & -> & _). unfold last in Hk. lia.
    + apply (flip_assertion_inv bip Hcols (Z.of_nat k)); [exact Hinv|].
      unfold last in Hk. lia.
  - assert (Hinv : enum_inv bip (Z.of_nat last) (state last))
      by (apply enum_iter_inv; [exact Hcols|unfold last; lia]).
    destruct Hinv as (_ & _ & -> & _). unfold last. lia.
  - unfold enum_loop.
    pose proof (enum_start_inv A bip Hcols) as Hinv.
    pose proof Hinv as (_ & _ & Hnegn & _).
    rewrite (enum_loop_fuel_iter A bip Hcols _ 0 _ Hinv) by (rewrite Hnegn; lia).
    unfold state, last. rewrite Hnegn. do 2 f_equal. lia.
Qed.

Lemma enumerate_loop_iterations_witness :
  e_negn (Nat.iter (Z.to_nat (2 ^ 3 - 1))
                   (enum_step exact (bip_preprocess model_three_ones))
                   (enum_start exact (bip_preprocess model_three_ones))) = 0.
Proof.
  refine (proj1 (proj2 (enumerate_loop_iterations
                          exact (bip_preprocess model_three_ones) _))).
  vm_compute. split; discriminate.
Defined.

(** ** [bip_preprocess]: what it keeps and where the rows go *)

Lemma for_n_invariant {S : Type} (P : S -> Prop) (n : nat)
      (body : nat -> S -> S) (s : S) :
  P s -> (forall k a, (k < n)%nat -> P a -> P (body k a)) ->
  P (for_n n body s).
Proof.
  intros Hs Hstep. induction n as [|n IH]; [exact Hs|].
  rewrite for_n_S. apply Hstep; [lia|]. apply IH.
  intros k a Hk. apply Hstep. lia.
Qed.

Lemma same_frame_refl (b : BIP) : same_frame b b.
Proof. repeat split. Qed.

Lemma same_frame_trans (b1 b2 b3 : BIP) :
  same_frame b1 b2 -> same_frame b2 b3 -> same_frame b1 b3.
Proof.
  intros (A1 & A2 & A3 & A4) (B1 & B2 & B3 & B4).
  repeat split; congruence.
Qed.

Lemma store_row_frame (b : BIP) (r cnt : nat) (neg : bool) :
  same_frame b (store_row b r cnt neg).
Proof. rewrite store_row_closed. repeat split. Qed.

Lemma sel_loop_frame (keep : Sense -> bool) (bump : bool) (st0 : BIP * nat)
      (n : nat) :
  same_frame (fst st0) (fst (for_n n (sel_body keep bump) st0)).
Proof.
  apply (for_n_invariant (fun st => same_frame (fst st0) (fst st)));
    [apply same_frame_refl|].
  intros k [b cnt] _ Hb. cbn [fst] in Hb. unfold sel_body.
  destruct (keep (sense b k)); [|exact Hb]. cbn [fst].
  apply (same_frame_trans _ b); [exact Hb|].
  pose proof (store_row_frame b k cnt (is_GE (sense b k))) as Hs.
  destruct bump; [|exact Hs].
  destruct Hs as (S1 & S2 & S3 & S4). repeat split; assumption.
Qed.

Lemma scale_rows_frame (b : BIP) : same_frame b (scale_rows b).
Proof.
  unfold scale_rows.
  apply (for_n_invariant (fun b' => same_frame b b')); [apply same_frame_refl|].
  intros r a _ Ha. cbv zeta.
  destruct (0 <? row_scale _ _); [|exact Ha].
  rewrite scale_columns_closed.
  destruct Ha as (A1 & A2 & A3 & A4). repeat split; assumption.
Qed.

Lemma bip_preprocess_frame (bip : BIP) : same_frame bip (bip_preprocess bip).
Proof.
  unfold bip_preprocess.
  apply (same_frame_trans _ (fst (copy_rest (copy_equations (set_equs bip 0, O)))));
    [|apply scale_rows_frame].
  rewrite copy_rest_sel, copy_equations_sel.
  apply (same_frame_trans _ (fst (for_n (Z.to_nat (rows (fst (set_equs bip 0, O))))
                                        (sel_body is_EQ true) (set_equs bip 0, O)))).
  - exact (sel_loop_frame is_EQ true (set_equs bip 0, O) _).
  - apply sel_loop_frame.
Qed.

(** The structure after [bip_preprocess], row by row. *)
Lemma preprocess_stored (bip : BIP) :
  let b' := bip_preprocess bip in
  same_input bip b' /\
  equs b' = Z.of_nat (List.length (eq_rows bip)) /\
  forall i, (i < Z.to_nat (rows bip))%nat ->
    let src := nth i (row_order bip) O in
    let e := row_scale (fun c => orient bip src (ar bip src c))
                       (Z.to_nat (cols bip)) in
    (forall c, (c < Z.to_nat (cols bip))%nat ->
               ac b' c i = scaled e (orient bip src (ar bip src c))) /\
    rhs_ord b' i = scaled e (orient bip src (rhs bip src)).
Proof.
  cbv zeta. unfold bip_preprocess.
  destruct (copy_loops_spec bip) as (S2 & E2 & L2). cbv zeta in L2.
  set (b2 := fst (copy_rest (copy_equations (set_equs bip 0, O)))) in *.
  pose proof (scale_loop_spec b2 (Z.to_nat (rows b2))) as S3.
  cbv zeta in S3.
  change (for_n (Z.to_nat (rows b2)) _ b2) with (scale_rows b2) in S3.
  destruct S3 as (S3 & E3 & A3 & H3).
  destruct S2 as (Srows2 & Scols2 & Sar2 & Srhs2 & Ssense2).
  destruct S3 as (Srows3 & Scols3 & Sar3 & Srhs3 & Ssense3).
  split; [repeat split; congruence|].
  split; [congruence|].
  intros i Hi. destruct (L2 i Hi) as [Lac Lrhs].
  set (src := nth i (row_order bip) O) in *.
  assert (He : row_scale (fun c => ac b2 c i) (Z.to_nat (cols b2))
               = row_scale (fun c => orient bip src (ar bip src c))
                           (Z.to_nat (cols bip))).
  { rewrite Scols2. apply row_scale_ext. intros c Hc. now apply Lac. }
  split.
  - intros c Hc. rewrite A3, He, Srows2, Scols2, Lac by assumption.
    destruct (Nat.ltb_spec i (Z.to_nat (rows bip))); [|lia].
    destruct (Nat.ltb_spec c (Z.to_nat (cols bip))); [|lia]. reflexivity.
  - rewrite H3, He, Srows2, Lrhs.
    destruct (Nat.ltb_spec i (Z.to_nat (rows bip))); [|lia]. reflexivity.
Qed.

(** The two copy loops fill [row_cnt] rows. *)
Lemma copy_loops_count (bip : BIP) :
  snd (copy_rest (copy_equations (set_equs bip 0, O))) = Z.to_nat (rows bip).
Proof.
  destruct (sel_loop_spec is_EQ true (set_equs bip 0) O (Z.to_nat (rows bip)))
    as (b1 & c1 & R1 & S1 & C1 & _).
  rewrite copy_equations_sel. cbn [fst set_equs rows]. rewrite R1.
  destruct S1 as (Srows1 & _ & _ & _ & Ssense1).
  cbn [set_equs rows sense] in *.
  destruct (sel_loop_spec is_ineq false b1 c1 (Z.to_nat (rows bip)))
    as (b2 & c2 & R2 & _ & C2 & _).
  rewrite copy_rest_sel. cbn [fst]. rewrite Srows1, R2. cbn [snd].
  assert (P2 : picks is_ineq b1 (Z.to_nat (rows bip))
               = picks is_ineq bip (Z.to_nat (rows bip)))
    by (unfold picks; now rewrite Ssense1).
  assert (P1 : picks is_EQ (set_equs bip 0) (Z.to_nat (rows bip))
               = picks is_EQ bip (Z.to_nat (rows bip))) by reflexivity.
  pose proof (picks_split_length bip (Z.to_nat (rows bip))) as Hlen.
  rewrite C2, C1, P1, P2. lia.
Qed.

Lemma picks_In (keep : Sense -> bool) (b : BIP) (n r : nat) :
  In r (picks keep b n) <-> (r < n)%nat /\ keep (sense b r) = true.
Proof.
  unfold picks. rewrite filter_In, in_seq. split; intros [H1 H2]; split;
    try assumption; lia.
Qed.

Lemma filter_split_perm {X : Type} (p : X -> bool) (l : list X) :
  Permutation (filter p l ++ filter (fun a => negb (p a)) l) l.
Proof.
  induction l as [|a l IH]; [constructor|].
  cbn [filter]. destruct (p a); cbn [negb app].
  - constructor. exact IH.
  - apply Permutation_sym, Permutation_cons_app, Permutation_sym, IH.
Qed.

Lemma row_order_perm (b : BIP) :
  Permutation (row_order b) (seq 0 (Z.to_nat (rows b))).
Proof.
  unfold row_order, eq_rows, ineq_rows, picks.
  exact (filter_split_perm (fun r => is_EQ (sense b r)) (seq 0 (Z.to_nat (rows b)))).
Qed.

(** Position [i] of the order holds an equation exactly when it is among
    the first [length (eq_rows b)]. *)
Lemma row_order_nth (b : BIP) (i : nat) :
  (i < Z.to_nat (rows b))%nat ->
  (nth i (row_order b) O < Z.to_nat (rows b))%nat /\
  ((i < List.length (eq_rows b))%nat <-> sense b (nth i (row_order b) O) = EQ).
Proof.
  intros Hi. unfold row_order.
  pose proof (picks_split_length b (Z.to_nat (rows b))) as Hlen.
  fold (eq_rows b) in Hlen. fold (ineq_rows b) in Hlen.
  destruct (Nat.lt_ge_cases i (List.length (eq_rows b))) as [L|G].
  - rewrite app_nth1 by exact L.
    assert (Hin : In (nth i (eq_rows b) O) (eq_rows b)) by (apply nth_In; exact L).
    apply picks_In in Hin. destruct Hin as [Hr Hs].
    split; [exact Hr|]. split; [intros _|intros _; exact L].
    unfold is_EQ in Hs. destruct (sense b _); try discriminate; reflexivity.
  - rewrite app_nth2 by exact G.
    assert (Hin : In (nth (i - List.length (eq_rows b)) (ineq_rows b) O) (ineq_rows b))
      by (apply nth_In; lia).
    apply picks_In in Hin. destruct Hin as [Hr Hs].
    split; [exact Hr|]. split; [lia|].
    intros E. rewrite E in Hs. discriminate.
Qed.

Lemma row_order_onto (b : BIP) (r : nat) :
  (r < Z.to_nat (rows b))%nat ->
  exists i, (i < Z.to_nat (rows b))%nat /\ nth i (row_order b) O = r.
Proof.
  intros Hr.
  assert (Hin : In r (row_order b)).
  { apply (Permutation_in r (Permutation_sym (row_order_perm b))).
    apply in_seq. lia. }
  destruct (In_nth _ _ O Hin) as (i & Hi & E).
  rewrite row_order_length in Hi. exists i. split; assumption.
Qed.

(** X5.  [bip_preprocess] changes nothing but [equs], [ac] and [rhs_ord]:
    the rows as read, the two bounds, the verbosity level and the reader's
    row counter are kept. *)
Theorem preprocess_keeps_the_input (bip : BIP) :
  same_input bip (bip_preprocess bip) /\ same_frame bip (bip_preprocess bip).
Proof.
  split; [exact (proj1 (preprocess_stored bip))|apply bip_preprocess_frame].
Qed.

(** X6.  With [0 <= rows], the two copy loops of [bip_preprocess] fill
    exactly [rows] rows, which is the asserted [bip->rows == row_cnt], and
    afterwards [0 <= equs <= rows], the precondition of
    [check_feasibility]. *)
Theorem preprocess_row_count (bip : BIP) :
  0 <= rows bip ->
  Z.of_nat (snd (copy_rest (copy_equations (set_equs bip 0, O)))) = rows bip /\
  0 <= equs (bip_preprocess bip) <= rows (bip_preprocess bip).
Proof.
  intros Hrows. split.
  - rewrite copy_loops_count. lia.
  - destruct (preprocess_stored bip) as ((Hr & _) & He & _).
    rewrite He, Hr.
    pose proof (picks_split_length bip (Z.to_nat (rows bip))) as Hlen.
    fold (eq_rows bip) in Hlen. lia.
Qed.

Lemma preprocess_row_count_witness :
  Z.of_nat (snd (copy_rest (copy_equations (set_equs model_ge_le 0, O))))
    = rows model_ge_le /\
  0 <= equs (bip_preprocess model_ge_le) <= rows (bip_preprocess model_ge_le).
Proof.
  apply (preprocess_row_count model_ge_le). vm_compute. discriminate.
Defined.

(** X7.  [bip_preprocess] stores every input row exactly once: there is a
    permutation [order] of the row numbers such that stored row [i] comes
    from input row [order[i]]; the stored rows below [equs] are exactly
    the equations; and a row whose coefficients are all integers is stored
    with its values, negated when the row is [>=]. *)
Theorem preprocess_permutes_the_rows (bip : BIP) :
  exists order,
    Permutation order (seq 0 (Z.to_nat (rows bip))) /\
    forall i, (i < Z.to_nat (rows bip))%nat ->
      let src := nth i order O in
      (Z.of_nat i < equs (bip_preprocess bip) <-> sense bip src = EQ) /\
      (integral_coefficients bip src ->
       stored_as bip (bip_preprocess bip) i src).
Proof.
  exists (row_order bip). split; [apply row_order_perm|].
  intros i Hi. cbv zeta. split.
  - destruct (preprocess_stored bip) as (_ & He & _). rewrite He.
    destruct (row_order_nth bip i Hi) as [_ Hiff]. rewrite <- Hiff. lia.
  - apply preprocess_integral_row. exact Hi.
Qed.

Lemma preprocess_permutes_the_rows_witness :
  exists order,
    Permutation order (seq 0 (Z.to_nat (rows model_ge_le))) /\
    stored_as model_ge_le (bip_preprocess model_ge_le) 0 (nth 0 order O).
Proof.
  destruct (preprocess_permutes_the_rows model_ge_le) as (order & Hp & H).
  exists order. split; [exact Hp|].
  refine (proj2 (H O _) _).
  - vm_compute. lia.
  - intros c Hc. change (c < 1)%nat in Hc. destruct c as [|c]; [|lia].
    destruct (nth 0 order 0%nat) as [|[|r]];
      [exists 1|exists 2|exists 0; destruct r]; reflexivity.
Defined.

(** ** The reported vectors are the solutions (programs of small integers) *)

Lemma accepted_iff {T : Type} (A : arith T) (bip : binary_program T)
      (v : Z * (nat -> T)) :
  0 <= equs bip <= rows bip ->
  accepted A bip v = true <->
  forall k, 0 <= k < rows bip ->
    (if k <? equs bip
     then a_eqb A (snd v (Z.to_nat k)) (a_zero A)
     else a_leb A (snd v (Z.to_nat k)) (a_zero A)) = true.
Proof.
  intros He. unfold accepted.
  destruct (check_feasibility_scan A bip (fst v) (snd v) He)
    as (m & Hm & _ & _ & H1 & H0).
  destruct (check_feasibility_reports A bip (fst v) (snd v)) as [[E _]|[E _]];
    rewrite E.
  - destruct (H1 E) as [-> Hall]. split; [intros _; exact Hall|reflexivity].
  - destruct (H0 E) as [Hm1 Hfail]. split; [discriminate|].
    intros Hall. rewrite Hall in Hfail by lia. discriminate.
Qed.

Lemma visits_are_assignments {T : Type} (A : arith T)
      (bip : binary_program T) :
  1 <= cols bip <= 32 ->
  forall x, In x (map fst (visits (bip_enumerate A bip)))
            <-> 0 <= x < 2 ^ cols bip.
Proof.
  intros Hc x. pose proof (pow2_cols_le _ Hc) as Hpow.
  destruct (bip_enumerate_spec A bip Hc) as (Hv & _). rewrite Hv.
  assert (Hcn : cols bip = Z.of_nat (Z.to_nat (cols bip))) by lia.
  assert (Hin : forall a, In a (map gray (zrange 0 (Z.to_nat (2 ^ cols bip))))
                          -> 0 <= a < 2 ^ cols bip).
  { intros a Ha. apply in_map_iff in Ha. destruct Ha as (n & <- & Hn).
    apply in_zrange in Hn. rewrite Hcn. apply gray_range. rewrite <- Hcn. lia. }
  split; [apply Hin|]. intros Hx.
  assert (Hnd : NoDup (map gray (zrange 0 (Z.to_nat (2 ^ cols bip)))))
    by (rewrite Hcn; apply gray_codes_NoDup).
  apply (NoDup_length_incl Hnd (l' := zrange 0 (Z.to_nat (2 ^ cols bip)))).
  - rewrite length_map. lia.
  - intros b Hb. apply in_zrange. specialize (Hin b Hb). lia.
  - apply in_zrange. lia.
Qed.

Lemma bit_sum_ext_in (a a' : nat -> Q) (x : Z) (l : list nat) :
  (forall c, In c l -> (a c == a' c)%Q) ->
  (bit_sum a x l == bit_sum a' x l)%Q.
Proof.
  induction l as [|c l IH]; intros H; [reflexivity|].
  cbn [bit_sum fold_right]. fold (bit_sum a x l). fold (bit_sum a' x l).
  assert (Hl : (bit_sum a x l == bit_sum a' x l)%Q)
    by (apply IH; intros c' Hc'; apply H; now right).
  destruct (Z.testbit x (Z.of_nat c)); [|exact Hl].
  rewrite Hl, (H c) by now left. reflexivity.
Qed.

Lemma bit_sum_snoc (a : nat -> Q) (x : Z) (l : list nat) (c : nat) :
  (bit_sum a x (l ++ [c])
   == bit_sum a x l + (if Z.testbit x (Z.of_nat c) then a c else 0))%Q.
Proof.
  induction l as [|d l IH].
  - cbn [app bit_sum fold_right]. destruct (Z.testbit x (Z.of_nat c)); ring.
  - cbn [app bit_sum fold_right].
    fold (bit_sum a x (l ++ [c])). fold (bit_sum a x l).
    destruct (Z.testbit x (Z.of_nat d)); rewrite IH; ring.
Qed.

(** *** Integers and magnitudes *)

Lemma integral_comp (v w : Q) : (v == w)%Q -> integral v -> integral w.
Proof. intros E [z Hz]. exists z. now rewrite <- E. Qed.

Lemma integral_plus (v w : Q) : integral v -> integral w -> integral (v + w).
Proof.
  intros [a Ha] [b Hb]. exists (a + b). rewrite Ha, Hb, inject_Z_plus.
  reflexivity.
Qed.

Lemma integral_minus (v w : Q) : integral v -> integral w -> integral (v - w).
Proof.
  intros Hv Hw. apply integral_plus; [exact Hv|apply integral_opp, Hw].
Qed.

Lemma integral_orient (bip : BIP) (r : nat) (v : Q) :
  integral v -> integral (orient bip r v).
Proof.
  intros H. unfold orient. destruct (is_GE (sense bip r)); [apply integral_opp|];
    exact H.
Qed.

(** An integer of bounded magnitude. *)
Lemma integral_bounded (v : Q) (n : Z) :
  integral v -> (Qabs v <= inject_Z n)%Q ->
  exists z, (v == inject_Z z)%Q /\ Z.abs z <= n.
Proof.
  intros [z Hz] Hb. exists z. split; [exact Hz|].
  rewrite Hz in Hb. change (Qabs (inject_Z z)) with (inject_Z (Z.abs z)) in Hb.
  now rewrite <- Zle_Qle in Hb.
Qed.

Lemma bit_sum_integral (a : nat -> Q) (x : Z) (l : list nat) :
  (forall c, In c l -> integral (a c)) -> integral (bit_sum a x l).
Proof.
  induction l as [|c l IH]; intros H; [exists 0; reflexivity|].
  cbn [bit_sum fold_right]. fold (bit_sum a x l).
  assert (Hl : integral (bit_sum a x l))
    by (apply IH; intros c' Hc'; apply H; now right).
  destruct (Z.testbit x (Z.of_nat c)); [|exact Hl].
  apply integral_plus; [apply H; now left|exact Hl].
Qed.

Lemma abs_sum_S (a : nat -> Q) (n : nat) :
  abs_sum a (S n) = (abs_sum a n + Qabs (a n))%Q.
Proof. unfold abs_sum. now rewrite for_n_S. Qed.

Lemma abs_sum_mono (a : nat -> Q) (n m : nat) :
  (n <= m)%nat -> (abs_sum a n <= abs_sum a m)%Q.
Proof.
  induction 1 as [|m Hle IH]; [apply Qle_refl|].
  rewrite abs_sum_S. pose proof (Qabs_nonneg (a m)). lra.
Qed.

Lemma abs_sum_nonneg (a : nat -> Q) (n : nat) : (0 <= abs_sum a n)%Q.
Proof. exact (abs_sum_mono a O n (Nat.le_0_l n)). Qed.

(** No selection of values sums to more than the magnitudes do. *)
Lemma bit_sum_abs (a : nat -> Q) (x : Z) (n : nat) :
  (Qabs (bit_sum a x (seq 0 n)) <= abs_sum a n)%Q.
Proof.
  induction n as [|n IH]; [apply Qle_refl|].
  rewrite seq_S, bit_sum_snoc, abs_sum_S. cbn [Nat.add].
  eapply Qle_trans; [apply Qabs_triangle|].
  destruct (Z.testbit x (Z.of_nat n)).
  - lra.
  - pose proof (Qabs_nonneg (a n)). change (Qabs 0) with 0%Q. lra.
Qed.

Lemma bit_sum_opp (a : nat -> Q) (x : Z) (l : list nat) :
  (bit_sum (fun c => - a c) x l == - bit_sum a x l)%Q.
Proof.
  induction l as [|c l IH]; [reflexivity|].
  cbn [bit_sum fold_right].
  fold (bit_sum a x l). fold (bit_sum (fun c => (- a c)%Q) x l).
  destruct (Z.testbit x (Z.of_nat c)); rewrite IH; ring.
Qed.

Lemma bit_sum_orient (bip : BIP) (r : nat) (a : nat -> Q) (x : Z)
      (l : list nat) :
  (bit_sum (fun c => orient bip r (a c)) x l == orient bip r (bit_sum a x l))%Q.
Proof.
  unfold orient. destruct (is_GE (sense bip r)); [apply bit_sum_opp|].
  reflexivity.
Qed.

(** *** The residuals of the stored rows *)

(** The residual of a stored row of integers, from the input row it came
    from. *)
Lemma residual_preprocessed (bip : BIP) (x : Z) (i : nat) :
  (i < Z.to_nat (rows bip))%nat ->
  let src := nth i (row_order bip) O in
  integral_coefficients bip src ->
  (residual (bip_preprocess bip) x i
   == orient bip src (row_sum bip x src - rhs bip src))%Q.
Proof.
  intros Hi src Hintg.
  destruct (preprocess_integral_row bip i Hi Hintg) as [Hac Hrhs].
  fold src in Hac, Hrhs.
  destruct (preprocess_stored bip) as ((_ & Hcols & _) & _).
  unfold residual, lhs_sum, row_sum. rewrite Hcols, Hrhs.
  rewrite (bit_sum_ext_in _ (fun c => orient bip src (ar bip src c))).
  - rewrite bit_sum_orient. unfold orient.
    change (fun c : nat => ar bip src c) with (ar bip src).
    destruct (is_GE (sense bip src)); ring.
  - intros c Hc. apply in_seq in Hc. rewrite Hac by lia. reflexivity.
Qed.

(** In a program of small integers every residual is an integer of at
    most [2^53] in magnitude. *)
Lemma small_residuals (bip : BIP) (x : Z) (i : nat) :
  small_integers bip -> (i < Z.to_nat (rows bip))%nat ->
  exists z, (residual (bip_preprocess bip) x i == inject_Z z)%Q /\
            Z.abs z <= 2 ^ 53.
Proof.
  intros Hsmall Hi.
  destruct (row_order_nth bip i Hi) as [Hsrc _].
  set (src := nth i (row_order bip) O) in *.
  destruct (Hsmall src Hsrc) as (Hintg & Hrhs & Hmag).
  pose proof (residual_preprocessed bip x i Hi Hintg) as Hres.
  fold src in Hres.
  assert (Hd : integral (row_sum bip x src - rhs bip src)).
  { apply integral_minus; [|exact Hrhs]. apply bit_sum_integral.
    intros c Hc. apply in_seq in Hc. apply Hintg. lia. }
  assert (Hb : (Qabs (row_sum bip x src - rhs bip src) <= inject_Z (2 ^ 53))%Q).
  { eapply Qle_trans; [apply Qabs_triangle|].
    rewrite Qabs_opp.
    pose proof (bit_sum_abs (fun c => ar bip src c) x (Z.to_nat (cols bip))) as Hs.
    unfold row_magnitude in Hmag. unfold row_sum.
    change (fun c : nat => ar bip src c) with (ar bip src) in *. lra. }
  apply integral_bounded.
  - apply (integral_comp _ _ (Qeq_sym _ _ Hres)), integral_orient, Hd.
  - rewrite Hres. unfold orient.
    destruct (is_GE (sense bip src)); [rewrite Qabs_opp|]; exact Hb.
Qed.

(** The test [check_feasibility] applies to a stored row of integers
    decides whether the input row holds. *)
Lemma stored_row_test (bip : BIP) (x : Z) (i : nat) (v : Q) :
  (i < Z.to_nat (rows bip))%nat ->
  integral_coefficients bip (nth i (row_order bip) O) ->
  (v == residual (bip_preprocess bip) x i)%Q ->
  (if Z.of_nat i <? equs (bip_preprocess bip)
   then a_eqb rounded v (a_zero rounded)
   else a_leb rounded v (a_zero rounded)) = true
  <-> row_holds bip x (nth i (row_order bip) O).
Proof.
  intros Hi Hintg Hv. pose proof (residual_preprocessed bip x i Hi Hintg) as Hres.
  cbv zeta in Hres. rewrite <- Hv in Hres.
  destruct (preprocess_stored bip) as (_ & He & _). rewrite He.
  destruct (row_order_nth bip i Hi) as [_ Hiff].
  set (src := nth i (row_order bip) O) in *.
  set (d := (row_sum bip x src - rhs bip src)%Q) in *.
  unfold row_holds. fold src. cbn [a_eqb a_leb a_zero rounded].
  destruct (Z.ltb_spec (Z.of_nat i) (Z.of_nat (List.length (eq_rows bip))))
    as [L|G].
  - assert (E : sense bip src = EQ) by (apply Hiff; lia).
    rewrite E. unfold orient in Hres. rewrite E in Hres.
    cbn [is_GE Sense_eqb] in Hres.
    rewrite Qeq_bool_iff, Hres. unfold d. split; intros H; lra.
  - assert (N : sense bip src <> EQ) by (intros E; apply Hiff in E; lia).
    rewrite Qle_bool_iff, Hres. unfold orient, d.
    destruct (sense bip src) eqn:Es; [| |contradiction];
      cbn [is_GE Sense_eqb]; split; intros H; lra.
Qed.

(** A visit with exact residuals is accepted exactly when its vector is a
    solution of the input. *)
Lemma accepted_rounded_iff (bip : BIP) (v : Z * (nat -> Q)) :
  0 <= rows bip ->
  (forall r, (r < Z.to_nat (rows bip))%nat -> integral_coefficients bip r) ->
  (forall k, (k < Z.to_nat (rows bip))%nat ->
             (snd v k == residual (bip_preprocess bip) (fst v) k)%Q) ->
  accepted rounded (bip_preprocess bip) v = true <-> satisfies bip (fst v).
Proof.
  intros Hrows Hintg Hv.
  destruct (preprocess_stored bip) as ((Hr & _) & He & _).
  pose proof (picks_split_length bip (Z.to_nat (rows bip))) as Hlen.
  fold (eq_rows bip) in Hlen.
  rewrite accepted_iff by (rewrite He, Hr; lia).
  rewrite Hr. split.
  - intros Hall r Hrlt.
    destruct (row_order_onto bip r Hrlt) as (i & Hi & E).
    pose proof (stored_row_test bip (fst v) i (snd v i) Hi) as Hiff.
    rewrite E in Hiff. apply Hiff; [apply Hintg, Hrlt|exact (Hv i Hi)|].
    specialize (Hall (Z.of_nat i)). rewrite Nat2Z.id in Hall. apply Hall. lia.
  - intros Hsat k Hk.
    assert (Hi : (Z.to_nat k < Z.to_nat (rows bip))%nat) by lia.
    destruct (row_order_nth bip _ Hi) as [Hsrc _].
    pose proof (stored_row_test bip (fst v) (Z.to_nat k) (snd v (Z.to_nat k))
                                Hi (Hintg _ Hsrc) (Hv _ Hi)) as Hiff.
    rewrite Z2Nat.id in Hiff by lia. apply Hiff.
    apply Hsat, Hsrc.
Qed.

(** *** The residuals in the arithmetic of the program *)

Section RoundedResiduals.
Variable bip : BIP.
Hypothesis Hcols : 1 <= cols bip <= 32.
Hypothesis Hres : forall x k, (k < Z.to_nat (rows bip))%nat ->
  exists z, (residual bip x k == inject_Z z)%Q /\ Z.abs z <= 2 ^ 53.

Lemma enum_step_rounded (i : Z) (st : enum_state Q) :
  enum_inv bip i st -> i < 2 ^ cols bip - 1 ->
  residuals_exact bip st -> residuals_exact bip (enum_step rounded bip st).
Proof.
  intros Hinv Hlt Hr.
  destruct (enum_step_spec rounded bip Hcols i st Hinv Hlt)
    as ((_ & _ & _ & Hx') & _ & _ & _ & Hctz & Hg & Hr').
  destruct Hinv as (_ & _ & _ & Hx).
  intros k Hk.
  destruct (Hres (gray (i + 1)) k Hk) as (z & Hz & Hzb).
  set (j := ctz (i + 1)) in *.
  assert (Hflip : (residual bip (gray (i + 1)) k
                   == residual bip (gray i) k
                      + (if Z.testbit (gray i) j
                         then - ac bip (Z.to_nat j) k
                         else ac bip (Z.to_nat j) k))%Q).
  { rewrite Hg. replace (2 ^ j) with (2 ^ Z.of_nat (Z.to_nat j)) by (f_equal; lia).
    rewrite residual_flip by lia. rewrite Z2Nat.id by lia. reflexivity. }
  assert (Hbit : Z.testbit (gray (i + 1)) j = negb (Z.testbit (gray i) j)).
  { rewrite Hg, Z.lxor_spec, Z.pow2_bits_true by lia. apply xorb_true_r. }
  pose proof (Hr k Hk) as Hrk. rewrite Hx in Hrk.
  rewrite Hr', Hx', Hbit.
  cbn [a_add a_sub rounded].
  destruct (Z.testbit (gray i) j); cbn [negb].
  - rewrite (for_n_cellwise (fun k v => fl (v - ac bip (Z.to_nat j) k))).
    destruct (Nat.ltb_spec k (Z.to_nat (rows bip))); [|lia].
    assert (E : (e_r st k - ac bip (Z.to_nat j) k == inject_Z z)%Q)
      by (rewrite <- Hz, Hflip, Hrk; ring).
    rewrite (fl_integral _ z E Hzb), E. symmetry. exact Hz.
  - rewrite (for_n_cellwise (fun k v => fl (v + ac bip (Z.to_nat j) k))).
    destruct (Nat.ltb_spec k (Z.to_nat (rows bip))); [|lia].
    assert (E : (e_r st k + ac bip (Z.to_nat j) k == inject_Z z)%Q)
      by (rewrite <- Hz, Hflip, Hrk; ring).
    rewrite (fl_integral _ z E Hzb), E. symmetry. exact Hz.
Qed.

Lemma enum_loop_fuel_rounded (fuel : nat) :
  forall (i : Z) (st : enum_state Q),
    enum_inv bip i st -> fuel = Z.to_nat (2 ^ cols bip - 1 - i) ->
    residuals_exact bip st -> visits_exact bip (e_visits st) ->
    visits_exact bip (e_visits (enum_loop_fuel rounded bip fuel st)).
Proof.
  induction fuel as [|fuel IH]; intros i st Hinv Hfuel Hr Hvs; [exact Hvs|].
  pose proof Hinv as (Hi & _ & Hnegn & _).
  cbn [enum_loop_fuel].
  destruct (Z.eqb_spec (e_negn st) 0) as [E|_]; [lia|].
  assert (Hlt : i < 2 ^ cols bip - 1) by lia.
  pose proof (enum_step_rounded i st Hinv Hlt Hr) as Hr'.
  destruct (enum_step_spec rounded bip Hcols i st Hinv Hlt)
    as (Hinv' & Hv & _).
  apply (IH (i + 1)); [exact Hinv'|lia|exact Hr'|].
  rewrite Hv. apply Forall_app. split; [exact Hvs|].
  constructor; [|constructor]. cbn [fst snd].
  destruct Hinv' as (_ & _ & _ & Hx'). rewrite <- Hx'. exact Hr'.
Qed.

(** When no residual needs rounding, the program logs every visit with
    the residuals of its assignment. *)
Lemma bip_enumerate_rounded :
  visits_exact bip (visits (bip_enumerate rounded bip)).
Proof.
  pose proof (pow2_cols_le _ Hcols) as Hpow.
  unfold bip_enumerate.
  destruct (Z.eqb_spec (cols bip) 0) as [E|_]; [lia|].
  cbn [visits].
  set (r0 := for_n _ _ _).
  destruct (enum_initial_inv rounded bip Hcols r0) as (Hinv & Hnegn & Hv0 & _ & Hr0).
  cbv zeta in Hinv, Hnegn, Hv0, Hr0.
  set (st := mkES _ _ _ _ _ _ _ _) in *.
  assert (Hres0 : forall k, (k < Z.to_nat (rows bip))%nat ->
                            (r0 k == residual bip 0 k)%Q).
  { intros k Hk. unfold r0.
    rewrite (for_n_cellwise (fun k _ => a_opp rounded (rhs_ord bip k))).
    destruct (Nat.ltb_spec k (Z.to_nat (rows bip))); [|lia].
    unfold residual, lhs_sum. rewrite bit_sum_zero. cbn [a_opp rounded]. ring. }
  unfold enum_loop.
  apply (enum_loop_fuel_rounded _ 0); [exact Hinv|rewrite Hnegn; f_equal; lia| |].
  - intros k Hk. rewrite Hr0. destruct Hinv as (_ & _ & _ & ->).
    exact (Hres0 k Hk).
  - rewrite Hv0. constructor; [|constructor]. exact Hres0.
Qed.
End RoundedResiduals.

(** The vectors [bip_enumerate] reports for a preprocessed program of
    small integers. *)
Lemma reported_rounded_iff (bip : BIP) :
  1 <= cols bip <= 32 -> 0 <= rows bip -> small_integers bip ->
  forall x,
    In x (reported (bip_enumerate rounded (bip_preprocess bip)))
    <-> 0 <= x < 2 ^ cols bip /\ satisfies bip x.
Proof.
  intros Hcols Hrows Hsmall x.
  destruct (preprocess_stored bip) as ((Hr & Hc & _) & _).
  assert (Hcols' : 1 <= cols (bip_preprocess bip) <= 32) by (rewrite Hc; exact Hcols).
  destruct (bip_enumerate_books rounded (bip_preprocess bip)) as [Hrep _].
  assert (Hex : visits_exact (bip_preprocess bip)
                  (visits (bip_enumerate rounded (bip_preprocess bip)))).
  { apply bip_enumerate_rounded; [exact Hcols'|].
    intros y k Hk. rewrite Hr in Hk. apply small_residuals; assumption. }
  unfold visits_exact in Hex. rewrite Forall_forall in Hex. rewrite Hr in Hex.
  pose proof (visits_are_assignments rounded (bip_preprocess bip) Hcols') as Hvis.
  rewrite Hc in Hvis.
  assert (Hintg : forall r, (r < Z.to_nat (rows bip))%nat ->
                           integral_coefficients bip r)
    by (intros r Hrlt; apply (Hsmall r Hrlt)).
  rewrite Hrep. split.
  - intros Hin. apply in_map_iff in Hin. destruct Hin as (v & <- & Hv).
    apply filter_In in Hv. destruct Hv as [Hv Hacc].
    split; [apply Hvis, in_map, Hv|].
    apply (accepted_rounded_iff bip v Hrows Hintg (Hex v Hv)), Hacc.
  - intros [Hx Hsat]. apply Hvis in Hx. apply in_map_iff in Hx.
    destruct Hx as (v & <- & Hv).
    apply in_map, filter_In. split; [exact Hv|].
    apply (accepted_rounded_iff bip v Hrows Hintg (Hex v Hv)), Hsat.
Qed.

(** The end-to-end example is a program of small integers. *)
Lemma model_three_ones_small : small_integers model_three_ones.
Proof.
  intros r Hr. change (r < 1)%nat in Hr. destruct r as [|r]; [|lia].
  split; [|split].
  - intros c Hc. change (c < 3)%nat in Hc. exists 1.
    destruct c as [|[|[|c]]]; [reflexivity..|lia].
  - exists 2. reflexivity.
  - vm_compute. congruence.
Qed.

(** X8.  For a program of small integers (integer coefficients and
    right-hand sides whose magnitudes sum, row by row, to at most [2^53]),
    preprocessing followed by enumeration, in the rounding arithmetic of
    the program, reports exactly the solutions of the program as it was
    read: a vector is reported if and only if it is an assignment of the
    [cols] variables under which every row holds ([<=], [>=] or [==]
    between the sum of the selected coefficients and the right-hand side);
    and the returned count is the number of these solutions, each reported
    once. *)
Theorem enumerate_reports_exactly_the_solutions (bip : BIP) :
  1 <= cols bip <= 32 -> 0 <= rows bip -> small_integers bip ->
  let res := bip_enumerate rounded (bip_preprocess bip) in
  (forall x, In x (reported res) <-> 0 <= x < 2 ^ cols bip /\ satisfies bip x) /\
  NoDup (reported res) /\
  sol_count res = Z.of_nat (List.length (reported res)).
Proof.
  intros Hcols Hrows Hsmall res.
  destruct (preprocess_stored bip) as ((_ & Hc & _) & _).
  assert (Hcols' : 1 <= cols (bip_preprocess bip) <= 32) by (rewrite Hc; exact Hcols).
  destruct (bip_enumerate_books rounded (bip_preprocess bip)) as [Hrep Hcount].
  split; [exact (reported_rounded_iff bip Hcols Hrows Hsmall)|].
  split; [|exact Hcount].
  unfold res. rewrite Hrep. apply map_filter_NoDup.
  destruct (bip_enumerate_spec rounded (bip_preprocess bip) Hcols') as [Hv _].
  rewrite Hv.
  replace (cols (bip_preprocess bip))
    with (Z.of_nat (Z.to_nat (cols (bip_preprocess bip)))) by lia.
  apply gray_codes_NoDup.
Qed.

Lemma enumerate_reports_exactly_the_solutions_witness :
  (forall x, In x (reported (bip_enumerate rounded (bip_preprocess model_three_ones)))
             <-> 0 <= x < 2 ^ cols model_three_ones
                 /\ satisfies model_three_ones x) /\
  NoDup (reported (bip_enumerate rounded (bip_preprocess model_three_ones))) /\
  sol_count (bip_enumerate rounded (bip_preprocess model_three_ones))
  = Z.of_nat (List.length
                (reported (bip_enumerate rounded (bip_preprocess model_three_ones)))).
Proof.
  apply (enumerate_reports_exactly_the_solutions model_three_ones).
  - vm_compute. split; discriminate.
  - vm_compute. discriminate.
  - exact model_three_ones_small.
Defined.

(** ** [bip_is_feasible] on programs of small integers *)

(** The inner loop of [bip_is_feasible] after [n] columns: [bit] is
    [2^n] modulo [2^32] and [lhs] the sum over the selected columns; no
    addition rounds. *)
Lemma row_lhs_loop (bip : BIP) (x : Z) (r n : nat) :
  (n <= 32)%nat ->
  (forall c, (c < n)%nat -> integral (ar bip r c)) ->
  (abs_sum (ar bip r) n <= inject_Z (2 ^ 53))%Q ->
  exists lhs,
    for_n n (fun c st =>
               let '(bit, lhs) := st in
               (u32 (bit + bit),
                if negb (Z.land x bit =? 0) then a_add rounded lhs (ar bip r c)
                else lhs))
          (1, a_zero rounded)
    = (u32 (2 ^ Z.of_nat n), lhs) /\
    (lhs == bit_sum (fun c => ar bip r c) x (seq 0 n))%Q.
Proof.
  induction n as [|n IH]; intros Hn Hintg Hmag.
  - exists 0%Q. split; reflexivity.
  - destruct IH as (lhs & E & Hl); [lia|intros c Hc; apply Hintg; lia| |].
    { eapply Qle_trans; [apply (abs_sum_mono _ n (S n)); lia|exact Hmag]. }
    rewrite for_n_S, E.
    assert (Hp : 2 ^ Z.of_nat n < 2 ^ 32) by (apply Z.pow_lt_mono_r; lia).
    assert (Hp0 : 0 < 2 ^ Z.of_nat n) by (apply Z.pow_pos_nonneg; lia).
    rewrite (u32_small (2 ^ Z.of_nat n)) by lia.
    rewrite land_pow2_test, negb_involutive by lia.
    assert (Hnext : (bit_sum (fun c => ar bip r c) x (seq 0 (S n))
                     == bit_sum (fun c => ar bip r c) x (seq 0 n)
                        + (if Z.testbit x (Z.of_nat n) then ar bip r n else 0))%Q).
    { rewrite seq_S, bit_sum_snoc. reflexivity. }
    eexists. split.
    + f_equal. f_equal. rewrite pow2_S. lia.
    + rewrite Hnext. cbn [a_add rounded]. revert Hnext.
      destruct (Z.testbit x (Z.of_nat n)); intros Hnext; [|rewrite Hl; ring].
      assert (Hsum : (lhs + ar bip r n
                      == bit_sum (fun c => ar bip r c) x (seq 0 (S n)))%Q)
        by (rewrite Hnext, Hl; reflexivity).
      destruct (integral_bounded (lhs + ar bip r n) (2 ^ 53)) as (z & Hz & Hzb).
      * apply (integral_comp _ _ (Qeq_sym _ _ Hsum)), bit_sum_integral.
        intros c Hc. apply in_seq in Hc. apply Hintg. lia.
      * rewrite Hsum. eapply Qle_trans; [apply bit_sum_abs|].
        change (fun c : nat => ar bip r c) with (ar bip r). exact Hmag.
      * rewrite (fl_integral _ z Hz Hzb), Hl. reflexivity.
Qed.

Lemma row_lhs_rounded (bip : BIP) (x : Z) (r : nat) :
  0 <= cols bip <= 32 -> integral_coefficients bip r ->
  (abs_sum (ar bip r) (Z.to_nat (cols bip)) <= inject_Z (2 ^ 53))%Q ->
  (row_lhs rounded bip x r == row_sum bip x r)%Q.
Proof.
  intros Hc Hintg Hmag. unfold row_lhs, row_sum.
  destruct (row_lhs_loop bip x r (Z.to_nat (cols bip))) as (lhs & E & Hl);
    [lia|exact Hintg|exact Hmag|].
  rewrite E. exact Hl.
Qed.

(** The tolerance [1e-6] of the program lies between 0 and 1. *)
Lemma tolerance_below_one :
  (0 <= a_tolerance rounded)%Q /\ (a_tolerance rounded < 1)%Q.
Proof. split; vm_compute; congruence. Qed.

Lemma row_violated_rounded (bip : BIP) (x : Z) (r : nat) :
  0 <= cols bip <= 32 ->
  integral_coefficients bip r -> integral (rhs bip r) ->
  (row_magnitude bip r <= inject_Z (2 ^ 53))%Q ->
  row_violated rounded bip x r = false <-> row_holds bip x r.
Proof.
  intros Hc Hintg Hrhs Hmag. unfold row_magnitude in Hmag.
  pose proof (Qabs_nonneg (rhs bip r)) as Hrhs0.
  pose proof (abs_sum_nonneg (ar bip r) (Z.to_nat (cols bip))) as Hsum0.
  assert (Hmag' : (abs_sum (ar bip r) (Z.to_nat (cols bip))
                   <= inject_Z (2 ^ 53))%Q) by lra.
  pose proof (row_lhs_rounded bip x r Hc Hintg Hmag') as Hl.
  unfold row_violated, row_holds. cbv zeta.
  cbn [a_ltb a_abs a_sub rounded].
  set (lhs := row_lhs rounded bip x r) in *.
  destruct (sense bip r); cbn [Sense_eqb andb orb].
  - rewrite orb_false_r, Qlt_bool_false, <- Hl. split; [apply Qnot_lt_le|].
    intros H1 H2. apply (Qlt_not_le _ _ H2 H1).
  - rewrite Qlt_bool_false, <- Hl. split; [apply Qnot_lt_le|].
    intros H1 H2. apply (Qlt_not_le _ _ H2 H1).
  - rewrite !orb_false_r, Qlt_bool_false.
    destruct (integral_bounded (lhs - rhs bip r) (2 ^ 53)) as (z & Hz & Hzb).
    + apply integral_minus; [|exact Hrhs].
      apply (integral_comp _ _ (Qeq_sym _ _ Hl)), bit_sum_integral.
      intros c Hcin. apply in_seq in Hcin. apply Hintg. lia.
    + eapply Qle_trans; [apply Qabs_triangle|]. rewrite Qabs_opp, Hl.
      pose proof (bit_sum_abs (fun c => ar bip r c) x (Z.to_nat (cols bip))) as Hs.
      unfold row_sum. change (fun c : nat => ar bip r c) with (ar bip r) in *.
      lra.
    + rewrite (fl_integral _ z Hz Hzb), Hz.
      change (Qabs (inject_Z z)) with (inject_Z (Z.abs z)).
      destruct tolerance_below_one as [T0 T1].
      assert (Hd : (row_sum bip x r - rhs bip r == inject_Z z)%Q)
        by (rewrite <- Hl; exact Hz).
      split.
      * intros Hno. apply Qnot_lt_le in Hno.
        assert (Hz1 : (inject_Z (Z.abs z) < inject_Z 1)%Q)
          by (change (inject_Z 1) with 1%Q; lra).
        rewrite <- Zlt_Qlt in Hz1.
        assert (z = 0) by lia. subst z.
        change (inject_Z 0) with 0%Q in Hd. lra.
      * intros Heq Hlt.
        assert (Hz0 : (inject_Z z == 0)%Q) by (rewrite <- Hd, Heq; ring).
        assert (E0 : z = 0).
        { apply inject_Z_injective. rewrite Hz0. reflexivity. }
        rewrite E0 in Hlt.
        change (inject_Z (Z.abs 0)) with 0%Q in Hlt. lra.
Qed.

Lemma feasible_rows_iff {T : Type} (A : arith T) (bip : binary_program T)
      (x : Z) (rs : list nat) :
  feasible_rows A bip x rs = true
  <-> forall r, In r rs -> row_violated A bip x r = false.
Proof.
  induction rs as [|r rs IH]; cbn [feasible_rows].
  - split; [intros _ r []|reflexivity].
  - destruct (row_violated A bip x r) eqn:E.
    + split; [discriminate|]. intros H.
      rewrite (H r) in E by now left. discriminate.
    + rewrite IH. split.
      * intros H r' [<-|Hin]; [exact E|apply H, Hin].
      * intros H r' Hin. apply H. now right.
Qed.

(** What [bip_is_feasible] decides for a program of small integers. *)
Lemma bip_is_feasible_small (bip : BIP) (x : Z) :
  0 <= cols bip <= 32 -> small_integers bip ->
  bip_is_feasible rounded bip x = true <-> satisfies bip x.
Proof.
  intros Hc Hsmall. unfold bip_is_feasible, satisfies.
  rewrite feasible_rows_iff. split.
  - intros H r Hr. destruct (Hsmall r Hr) as (Hintg & Hrhs & Hmag).
    apply (row_violated_rounded bip x r Hc Hintg Hrhs Hmag), H, in_seq. lia.
  - intros H r Hr. apply in_seq in Hr.
    assert (Hr' : (r < Z.to_nat (rows bip))%nat) by lia.
    destruct (Hsmall r Hr') as (Hintg & Hrhs & Hmag).
    apply (row_violated_rounded bip x r Hc Hintg Hrhs Hmag), H, Hr'.
Qed.

(** X9.  For a program of small integers with at most 32 columns,
    [bip_is_feasible], in the rounding arithmetic of the program, accepts
    [x] exactly when every row as read holds under the bits of [x]:
    [lhs <= rhs] for [<=], [lhs >= rhs] for [>=] and [lhs == rhs] for an
    equation (between integers the tolerance [1e-6] admits no other
    difference than 0). *)
Theorem bip_is_feasible_checks_the_rows (bip : BIP) (x : Z) :
  0 <= cols bip <= 32 -> small_integers bip ->
  bip_is_feasible rounded bip x = true
  <-> forall r, (r < Z.to_nat (rows bip))%nat ->
        match sense bip r with
        | LE => (row_sum bip x r <= rhs bip r)%Q
        | GE => (rhs bip r <= row_sum bip x r)%Q
        | EQ => (row_sum bip x r == rhs bip r)%Q
        end.
Proof.
  intros Hc Hsmall. exact (bip_is_feasible_small bip x Hc Hsmall).
Qed.

Lemma bip_is_feasible_checks_the_rows_witness :
  bip_is_feasible rounded model_three_ones 3 = true
  <-> forall r, (r < Z.to_nat (rows model_three_ones))%nat ->
        match sense model_three_ones r with
        | LE => (row_sum model_three_ones 3 r <= rhs model_three_ones r)%Q
        | GE => (rhs model_three_ones r <= row_sum model_three_ones 3 r)%Q
        | EQ => (row_sum model_three_ones 3 r == rhs model_three_ones r)%Q
        end.
Proof.
  apply (bip_is_feasible_checks_the_rows model_three_ones 3).
  - vm_compute. split; discriminate.
  - exact model_three_ones_small.
Defined.

Lemma satisfies_same_input (b b' : BIP) (x : Z) :
  same_input b b' -> (satisfies b' x <-> satisfies b x).
Proof.
  intros (Hr & Hc & Ha & Hrhs & Hs).
  unfold satisfies, row_holds, row_sum. rewrite Hr, Hc, Ha, Hrhs, Hs. reflexivity.
Qed.

Lemma small_integers_same_input (b b' : BIP) :
  same_input b b' -> small_integers b -> small_integers b'.
Proof.
  intros (Hr & Hc & Ha & Hrhs & _) Hsmall r Hrlt.
  rewrite Hr in Hrlt. destruct (Hsmall r Hrlt) as (Hintg & Hi & Hmag).
  unfold integral_coefficients, row_magnitude. rewrite Hc, Ha, Hrhs.
  repeat split; assumption.
Qed.

(** X10.  For a program of small integers the assertion
    [assert(bip_is_feasible(bip, x))] of [check_feasibility] holds, in the
    rounding arithmetic of the program, for every vector that the
    enumeration of the preprocessed program reports. *)
Theorem reported_vectors_pass_bip_is_feasible (bip : BIP) :
  1 <= cols bip <= 32 -> 0 <= rows bip -> small_integers bip ->
  forall x, In x (reported (bip_enumerate rounded (bip_preprocess bip))) ->
            bip_is_feasible rounded (bip_preprocess bip) x = true.
Proof.
  intros Hcols Hrows Hsmall x Hin.
  apply (reported_rounded_iff bip Hcols Hrows Hsmall) in Hin.
  destruct Hin as [_ Hsat].
  pose proof (proj1 (preprocess_stored bip)) as Hsame.
  pose proof Hsame as (_ & Hc & _).
  apply bip_is_feasible_small.
  - rewrite Hc. lia.
  - exact (small_integers_same_input _ _ Hsame Hsmall).
  - apply (satisfies_same_input bip _ x Hsame), Hsat.
Qed.

Lemma reported_vectors_pass_bip_is_feasible_witness :
  bip_is_feasible rounded (bip_preprocess model_three_ones) 3 = true.
Proof.
  apply (reported_vectors_pass_bip_is_feasible model_three_ones).
  - vm_compute. split; discriminate.
  - vm_compute. discriminate.
  - exact model_three_ones_small.
  - vm_compute. auto 10.
Defined.


(** ** What the overflow guard guarantees *)

Lemma pos_sum_strict (b : BIP) (r n : nat) :
  (0 < max_coef_val b)%Q ->
  (forall c, (c < n)%nat -> ~ meets_bound b r c) ->
  (pos_sum b r n < max_coef_val b)%Q.
Proof.
  intros Hmax. induction n as [|n IH]; intros H; [exact Hmax|].
  rewrite pos_sum_S.
  assert (IHn : (pos_sum b r n < max_coef_val b)%Q)
    by (apply IH; intros c Hc; apply H; lia).
  destruct (Qlt_bool 0 (ar b r n)) eqn:E; [|exact IHn].
  apply Qlt_bool_iff in E.
  apply Qnot_le_lt. intros Hle. apply (H n); [lia|].
  left. split; [exact E|]. lra.
Qed.

Lemma neg_sum_strict (b : BIP) (r n : nat) :
  (min_coef_val b < 0)%Q ->
  (forall c, (c < n)%nat -> ~ meets_bound b r c) ->
  (min_coef_val b < neg_sum b r n)%Q.
Proof.
  intros Hmin. induction n as [|n IH]; intros H; [exact Hmin|].
  rewrite neg_sum_S.
  assert (IHn : (min_coef_val b < neg_sum b r n)%Q)
    by (apply IH; intros c Hc; apply H; lia).
  destruct (Qlt_bool (ar b r n) 0) eqn:E; [|exact IHn].
  apply Qlt_bool_iff in E.
  apply Qnot_le_lt. intros Hle. apply (H n); [lia|].
  right. split; [exact E|]. lra.
Qed.

(** Every selection of the first [n] coefficients of a row sums to a value
    between the sum of the negative and the sum of the positive ones. *)
Lemma bit_sum_between (b : BIP) (x : Z) (r n : nat) :
  (neg_sum b r n <= bit_sum (fun c => ar b r c) x (seq 0 n))%Q /\
  (bit_sum (fun c => ar b r c) x (seq 0 n) <= pos_sum b r n)%Q.
Proof.
  induction n as [|n [IH1 IH2]]; [split; apply Qle_refl|].
  rewrite seq_S, bit_sum_snoc, pos_sum_S, neg_sum_S. cbn [Nat.add].
  assert (Hp : if Qlt_bool 0 (ar b r n) then (0 < ar b r n)%Q
               else ~ (0 < ar b r n)%Q).
  { destruct (Qlt_bool 0 (ar b r n)) eqn:E;
      [apply Qlt_bool_iff|apply Qlt_bool_false]; exact E. }
  assert (Hm : if Qlt_bool (ar b r n) 0 then (ar b r n < 0)%Q
               else ~ (ar b r n < 0)%Q).
  { destruct (Qlt_bool (ar b r n) 0) eqn:E;
      [apply Qlt_bool_iff|apply Qlt_bool_false]; exact E. }
  destruct (Qlt_bool 0 (ar b r n)); destruct (Qlt_bool (ar b r n) 0);
    destruct (Z.testbit x (Z.of_nat n)); split; lra.
Qed.

(** The sums of a row of integers that passes the guard. *)
Lemma guard_bounds_sums (b : BIP) (r n : nat) :
  integral_bounds b -> (min_coef_val b < 0)%Q -> (0 < max_coef_val b)%Q ->
  bip_can_overflow b = None ->
  (r < Z.to_nat (rows b))%nat -> integral_row b r ->
  (n <= Z.to_nat (cols b))%nat ->
  (min_coef_val b < neg_sum b r n)%Q /\ (pos_sum b r n < max_coef_val b)%Q.
Proof.
  intros (lo & hi & Hlo & Hhi & Rlo & Rhi) Hmin Hmax Hnone Hr Hrow Hn.
  pose proof (overflow_rows_spec b (Z.to_nat (rows b)) O) as Hspec.
  unfold bip_can_overflow in Hnone. rewrite Hnone in Hspec.
  assert (Hno : forall c, (c < n)%nat -> ~ meets_bound b r c).
  { apply (integral_row_reaches b r lo hi Hlo Hhi Rlo Rhi Hrow n Hn).
    intros c Hc Hreach. apply (Hspec r); [lia|].
    exists c. split; [lia|exact Hreach]. }
  split; [apply neg_sum_strict|apply pos_sum_strict]; assumption.
Qed.

(** X11.  What the guard guarantees for rows of integers.  When
    [bip_can_overflow] reports nothing, the bounds being integers of
    opposite signs and at most [2^53] in magnitude (as [bip_init] sets
    them), no selection of coefficients of a row of integers within the
    bounds can leave the bounds: for every vector [x] and every prefix of
    the columns, the sum of the selected coefficients lies strictly
    between [min_coef_val] and [max_coef_val]. *)
Theorem no_overflow_bounds_every_row_sum (b : BIP) :
  integral_bounds b -> (min_coef_val b < 0)%Q -> (0 < max_coef_val b)%Q ->
  bip_can_overflow b = None ->
  forall (r : nat) (x : Z) (n : nat),
    (r < Z.to_nat (rows b))%nat -> integral_row b r ->
    (n <= Z.to_nat (cols b))%nat ->
    (min_coef_val b < bit_sum (fun c => ar b r c) x (seq 0 n))%Q /\
    (bit_sum (fun c => ar b r c) x (seq 0 n) < max_coef_val b)%Q.
Proof.
  intros Hb Hmin Hmax Hnone r x n Hr Hrow Hn.
  destruct (guard_bounds_sums b r n Hb Hmin Hmax Hnone Hr Hrow Hn) as [Hneg Hpos].
  destruct (bit_sum_between b x r n) as [Hlow Hhigh].
  split; lra.
Qed.

(** The magnitudes of the coefficients, from the two sums of the guard. *)
Lemma abs_sum_sums (b : BIP) (r n : nat) :
  (abs_sum (ar b r) n == pos_sum b r n - neg_sum b r n)%Q.
Proof.
  induction n as [|n IH]; [reflexivity|].
  rewrite abs_sum_S, pos_sum_S, neg_sum_S, IH.
  destruct (Qlt_bool 0 (ar b r n)) eqn:Tp.
  - apply Qlt_bool_iff in Tp.
    assert (Tn : Qlt_bool (ar b r n) 0 = false) by (apply Qlt_bool_false; lra).
    rewrite Tn, Qabs_pos by lra. ring.
  - apply Qlt_bool_false in Tp.
    destruct (Qlt_bool (ar b r n) 0) eqn:Tn.
    + apply Qlt_bool_iff in Tn. rewrite Qabs_neg by lra. ring.
    + apply Qlt_bool_false in Tn.
      assert (E : (ar b r n == 0)%Q) by lra.
      rewrite E. change (Qabs 0) with 0%Q. ring.
Qed.

(** Rows of integers within the bounds of [bip_init] that pass the guard
    make a program of small integers. *)
Lemma guarded_integers_small (b : BIP) :
  (min_coef_val b == - inject_Z (10 ^ 15))%Q ->
  (max_coef_val b == inject_Z (10 ^ 15))%Q ->
  bip_can_overflow b = None ->
  rows_in_bounds b (Z.to_nat (rows b)) ->
  (forall r, (r < Z.to_nat (rows b))%nat ->
             integral_coefficients b r /\ integral (rhs b r)) ->
  small_integers b.
Proof.
  intros Hmin Hmax Hnone Hb Hintg r Hr.
  destruct (Hintg r Hr) as [Hia Hirhs]. destruct (Hb r Hr) as [Hba Hbrhs].
  split; [exact Hia|]. split; [exact Hirhs|].
  assert (Hbounds : integral_bounds b).
  { exists (- 10 ^ 15), (10 ^ 15). rewrite Hmin, Hmax.
    repeat split; vm_compute; congruence. }
  assert (Hrow : integral_row b r)
    by (intros c Hc; split; [apply Hia, Hc|apply Hba, Hc]).
  destruct (guard_bounds_sums b r (Z.to_nat (cols b)) Hbounds) as [Hneg Hpos];
    try assumption; try lia.
  { rewrite Hmin. reflexivity. }
  { rewrite Hmax. reflexivity. }
  unfold row_magnitude. rewrite abs_sum_sums.
  assert (Hrhs : (Qabs (rhs b r) <= inject_Z (10 ^ 15))%Q).
  { apply Qabs_Qle_condition. rewrite Hmin, Hmax in Hbrhs. exact Hbrhs. }
  rewrite Hmin in Hneg. rewrite Hmax in Hpos.
  assert (H53 : (3 * inject_Z (10 ^ 15) <= inject_Z (2 ^ 53))%Q)
    by (vm_compute; congruence).
  lra.
Qed.

Lemma bip_init_bounds (verb : Z) (b : BIP) :
  min_coef_val b = min_coef_val (bip_init verb) ->
  max_coef_val b = max_coef_val (bip_init verb) ->
  integral_bounds b.
Proof.
  intros Hmin Hmax. exists (- 10 ^ 15), (10 ^ 15). rewrite Hmin, Hmax.
  repeat split; vm_compute; congruence.
Qed.

Lemma no_overflow_bounds_every_row_sum_witness :
  (min_coef_val model_three_ones
   < bit_sum (fun c => ar model_three_ones 0 c) 7 (seq 0 3))%Q /\
  (bit_sum (fun c => ar model_three_ones 0 c) 7 (seq 0 3)
   < max_coef_val model_three_ones)%Q.
Proof.
  apply (no_overflow_bounds_every_row_sum model_three_ones).
  - apply (bip_init_bounds 1); reflexivity.
  - vm_compute. reflexivity.
  - vm_compute. reflexivity.
  - vm_compute. reflexivity.
  - vm_compute. lia.
  - intros c Hc. change (c < 3)%nat in Hc.
    split; [exists 1|]; (destruct c as [|[|[|c]]]; [..|lia]);
      vm_compute; (reflexivity || (split; congruence)).
  - vm_compute. lia.
Defined.

(** ** The reader: what an accepted line stores *)

Lemma reader_frame_refl (b : BIP) : reader_frame b b.
Proof. repeat split. Qed.

Lemma reader_frame_trans (b1 b2 b3 : BIP) :
  reader_frame b1 b2 -> reader_frame b2 b3 -> reader_frame b1 b3.
Proof.
  intros (A1 & A2 & A3 & A4 & A5 & A6) (B1 & B2 & B3 & B4 & B5 & B6).
  repeat split; congruence.
Qed.

Section ReaderStores.
Variable strtod : string -> strtod_result.

(** The counts the test lets through. *)
Lemma bad_count_false (errno : Z) (sr : strtod_result) (limit : Z) :
  INT_MIN <= limit <= INT_MAX ->
  bad_count errno sr limit = false <-> count_ok errno sr limit.
Proof.
  intros Hlim. unfold bad_count, count_ok. split.
  - intros H.
    repeat match type of H with
           | (_ || _)%bool = false =>
               apply orb_false_elim in H;
               let H' := fresh "H" in destruct H as [H H']
           end.
    apply Z.eqb_neq in H. apply negb_false_iff in H0.
    split; [exact H|]. split; [exact H0|].
    destruct (sd_val sr) as [q|neg|]; cbn [isnan isinf] in *; try discriminate.
    exists q. cbn [rint_differs dval_lt] in *.
    apply negb_false_iff, Qeq_bool_iff in H3.
    apply Qlt_bool_false, Qnot_lt_le in H2. apply Z.ltb_ge in H1.
    rewrite (int_of_count q (Qeq_sym _ _ H3) H2) in H1.
    split; [reflexivity|]. split; [symmetry; exact H3|].
    rewrite <- H3 in H2.
    change 1%Q with (inject_Z 1) in H2. rewrite <- Zle_Qle in H2.
    destruct (Z.leb_spec (Qfloor q) INT_MAX); [left; lia|right; lia].
  - intros (He & Hend & q & Hq & Hintg & Hrange).
    rewrite Hq, Hend. cbn [isnan isinf rint_differs dval_lt negb orb].
    destruct (Z.eqb_spec errno ERANGE) as [E|_]; [contradiction|].
    assert (E1 : Qeq_bool (inject_Z (Qfloor q)) q = true)
      by (apply Qeq_bool_iff; symmetry; exact Hintg).
    rewrite E1. cbn [negb orb].
    assert (H1 : (1 <= q)%Q).
    { rewrite Hintg. change 1%Q with (inject_Z 1). rewrite <- Zle_Qle.
      unfold INT_MAX in Hrange. lia. }
    assert (E2 : Qlt_bool q 1 = false)
      by (apply Qlt_bool_false, Qle_not_lt; exact H1).
    rewrite E2. cbn [orb].
    rewrite (int_of_count q Hintg H1).
    destruct (Z.leb_spec (Qfloor q) INT_MAX);
      [destruct (Z.ltb_spec limit (Qfloor q)); [lia|reflexivity]|].
    destruct (Z.ltb_spec limit INT_MIN); [lia|reflexivity].
Qed.

(** What an accepted count stores. *)
Lemma accepted_count_stored (errno : Z) (sr : strtod_result) (limit : Z) :
  INT_MIN <= limit <= INT_MAX ->
  bad_count errno sr limit = false ->
  stored_count (int_of (sd_val sr)) limit.
Proof.
  intros Hlim B. apply bad_count_false in B; [|exact Hlim].
  destruct B as (_ & _ & q & Hq & Hintg & Hrange).
  assert (H1 : (1 <= q)%Q).
  { rewrite Hintg. change 1%Q with (inject_Z 1). rewrite <- Zle_Qle.
    unfold INT_MAX in Hrange. lia. }
  rewrite Hq, (int_of_count q Hintg H1). unfold stored_count.
  destruct (Z.leb_spec (Qfloor q) INT_MAX); [left; lia|right; reflexivity].
Qed.

(** An accepted coefficient or right-hand side is a finite number within
    the bounds. *)
Lemma bad_number_false (bip : BIP) (errno : Z) (sr : strtod_result) :
  bad_number bip errno sr = false <->
  errno <> ERANGE /\ sd_at_end sr = true /\
  exists q, sd_val sr = DFinite q /\
            (min_coef_val bip <= q <= max_coef_val bip)%Q.
Proof.
  unfold bad_number. split.
  - intros H.
    repeat match type of H with
           | (_ || _)%bool = false =>
               apply orb_false_elim in H;
               let H' := fresh "H" in destruct H as [H H']
           end.
    apply Z.eqb_neq in H. apply negb_false_iff in H0.
    split; [exact H|]. split; [exact H0|].
    destruct (sd_val sr) as [q|neg|]; cbn [isnan isinf] in *; try discriminate.
    exists q. cbn [dval_lt dval_gt] in *.
    apply Qlt_bool_false, Qnot_lt_le in H1.
    apply Qlt_bool_false, Qnot_lt_le in H2.
    split; [reflexivity|]. split; assumption.
  - intros (He & Hend & q & Hq & Hlo & Hhi).
    rewrite Hq, Hend. cbn [isnan isinf dval_lt dval_gt negb orb].
    destruct (Z.eqb_spec errno ERANGE) as [E|_]; [contradiction|].
    assert (E1 : Qlt_bool (max_coef_val bip) q = false)
      by (apply Qlt_bool_false, Qle_not_lt; exact Hhi).
    assert (E2 : Qlt_bool q (min_coef_val bip) = false)
      by (apply Qlt_bool_false, Qle_not_lt; exact Hlo).
    rewrite E1, E2. reflexivity.
Qed.

(** The field loop writes row [read_rows] of [ar], [rhs] and [sense] and
    nothing else, also when it ends with an error. *)
Lemma read_fields_frame (lfs : list string) (cs : list nat) :
  forall bip errno,
    let res := read_fields strtod lfs cs bip errno in
    let bip' := snd (fst res) in
    rows bip' = rows bip /\ cols bip' = cols bip /\
    read_rows bip' = read_rows bip /\ reader_frame bip bip' /\
    (forall r c, r <> Z.to_nat (read_rows bip) -> ar bip' r c = ar bip r c) /\
    (forall r, r <> Z.to_nat (read_rows bip) -> rhs bip' r = rhs bip r) /\
    (forall r, r <> Z.to_nat (read_rows bip) -> sense bip' r = sense bip r).
Proof.
  induction cs as [|c cs IH]; intros bip errno; cbv zeta.
  - cbn [read_fields fst snd]. repeat split.
  - cbn [read_fields].
    assert (Hstep : forall b1 e1,
               rows b1 = rows bip -> cols b1 = cols bip ->
               read_rows b1 = read_rows bip -> reader_frame bip b1 ->
               (forall r c, r <> Z.to_nat (read_rows bip) -> ar b1 r c = ar bip r c) ->
               (forall r, r <> Z.to_nat (read_rows bip) -> rhs b1 r = rhs bip r) ->
               (forall r, r <> Z.to_nat (read_rows bip) -> sense b1 r = sense bip r) ->
               let bip' := snd (fst (read_fields strtod lfs cs b1 e1)) in
               rows bip' = rows bip /\ cols bip' = cols bip /\
               read_rows bip' = read_rows bip /\ reader_frame bip bip' /\
               (forall r c, r <> Z.to_nat (read_rows bip) -> ar bip' r c = ar bip r c) /\
               (forall r, r <> Z.to_nat (read_rows bip) -> rhs bip' r = rhs bip r) /\
               (forall r, r <> Z.to_nat (read_rows bip) -> sense bip' r = sense bip r)).
    { intros b1 e1 R1 C1 RR1 F1 A1 H1 S1. cbv zeta.
      destruct (IH b1 e1) as (R2 & C2 & RR2 & F2 & A2 & H2 & S2).
      rewrite RR1 in A2, H2, S2.
      split; [congruence|]. split; [congruence|]. split; [congruence|].
      split; [exact (reader_frame_trans _ _ _ F1 F2)|].
      split; [|split].
      - intros r c' Hr. rewrite A2 by exact Hr. apply A1, Hr.
      - intros r Hr. rewrite H2 by exact Hr. apply H1, Hr.
      - intros r Hr. rewrite S2 by exact Hr. apply S1, Hr. }
    assert (Hupd : forall (X : Type) (a : nat -> X) (v : X) (r : nat),
               r <> Z.to_nat (read_rows bip) ->
               upd a (Z.to_nat (read_rows bip)) v r = a r).
    { intros X a v r Hr. unfold upd.
      destruct (Nat.eqb_spec r (Z.to_nat (read_rows bip))); [contradiction|reflexivity]. }
    assert (Hupd2 : forall (a : nat -> nat -> Q) (v : Q) (j r c' : nat),
               r <> Z.to_nat (read_rows bip) ->
               upd2 a (Z.to_nat (read_rows bip)) j v r c' = a r c').
    { intros a v j r c' Hr. unfold upd2.
      destruct (Nat.eqb_spec r (Z.to_nat (read_rows bip))); [contradiction|reflexivity]. }
    assert (Hgo : forall b1 e1,
               b1 = set_ar bip (upd2 (ar bip) (Z.to_nat (read_rows bip)) c
                                     (dval_Q (sd_val (strtod (lfs_field lfs c)))))
               \/ b1 = set_rhs bip (upd (rhs bip) (Z.to_nat (read_rows bip))
                                        (dval_Q (sd_val (strtod (lfs_field lfs c)))))
               \/ (exists s, b1 = set_sense bip (upd (sense bip)
                                                     (Z.to_nat (read_rows bip)) s)) ->
               let bip' := snd (fst (read_fields strtod lfs cs b1 e1)) in
               rows bip' = rows bip /\ cols bip' = cols bip /\
               read_rows bip' = read_rows bip /\ reader_frame bip bip' /\
               (forall r c, r <> Z.to_nat (read_rows bip) -> ar bip' r c = ar bip r c) /\
               (forall r, r <> Z.to_nat (read_rows bip) -> rhs bip' r = rhs bip r) /\
               (forall r, r <> Z.to_nat (read_rows bip) -> sense bip' r = sense bip r)).
    { intros b1 e1 [->|[->|[s ->]]]; apply Hstep;
        try reflexivity; try (repeat split; fail);
        cbn [set_ar set_rhs set_sense ar rhs sense]; intros;
        first [reflexivity | apply Hupd2; assumption | apply Hupd; assumption]. }
    destruct (negb (Z.of_nat c =? cols bip)).
    + destruct (bad_number bip _ _).
      * cbn [fst snd]. repeat split.
      * destruct (Z.of_nat c <? cols bip); apply Hgo; auto.
    + destruct (String.eqb _ "<="); [apply Hgo; eauto|].
      destruct (String.eqb _ ">="); [apply Hgo; eauto|].
      destruct (String.eqb _ "=" || String.eqb _ "==")%bool; [apply Hgo; eauto|].
      cbn [fst snd]. repeat split.
Qed.

(** The field loop on success: row [read_rows] holds the converted fields,
    all within the bounds, and the sense of the token. *)
Lemma read_fields_ok (lfs : list string) (len : nat) :
  forall c0 bip errno bip' errno',
    0 <= cols bip ->
    (c0 + len = Z.to_nat (cols bip + 2))%nat ->
    read_fields strtod lfs (seq c0 len) bip errno = (true, bip', errno') ->
    let row := Z.to_nat (read_rows bip) in
    let n := Z.to_nat (cols bip) in
    let val := fun c => dval_Q (sd_val (strtod (lfs_field lfs c))) in
    (forall c, ar bip' row c
               = if ((c0 <=? c) && (c <? n))%nat then val c else ar bip row c) /\
    rhs bip' row = (if (c0 <=? S n)%nat then val (S n) else rhs bip row) /\
    sense bip' row = (if (c0 <=? n)%nat then sense_of_token (lfs_field lfs n)
                      else sense bip row) /\
    (forall c, (c0 <= c < n + 2)%nat -> c <> n ->
       exists q, sd_val (strtod (lfs_field lfs c)) = DFinite q /\
                 (min_coef_val bip <= q <= max_coef_val bip)%Q) /\
    ((c0 <= n)%nat -> sense_token (lfs_field lfs n) = true).
Proof.
  induction len as [|len IH]; intros c0 bip errno bip' errno' Hc Hlen Hrun;
    cbv zeta.
  - cbn [seq read_fields] in Hrun. injection Hrun as <- <-.
    split; [|split; [|split; [|split]]].
    + intros c. destruct (Nat.leb_spec c0 c); [|reflexivity].
      destruct (Nat.ltb_spec c (Z.to_nat (cols bip))); [lia|reflexivity].
    + destruct (Nat.leb_spec c0 (S (Z.to_nat (cols bip)))); [lia|reflexivity].
    + destruct (Nat.leb_spec c0 (Z.to_nat (cols bip))); [lia|reflexivity].
    + intros c Hcr. lia.
    + intros Hle. lia.
  - cbn [seq read_fields] in Hrun.
    set (row := Z.to_nat (read_rows bip)) in *.
    set (n := Z.to_nat (cols bip)) in *.
    destruct (Z.eqb_spec (Z.of_nat c0) (cols bip)) as [Ec|Nc]; cbn [negb] in Hrun.
    + (* the sense token *)
      assert (Ec0 : c0 = n) by (unfold n; lia).
      assert (Hs : exists s,
                 sense_token (lfs_field lfs n) = true /\
                 s = sense_of_token (lfs_field lfs n) /\
                 read_fields strtod lfs (seq (S c0) len)
                             (set_sense bip (upd (sense bip) row s)) errno
                 = (true, bip', errno')).
      { unfold sense_token, sense_of_token. fold n in Hrun.
        destruct (String.eqb (lfs_field lfs n) "<=") eqn:E1;
          [exists LE; auto|].
        destruct (String.eqb (lfs_field lfs n) ">=") eqn:E2;
          [exists GE; auto|].
        destruct (String.eqb (lfs_field lfs n) "=" || String.eqb (lfs_field lfs n) "==")%bool
          eqn:E3; [|discriminate].
        exists EQ. cbn [orb]. auto. }
      destruct Hs as (s & Htok & Hs & Hrun').
      pose proof (IH (S c0) (set_sense bip (upd (sense bip) row s)) errno
                     bip' errno') as IH'.
      cbn [set_sense read_rows cols ar rhs sense min_coef_val max_coef_val] in IH'.
      destruct (IH' Hc ltac:(lia) Hrun') as (A & R & Se & B & _).
      fold row in A, R, Se. fold n in A, R, Se, B.
      split; [|split; [|split; [|split]]].
      * intros c. rewrite A.
        destruct (Nat.leb_spec (S c0) c); destruct (Nat.leb_spec c0 c);
          destruct (Nat.ltb_spec c n); cbn [andb]; try reflexivity; lia.
      * rewrite R.
        destruct (Nat.leb_spec (S c0) (S n)); destruct (Nat.leb_spec c0 (S n));
          try reflexivity; lia.
      * rewrite Se.
        destruct (Nat.leb_spec (S c0) n); [lia|].
        destruct (Nat.leb_spec c0 n); [|lia].
        unfold upd. rewrite Nat.eqb_refl. exact Hs.
      * intros c Hcr Hne. apply B; [lia|exact Hne].
      * intros _. exact Htok.
    + (* a number *)
      set (sr := strtod (lfs_field lfs c0)) in *.
      set (errno1 := if sd_erange sr then ERANGE else errno) in *.
      destruct (bad_number bip errno1 sr) eqn:Bn; [discriminate|].
      apply bad_number_false in Bn. destruct Bn as (_ & _ & q & Hq & Hqb).
      set (bip1 := if Z.of_nat c0 <? cols bip
                   then set_ar bip (upd2 (ar bip) row c0 (dval_Q (sd_val sr)))
                   else set_rhs bip (upd (rhs bip) row (dval_Q (sd_val sr)))) in *.
      assert (F1 : cols bip1 = cols bip /\ read_rows bip1 = read_rows bip /\
                   min_coef_val bip1 = min_coef_val bip /\
                   max_coef_val bip1 = max_coef_val bip /\
                   sense bip1 = sense bip)
        by (unfold bip1; destruct (Z.of_nat c0 <? cols bip); repeat split).
      destruct F1 as (F1 & F2 & F3 & F4 & F5).
      destruct (IH (S c0) bip1 errno1 bip' errno' ltac:(lia) ltac:(lia) Hrun)
        as (A & R & Se & B & T).
      rewrite F1, F2, F3, F4, F5 in *. fold row in A, R, Se. fold n in A, R, Se, B, T.
      split; [|split; [|split; [|split]]].
      * intros c. rewrite A. unfold bip1.
        destruct (Z.ltb_spec (Z.of_nat c0) (cols bip)) as [L|G];
          cbn [set_ar set_rhs ar]; unfold upd2; rewrite ?Nat.eqb_refl; cbn [andb].
        -- destruct (Nat.eqb_spec c c0) as [->|Hne].
           ++ destruct (Nat.leb_spec (S c0) c0); [lia|].
              destruct (Nat.leb_spec c0 c0); [|lia].
              destruct (Nat.ltb_spec c0 n); [|unfold n in *; lia].
              reflexivity.
           ++ destruct (Nat.leb_spec (S c0) c); destruct (Nat.leb_spec c0 c);
                destruct (Nat.ltb_spec c n); cbn [andb]; try reflexivity; lia.
        -- destruct (Nat.leb_spec (S c0) c); destruct (Nat.leb_spec c0 c);
             destruct (Nat.ltb_spec c n); cbn [andb]; try reflexivity;
             unfold n in *; lia.
      * rewrite R. unfold bip1.
        destruct (Z.ltb_spec (Z.of_nat c0) (cols bip)) as [L|G];
          cbn [set_ar set_rhs rhs].
        -- destruct (Nat.leb_spec (S c0) (S n)); [|unfold n in *; lia].
           destruct (Nat.leb_spec c0 (S n)); [reflexivity|lia].
        -- assert (E : c0 = S n) by (unfold n in *; lia).
           destruct (Nat.leb_spec (S c0) (S n)); [lia|].
           destruct (Nat.leb_spec c0 (S n)); [|lia].
           unfold upd. rewrite Nat.eqb_refl. unfold sr. rewrite E. reflexivity.
      * rewrite Se.
        destruct (Nat.leb_spec (S c0) n); destruct (Nat.leb_spec c0 n);
          try reflexivity; unfold n in *; lia.
      * intros c Hcr Hne.
        destruct (Nat.eq_dec c c0) as [->|Hne0].
        -- exists q. split; [exact Hq|exact Hqb].
        -- apply B; [lia|exact Hne].
      * intros Hle. apply T. unfold n in *. lia.
Qed.
End ReaderStores.

(** ** The reader: the structure between two lines *)

Section ReaderInvariant.
Variable strtod : string -> strtod_result.
Variable bip0 : BIP.

Lemma process_line_inv (mode : LINE_MODE) (lfs : list string) (bip : BIP)
      (errno : Z) (mode' : LINE_MODE) (bip' : BIP) (errno' : Z) :
  read_inv bip0 mode bip ->
  process_line strtod mode lfs bip errno = Some (mode', bip', errno') ->
  read_inv bip0 mode' bip'.
Proof.
  intros [Hf Hm] Hp. unfold process_line in Hp.
  destruct (0 <? lfs_fields_used lfs).
  2:{ injection Hp as <- <- <-. split; assumption. }
  destruct mode.
  - discriminate.
  - (* READ_COLS *)
    destruct (negb (lfs_fields_used lfs =? 1)).
    { injection Hp as <- <- <-. split; [exact Hf|exact I]. }
    destruct (bad_count _ _ BIP_MAX_COLS) eqn:B.
    { injection Hp as <- <- <-. split; [exact Hf|exact I]. }
    injection Hp as <- <- <-.
    apply accepted_count_stored in B; [|vm_compute; split; congruence].
    subst bip.
    split; [repeat split|]. cbn [set_cols cols rows read_rows].
    split; [exact B|]. split; reflexivity.
  - (* READ_ROWS *)
    destruct (negb (lfs_fields_used lfs =? 1)).
    { injection Hp as <- <- <-. split; [exact Hf|exact I]. }
    destruct (bad_count _ _ BIP_MAX_ROWS) eqn:B.
    { injection Hp as <- <- <-. split; [exact Hf|exact I]. }
    injection Hp as <- <- <-.
    apply accepted_count_stored in B; [|vm_compute; split; congruence].
    destruct Hm as (Hc & Hrows & Hrr).
    split; [exact Hf|]. cbn [set_rows cols rows read_rows ar rhs min_coef_val max_coef_val].
    split; [exact Hc|]. split; [exact B|]. split; [lia|]. split; [lia|].
    intros r Hrange. rewrite Hrr in Hrange. lia.
  - (* READ_COEF *)
    destruct (Z.leb_spec (rows bip) (read_rows bip)) as [Hfull|Hroom].
    { injection Hp as <- <- <-. split; [exact Hf|exact I]. }
    destruct (Z.eqb_spec (lfs_fields_used lfs) (cols bip + 2)) as [Hnf|_];
      cbn [negb] in Hp.
    2:{ injection Hp as <- <- <-. split; [exact Hf|exact I]. }
    destruct Hm as (Hc & Hrows & Hrr & Hle & Hb).
    pose proof (read_fields_frame strtod lfs (seq 0 (Z.to_nat (cols bip + 2)))
                                  bip errno) as Hfr.
    cbv zeta in Hfr.
    destruct (read_fields strtod lfs (seq 0 (Z.to_nat (cols bip + 2))) bip errno)
      as [[ok b1] e1] eqn:Hrun.
    cbn [fst snd] in Hfr.
    destruct Hfr as (R1 & C1 & RR1 & F1 & A1 & H1 & S1).
    destruct ok; injection Hp as <- <- <-.
    2:{ split; [exact (reader_frame_trans _ _ _ Hf F1)|exact I]. }
    assert (Hc0 : 0 <= cols bip).
    { unfold lfs_fields_used in Hnf.
      destruct Hc as [Hc|Hc]; [lia|unfold INT_MIN in Hc; lia]. }
    destruct (read_fields_ok strtod lfs (Z.to_nat (cols bip + 2)) 0 bip errno
                             b1 e1 Hc0 (Nat.add_0_l _) Hrun)
      as (A & R & _ & B & _).
    split.
    { apply (reader_frame_trans _ bip); [exact Hf|].
      destruct F1 as (F1 & F2 & F3 & F4 & F5 & F6). repeat split; assumption. }
    pose proof F1 as (_ & _ & _ & Fmin & Fmax & _).
    cbn [set_read_rows cols rows read_rows ar rhs min_coef_val max_coef_val].
    rewrite R1, C1, RR1, Fmin, Fmax.
    split; [exact Hc|]. split; [exact Hrows|]. split; [lia|]. split; [lia|].
    intros r Hrange.
    destruct (Nat.eq_dec r (Z.to_nat (read_rows bip))) as [->|Hne].
    + split.
      * intros c Hcn. rewrite A. cbn [Nat.leb andb].
        destruct (Nat.ltb_spec c (Z.to_nat (cols bip))); [|lia].
        destruct (B c) as (q & Hq & Hqb); [lia|lia|].
        rewrite Hq. exact Hqb.
      * rewrite R. cbn [Nat.leb].
        destruct (B (S (Z.to_nat (cols bip)))) as (q & Hq & Hqb); [lia|lia|].
        rewrite Hq. exact Hqb.
    + assert (Hold : (Z.to_nat (read_rows bip0) <= r < Z.to_nat (read_rows bip))%nat)
        by lia.
      destruct (Hb r Hold) as [Hba Hbr]. split.
      * intros c Hcn. rewrite A1 by exact Hne. apply Hba, Hcn.
      * rewrite H1 by exact Hne. exact Hbr.
Qed.

Lemma read_loop_inv (lines : list string) :
  forall mode bip errno mode' bip' errno',
    read_inv bip0 mode bip ->
    read_loop strtod lines mode bip errno = Some (mode', bip', errno') ->
    read_inv bip0 mode' bip'.
Proof.
  induction lines as [|s rest IH]; intros mode bip errno mode' bip' errno' Hinv Hrun.
  - rewrite read_loop_nil in Hrun. injection Hrun as <- <- <-. exact Hinv.
  - assert (Hcase : mode = READ_ERROR \/ mode <> READ_ERROR)
      by (destruct mode; [now left|right; discriminate..]).
    destruct Hcase as [->|Hne].
    + rewrite read_loop_error in Hrun. injection Hrun as <- <- <-. exact Hinv.
    + rewrite read_loop_cons in Hrun by exact Hne.
      destruct (process_line strtod mode (lfs_split_line s "#") bip errno)
        as [[[m b] e]|] eqn:Hp; [|discriminate].
      apply (IH m b e mode' bip' errno'); [|exact Hrun].
      exact (process_line_inv _ _ _ _ _ _ _ Hinv Hp).
Qed.
End ReaderInvariant.

(** ** [bip_read]: what a successful call leaves *)

Section ReadResult.
Variable strtod : string -> strtod_result.

Lemma read_inv_start (bip : BIP) : read_inv bip READ_COLS bip.
Proof. split; [apply reader_frame_refl|reflexivity]. Qed.

(** A call that returns 0 has read a complete, in-bounds program and
    preprocessed it. *)
Lemma bip_read_success (bip : BIP) (errno : Z) (file : option (list string))
      (b : BIP) (calls : list downstream_call) :
  rows bip = 0 -> read_rows bip = 0 ->
  bip_read strtod bip errno file = Some (0, b, calls) ->
  exists lines b1 e1,
    file = Some lines /\
    read_loop strtod lines READ_COLS bip errno = Some (READ_COEF, b1, e1) /\
    b = bip_preprocess b1 /\
    calls = [Call_bip_can_overflow; Call_bip_preprocess] /\
    reader_frame bip b1 /\
    stored_count (cols b1) BIP_MAX_COLS /\
    stored_count (rows b1) BIP_MAX_ROWS /\
    (1 <= rows b1 -> read_rows b1 = rows b1) /\
    rows_in_bounds b1 (Z.to_nat (rows b1)) /\
    bip_can_overflow b1 = None.
Proof.
  intros Hrows Hrr Hread. unfold bip_read in Hread.
  destruct file as [lines|]; [|discriminate].
  destruct (read_loop strtod lines READ_COLS bip errno) as [[[mode b1] e1]|] eqn:Hloop;
    [|discriminate].
  pose proof (read_loop_inv strtod bip lines _ _ _ _ _ _ (read_inv_start bip) Hloop)
    as [Hf Hm].
  destruct mode; [discriminate| | |].
  - subst b1. rewrite Hrows in Hread. cbn [Z.eqb orb] in Hread.
    rewrite orb_true_r in Hread. discriminate.
  - destruct Hm as (_ & Hr & _). rewrite Hr, Hrows in Hread.
    cbn [Z.eqb orb] in Hread. rewrite orb_true_r in Hread. discriminate.
  - destruct Hm as (Hc & Hr & Hrr0 & Hle & Hb).
    destruct ((cols b1 =? 0) || (rows b1 =? 0) || (read_rows b1 <? rows b1))%bool
      eqn:Hend; [discriminate|].
    apply orb_false_elim in Hend. destruct Hend as [_ Hfull].
    apply Z.ltb_ge in Hfull.
    destruct (bip_can_overflow b1) eqn:Hov; [discriminate|].
    injection Hread as <- <-.
    exists lines, b1, e1.
    assert (Heq : 1 <= rows b1 -> read_rows b1 = rows b1) by lia.
    repeat (split; [first [reflexivity|assumption]|]).
    split.
    + intros r Hrlt. apply Hb. rewrite Hrr, Heq; lia.
    + exact Hov.
Qed.
End ReadResult.

(** ** [bip_is_valid] *)

Lemma sum_over_cons (f : nat -> Z) (a : nat) (l : list nat) :
  sum_over f (a :: l) = f a + sum_over f l.
Proof. reflexivity. Qed.

Lemma sum_over_perm (f : nat -> Z) (l l' : list nat) :
  Permutation l l' -> sum_over f l = sum_over f l'.
Proof.
  induction 1 as [|a l l' _ IH|a a' l|l1 l2 l3 _ IH1 _ IH2].
  - reflexivity.
  - cbn [sum_over fold_right]. fold (sum_over f l). fold (sum_over f l'). lia.
  - cbn [sum_over fold_right]. lia.
  - congruence.
Qed.

Lemma sum_over_ext_in (f g : nat -> Z) (l : list nat) :
  (forall r, In r l -> f r = g r) -> sum_over f l = sum_over g l.
Proof.
  induction l as [|a l IH]; intros H; [reflexivity|].
  cbn [sum_over fold_right]. fold (sum_over f l). fold (sum_over g l).
  rewrite (H a) by now left. rewrite IH; [reflexivity|].
  intros r Hr. apply H. now right.
Qed.

Lemma sum_over_map (f : nat -> Z) (g : nat -> nat) (l : list nat) :
  sum_over f (map g l) = sum_over (fun r => f (g r)) l.
Proof.
  induction l as [|a l IH]; [reflexivity|].
  cbn [map sum_over fold_right]. fold (sum_over f (map g l)).
  fold (sum_over (fun r => f (g r)) l). now rewrite IH.
Qed.

Lemma sum_over_nonneg (f : nat -> Z) (l : list nat) :
  (forall r, In r l -> 0 <= f r) -> 0 <= sum_over f l.
Proof.
  induction l as [|a l IH]; intros H; [cbn; lia|].
  cbn [sum_over fold_right]. fold (sum_over f l).
  pose proof (H a (or_introl eq_refl)).
  assert (0 <= sum_over f l) by (apply IH; intros r Hr; apply H; now right).
  lia.
Qed.

Lemma sum_over_pos (f : nat -> Z) (l : list nat) (a : nat) :
  (forall r, In r l -> 0 <= f r) -> In a l -> f a <= sum_over f l.
Proof.
  induction l as [|b l IH]; intros H Hin; [destruct Hin|].
  cbn [sum_over fold_right]. fold (sum_over f l).
  assert (Hrest : forall r, In r l -> 0 <= f r) by (intros r Hr; apply H; now right).
  pose proof (sum_over_nonneg f l Hrest).
  pose proof (H b (or_introl eq_refl)).
  destruct Hin as [->|Hin]; [lia|].
  specialize (IH Hrest Hin). lia.
Qed.

(** The column loop of [bip_is_valid]: it ends early, or has counted the
    nonzeros of the columns it went through. *)
Lemma valid_cols_shape (bip : BIP) (r : nat) (cs : list nat) :
  forall nzo,
    valid_cols bip r cs nzo = None \/
    valid_cols bip r cs nzo
    = Some (fst nzo + sum_over (fun c => if Qeq_bool (ar bip r c) 0 then 0 else 1) cs,
            snd nzo + sum_over (fun c => if Qeq_bool (ac bip c r) 0 then 0 else 1) cs).
Proof.
  induction cs as [|c cs IH]; intros nzo.
  - right. cbn [valid_cols sum_over fold_right]. destruct nzo. cbn [fst snd].
    f_equal. f_equal; lia.
  - cbn [valid_cols].
    destruct (_ || _)%bool; [now left|].
    destruct (_ || _)%bool; [now left|].
    destruct (IH (if negb (Qeq_bool (ar bip r c) 0) then fst nzo + 1 else fst nzo,
                  if negb (Qeq_bool (ac bip c r) 0) then snd nzo + 1 else snd nzo))
      as [E|E]; [now left|right].
    rewrite E, !sum_over_cons. cbn [fst snd].
    destruct (Qeq_bool (ar bip r c) 0); destruct (Qeq_bool (ac bip c r) 0);
      cbn [negb]; f_equal; f_equal; lia.
Qed.

Lemma valid_cols_in_bounds (bip : BIP) (r : nat) (cs : list nat) :
  forall nzo,
    (forall c, In c cs ->
       (min_coef_val bip <= ar bip r c <= max_coef_val bip)%Q) ->
    (min_coef_val bip <= rhs bip r <= max_coef_val bip)%Q ->
    valid_cols bip r cs nzo <> None.
Proof.
  induction cs as [|c cs IH]; intros nzo Ha Hr; [discriminate|].
  cbn [valid_cols].
  destruct (Ha c (or_introl eq_refl)) as [A1 A2]. destruct Hr as [R1 R2].
  assert (E1 : Qlt_bool (ar bip r c) (min_coef_val bip) = false)
    by (apply Qlt_bool_false, Qle_not_lt, A1).
  assert (E2 : Qlt_bool (max_coef_val bip) (ar bip r c) = false)
    by (apply Qlt_bool_false, Qle_not_lt, A2).
  assert (E3 : Qlt_bool (rhs bip r) (min_coef_val bip) = false)
    by (apply Qlt_bool_false, Qle_not_lt, R1).
  assert (E4 : Qlt_bool (max_coef_val bip) (rhs bip r) = false)
    by (apply Qlt_bool_false, Qle_not_lt, R2).
  rewrite E1, E2, E3, E4. cbn [orb].
  apply IH; [|split; assumption]. intros c' Hc'. apply Ha. now right.
Qed.

Lemma valid_rows_shape (bip : BIP) (rs : list nat) :
  forall nzo,
    valid_rows bip rs nzo = None \/
    valid_rows bip rs nzo
    = Some (fst nzo + sum_over (nonzeros_ar bip) rs,
            snd nzo + sum_over (nonzeros_ac bip) rs).
Proof.
  induction rs as [|r rs IH]; intros nzo.
  - right. cbn [valid_rows sum_over fold_right]. destruct nzo. cbn [fst snd].
    f_equal. f_equal; lia.
  - cbn [valid_rows].
    destruct (valid_cols_shape bip r (seq 0 (Z.to_nat (cols bip))) nzo) as [E|E];
      rewrite E; [now left|].
    destruct (IH (fst nzo + sum_over (fun c => if Qeq_bool (ar bip r c) 0 then 0 else 1)
                                     (seq 0 (Z.to_nat (cols bip))),
                  snd nzo + sum_over (fun c => if Qeq_bool (ac bip c r) 0 then 0 else 1)
                                     (seq 0 (Z.to_nat (cols bip)))))
      as [E'|E']; [now left|right].
    rewrite E', !sum_over_cons. cbn [fst snd]. unfold nonzeros_ar, nonzeros_ac.
    f_equal. f_equal; lia.
Qed.

Lemma valid_rows_in_bounds (bip : BIP) (rs : list nat) :
  forall nzo,
    (forall r, In r rs ->
       (forall c, (c < Z.to_nat (cols bip))%nat ->
                  (min_coef_val bip <= ar bip r c <= max_coef_val bip)%Q) /\
       (min_coef_val bip <= rhs bip r <= max_coef_val bip)%Q) ->
    valid_rows bip rs nzo <> None.
Proof.
  induction rs as [|r rs IH]; intros nzo H; [discriminate|].
  cbn [valid_rows].
  destruct (H r (or_introl eq_refl)) as [Ha Hr].
  destruct (valid_cols bip r (seq 0 (Z.to_nat (cols bip))) nzo) eqn:E.
  - apply IH. intros r' Hr'. apply H. now right.
  - exfalso. revert E. apply valid_cols_in_bounds; [|exact Hr].
    intros c Hc. apply in_seq in Hc. apply Ha. lia.
Qed.

(** ** [bip_is_valid] after [bip_read] *)

Lemma Qeq_bool_zero (a b : Q) :
  ((a == 0)%Q <-> (b == 0)%Q) -> Qeq_bool a 0 = Qeq_bool b 0.
Proof.
  intros H. destruct (Qeq_bool a 0) eqn:Ea; destruct (Qeq_bool b 0) eqn:Eb;
    try reflexivity.
  - apply Qeq_bool_iff, H, Qeq_bool_iff in Ea. congruence.
  - apply Qeq_bool_iff, H, Qeq_bool_iff in Eb. congruence.
Qed.

Lemma orient_zero (bip : BIP) (src : nat) (v : Q) :
  (orient bip src v == 0)%Q <-> (v == 0)%Q.
Proof.
  unfold orient. destruct (is_GE (sense bip src)); [|reflexivity].
  split; intros H; lra.
Qed.

Lemma map_nth_seq (l : list nat) :
  map (fun i => nth i l O) (seq 0 (List.length l)) = l.
Proof.
  apply (nth_ext _ _ O O).
  - now rewrite length_map, length_seq.
  - intros n Hn. rewrite length_map, length_seq in Hn.
    rewrite (nth_indep _ O (nth O l O)) by (now rewrite length_map, length_seq).
    rewrite (map_nth (fun i => nth i l O)), seq_nth by exact Hn. reflexivity.
Qed.

Lemma sum_over_zero (f : nat -> Z) (l : list nat) :
  (forall r, In r l -> f r = 0) -> sum_over f l = 0.
Proof.
  induction l as [|a l IH]; intros H; [reflexivity|].
  rewrite sum_over_cons, (H a) by now left.
  rewrite IH; [reflexivity|]. intros r Hr. apply H. now right.
Qed.

(** A stored row of integers has as many nonzeros as the input row it
    came from. *)
Lemma preprocess_nonzeros (bip : BIP) (i : nat) :
  (i < Z.to_nat (rows bip))%nat ->
  integral_coefficients bip (nth i (row_order bip) O) ->
  nonzeros_ac (bip_preprocess bip) i
  = nonzeros_ar bip (nth i (row_order bip) O).
Proof.
  intros Hi Hintg. destruct (preprocess_stored bip) as ((_ & Hc & _) & _).
  destruct (preprocess_integral_row bip i Hi Hintg) as [Hac _].
  unfold nonzeros_ac, nonzeros_ar. rewrite Hc.
  apply sum_over_ext_in. intros c Hcin. apply in_seq in Hcin.
  rewrite (Qeq_bool_zero (ac (bip_preprocess bip) c i)
                         (ar bip (nth i (row_order bip) O) c)); [reflexivity|].
  rewrite Hac by lia. apply orient_zero.
Qed.

Lemma preprocess_nonzeros_total (bip : BIP) :
  (forall r, (r < Z.to_nat (rows bip))%nat -> integral_coefficients bip r) ->
  sum_over (nonzeros_ac (bip_preprocess bip)) (seq 0 (Z.to_nat (rows bip)))
  = sum_over (nonzeros_ar bip) (seq 0 (Z.to_nat (rows bip))).
Proof.
  intros Hintg.
  rewrite (sum_over_ext_in _ (fun i => nonzeros_ar bip (nth i (row_order bip) O))).
  - rewrite <- (sum_over_map (nonzeros_ar bip) (fun i => nth i (row_order bip) O)).
    rewrite <- (row_order_length bip) at 1. rewrite map_nth_seq.
    apply sum_over_perm, row_order_perm.
  - intros i Hi. apply in_seq in Hi.
    assert (Hi' : (i < Z.to_nat (rows bip))%nat) by lia.
    apply preprocess_nonzeros; [exact Hi'|].
    apply Hintg. apply (row_order_nth bip i Hi').
Qed.

(** The tests of [bip_is_valid], one by one. *)
Lemma bip_is_valid_intro (b : BIP) :
  (min_coef_val b < max_coef_val b)%Q ->
  0 <= rows b <= BIP_MAX_ROWS -> 0 <= cols b <= BIP_MAX_COLS ->
  (rows b = 0 <-> cols b = 0) ->
  equs b <= rows b ->
  rows_in_bounds b (Z.to_nat (rows b)) ->
  sum_over (nonzeros_ar b) (seq 0 (Z.to_nat (rows b)))
  = sum_over (nonzeros_ac b) (seq 0 (Z.to_nat (rows b))) ->
  bip_is_valid b = true.
Proof.
  intros Hmm Hr Hc Hrc He Hb Hnz. unfold bip_is_valid.
  assert (E1 : Qle_bool (max_coef_val b) (min_coef_val b) = false)
    by (apply Qle_bool_false, Qlt_not_le, Hmm).
  rewrite E1.
  destruct (Z.ltb_spec (rows b) 0); [lia|].
  destruct (Z.ltb_spec BIP_MAX_ROWS (rows b)); [lia|].
  destruct (Z.ltb_spec (cols b) 0); [lia|].
  destruct (Z.ltb_spec BIP_MAX_COLS (cols b)); [lia|].
  cbn [orb].
  destruct (Z.ltb_spec 0 (rows b)); destruct (Z.eqb_spec (cols b) 0);
    destruct (Z.eqb_spec (rows b) 0); destruct (Z.ltb_spec 0 (cols b));
    cbn [andb orb]; try lia.
  all: destruct (Z.ltb_spec (rows b) (equs b)); [lia|].
  all: destruct (valid_rows_shape b (seq 0 (Z.to_nat (rows b))) (0, 0)) as [E|E];
    [exfalso; revert E; apply valid_rows_in_bounds;
     intros r Hin; apply in_seq in Hin; apply Hb; lia|].
  all: rewrite E; cbn [fst snd]; rewrite Hnz, Z.eqb_refl; reflexivity.
Qed.

Lemma bip_is_valid_bounds (b : BIP) :
  bip_is_valid b = true -> (min_coef_val b < max_coef_val b)%Q.
Proof.
  unfold bip_is_valid. intros H.
  destruct (Qle_bool (max_coef_val b) (min_coef_val b)) eqn:E; [discriminate|].
  apply Qle_bool_false in E. apply Qnot_le_lt, E.
Qed.

Section ValidAfterRead.
Variable strtod : string -> strtod_result.

(** X12.  The final assertion of [bip_read]: called on a valid structure
    without rows (as [bip_init] returns it), a call that returns 0 with
    positive counts (no count line held [2^31] or more) has read exactly
    [rows] rows, the assertion [bip->read_rows == bip->rows], with the
    counts within their limits, and when the coefficients it read are
    integers, which the scaling loop leaves as they are, the structure
    passes [bip_is_valid]. *)
Theorem bip_read_result_is_valid (bip : BIP) (errno : Z)
        (file : option (list string)) (b : BIP)
        (calls : list downstream_call) :
  bip_is_valid bip = true -> rows bip = 0 -> read_rows bip = 0 ->
  bip_read strtod bip errno file = Some (0, b, calls) ->
  1 <= cols b -> 1 <= rows b ->
  read_rows b = rows b /\ cols b <= BIP_MAX_COLS /\ rows b <= BIP_MAX_ROWS /\
  ((forall r c, (r < Z.to_nat (rows b))%nat -> (c < Z.to_nat (cols b))%nat ->
                integral (ar b r c)) ->
   bip_is_valid b = true).
Proof.
  intros Hvalid Hrows Hrr Hread Hc1 Hr1.
  destruct (bip_read_success strtod bip errno file b calls Hrows Hrr Hread)
    as (lines & b1 & e1 & _ & _ & -> & _ & Hf & Hc & Hr & Hfull & Hb & _).
  destruct (preprocess_stored b1) as ((Sr & Sc & Sar & Srhs & Ssense) & Se & _).
  destruct (bip_preprocess_frame b1) as (Fmin & Fmax & _ & Frr).
  destruct Hf as (_ & _ & _ & Rmin & Rmax & _).
  pose proof (bip_is_valid_bounds bip Hvalid) as Hmm.
  pose proof (picks_split_length b1 (Z.to_nat (rows b1))) as Hlen.
  fold (eq_rows b1) in Hlen.
  rewrite Sc in Hc1. rewrite Sr in Hr1.
  assert (Hc' : 1 <= cols b1 <= BIP_MAX_COLS)
    by (destruct Hc as [Hc|Hc]; [exact Hc|unfold INT_MIN in Hc; lia]).
  assert (Hr' : 1 <= rows b1 <= BIP_MAX_ROWS)
    by (destruct Hr as [Hr|Hr]; [exact Hr|unfold INT_MIN in Hr; lia]).
  specialize (Hfull Hr1).
  split; [rewrite Frr, Sr; exact Hfull|].
  split; [rewrite Sc; lia|]. split; [rewrite Sr; lia|].
  intros Hintg.
  apply bip_is_valid_intro.
  - rewrite Fmin, Fmax, Rmin, Rmax. exact Hmm.
  - rewrite Sr. lia.
  - rewrite Sc. lia.
  - rewrite Sr, Sc. lia.
  - rewrite Se, Sr. lia.
  - rewrite Sr. intros r Hrlt. destruct (Hb r Hrlt) as [Ha Hrhs].
    rewrite Fmin, Fmax, Sc, Sar, Srhs. split; assumption.
  - rewrite Sr, preprocess_nonzeros_total.
    + apply sum_over_ext_in. intros r _. unfold nonzeros_ar. now rewrite Sc, Sar.
    + intros r Hrlt c Hclt. rewrite <- Sar.
      apply Hintg; [rewrite Sr|rewrite Sc]; assumption.
Qed.

(** X13.  When [bip_read] returns -1 because [bip_can_overflow] found a
    possible overflow, the structure it leaves does not pass
    [bip_is_valid], which [bip_exit] asserts: the rows hold a nonzero
    coefficient, while the column-wise copy [ac], which only
    [bip_preprocess] fills, is still all zero. *)
Theorem overflow_rejection_leaves_invalid_structure (bip : BIP) (errno : Z)
        (file : option (list string)) (b : BIP) :
  (forall c r, (ac bip c r == 0)%Q) ->
  bip_read strtod bip errno file = Some (-1, b, [Call_bip_can_overflow]) ->
  bip_is_valid b = false.
Proof.
  intros Hac Hread. unfold bip_read in Hread.
  destruct file as [lines|]; [|discriminate].
  destruct (read_loop strtod lines READ_COLS bip errno) as [[[mode b1] e1]|] eqn:Hloop;
    [|discriminate].
  pose proof (read_loop_inv strtod bip lines _ _ _ _ _ _ (read_inv_start bip) Hloop)
    as [Hf _].
  assert (Hov : exists e, bip_can_overflow b1 = Some e /\ b = b1).
  { destruct mode; try discriminate;
      destruct ((cols b1 =? 0) || (rows b1 =? 0) || (read_rows b1 <? rows b1))%bool;
      try discriminate;
      (destruct (bip_can_overflow b1) as [e|]; [|discriminate]);
      injection Hread as <-; exists e; split; reflexivity. }
  destruct Hov as (e & Hov & ->). clear Hread.
  pose proof (overflow_rows_spec b1 (Z.to_nat (rows b1)) O) as Hspec.
  unfold bip_can_overflow in Hov. rewrite Hov in Hspec.
  destruct Hspec as (Hrow & (c & Hc & Hreach) & _).
  destruct Hf as (_ & Fac & _).
  unfold bip_is_valid.
  repeat match goal with
         | |- (if ?t then false else _) = false => destruct t; [reflexivity|]
         end.
  destruct (valid_rows_shape b1 (seq 0 (Z.to_nat (rows b1))) (0, 0)) as [E|E];
    rewrite E; [reflexivity|]. cbn [fst snd].
  assert (Hzero : sum_over (nonzeros_ac b1) (seq 0 (Z.to_nat (rows b1))) = 0).
  { apply sum_over_zero. intros r _. unfold nonzeros_ac.
    apply sum_over_zero. intros c' _. rewrite Fac.
    assert (Ez : Qeq_bool (ac bip c' r) 0 = true) by (apply Qeq_bool_iff, Hac).
    rewrite Ez. reflexivity. }
  assert (Hnz : forall r c', 0 <= (if Qeq_bool (ar b1 r c') 0 then 0 else 1))
    by (intros r c'; destruct (Qeq_bool (ar b1 r c') 0); lia).
  assert (Hone : 1 <= sum_over (nonzeros_ar b1) (seq 0 (Z.to_nat (rows b1)))).
  { pose proof (sum_over_pos (nonzeros_ar b1) (seq 0 (Z.to_nat (rows b1)))
                             (error_row e)) as H1.
    assert (Hnn : forall r, 0 <= nonzeros_ar b1 r)
      by (intros r; apply sum_over_nonneg; intros; apply Hnz).
    specialize (H1 (fun r _ => Hnn r) ltac:(apply in_seq; lia)).
    pose proof (sum_over_pos (fun c' => if Qeq_bool (ar b1 (error_row e) c') 0
                                        then 0 else 1)
                             (seq 0 (Z.to_nat (cols b1))) c
                             (fun c' _ => Hnz _ c') ltac:(apply in_seq; lia)) as H2.
    cbv beta in H2. fold (nonzeros_ar b1 (error_row e)) in H2.
    assert (Hne : Qeq_bool (ar b1 (error_row e) c) 0 = false).
    { destruct (Qeq_bool (ar b1 (error_row e) c) 0) eqn:Ez; [|reflexivity].
      apply Qeq_bool_iff in Ez.
      destruct Hreach as [[Hp _]|[Hn _]]; rewrite Ez in *;
        exfalso; revert Hp || revert Hn; apply Qlt_irrefl. }
    rewrite Hne in H2. lia. }
  rewrite Hzero.
  destruct (Z.eqb_spec (0 + sum_over (nonzeros_ar b1) (seq 0 (Z.to_nat (rows b1))))
                       (0 + 0)); [lia|reflexivity].
Qed.

(** X14.  When the input ends after the column count and before a row
    count was read, [bip_read] returns -1 and leaves a structure with a
    column count (between 1 and 32, or [INT_MIN] for a count of [2^31] or
    more) but no rows, which does not pass [bip_is_valid] (asserted by
    [bip_exit]). *)
Theorem eof_after_column_count_leaves_invalid_structure
        (bip : BIP) (errno : Z) (lines : list string) (b : BIP) (e : Z) :
  rows bip = 0 ->
  read_loop strtod lines READ_COLS bip errno = Some (READ_ROWS, b, e) ->
  bip_read strtod bip errno (Some lines) = Some (-1, b, []) /\
  rows b = 0 /\ stored_count (cols b) BIP_MAX_COLS /\
  bip_is_valid b = false.
Proof.
  intros Hrows Hloop.
  pose proof (read_loop_inv strtod bip lines _ _ _ _ _ _ (read_inv_start bip) Hloop)
    as [_ (Hc & Hr & _)].
  rewrite Hrows in Hr.
  split; [|split; [exact Hr|split; [exact Hc|]]].
  - unfold bip_read. rewrite Hloop, Hr. cbn [Z.eqb orb].
    rewrite orb_true_r. reflexivity.
  - unfold bip_is_valid. rewrite Hr.
    destruct (Qle_bool _ _); [reflexivity|].
    destruct (_ || _)%bool; [reflexivity|].
    destruct (Z.ltb_spec (cols b) 0) as [|Hpos]; [reflexivity|]. cbn [orb].
    destruct (BIP_MAX_COLS <? cols b); [reflexivity|].
    destruct (Z.ltb_spec 0 (cols b));
      [|destruct Hc as [Hc|Hc]; [lia|unfold INT_MIN in Hc; lia]].
    cbn [Z.eqb Z.ltb Z.compare andb orb]. reflexivity.
Qed.
End ValidAfterRead.

(** X15.  [bip_init] returns, for every verbosity level, a structure that
    passes [bip_is_valid] and has no rows, no columns and no rows read:
    what [bip_read] needs. *)
Theorem bip_init_is_valid (verb : Z) :
  bip_is_valid (bip_init verb) = true /\
  rows (bip_init verb) = 0 /\ cols (bip_init verb) = 0 /\
  read_rows (bip_init verb) = 0 /\ verb_level (bip_init verb) = verb /\
  (forall c r, ac (bip_init verb) c r = 0%Q).
Proof. repeat split. Qed.

Lemma bip_read_result_is_valid_witness :
  exists b calls,
    bip_read strtod_digits (bip_init 1) 0 (Some file_three_ones)
    = Some (0, b, calls) /\
    bip_is_valid b = true.
Proof.
  eexists. eexists. split; [vm_compute; reflexivity|].
  refine (proj2 (proj2 (proj2
            (bip_read_result_is_valid strtod_digits (bip_init 1) 0
               (Some file_three_ones) _ _ _ _ _ _ _ _))) _).
  - vm_compute. reflexivity.
  - reflexivity.
  - reflexivity.
  - vm_compute. reflexivity.
  - vm_compute. congruence.
  - vm_compute. congruence.
  - intros r c Hr Hc. exists 1.
    change (r < 1)%nat in Hr. change (c < 3)%nat in Hc.
    destruct r as [|r]; [|lia].
    destruct c as [|[|[|c]]]; [reflexivity..|lia].
Defined.

Lemma overflow_rejection_leaves_invalid_structure_witness :
  exists b,
    bip_read strtod_digits (bip_init 1) 0 (Some file_at_bound)
    = Some (-1, b, [Call_bip_can_overflow]) /\
    bip_is_valid b = false.
Proof.
  eexists. split; [vm_compute; reflexivity|].
  refine (overflow_rejection_leaves_invalid_structure
            strtod_digits (bip_init 1) 0 (Some file_at_bound) _ _ _).
  - intros c r. reflexivity.
  - vm_compute. reflexivity.
Defined.

Lemma eof_after_column_count_leaves_invalid_structure_witness :
  exists b,
    bip_read strtod_digits (bip_init 1) 0 (Some file_cols_only)
    = Some (-1, b, []) /\
    bip_is_valid b = false.
Proof.
  eexists. 
  refine ((fun H => conj (proj1 H) (proj2 (proj2 (proj2 H))))
            (eof_after_column_count_leaves_invalid_structure
               strtod_digits (bip_init 1) 0 file_cols_only _ 0 _ _)).
  - reflexivity.
  - vm_compute. reflexivity.
Defined.

(** ** [process_line] line by line, and [bip_read] as a whole *)

Section ReaderLines.
Variable strtod : string -> strtod_result.

(** X16.  A non-blank line in the mode [READ_COLS] (resp. [READ_ROWS]) is
    accepted exactly when it has one field that [strtod] converts
    completely and without range error to an integer that is between 1 and
    32 (resp. 128), or that is [2^31] or more; then [cols] (resp. [rows])
    is set to its cast [(int)val], which is the count itself in the first
    case and [INT_MIN] in the second, and the mode advances.  Otherwise
    the mode is [READ_ERROR] and the structure is untouched. *)
Theorem header_line_accepts_counts_in_range (lfs : list string) (bip : BIP)
        (errno : Z) :
  0 < lfs_fields_used lfs ->
  let sr := strtod (lfs_field lfs 0) in
  let errno' := if sd_erange sr then ERANGE else errno in
  let n := int_of (sd_val sr) in
  let good := fun limit => lfs_fields_used lfs = 1 /\ count_ok errno' sr limit in
  (good BIP_MAX_COLS ->
     process_line strtod READ_COLS lfs bip errno
     = Some (READ_ROWS, set_cols bip n, errno') /\
     stored_count n BIP_MAX_COLS) /\
  (~ good BIP_MAX_COLS ->
     exists e, process_line strtod READ_COLS lfs bip errno
               = Some (READ_ERROR, bip, e)) /\
  (good BIP_MAX_ROWS ->
     process_line strtod READ_ROWS lfs bip errno
     = Some (READ_COEF, set_rows bip n, errno') /\
     stored_count n BIP_MAX_ROWS) /\
  (~ good BIP_MAX_ROWS ->
     exists e, process_line strtod READ_ROWS lfs bip errno
               = Some (READ_ERROR, bip, e)).
Proof.
  intros Hused sr errno' n good. unfold process_line.
  destruct (Z.ltb_spec 0 (lfs_fields_used lfs)) as [_|]; [|lia].
  fold sr. fold errno'. fold n.
  assert (Hgen : forall limit,
             INT_MIN <= limit <= INT_MAX ->
             (good limit -> negb (lfs_fields_used lfs =? 1) = false /\
                            bad_count errno' sr limit = false /\
                            stored_count n limit) /\
             (~ good limit -> negb (lfs_fields_used lfs =? 1) = true \/
                              bad_count errno' sr limit = true)).
  { intros limit Hlim. split.
    - intros [H1 Hok]. split; [rewrite H1; reflexivity|].
      apply (bad_count_false errno' sr limit Hlim) in Hok.
      split; [exact Hok|]. exact (accepted_count_stored _ _ _ Hlim Hok).
    - intros Hbad.
      destruct (Z.eqb_spec (lfs_fields_used lfs) 1) as [E|N]; [|now left].
      right. destruct (bad_count errno' sr limit) eqn:B; [reflexivity|].
      exfalso. apply Hbad. split; [exact E|].
      apply (bad_count_false errno' sr limit Hlim), B. }
  assert (Hcols : INT_MIN <= BIP_MAX_COLS <= INT_MAX)
    by (vm_compute; split; congruence).
  assert (Hrows : INT_MIN <= BIP_MAX_ROWS <= INT_MAX)
    by (vm_compute; split; congruence).
  split; [|split; [|split]].
  - intros Hg. destruct (proj1 (Hgen _ Hcols) Hg) as (-> & -> & Hn).
    split; [reflexivity|exact Hn].
  - intros Hb. destruct (proj2 (Hgen _ Hcols) Hb) as [-> | B]; [eauto|].
    destruct (negb _); [eauto|]. rewrite B. eauto.
  - intros Hg. destruct (proj1 (Hgen _ Hrows) Hg) as (-> & -> & Hn).
    split; [reflexivity|exact Hn].
  - intros Hb. destruct (proj2 (Hgen _ Hrows) Hb) as [-> | B]; [eauto|].
    destruct (negb _); [eauto|]. rewrite B. eauto.
Qed.

(** X17.  An accepted coefficient line fills row [read_rows]: the first
    [cols] fields are its coefficients, field [cols] its sense ([<=],
    [>=], [=] or [==]) and the last field its right-hand side, each
    number within the bounds; [read_rows] is incremented, and no other row
    and neither dimension is changed. *)
Theorem coefficient_line_is_stored (lfs : list string) (bip : BIP) (errno : Z)
        (bip' : BIP) (errno' : Z) :
  0 <= cols bip -> 0 < lfs_fields_used lfs ->
  process_line strtod READ_COEF lfs bip errno = Some (READ_COEF, bip', errno') ->
  let row := Z.to_nat (read_rows bip) in
  let n := Z.to_nat (cols bip) in
  let val := fun c => dval_Q (sd_val (strtod (lfs_field lfs c))) in
  read_rows bip < rows bip /\ lfs_fields_used lfs = cols bip + 2 /\
  read_rows bip' = read_rows bip + 1 /\
  rows bip' = rows bip /\ cols bip' = cols bip /\
  (forall c, (c < n)%nat ->
     ar bip' row c = val c /\
     (min_coef_val bip <= val c <= max_coef_val bip)%Q) /\
  rhs bip' row = val (S n) /\
  (min_coef_val bip <= val (S n) <= max_coef_val bip)%Q /\
  sense_token (lfs_field lfs n) = true /\
  sense bip' row = sense_of_token (lfs_field lfs n) /\
  (forall r, r <> row ->
     (forall c, ar bip' r c = ar bip r c) /\
     rhs bip' r = rhs bip r /\ sense bip' r = sense bip r).
Proof.
  intros Hc Hused Hp row n val. unfold process_line in Hp.
  destruct (Z.ltb_spec 0 (lfs_fields_used lfs)) as [_|]; [|lia].
  destruct (Z.leb_spec (rows bip) (read_rows bip)) as [|Hroom]; [discriminate|].
  destruct (Z.eqb_spec (lfs_fields_used lfs) (cols bip + 2)) as [Hn|];
    cbn [negb] in Hp; [|discriminate].
  pose proof (read_fields_frame strtod lfs (seq 0 (Z.to_nat (cols bip + 2)))
                                bip errno) as Hfr.
  cbv zeta in Hfr.
  destruct (read_fields strtod lfs (seq 0 (Z.to_nat (cols bip + 2))) bip errno)
    as [[ok b1] e1] eqn:Hrun.
  cbn [fst snd] in Hfr.
  destruct Hfr as (R1 & C1 & RR1 & _ & A1 & H1 & S1).
  destruct ok; [|discriminate]. injection Hp as <- <-.
  destruct (read_fields_ok strtod lfs (Z.to_nat (cols bip + 2)) 0 bip errno
                           b1 e1 Hc (Nat.add_0_l _) Hrun)
    as (A & R & Se & B & Tk).
  fold row in A, R, Se, A1, H1, S1. fold n in A, R, Se, B, Tk.
  cbn [set_read_rows read_rows rows cols ar rhs sense].
  cbn [Nat.leb andb] in A, R, Se.
  assert (Hval : forall c, (c < n + 2)%nat -> c <> n ->
                   (min_coef_val bip <= val c <= max_coef_val bip)%Q).
  { intros c Hcn Hne. destruct (B c) as (q & Hq & Hqb); [lia|exact Hne|].
    unfold val. rewrite Hq. exact Hqb. }
  split; [exact Hroom|]. split; [exact Hn|]. split; [lia|].
  split; [exact R1|]. split; [exact C1|].
  split; [|split; [exact R|split; [apply Hval; lia|split; [apply Tk; lia|
           split; [exact Se|]]]]].
  - intros c Hcn. split; [|apply Hval; lia].
    rewrite A. destruct (Nat.ltb_spec c n); [reflexivity|lia].
  - intros r Hr. split; [intros c; apply A1, Hr|].
    split; [apply H1, Hr|apply S1, Hr].
Qed.

(** X18.  [bip_read] always returns, with 0 or -1: the [abort()] of
    [process_line] is never reached.  It calls [bip_preprocess] exactly
    when it returns 0, and then after [bip_can_overflow]. *)
Theorem bip_read_returns_0_or_minus_1 (bip : BIP) (errno : Z)
        (file : option (list string)) :
  exists ret b calls,
    bip_read strtod bip errno file = Some (ret, b, calls) /\
    ((ret = 0 /\ calls = [Call_bip_can_overflow; Call_bip_preprocess]) \/
     (ret = -1 /\ (calls = [] \/ calls = [Call_bip_can_overflow]))).
Proof.
  unfold bip_read. destruct file as [lines|]; [|eauto 10].
  destruct (read_loop_total strtod lines READ_COLS bip errno) as [[[mode b1] e1] ->].
  destruct mode; [eauto 10|..];
    (destruct ((cols b1 =? 0) || (rows b1 =? 0) || (read_rows b1 <? rows b1))%bool;
     [eauto 10|]);
    (destruct (bip_can_overflow b1); eauto 10).
Qed.

(** X19.  Reading and enumerating a file of integers.  When [bip_read],
    called on a structure without rows and with the bounds [-10^15] and
    [10^15] of [bip_init], returns 0 with positive counts (no count line
    held [2^31] or more), and the numbers it read are integers, then the
    enumeration of the structure it leaves, in the rounding arithmetic of
    the program, reports exactly the assignments [x] of the columns under
    which every row that was read holds; and it checks [1 << cols]
    vectors, the number [main] prints. *)
Theorem read_then_enumerate_reports_the_solutions
        (bip : BIP) (errno : Z) (file : option (list string)) (b : BIP)
        (calls : list downstream_call) :
  rows bip = 0 -> read_rows bip = 0 ->
  (min_coef_val bip == - inject_Z (10 ^ 15))%Q ->
  (max_coef_val bip == inject_Z (10 ^ 15))%Q ->
  bip_read strtod bip errno file = Some (0, b, calls) ->
  1 <= cols b -> 1 <= rows b ->
  (forall r, (r < Z.to_nat (rows b))%nat ->
             integral_coefficients b r /\ integral (rhs b r)) ->
  (forall x, In x (reported (bip_enumerate rounded b))
             <-> 0 <= x < 2 ^ cols b /\ satisfies b x) /\
  sol_count (bip_enumerate rounded b)
  = Z.of_nat (List.length (reported (bip_enumerate rounded b))) /\
  Z.of_nat (List.length (visits (bip_enumerate rounded b))) = Z.shiftl 1 (cols b).
Proof.
  intros Hrows Hrr Hmin Hmax Hread Hc1 Hr1 Hintg.
  destruct (bip_read_success strtod bip errno file b calls Hrows Hrr Hread)
    as (lines & b1 & e1 & _ & _ & -> & _ & Hf & Hc & Hr & _ & Hb & Hnone).
  destruct (preprocess_stored b1) as (Hsame & _).
  pose proof Hsame as (Sr & Sc & Sar & Srhs & _).
  rewrite Sc in Hc1. rewrite Sr in Hr1.
  assert (Hc' : 1 <= cols b1 <= 32)
    by (destruct Hc as [Hc|Hc]; [exact Hc|unfold INT_MIN in Hc; lia]).
  assert (Hcols' : 1 <= cols (bip_preprocess b1) <= 32) by (rewrite Sc; exact Hc').
  destruct Hf as (_ & _ & _ & Fmin & Fmax & _).
  assert (Hsmall : small_integers b1).
  { apply guarded_integers_small; try assumption.
    - rewrite Fmin. exact Hmin.
    - rewrite Fmax. exact Hmax.
    - intros r Hrlt. rewrite <- Sr in Hrlt. destruct (Hintg r Hrlt) as [Ha Hh].
      unfold integral_coefficients in *. rewrite Sc, Sar in Ha.
      rewrite Srhs in Hh. split; assumption. }
  split; [|split].
  - intros x. rewrite (satisfies_same_input b1 _ x Hsame), Sc.
    apply reported_rounded_iff; [exact Hc'|lia|exact Hsmall].
  - apply bip_enumerate_books.
  - destruct (bip_enumerate_spec rounded (bip_preprocess b1) Hcols') as [Hv _].
    rewrite <- (length_map fst), Hv, length_map, zrange_length.
    rewrite Z.shiftl_1_l. pose proof (pow2_cols_le _ Hcols'). lia.
Qed.
End ReaderLines.

Lemma coefficient_line_is_stored_witness :
  exists bip',
    process_line strtod_digits READ_COEF ["1"; "0"; "<="; "2"]%string
                 (set_rows (set_cols (bip_init 1) 2) 1) 0
    = Some (READ_COEF, bip', 0) /\
    ar bip' 0 0 = 1%Q /\ rhs bip' 0 = 2%Q /\ sense bip' 0 = LE.
Proof.
  eexists. split; [vm_compute; reflexivity|].
  lazymatch goal with
  | |- ar ?b _ _ = _ /\ _ =>
      destruct (coefficient_line_is_stored
                  strtod_digits ["1"; "0"; "<="; "2"]%string
                  (set_rows (set_cols (bip_init 1) 2) 1) 0 b 0)
        as (_ & _ & _ & _ & _ & A & R & _ & _ & Se & _)
  end.
  - vm_compute. discriminate.
  - vm_compute. reflexivity.
  - vm_compute. reflexivity.
  - split; [exact (proj1 (A O ltac:(vm_compute; lia)))|].
    split; [exact R|exact Se].
Defined.

Lemma header_line_accepts_counts_in_range_witness :
  process_line strtod_digits READ_COLS ["3"]%string (bip_init 1) 0
  = Some (READ_ROWS, set_cols (bip_init 1) 3, 0).
Proof.
  refine (proj1 (proj1 (header_line_accepts_counts_in_range
                          strtod_digits ["3"]%string (bip_init 1) 0 _) _)).
  - vm_compute. reflexivity.
  - split; [reflexivity|]. split; [vm_compute; discriminate|].
    split; [reflexivity|]. exists 3%Q. split; [reflexivity|].
    split; [reflexivity|]. left. vm_compute. split; discriminate.
Defined.

Lemma read_then_enumerate_reports_the_solutions_witness :
  exists b calls,
    bip_read strtod_digits (bip_init 1) 0 (Some file_three_ones)
    = Some (0, b, calls) /\
    Z.of_nat (List.length (visits (bip_enumerate rounded b))) = Z.shiftl 1 (cols b).
Proof.
  eexists. eexists. split; [vm_compute; reflexivity|].
  refine (proj2 (proj2 (read_then_enumerate_reports_the_solutions
                          strtod_digits (bip_init 1) 0 (Some file_three_ones)
                          _ _ _ _ _ _ _ _ _ _))).
  - reflexivity.
  - reflexivity.
  - reflexivity.
  - reflexivity.
  - vm_compute. reflexivity.
  - vm_compute. congruence.
  - vm_compute. congruence.
  - intros r Hr. change (r < 1)%nat in Hr. destruct r as [|r]; [|lia].
    split.
    + intros c Hc. change (c < 3)%nat in Hc. exists 1.
      destruct c as [|[|[|c]]]; [reflexivity..|lia].
    + exists 2. reflexivity.
Defined.

(** ** [lfs_split_line] *)

Lemma chars_app (s t : string) :
  list_ascii_of_string (s ++ t)
  = (list_ascii_of_string s ++ list_ascii_of_string t)%list.
Proof.
  induction s as [|c s IH]; [reflexivity|].
  cbn [String.append list_ascii_of_string app]. now rewrite IH.
Qed.

Lemma append_nonempty (s : string) (c : ascii) :
  (s ++ String c EmptyString)%string <> EmptyString.
Proof. destruct s; discriminate. Qed.

Lemma append_empty_r (s : string) : (s ++ EmptyString)%string = s.
Proof. induction s as [|c s IH]; [reflexivity|]. cbn. now rewrite IH. Qed.

Lemma append_assoc (s t u : string) :
  ((s ++ t) ++ u)%string = (s ++ (t ++ u))%string.
Proof. induction s as [|c s IH]; [reflexivity|]. cbn. now rewrite IH. Qed.

(** Every field of the field loop is not empty and has no white space; its
    characters come from the field under construction or from the line. *)
Lemma split_fields_chars (line : string) :
  forall cur f,
    (forall c, In c (list_ascii_of_string cur) -> isspace c = false) ->
    In f (split_fields line cur) ->
    f <> EmptyString /\
    forall c, In c (list_ascii_of_string f) ->
      isspace c = false /\
      (In c (list_ascii_of_string cur) \/ In c (list_ascii_of_string line)).
Proof.
  induction line as [|a line IH]; intros cur f Hcur Hin.
  - cbn [split_fields] in Hin. destruct cur as [|b cur]; [destruct Hin|].
    destruct Hin as [<-|[]]. split; [discriminate|].
    intros c Hc. split; [apply Hcur, Hc|now left].
  - cbn [split_fields] in Hin. destruct (isspace a) eqn:Ea.
    + assert (Hrest : In f (split_fields line EmptyString) ->
                      f <> EmptyString /\
                      forall c, In c (list_ascii_of_string f) ->
                        isspace c = false /\
                        (In c (list_ascii_of_string cur)
                         \/ In c (list_ascii_of_string (String a line)))).
      { intros H. destruct (IH EmptyString f (fun c (F : In c []) => match F with end) H)
          as [Hne Hch].
        split; [exact Hne|]. intros c Hc. destruct (Hch c Hc) as [Hs [[]|Hl]].
        split; [exact Hs|]. right. now right. }
      destruct cur as [|b cur]; [exact (Hrest Hin)|].
      destruct Hin as [<-|Hin]; [|exact (Hrest Hin)].
      split; [discriminate|]. intros c Hc. split; [apply Hcur, Hc|now left].
    + destruct (IH (cur ++ String a EmptyString)%string f) as [Hne Hch].
      * intros c Hc. rewrite chars_app in Hc. apply in_app_or in Hc.
        destruct Hc as [Hc|[<-|[]]]; [apply Hcur, Hc|exact Ea].
      * exact Hin.
      * split; [exact Hne|]. intros c Hc. destruct (Hch c Hc) as [Hs Hwhere].
        split; [exact Hs|]. rewrite chars_app in Hwhere.
        destruct Hwhere as [Hw|Hw]; [|right; now right].
        apply in_app_or in Hw. destruct Hw as [Hw|[<-|[]]]; [now left|].
        right. now left.
Qed.

Lemma blank_unprintable_chars (line : string) (c : ascii) :
  In c (list_ascii_of_string (blank_unprintable line)) ->
  isprint c = true /\ (c = " "%char \/ In c (list_ascii_of_string line)).
Proof.
  induction line as [|a line IH]; [intros []|].
  cbn [blank_unprintable list_ascii_of_string]. intros [<-|Hin].
  - destruct (isprint a) eqn:Ea.
    + split; [exact Ea|]. right. now left.
    + split; [reflexivity|now left].
  - destruct (IH Hin) as [Hp [Hs|Hl]]; (split; [exact Hp|]);
      [now left|right; now right].
Qed.

Lemma clip_comment_chars (comment line : string) (c : ascii) :
  In c (list_ascii_of_string (clip_comment comment line)) ->
  char_in c comment = false /\ In c (list_ascii_of_string line).
Proof.
  induction line as [|a line IH]; [intros []|].
  cbn [clip_comment]. destruct (char_in a comment) eqn:Ea; [intros []|].
  cbn [list_ascii_of_string]. intros [<-|Hin].
  - split; [exact Ea|now left].
  - destruct (IH Hin) as [Hc Hl]. split; [exact Hc|now right].
Qed.

Lemma lfs_split_line_clean (line comment f : string) :
  In f (lfs_split_line line comment) ->
  clean_field comment f /\
  forall c, In c (list_ascii_of_string f) -> In c (list_ascii_of_string line).
Proof.
  intros Hin. unfold lfs_split_line in Hin.
  destruct (split_fields_chars _ EmptyString f
              (fun c (F : In c []) => match F with end) Hin) as [Hne Hch].
  assert (Hall : forall c, In c (list_ascii_of_string f) ->
                   (isspace c = false /\ isprint c = true
                    /\ char_in c comment = false)
                   /\ In c (list_ascii_of_string line)).
  { intros c Hc. destruct (Hch c Hc) as [Hs [[]|Hb]].
    destruct (blank_unprintable_chars _ _ Hb) as [Hp [->|Hl]];
      [discriminate Hs|].
    destruct (clip_comment_chars _ _ _ Hl) as [Hcm Hline].
    repeat split; assumption. }
  split; [split; [exact Hne|]|]; intros c Hc; apply (Hall c Hc).
Qed.

(** X20.  Every field that [lfs_split_line] delivers is not empty and
    consists of characters of the line that are printable, not white
    space, and not comment characters. *)
Theorem split_line_fields_are_clean (line comment : string) :
  Forall (fun f =>
            f <> EmptyString /\
            forall c, In c (list_ascii_of_string f) ->
              In c (list_ascii_of_string line) /\
              isspace c = false /\ isprint c = true /\
              char_in c comment = false)
         (lfs_split_line line comment).
Proof.
  apply Forall_forall. intros f Hin.
  destruct (lfs_split_line_clean line comment f Hin) as [[Hne Hch] Hline].
  split; [exact Hne|]. intros c Hc. split; [apply Hline, Hc|apply Hch, Hc].
Qed.

Lemma clip_comment_at (comment pre rest : string) (c : ascii) :
  char_in c comment = true ->
  clip_comment comment (pre ++ String c rest) = clip_comment comment pre.
Proof.
  intros Hc. induction pre as [|a pre IH].
  - cbn [String.append clip_comment]. now rewrite Hc.
  - cbn [String.append clip_comment]. destruct (char_in a comment); [reflexivity|].
    now rewrite IH.
Qed.

(** X21.  What follows the first comment character does not matter: a
    line with a comment character [c] after [pre] is split as [pre]
    alone. *)
Theorem split_line_ignores_the_comment (comment pre rest : string) (c : ascii) :
  char_in c comment = true ->
  lfs_split_line (pre ++ String c rest) comment = lfs_split_line pre comment.
Proof.
  intros Hc. unfold lfs_split_line. now rewrite clip_comment_at.
Qed.

Lemma split_line_ignores_the_comment_witness :
  lfs_split_line ("1 2 <= 3" ++ String "#" " the first row") "#"
  = lfs_split_line "1 2 <= 3" "#".
Proof.
  apply (split_line_ignores_the_comment "#" "1 2 <= 3" " the first row" "#"%char).
  reflexivity.
Defined.

Lemma clip_comment_none (comment line : string) :
  (forall c, In c (list_ascii_of_string line) -> char_in c comment = false) ->
  clip_comment comment line = line.
Proof.
  induction line as [|a line IH]; intros H; [reflexivity|].
  cbn [clip_comment]. rewrite (H a) by now left.
  rewrite IH; [reflexivity|]. intros c Hc. apply H. now right.
Qed.

Lemma blank_unprintable_none (line : string) :
  (forall c, In c (list_ascii_of_string line) -> isprint c = true) ->
  blank_unprintable line = line.
Proof.
  induction line as [|a line IH]; intros H; [reflexivity|].
  cbn [blank_unprintable]. rewrite (H a) by now left.
  rewrite IH; [reflexivity|]. intros c Hc. apply H. now right.
Qed.

(** The field loop runs through a stretch without white space. *)
Lemma split_fields_word (f rest cur : string) :
  (forall c, In c (list_ascii_of_string f) -> isspace c = false) ->
  split_fields (f ++ rest) cur = split_fields rest (cur ++ f).
Proof.
  revert cur. induction f as [|a f IH]; intros cur H.
  - cbn [String.append]. now rewrite append_empty_r.
  - cbn [String.append split_fields]. rewrite (H a) by now left.
    rewrite IH by (intros c Hc; apply H; now right).
    rewrite append_assoc. reflexivity.
Qed.

Lemma join_fields_cons (f g : string) (fs : list string) :
  join_fields (f :: g :: fs) = (f ++ String " "%char (join_fields (g :: fs)))%string.
Proof. reflexivity. Qed.

Lemma split_fields_join (fs : list string) :
  (forall f, In f fs -> f <> EmptyString /\
             forall c, In c (list_ascii_of_string f) -> isspace c = false) ->
  split_fields (join_fields fs) EmptyString = fs.
Proof.
  induction fs as [|f fs IH]; intros H; [reflexivity|].
  destruct (H f (or_introl eq_refl)) as [Hne Hsp].
  destruct fs as [|g fs].
  - cbn [join_fields]. rewrite <- (append_empty_r f) at 1.
    rewrite split_fields_word by exact Hsp.
    cbn [String.append split_fields]. destruct f; [contradiction|reflexivity].
  - rewrite join_fields_cons, split_fields_word by exact Hsp.
    cbn [String.append split_fields isspace].
    change (isspace " "%char) with true. cbv iota.
    destruct f as [|a f]; [contradiction|].
    f_equal. apply IH. intros f' Hf'. apply H. now right.
Qed.

Lemma join_fields_chars (fs : list string) (c : ascii) :
  In c (list_ascii_of_string (join_fields fs)) ->
  c = " "%char \/ exists f, In f fs /\ In c (list_ascii_of_string f).
Proof.
  induction fs as [|f fs IH]; [intros []|].
  destruct fs as [|g fs].
  - cbn [join_fields]. intros Hc. right. exists f. split; [now left|exact Hc].
  - rewrite join_fields_cons, chars_app. intros Hc. apply in_app_or in Hc.
    destruct Hc as [Hc|[<-|Hc]].
    + right. exists f. split; [now left|exact Hc].
    + now left.
    + destruct (IH Hc) as [->|(f' & Hf' & Hc')]; [now left|].
      right. exists f'. split; [now right|exact Hc'].
Qed.

(** X22.  Splitting is the inverse of writing fields on a line: when the
    blank is no comment character, the line made of clean fields
    separated by single blanks is split into exactly these fields. *)
Theorem split_line_of_joined_fields (comment : string) (fs : list string) :
  char_in " "%char comment = false ->
  Forall (clean_field comment) fs ->
  lfs_split_line (join_fields fs) comment = fs.
Proof.
  intros Hblank Hclean. rewrite Forall_forall in Hclean.
  unfold lfs_split_line.
  rewrite clip_comment_none, blank_unprintable_none.
  - apply split_fields_join. intros f Hf. destruct (Hclean f Hf) as [Hne Hch].
    split; [exact Hne|]. intros c Hc. apply (Hch c Hc).
  - intros c Hc. destruct (join_fields_chars fs c Hc) as [->|(f & Hf & Hcf)];
      [reflexivity|]. apply (proj2 (Hclean f Hf) c Hcf).
  - intros c Hc. destruct (join_fields_chars fs c Hc) as [->|(f & Hf & Hcf)];
      [exact Hblank|]. apply (proj2 (Hclean f Hf) c Hcf).
Qed.

Lemma split_line_of_joined_fields_witness :
  lfs_split_line (join_fields ["12.5"; "<="; "3"]%string) "#"
  = ["12.5"; "<="; "3"]%string.
Proof.
  apply (split_line_of_joined_fields "#" ["12.5"; "<="; "3"]%string).
  - reflexivity.
  - apply Forall_forall. intros f Hf.
    destruct Hf as [<-|[<-|[<-|[]]]]; (split; [discriminate|]);
      intros c Hc; cbn in Hc;
      repeat (destruct Hc as [<-|Hc]; [repeat split|]); destruct Hc.
Defined.

(** A line without a field: up to the first comment character it holds
    separators only. *)
Lemma split_fields_separators (line : string) :
  (forall c, In c (list_ascii_of_string line) -> isspace c = true) ->
  split_fields line EmptyString = [].
Proof.
  induction line as [|a line IH]; intros H; [reflexivity|].
  cbn [split_fields]. rewrite (H a) by now left.
  apply IH. intros c Hc. apply H. now right.
Qed.

Lemma blank_unprintable_separators (line : string) :
  (forall c, In c (list_ascii_of_string line) -> separator c = true) ->
  forall c, In c (list_ascii_of_string (blank_unprintable line)) ->
            isspace c = true.
Proof.
  induction line as [|a line IH]; intros H c; [intros []|].
  cbn [blank_unprintable list_ascii_of_string]. intros [<-|Hin].
  - pose proof (H a (or_introl eq_refl)) as Ha. unfold separator in Ha.
    destruct (isprint a); [|reflexivity].
    cbn [negb] in Ha. rewrite orb_false_r in Ha. exact Ha.
  - apply IH; [|exact Hin]. intros c' Hc'. apply H. now right.
Qed.

Lemma blank_line_no_fields (line comment : string) :
  (forall c, In c (list_ascii_of_string (clip_comment comment line)) ->
             separator c = true) ->
  lfs_split_line line comment = [].
Proof.
  intros H. unfold lfs_split_line.
  apply split_fields_separators, blank_unprintable_separators, H.
Qed.

Section BlankLines.
Variable strtod : string -> strtod_result.

Lemma process_line_blank (mode : LINE_MODE) (bip : BIP) (errno : Z) :
  process_line strtod mode [] bip errno = Some (mode, bip, errno).
Proof. reflexivity. Qed.

Lemma read_loop_skip (s : string) (rest : list string) (mode : LINE_MODE)
      (bip : BIP) (errno : Z) :
  lfs_split_line s "#" = [] ->
  read_loop strtod (s :: rest) mode bip errno
  = read_loop strtod rest mode bip errno.
Proof.
  intros Hs. destruct mode.
  - now rewrite !read_loop_error.
  - rewrite read_loop_cons by discriminate. now rewrite Hs.
  - rewrite read_loop_cons by discriminate. now rewrite Hs.
  - rewrite read_loop_cons by discriminate. now rewrite Hs.
Qed.

(** X23.  Empty lines and comments are ignored: a line that holds only
    white space or unprintable characters before its first [#] (or its
    end) has no field, and [bip_read] gives the same result with and
    without it, wherever it stands in the file. *)
Theorem bip_read_ignores_blank_lines (bip : BIP) (errno : Z)
        (pre : list string) (s : string) (post : list string) :
  (forall c, In c (list_ascii_of_string (clip_comment "#" s)) ->
             separator c = true) ->
  lfs_split_line s "#" = [] /\
  bip_read strtod bip errno (Some (pre ++ s :: post))
  = bip_read strtod bip errno (Some (pre ++ post)).
Proof.
  intros Hs. pose proof (blank_line_no_fields s "#" Hs) as Hnone.
  split; [exact Hnone|]. unfold bip_read.
  rewrite !read_loop_app.
  destruct (read_loop strtod pre READ_COLS bip errno) as [[[m b] e]|];
    [|reflexivity].
  now rewrite read_loop_skip.
Qed.
End BlankLines.

Example blank_and_comment_lines_have_no_field :
  lfs_split_line "" "#" = [] /\ lfs_split_line "  # only a comment" "#" = [].
Proof. split; reflexivity. Qed.

Lemma bip_read_ignores_blank_lines_witness :
  bip_read strtod_digits (bip_init 1) 0
           (Some (List.app ["3"%string; "1"%string]
                           ("   # the rows follow"%string
                            :: ["1 1 1 <= 2"%string])))
  = bip_read strtod_digits (bip_init 1) 0
             (Some (List.app ["3"%string; "1"%string] ["1 1 1 <= 2"%string])).
Proof.
  refine (proj2 (bip_read_ignores_blank_lines
                   strtod_digits (bip_init 1) 0 ["3"; "1"]%string
                   "   # the rows follow" ["1 1 1 <= 2"]%string _)).
  intros c Hc. cbn in Hc.
  repeat (destruct Hc as [<-|Hc]; [reflexivity|]). destruct Hc.
Defined.

(** ** [report_sol] *)

Lemma bit_text_snoc (x : Z) (cs : list nat) (c : nat) :
  bit_text x (cs ++ [c])
  = (bit_text x cs
     ++ String (if Z.testbit x (Z.of_nat c) then "1"%char else "0"%char) " ")%string.
Proof.
  induction cs as [|d cs IH]; [reflexivity|].
  cbn [app bit_text String.append]. now rewrite IH.
Qed.

(** The printing loop after [n] columns. *)
Lemma report_loop (x : Z) (start : string) (n : nat) :
  (n <= 32)%nat ->
  for_n n (fun (col : nat) (st : Z * string) =>
             let '(bit, out) := st in
             (u32 (bit + bit),
              (out ++ String (if negb (Z.eqb (Z.land x bit) 0)
                              then "1"%char else "0"%char) " ")%string))
        (1, start)
  = (u32 (2 ^ Z.of_nat n), (start ++ bit_text x (seq 0 n))%string).
Proof.
  induction n as [|n IH]; intros Hn.
  - cbn [seq bit_text]. now rewrite append_empty_r.
  - rewrite for_n_S, IH by lia.
    assert (Hp : 2 ^ Z.of_nat n < 2 ^ 32) by (apply Z.pow_lt_mono_r; lia).
    assert (Hp0 : 0 < 2 ^ Z.of_nat n) by (apply Z.pow_pos_nonneg; lia).
    rewrite (u32_small (2 ^ Z.of_nat n)) by lia.
    rewrite land_pow2_test, negb_involutive by lia.
    rewrite seq_S, bit_text_snoc, append_assoc. cbn [Nat.add].
    f_equal. f_equal. rewrite pow2_S. lia.
Qed.

(** X24.  [report_sol] prints nothing below the verbosity level
    [VERB_VERBOSE]; from that level on, and with at most 32 columns, it
    prints one line: the [%8x] text of [x], a colon, and for every
    variable in turn the digit 1 or 0 followed by a blank, variable [c]
    showing bit [c] of [x] (the lowest bit is the first variable). *)
Theorem report_sol_prints_the_bits (printf_8x : Z -> string) {T : Type}
        (bip : binary_program T) (x : Z) :
  0 <= cols bip <= 32 ->
  report_sol printf_8x bip x
  = if verb_level bip <? VERB_VERBOSE then EmptyString
    else (printf_8x x ++ ": " ++ bit_text x (seq 0 (Z.to_nat (cols bip)))
          ++ String (ascii_of_nat 10) EmptyString)%string.
Proof.
  intros Hc. unfold report_sol, bip_verbosity_level, bip_cols.
  destruct (Z.leb_spec VERB_VERBOSE (verb_level bip));
    destruct (Z.ltb_spec (verb_level bip) VERB_VERBOSE); try lia; [|reflexivity].
  rewrite report_loop by lia.
  rewrite !append_assoc. reflexivity.
Qed.

Lemma report_sol_prints_the_bits_witness :
  report_sol (fun _ => "       5"%string) (set_cols (bip_init 2) 3) 5
  = ("       5: 1 0 1 " ++ String (ascii_of_nat 10) EmptyString)%string.
Proof.
  refine (report_sol_prints_the_bits (fun _ => "       5"%string)
                                     (set_cols (bip_init 2) 3) 5 _).
  vm_compute. split; discriminate.
Defined.

(** ** [bip_read] accepts well-formed input *)

Section ReaderAccepts.
Variable strtod : string -> strtod_result.

Lemma number_ok_not_bad (bip : BIP) (errno : Z) (sr : strtod_result) :
  errno <> ERANGE ->
  number_ok sr (min_coef_val bip) (max_coef_val bip) ->
  (if sd_erange sr then ERANGE else errno) = errno /\
  bad_number bip errno sr = false.
Proof.
  intros He (Hr & Hend & q & Hq & Hb). rewrite Hr. split; [reflexivity|].
  apply bad_number_false. split; [exact He|]. split; [exact Hend|].
  exists q. split; assumption.
Qed.

(** The field loop succeeds on the fields of a well-formed row. *)
Lemma read_fields_good (lfs : list string) (len : nat) :
  forall c0 bip errno,
    errno <> ERANGE -> 0 <= cols bip ->
    (c0 + len = Z.to_nat (cols bip + 2))%nat ->
    sense_token (lfs_field lfs (Z.to_nat (cols bip))) = true ->
    (forall c, (c < Z.to_nat (cols bip + 2))%nat -> c <> Z.to_nat (cols bip) ->
       number_ok (strtod (lfs_field lfs c)) (min_coef_val bip) (max_coef_val bip)) ->
    exists bip', read_fields strtod lfs (seq c0 len) bip errno = (true, bip', errno).
Proof.
  induction len as [|len IH]; intros c0 bip errno He Hc Hlen Htok Hnum.
  - exists bip. reflexivity.
  - cbn [seq read_fields].
    destruct (Z.eqb_spec (Z.of_nat c0) (cols bip)) as [Ec|Nc]; cbn [negb].
    + pose proof Htok as Htok'. unfold sense_token in Htok.
      destruct (String.eqb _ "<=") eqn:E1;
        [apply IH; try assumption; cbn [set_sense cols]; lia|].
      destruct (String.eqb _ ">=") eqn:E2;
        [apply IH; try assumption; cbn [set_sense cols]; lia|].
      cbn [orb] in Htok. rewrite Htok.
      apply IH; try assumption; cbn [set_sense cols]; lia.
    + destruct (number_ok_not_bad bip errno (strtod (lfs_field lfs c0)) He)
        as [-> ->]; [apply Hnum; lia|].
      destruct (Z.of_nat c0 <? cols bip);
        apply IH; try assumption; cbn [set_ar set_rhs cols]; lia.
Qed.

(** An accepted row line: the mode stays [READ_COEF], [read_rows] grows
    by one, row [read_rows] holds the converted fields and the other rows
    are unchanged. *)
Lemma process_row_line (s : string) (bip : BIP) (errno : Z) :
  errno <> ERANGE -> 0 <= cols bip -> read_rows bip < rows bip ->
  row_line strtod (cols bip) (min_coef_val bip) (max_coef_val bip) s ->
  exists bip',
    process_line strtod READ_COEF (lfs_split_line s "#") bip errno
    = Some (READ_COEF, bip', errno) /\
    rows bip' = rows bip /\ cols bip' = cols bip /\
    read_rows bip' = read_rows bip + 1 /\
    min_coef_val bip' = min_coef_val bip /\ max_coef_val bip' = max_coef_val bip /\
    row_stored strtod bip' (Z.to_nat (read_rows bip)) (Z.to_nat (cols bip)) s /\
    (forall r, r <> Z.to_nat (read_rows bip) ->
       (forall c, ar bip' r c = ar bip r c) /\
       rhs bip' r = rhs bip r /\ sense bip' r = sense bip r).
Proof.
  intros He Hc Hroom (Hn & Htok & Hnum). cbv zeta in Hn, Htok, Hnum.
  unfold process_line.
  destruct (Z.ltb_spec 0 (lfs_fields_used (lfs_split_line s "#"))); [|lia].
  destruct (Z.leb_spec (rows bip) (read_rows bip)); [lia|].
  rewrite Hn, Z.eqb_refl. cbn [negb].
  destruct (read_fields_good (lfs_split_line s "#") (Z.to_nat (cols bip + 2)) 0
                             bip errno He Hc (Nat.add_0_l _) Htok Hnum)
    as (b1 & Hrun).
  pose proof (read_fields_frame strtod (lfs_split_line s "#")
                                (seq 0 (Z.to_nat (cols bip + 2))) bip errno) as Hfr.
  cbv zeta in Hfr. rewrite Hrun in *. cbn [fst snd] in Hfr.
  destruct Hfr as (R1 & C1 & RR1 & (_ & _ & _ & Fmin & Fmax & _) & A1 & H1 & S1).
  destruct (read_fields_ok strtod (lfs_split_line s "#") (Z.to_nat (cols bip + 2))
                           0 bip errno b1 errno Hc (Nat.add_0_l _) Hrun)
    as (A & R & Se & _ & _).
  cbn [Nat.leb andb] in A, R, Se.
  eexists. split; [reflexivity|].
  cbn [set_read_rows rows cols read_rows min_coef_val max_coef_val ar rhs sense].
  split; [congruence|]. split; [congruence|]. split; [lia|].
  split; [congruence|]. split; [congruence|]. split.
  - unfold row_stored. cbv zeta.
    cbn [set_read_rows rows cols read_rows min_coef_val max_coef_val ar rhs sense].
    split; [|split; [exact R|exact Se]].
    intros c Hcn. rewrite A.
    destruct (Nat.ltb_spec c (Z.to_nat (cols bip))); [reflexivity|lia].
  - intros r Hr. split; [|split; [apply H1, Hr|apply S1, Hr]].
    intros c. apply A1, Hr.
Qed.

Lemma row_stored_ext (b b' : BIP) (r n : nat) (s : string) :
  (forall c, ar b' r c = ar b r c) -> rhs b' r = rhs b r ->
  sense b' r = sense b r ->
  row_stored strtod b r n s -> row_stored strtod b' r n s.
Proof.
  intros Ha Hr Hs (A & R & Se). unfold row_stored. cbv zeta.
  rewrite Hr, Hs. split; [|split; assumption].
  intros c Hc. rewrite Ha. apply A, Hc.
Qed.

Lemma read_row_lines (lines : list string) :
  forall bip errno,
    errno <> ERANGE -> 0 <= cols bip -> 0 <= read_rows bip ->
    rows bip - read_rows bip = Z.of_nat (List.length lines) ->
    Forall (row_line strtod (cols bip) (min_coef_val bip) (max_coef_val bip))
           lines ->
    exists b1,
      read_loop strtod lines READ_COEF bip errno = Some (READ_COEF, b1, errno) /\
      rows b1 = rows bip /\ cols b1 = cols bip /\ read_rows b1 = rows bip /\
      (forall k, (k < List.length lines)%nat ->
         row_stored strtod b1 (Z.to_nat (read_rows bip) + k) (Z.to_nat (cols bip))
                    (nth k lines EmptyString)) /\
      (forall r, (r < Z.to_nat (read_rows bip))%nat ->
         (forall c, ar b1 r c = ar bip r c) /\
         rhs b1 r = rhs bip r /\ sense b1 r = sense bip r).
Proof.
  induction lines as [|s rest IH]; intros bip errno He Hc Hrr Hlen Hall.
  - exists bip. rewrite read_loop_nil. cbn [List.length] in Hlen.
    split; [reflexivity|]. split; [reflexivity|]. split; [reflexivity|].
    split; [lia|]. split; [intros k Hk; cbn [List.length] in Hk; lia|].
    intros r _. repeat split.
  - inversion Hall as [|? ? Hs Hrest]; subst.
    cbn [List.length] in Hlen.
    destruct (process_row_line s bip errno He Hc ltac:(lia) Hs)
      as (b' & Hp & R' & C' & RR' & Fmin & Fmax & Hst & Hoth).
    rewrite read_loop_cons, Hp by discriminate.
    destruct (IH b' errno He ltac:(lia) ltac:(lia) ltac:(lia))
      as (b1 & Hloop & R1 & C1 & RR1 & Hrows & Hkeep).
    + rewrite C', Fmin, Fmax. exact Hrest.
    + exists b1. split; [exact Hloop|].
      split; [congruence|]. split; [congruence|]. split; [congruence|].
      split.
      * intros k Hk. destruct k as [|k].
        -- rewrite Nat.add_0_r. cbn [nth].
           destruct (Hkeep (Z.to_nat (read_rows bip))) as (K1 & K2 & K3);
             [rewrite RR'; lia|].
           exact (row_stored_ext _ _ _ _ _ K1 K2 K3 Hst).
        -- cbn [nth]. cbn [List.length] in Hk.
           specialize (Hrows k ltac:(lia)). rewrite RR', C' in Hrows.
           replace (Z.to_nat (read_rows bip) + S k)%nat
             with (Z.to_nat (read_rows bip + 1) + k)%nat by lia.
           exact Hrows.
      * intros r Hr.
        destruct (Hkeep r) as (K1 & K2 & K3); [rewrite RR'; lia|].
        destruct (Hoth r) as (O1 & O2 & O3); [lia|].
        split; [intros c; rewrite K1; apply O1|]. split; congruence.
Qed.

Lemma count_line_accepted (s : string) (n limit : Z) (errno : Z) :
  errno <> ERANGE -> 1 <= n <= limit -> limit <= INT_MAX ->
  count_line strtod s n ->
  lfs_fields_used (lfs_split_line s "#") = 1 /\
  (if sd_erange (strtod (lfs_field (lfs_split_line s "#") 0))
   then ERANGE else errno) = errno /\
  bad_count errno (strtod (lfs_field (lfs_split_line s "#") 0)) limit = false /\
  int_of (sd_val (strtod (lfs_field (lfs_split_line s "#") 0))) = n.
Proof.
  intros He Hn Hlim (f & Hsplit & Hconv). rewrite Hsplit.
  cbn [lfs_field nth]. rewrite Hconv. cbn [sd_erange sd_val].
  assert (Hfl : Qfloor (inject_Z n) = n) by apply Qfloor_Z.
  split; [reflexivity|]. split; [reflexivity|].
  split; [|apply int_of_integer; unfold INT_MIN; lia].
  apply bad_count_false; [unfold INT_MIN; lia|].
  split; [exact He|]. split; [reflexivity|].
  exists (inject_Z n). split; [reflexivity|]. rewrite Hfl.
  split; [reflexivity|left; exact Hn].
Qed.

(** X25.  A well-formed file is accepted.  When the conversions set no
    range error, the first line holds a column count [n] in 1..32, the
    second a row count [m] in 1..128, and exactly [m] lines follow, each
    with [n] in-bounds numbers, a sense and an in-bounds number, then
    [bip_read] on a structure with no row read reads all [m] rows: row
    [r] of the structure holds the numbers and the sense of the [r]-th of
    these lines.  It goes on to the overflow guard, and returns 0 with the
    preprocessed structure unless the guard reports an overflow. *)
Theorem bip_read_accepts_well_formed_input
        (bip : BIP) (errno : Z) (lc lr : string) (row_lines : list string)
        (n m : Z) :
  errno <> ERANGE -> read_rows bip = 0 ->
  1 <= n <= BIP_MAX_COLS -> count_line strtod lc n ->
  1 <= m <= BIP_MAX_ROWS -> count_line strtod lr m ->
  Z.of_nat (List.length row_lines) = m ->
  Forall (row_line strtod n (min_coef_val bip) (max_coef_val bip)) row_lines ->
  exists b1,
    read_loop strtod (lc :: lr :: row_lines) READ_COLS bip errno
    = Some (READ_COEF, b1, errno) /\
    cols b1 = n /\ rows b1 = m /\ read_rows b1 = m /\
    (forall r, (r < Z.to_nat m)%nat ->
       row_stored strtod b1 r (Z.to_nat n) (nth r row_lines EmptyString)) /\
    bip_read strtod bip errno (Some (lc :: lr :: row_lines))
    = match bip_can_overflow b1 with
      | Some _ => Some (-1, b1, [Call_bip_can_overflow])
      | None => Some (0, bip_preprocess b1,
                      [Call_bip_can_overflow; Call_bip_preprocess])
      end.
Proof.
  intros He Hrr Hn Hlc Hm Hlr Hlen Hall.
  destruct (count_line_accepted lc n BIP_MAX_COLS errno He Hn
                                ltac:(vm_compute; congruence) Hlc)
    as (Uc & Ec & Bc & Ic).
  destruct (count_line_accepted lr m BIP_MAX_ROWS errno He Hm
                                ltac:(vm_compute; congruence) Hlr)
    as (Ur & Er & Br & Ir).
  assert (Hloop2 : read_loop strtod (lc :: lr :: row_lines) READ_COLS bip errno
                   = read_loop strtod row_lines READ_COEF
                               (set_rows (set_cols bip n) m) errno).
  { rewrite read_loop_cons by discriminate. unfold process_line at 1.
    rewrite Uc. cbn [Z.ltb Z.compare Z.eqb Pos.eqb negb]. rewrite Ec, Bc, Ic.
    rewrite read_loop_cons by discriminate. unfold process_line at 1.
    rewrite Ur. cbn [Z.ltb Z.compare Z.eqb Pos.eqb negb]. rewrite Er, Br, Ir.
    reflexivity. }
  destruct (read_row_lines row_lines (set_rows (set_cols bip n) m) errno He)
    as (b1 & Hloop & R1 & C1 & RR1 & Hst & _).
  { cbn [set_rows set_cols cols]. lia. }
  { cbn [set_rows set_cols read_rows]. lia. }
  { cbn [set_rows set_cols rows read_rows]. lia. }
  { exact Hall. }
  cbn [set_rows set_cols rows cols read_rows] in R1, C1, RR1, Hst.
  exists b1. rewrite Hloop2, Hloop.
  split; [reflexivity|]. split; [exact C1|]. split; [exact R1|].
  split; [exact RR1|].
  split.
  { intros r Hr. specialize (Hst r ltac:(lia)). rewrite Hrr in Hst.
    exact Hst. }
  unfold bip_read. rewrite Hloop2, Hloop, C1, R1, RR1.
  unfold BIP_MAX_COLS in Hn. unfold BIP_MAX_ROWS in Hm.
  destruct (Z.eqb_spec n 0); [lia|]. destruct (Z.eqb_spec m 0); [lia|].
  destruct (Z.ltb_spec m m); [lia|]. reflexivity.
Qed.
End ReaderAccepts.

Lemma bip_read_accepts_well_formed_input_witness :
  exists b1,
    read_loop strtod_digits file_three_ones READ_COLS (bip_init 1) 0
    = Some (READ_COEF, b1, 0) /\
    cols b1 = 3 /\ rows b1 = 1 /\ read_rows b1 = 1.
Proof.
  destruct (bip_read_accepts_well_formed_input
              strtod_digits (bip_init 1) 0 "3 # columns" "1 # rows"
              ["1 1 1 <= 2"%string] 3 1)
    as (b1 & Hloop & Hc & Hr & Hrr & _ & _).
  - discriminate.
  - reflexivity.
  - vm_compute. split; discriminate.
  - exists "3"%string. split; reflexivity.
  - vm_compute. split; discriminate.
  - exists "1"%string. split; reflexivity.
  - reflexivity.
  - constructor; [|constructor]. split; [reflexivity|]. split; [reflexivity|].
    intros c Hc Hne.
    assert (Hcases : c = 0%nat \/ c = 1%nat \/ c = 2%nat \/ c = 4%nat).
    { change (Z.to_nat (3 + 2)) with 5%nat in Hc.
      change (Z.to_nat 3) with 3%nat in Hne. lia. }
    destruct Hcases as [-> | [-> | [-> | -> ]]];
      (split; [reflexivity|]); (split; [reflexivity|]);
      eexists; (split; [reflexivity|]); vm_compute; split; discriminate.
  - exists b1. repeat split; assumption.
Defined.

(** ** [bip_read]: [errno], and what a failed call leaves *)

Section ReaderErrno.
Variable strtod : string -> strtod_result.

Lemma bad_count_stale (sr : strtod_result) (limit : Z) :
  bad_count ERANGE sr limit = true.
Proof. reflexivity. Qed.

Lemma read_loop_stale (bip : BIP) (lines : list string) :
  forall mode,
    mode = READ_COLS \/ mode = READ_ERROR ->
    exists mode',
      (mode' = READ_COLS \/ mode' = READ_ERROR) /\
      read_loop strtod lines mode bip ERANGE = Some (mode', bip, ERANGE).
Proof.
  induction lines as [|s rest IH]; intros mode Hm.
  - exists mode. rewrite read_loop_nil. split; [exact Hm|reflexivity].
  - destruct Hm as [->| ->].
    + rewrite read_loop_cons by discriminate. unfold process_line.
      destruct (0 <? lfs_fields_used (lfs_split_line s "#")).
      * destruct (negb (lfs_fields_used (lfs_split_line s "#") =? 1));
          [apply IH; now right|].
        destruct (sd_erange (strtod (lfs_field (lfs_split_line s "#") 0)));
          rewrite bad_count_stale; apply IH; now right.
      * apply IH. now left.
    + exists READ_ERROR. rewrite read_loop_error. split; [now right|reflexivity].
Qed.

(** X26.  [bip_read] relies on [errno] being clear when it is called: it
    compares [errno] with [ERANGE] after every [strtod] and never resets
    it.  Called with [errno == ERANGE] on a structure without rows, it
    returns -1 for every file, and leaves the structure as it was. *)
Theorem stale_errno_rejects_every_file (bip : BIP)
        (file : option (list string)) :
  rows bip = 0 ->
  bip_read strtod bip ERANGE file = Some (-1, bip, []).
Proof.
  intros Hrows. unfold bip_read. destruct file as [lines|]; [|reflexivity].
  destruct (read_loop_stale bip lines READ_COLS (or_introl eq_refl))
    as (mode & Hm & ->).
  destruct Hm as [->| ->]; [|reflexivity].
  rewrite Hrows. cbn [Z.eqb orb]. rewrite orb_true_r. reflexivity.
Qed.

(** X27.  A call of [bip_read] that returns -1 has written nothing but
    the part of the structure that holds the input: [equs], the
    column-wise copy [ac] with [rhs_ord], the two bounds and the verbosity
    level are as before the call. *)
Theorem failed_read_keeps_the_preprocessed_part
        (bip : BIP) (errno : Z) (file : option (list string)) (b : BIP)
        (calls : list downstream_call) :
  bip_read strtod bip errno file = Some (-1, b, calls) ->
  equs b = equs bip /\ ac b = ac bip /\ rhs_ord b = rhs_ord bip /\
  min_coef_val b = min_coef_val bip /\ max_coef_val b = max_coef_val bip /\
  verb_level b = verb_level bip.
Proof.
  intros Hread. change (reader_frame bip b). unfold bip_read in Hread.
  destruct file as [lines|].
  2:{ injection Hread as <- <-. apply reader_frame_refl. }
  destruct (read_loop strtod lines READ_COLS bip errno) as [[[mode b1] e1]|] eqn:Hloop;
    [|discriminate].
  pose proof (read_loop_inv strtod bip lines _ _ _ _ _ _ (read_inv_start bip) Hloop)
    as [Hf _].
  assert (Hb : b = b1).
  { destruct mode; [congruence|..];
      (destruct ((cols b1 =? 0) || (rows b1 =? 0) || (read_rows b1 <? rows b1))%bool;
       [congruence|]);
      (destruct (bip_can_overflow b1); [congruence|discriminate]). }
  rewrite Hb. exact Hf.
Qed.
End ReaderErrno.

Lemma stale_errno_rejects_every_file_witness :
  bip_read strtod_digits (bip_init 1) ERANGE (Some file_three_ones)
  = Some (-1, bip_init 1, []).
Proof.
  apply (stale_errno_rejects_every_file strtod_digits (bip_init 1)
                                        (Some file_three_ones)).
  reflexivity.
Defined.

Lemma failed_read_keeps_the_preprocessed_part_witness :
  exists b,
    bip_read strtod_digits (bip_init 1) 0 (Some file_cols_only)
    = Some (-1, b, []) /\
    equs b = equs (bip_init 1) /\ ac b = ac (bip_init 1).
Proof.
  eexists. split; [vm_compute; reflexivity|].
  refine ((fun H => conj (proj1 H) (proj1 (proj2 H)))
            (failed_read_keeps_the_preprocessed_part
               strtod_digits (bip_init 1) 0 (Some file_cols_only) _ [] _)).
  vm_compute. reflexivity.
Defined.

(** ** The writes stay inside the arrays *)

(** [bip_preprocess] writes the first [rows] cells of the first [cols]
    columns of [ac], and the first [rows] cells of [rhs_ord]. *)
Lemma preprocess_outside (bip : BIP) :
  (forall c i, (Z.to_nat (cols bip) <= c)%nat \/ (Z.to_nat (rows bip) <= i)%nat ->
               ac (bip_preprocess bip) c i = ac bip c i) /\
  (forall i, (Z.to_nat (rows bip) <= i)%nat ->
             rhs_ord (bip_preprocess bip) i = rhs_ord bip i).
Proof.
  unfold bip_preprocess.
  destruct (sel_loop_spec is_EQ true (set_equs bip 0) O (Z.to_nat (rows bip)))
    as (b1 & c1 & R1 & S1 & C1 & _ & A1 & H1).
  rewrite copy_equations_sel. cbn [fst set_equs rows]. rewrite R1.
  destruct S1 as (Srows1 & Scols1 & _ & _ & Ssense1).
  cbn [set_equs rows cols sense ac rhs_ord] in *.
  destruct (sel_loop_spec is_ineq false b1 c1 (Z.to_nat (rows bip)))
    as (b2 & c2 & R2 & S2 & C2 & _ & A2 & H2).
  rewrite copy_rest_sel. cbn [fst]. rewrite Srows1, R2. cbn [fst].
  destruct S2 as (Srows2 & Scols2 & _).
  assert (P2 : picks is_ineq b1 (Z.to_nat (rows bip))
               = picks is_ineq bip (Z.to_nat (rows bip)))
    by (unfold picks; now rewrite Ssense1).
  assert (P1 : picks is_EQ (set_equs bip 0) (Z.to_nat (rows bip))
               = picks is_EQ bip (Z.to_nat (rows bip))) by reflexivity.
  pose proof (picks_split_length bip (Z.to_nat (rows bip))) as Hlen.
  rewrite P1 in C1. rewrite P2 in C2.
  pose proof (scale_loop_spec b2 (Z.to_nat (rows b2))) as S3. cbv zeta in S3.
  change (for_n (Z.to_nat (rows b2)) _ b2) with (scale_rows b2) in S3.
  destruct S3 as (_ & _ & A3 & H3).
  rewrite Srows2, Srows1 in A3, H3. rewrite Scols2, Scols1 in A3.
  split.
  - intros c i Hout. rewrite A3.
    assert (E3 : ((i <? Z.to_nat (rows bip))%nat
                  && (c <? Z.to_nat (cols bip))%nat)%bool = false).
    { destruct (Nat.ltb_spec i (Z.to_nat (rows bip)));
        destruct (Nat.ltb_spec c (Z.to_nat (cols bip))); try reflexivity; lia. }
    rewrite E3, A2, Scols1.
    assert (E2 : ((c1 <=? i)%nat && (i <? c2)%nat
                  && (c <? Z.to_nat (cols bip))%nat)%bool = false).
    { destruct (Nat.leb_spec c1 i); destruct (Nat.ltb_spec i c2);
        destruct (Nat.ltb_spec c (Z.to_nat (cols bip))); try reflexivity; lia. }
    rewrite E2, A1.
    assert (E1 : ((0 <=? i)%nat && (i <? c1)%nat
                  && (c <? Z.to_nat (cols bip))%nat)%bool = false).
    { destruct (Nat.ltb_spec i c1);
        destruct (Nat.ltb_spec c (Z.to_nat (cols bip)));
        rewrite ?andb_false_r; try reflexivity; lia. }
    rewrite E1. reflexivity.
  - intros i Hout. rewrite H3.
    destruct (Nat.ltb_spec i (Z.to_nat (rows bip))); [lia|].
    rewrite H2.
    assert (E2 : ((c1 <=? i)%nat && (i <? c2)%nat)%bool = false).
    { destruct (Nat.leb_spec c1 i); destruct (Nat.ltb_spec i c2);
        try reflexivity; lia. }
    rewrite E2, H1.
    assert (E1 : ((0 <=? i)%nat && (i <? c1)%nat)%bool = false).
    { destruct (Nat.ltb_spec i c1); rewrite ?andb_false_r; try reflexivity; lia. }
    rewrite E1. reflexivity.
Qed.

(** X28.  [bip_preprocess] respects the dimensions: it writes nothing of
    [ac] beyond the first [cols] columns or the first [rows] cells of a
    column, and nothing of [rhs_ord] beyond its first [rows] cells; so with
    [cols <= 32] and [rows <= 128] every write is inside the arrays. *)
Theorem preprocess_writes_inside_the_arrays (bip : BIP) :
  cols bip <= BIP_MAX_COLS -> rows bip <= BIP_MAX_ROWS ->
  (forall c i, (Z.to_nat (cols bip) <= c)%nat \/ (Z.to_nat (rows bip) <= i)%nat ->
               ac (bip_preprocess bip) c i = ac bip c i) /\
  (forall i, (Z.to_nat (rows bip) <= i)%nat ->
             rhs_ord (bip_preprocess bip) i = rhs_ord bip i) /\
  stored_outside_kept bip (bip_preprocess bip).
Proof.
  intros Hc Hr. destruct (preprocess_outside bip) as [Hac Hrhs].
  split; [exact Hac|]. split; [exact Hrhs|]. split.
  - intros c i Hout. apply Hac. lia.
  - intros i Hout. apply Hrhs. lia.
Qed.

Lemma preprocess_writes_inside_the_arrays_witness :
  stored_outside_kept model_ge_le (bip_preprocess model_ge_le).
Proof.
  refine (proj2 (proj2 (preprocess_writes_inside_the_arrays model_ge_le _ _))).
  - vm_compute. discriminate.
  - vm_compute. discriminate.
Defined.

Lemma preprocess_kept (bip b1 : BIP) :
  input_outside_kept bip b1 -> stored_outside_kept bip b1 ->
  cols b1 <= BIP_MAX_COLS -> rows b1 <= BIP_MAX_ROWS ->
  input_outside_kept bip (bip_preprocess b1)
  /\ stored_outside_kept bip (bip_preprocess b1).
Proof.
  intros [Ha Hrs] [Hac Hro] Hc Hr.
  destruct (preprocess_stored b1) as ((_ & _ & Sa & Sr & Ss) & _).
  destruct (preprocess_outside b1) as [Pac Pro].
  split; split.
  - intros r c Hout. rewrite Sa. apply Ha, Hout.
  - intros r Hout. rewrite Sr, Ss. apply Hrs, Hout.
  - intros c i Hout. rewrite Pac by lia. apply Hac, Hout.
  - intros i Hout. rewrite Pro by lia. apply Hro, Hout.
Qed.

Section ReaderInside.
Variable strtod : string -> strtod_result.

(** The field loop writes [ar] only in the columns below [cols]. *)
Lemma read_fields_cols_frame (lfs : list string) (cs : list nat) :
  forall bip errno r c,
    (Z.to_nat (cols bip) <= c)%nat -> 0 <= cols bip ->
    ar (snd (fst (read_fields strtod lfs cs bip errno))) r c = ar bip r c.
Proof.
  induction cs as [|col cs IH]; intros bip errno r c Hc H0; [reflexivity|].
  cbn [read_fields].
  destruct (negb (Z.of_nat col =? cols bip)).
  - destruct (bad_number bip _ _); [reflexivity|].
    destruct (Z.ltb_spec (Z.of_nat col) (cols bip)).
    + rewrite IH by (cbn [set_ar cols]; assumption).
      cbn [set_ar ar]. unfold upd2.
      destruct (Nat.eqb_spec c col); [lia|]. now rewrite andb_false_r.
    + rewrite IH by (cbn [set_rhs cols]; assumption). reflexivity.
  - destruct (String.eqb _ "<=");
      [rewrite IH by (cbn [set_sense cols]; assumption); reflexivity|].
    destruct (String.eqb _ ">=");
      [rewrite IH by (cbn [set_sense cols]; assumption); reflexivity|].
    destruct (String.eqb _ "=" || String.eqb _ "==")%bool;
      [rewrite IH by (cbn [set_sense cols]; assumption); reflexivity|].
    reflexivity.
Qed.

Lemma input_outside_kept_refl (b : BIP) : input_outside_kept b b.
Proof. split; intros; repeat split. Qed.

Lemma process_line_inside (bip0 : BIP) (mode : LINE_MODE) (lfs : list string)
      (bip : BIP) (errno : Z) (mode' : LINE_MODE) (bip' : BIP) (errno' : Z) :
  0 <= read_rows bip0 ->
  read_inv bip0 mode bip -> input_outside_kept bip0 bip ->
  process_line strtod mode lfs bip errno = Some (mode', bip', errno') ->
  input_outside_kept bip0 bip'.
Proof.
  intros Hrr0 [_ Hm] Hin Hp. unfold process_line in Hp.
  destruct (Z.ltb_spec 0 (lfs_fields_used lfs)) as [Hused|_].
  2:{ injection Hp as <- <- <-. exact Hin. }
  destruct mode.
  - discriminate.
  - destruct (negb (lfs_fields_used lfs =? 1));
      [injection Hp as <- <- <-; exact Hin|].
    destruct (bad_count _ _ BIP_MAX_COLS); injection Hp as <- <- <-; exact Hin.
  - destruct (negb (lfs_fields_used lfs =? 1));
      [injection Hp as <- <- <-; exact Hin|].
    destruct (bad_count _ _ BIP_MAX_ROWS); injection Hp as <- <- <-; exact Hin.
  - destruct (Z.leb_spec (rows bip) (read_rows bip)) as [|Hroom];
      [injection Hp as <- <- <-; exact Hin|].
    destruct (Z.eqb_spec (lfs_fields_used lfs) (cols bip + 2)) as [Hnf|_];
      cbn [negb] in Hp; [|injection Hp as <- <- <-; exact Hin].
    destruct Hm as (Hc & Hrows & Hrr & _).
    assert (Hc' : 0 <= cols bip <= BIP_MAX_COLS)
      by (destruct Hc as [Hc|Hc]; unfold INT_MIN in *; lia).
    assert (Hr' : rows bip <= BIP_MAX_ROWS)
      by (destruct Hrows as [Hr|Hr]; unfold INT_MIN in *; lia).
    pose proof (read_fields_frame strtod lfs (seq 0 (Z.to_nat (cols bip + 2)))
                                  bip errno) as Hfr.
    pose proof (read_fields_cols_frame lfs (seq 0 (Z.to_nat (cols bip + 2)))
                                       bip errno) as Hcf.
    cbv zeta in Hfr.
    destruct (read_fields strtod lfs (seq 0 (Z.to_nat (cols bip + 2))) bip errno)
      as [[ok b1] e1].
    cbn [fst snd] in Hfr, Hcf.
    destruct Hfr as (_ & _ & _ & _ & A1 & H1 & S1).
    assert (Hb1 : input_outside_kept bip0 b1).
    { destruct Hin as [Ha Hrs].
      unfold input_outside_kept, BIP_MAX_COLS, BIP_MAX_ROWS in *. split.
      - intros r c [Hr|Hcc].
        + rewrite A1 by lia. apply Ha. now left.
        + rewrite Hcf by lia. apply Ha. now right.
      - intros r Hr. rewrite H1, S1 by lia. apply Hrs, Hr. }
    destruct ok; injection Hp as <- <- <-; exact Hb1.
Qed.

Lemma read_loop_inside (bip0 : BIP) (lines : list string) :
  0 <= read_rows bip0 ->
  forall mode bip errno mode' bip' errno',
    read_inv bip0 mode bip -> input_outside_kept bip0 bip ->
    read_loop strtod lines mode bip errno = Some (mode', bip', errno') ->
    input_outside_kept bip0 bip'.
Proof.
  intros Hrr0.
  induction lines as [|s rest IH];
    intros mode bip errno mode' bip' errno' Hinv Hin Hrun.
  - rewrite read_loop_nil in Hrun. injection Hrun as <- <- <-. exact Hin.
  - assert (Hcase : mode = READ_ERROR \/ mode <> READ_ERROR)
      by (destruct mode; [now left|right; discriminate..]).
    destruct Hcase as [->|Hne].
    + rewrite read_loop_error in Hrun. injection Hrun as <- <- <-. exact Hin.
    + rewrite read_loop_cons in Hrun by exact Hne.
      destruct (process_line strtod mode (lfs_split_line s "#") bip errno)
        as [[[m b] e]|] eqn:Hp; [|discriminate].
      apply (IH m b e mode' bip' errno'); [| |exact Hrun].
      * exact (process_line_inv strtod bip0 _ _ _ _ _ _ _ Hinv Hp).
      * exact (process_line_inside bip0 _ _ _ _ _ _ _ Hrr0 Hinv Hin Hp).
Qed.

(** X29.  [bip_read] writes inside the arrays.  Called on a structure
    with [rows <= 128], [cols <= 32] and [read_rows >= 0], whatever the
    file holds and whatever it returns, the structure it leaves agrees
    with the one it was given in every cell of [ar], [rhs], [sense], [ac]
    and [rhs_ord] with a row index of 128 or more or a column index of 32
    or more. *)
Theorem bip_read_writes_inside_the_arrays
        (bip : BIP) (errno : Z) (file : option (list string)) (ret : Z)
        (b : BIP) (calls : list downstream_call) :
  rows bip <= BIP_MAX_ROWS -> cols bip <= BIP_MAX_COLS -> 0 <= read_rows bip ->
  bip_read strtod bip errno file = Some (ret, b, calls) ->
  input_outside_kept bip b /\ stored_outside_kept bip b.
Proof.
  intros Hrows Hcols Hrr Hread. unfold bip_read in Hread.
  destruct file as [lines|].
  2:{ injection Hread as <- <- <-.
      split; [apply input_outside_kept_refl|split; intros; reflexivity]. }
  destruct (read_loop strtod lines READ_COLS bip errno) as [[[mode b1] e1]|] eqn:Hloop;
    [|discriminate].
  pose proof (read_loop_inv strtod bip lines _ _ _ _ _ _ (read_inv_start bip) Hloop)
    as [Hf Hm].
  pose proof (read_loop_inside bip lines Hrr _ _ _ _ _ _ (read_inv_start bip)
                               (input_outside_kept_refl bip) Hloop) as Hin.
  destruct Hf as (_ & Fac & Frhs & _).
  assert (Hkeep : input_outside_kept bip b1 /\ stored_outside_kept bip b1).
  { split; [exact Hin|]. split; intros; [rewrite Fac|rewrite Frhs]; reflexivity. }
  assert (Hgo : mode <> READ_ERROR ->
                input_outside_kept bip (bip_preprocess b1)
                /\ stored_outside_kept bip (bip_preprocess b1)).
  { assert (Hle : forall n limit, 0 <= limit -> stored_count n limit ->
                                  n <= limit)
      by (intros n limit H0 [H|H]; unfold INT_MIN in *; lia).
    intros Hne. apply preprocess_kept; try apply Hkeep.
    - destruct mode; [contradiction| | |].
      + subst b1. exact Hcols.
      + apply Hle; [discriminate|apply Hm].
      + apply Hle; [discriminate|apply Hm].
    - destruct mode; [contradiction| | |].
      + subst b1. exact Hrows.
      + destruct Hm as (_ & -> & _). exact Hrows.
      + apply Hle; [discriminate|apply Hm]. }
  destruct mode; [injection Hread as <- <- <-; exact Hkeep|..];
    (destruct ((cols b1 =? 0) || (rows b1 =? 0) || (read_rows b1 <? rows b1))%bool;
     [injection Hread as <- <- <-; exact Hkeep|]);
    (destruct (bip_can_overflow b1); [injection Hread as <- <- <-; exact Hkeep|]);
    injection Hread as <- <- <-; apply Hgo; discriminate.
Qed.
End ReaderInside.

Lemma bip_read_writes_inside_the_arrays_witness :
  exists b calls,
    bip_read strtod_digits (bip_init 1) 0 (Some file_three_ones)
    = Some (0, b, calls) /\
    input_outside_kept (bip_init 1) b /\ stored_outside_kept (bip_init 1) b.
Proof.
  eexists. eexists. split; [vm_compute; reflexivity|].
  refine (bip_read_writes_inside_the_arrays
            strtod_digits (bip_init 1) 0 (Some file_three_ones) 0 _ _ _ _ _ _).
  - vm_compute. discriminate.
  - vm_compute. discriminate.
  - vm_compute. discriminate.
  - vm_compute. reflexivity.
Defined.
